(** * LEnKFOcean: localized ensemble Kalman filter of GPU Ocean

    A shallow embedding of [gpuocean/dataassimilation/LEnKFOcean.py],
    with the resampling schemes of
    [gpuocean/dataassimilation/DataAssimilationUtils.py] and the drifter
    collection of [gpuocean/drifters/MLDrifterCollection.py].

    Conventions of the embedding:
    - numpy [float64] values are idealised as real numbers ([R]);
    - one- and two-dimensional numpy arrays are lists and lists of rows;
    - a Python exception is the outcome [Raise e]; a loop that would run
      for ever is the outcome [Diverge] (loops carry a fuel argument);
    - the ensemble object handed to the filter is a record of what the
      filter reads from it. *)

From Stdlib Require Import String DecimalString.
From Stdlib Require Import Reals Lra Lia List Bool Arith ZArith.
From Stdlib Require Import Permutation.
Import ListNotations.
Open Scope R_scope.

(* ================================================================= *)
(** * Outcomes of Python code *)

Inductive exn : Type :=
| AssertionError (msg : string)
| ValueError
| IndexError
| ZeroDivisionError
| LinAlgError
| AttributeError
| TypeError
| OverflowError
| UnboundLocalError.

Inductive outcome (A : Type) : Type :=
| Ok (a : A)
| Raise (e : exn)
| Diverge.

Arguments Ok {A} a.
Arguments Raise {A} e.
Arguments Diverge {A}.

Definition bind {A B : Type} (m : outcome A) (k : A -> outcome B) : outcome B :=
  match m with
  | Ok a => k a
  | Raise e => Raise e
  | Diverge => Diverge
  end.

Notation "x <- m ;; k" := (bind m (fun x => k))
  (at level 61, m at next level, right associativity).

(* ================================================================= *)
(** * numpy primitives *)

(** [np.linalg.norm] of a vector with two components. *)
Definition norm2 (v : R * R) : R := sqrt (fst v ^ 2 + snd v ^ 2).

Definition vsub (a b : R * R) : R * R := (fst a - fst b, snd a - snd b).
Definition vabs (a : R * R) : R * R := (Rabs (fst a), Rabs (snd a)).

(** [a.min()]: the least entry; a [ValueError] on an array without entries. *)
Definition array_min (l : list R) : outcome R :=
  match l with
  | [] => Raise ValueError
  | x :: t => Ok (fold_left Rmin t x)
  end.

Definition Reqb (a b : R) : bool := if Req_dec_T a b then true else false.

(** [np.where] on a two-dimensional boolean array: the (row, column)
    positions of its true entries, in row-major order. *)
Definition where_row (i : nat) (row : list bool) : list (nat * nat) :=
  map (fun j => (i, j)) (filter (fun j => nth j row false) (seq 0 (length row))).

Definition np_where2 (b : list (list bool)) : list (nat * nat) :=
  concat (map (fun ir => where_row (fst ir) (snd ir)) (combine (seq 0 (length b)) b)).

(** [l[n] = x] on a Python list. *)
Fixpoint list_set {A : Type} (l : list A) (n : nat) (x : A) : list A :=
  match l, n with
  | [], _ => []
  | _ :: t, O => x :: t
  | h :: t, S n' => h :: list_set t n' x
  end.

(** [l[n]], an [IndexError] out of range. *)
Definition getitem {A : Type} (l : list A) (n : nat) : outcome A :=
  match nth_error l n with
  | Some a => Ok a
  | None => Raise IndexError
  end.

(* ================================================================= *)
(** * The Gaspari-Cohn kernel: [LEnKFOcean.distGC] *)

(** The two polynomial branches, in the normalised distance [z = dist/r]. *)
Definition GC_inner (z : R) : R :=
  1 - 5/3 * z^2 + 5/8 * z^3 + 1/2 * z^4 - 1/4 * z^5.

Definition GC_outer (z : R) : R :=
  4 - 5 * z + 5/3 * z^2 + 5/8 * z^3 - 1/2 * z^4 + 1/12 * z^5 - 2 / (3 * z).

(** The scalar case of [distGC], once the distance is known ([dist] is a
    norm, so it is not negative).  With [r = 0] the quotient [dist/r] of
    numpy is nan or inf, with a warning and no exception: neither test
    holds and the value stays [0.0]. *)
Definition distGC_value (dist r : R) : R :=
  if Req_dec_T r 0 then 0
  else if Rlt_dec (dist / r) 1 then GC_inner (dist / r)
  else if Rle_dec 1 (dist / r) then
         if Rlt_dec (dist / r) 2 then GC_outer (dist / r) else 0
       else 0.

(** Distance on the periodic domain as [distGC] takes it: the least of
    four norms. *)
Definition distGC_dist (obs loc : R * R) (lx ly : R) : R :=
  let d := vabs (vsub obs loc) in
  Rmin (norm2 d)
    (Rmin (norm2 (vsub d (lx, 0)))
       (Rmin (norm2 (vsub d (0, ly))) (norm2 (vsub d (lx, ly))))).

(** [distGC(obs, loc, r, lx, ly)] with [loc] a single position. *)
Definition distGC (obs loc : R * R) (r lx ly : R) : R :=
  distGC_value (distGC_dist obs loc lx ly) r.

(** [distGC] with [loc] an array of positions: plain distances, row by row. *)
Definition distGC_rows (obs : R * R) (locs : list (R * R)) (r : R) : list R :=
  map (fun loc => distGC_value (norm2 (vsub obs loc)) r) locs.

(* ================================================================= *)
(** * Two-dimensional numpy arrays

    An array is its shape and its entries; entries outside the shape are
    never read.  One-dimensional arrays are lists.  Where numpy would
    yield [inf] or [nan] (a float division by zero, the root of a negative
    number) it only warns and goes on: the model goes on too, with the
    value that Rocq's total division and root give, and a statement that
    depends on such a value excludes the case by a hypothesis. *)

Record array2 : Type := mkArray2 {
  shape0 : nat;
  shape1 : nat;
  at2 : nat -> nat -> R
}.

Fixpoint sum_n (f : nat -> R) (n : nat) : R :=
  match n with
  | O => 0
  | S k => sum_n f k + f k
  end.

(** Python's [a / b] on scalars. *)
Definition py_div (a b : R) : outcome R :=
  if Req_dec_T b 0 then Raise ZeroDivisionError else Ok (a / b).

Module np.

Definition zeros (n m : nat) : array2 := mkArray2 n m (fun _ _ => 0).

Definition ones (n m : nat) : array2 := mkArray2 n m (fun _ _ => 1).

Definition eye (n : nat) : array2 :=
  mkArray2 n n (fun i j => if Nat.eqb i j then 1 else 0).

Definition diag (v : list R) : array2 :=
  mkArray2 (length v) (length v)
    (fun i j => if Nat.eqb i j then nth i v 0 else 0).

(** [A.T] *)
Definition T (A : array2) : array2 :=
  mkArray2 (shape1 A) (shape0 A) (fun i j => at2 A j i).

(** [c * A] for a scalar [c]. *)
Definition scale (c : R) (A : array2) : array2 :=
  mkArray2 (shape0 A) (shape1 A) (fun i j => c * at2 A i j).

(** [A @ B] *)
Definition matmul (A B : array2) : outcome array2 :=
  if Nat.eqb (shape1 A) (shape0 B)
  then Ok (mkArray2 (shape0 A) (shape1 B)
             (fun i j => sum_n (fun k => at2 A i k * at2 B k j) (shape1 A)))
  else Raise ValueError.

(** [A @ v] for a one-dimensional [v]. *)
Definition matvec (A : array2) (v : list R) : outcome (list R) :=
  if Nat.eqb (shape1 A) (length v)
  then Ok (map (fun i => sum_n (fun k => at2 A i k * nth k v 0) (shape1 A))
             (seq 0 (shape0 A)))
  else Raise ValueError.

(** Broadcasting of one axis: equal lengths, or one of them 1. *)
Definition bdim (a b : nat) : outcome nat :=
  if Nat.eqb a b then Ok a
  else if Nat.eqb a 1 then Ok b
  else if Nat.eqb b 1 then Ok a
  else Raise ValueError.

Definition bidx (n i : nat) : nat := if Nat.eqb n 1 then O else i.

Definition broadcast (op : R -> R -> R) (A B : array2) : outcome array2 :=
  r <- bdim (shape0 A) (shape0 B) ;;
  c <- bdim (shape1 A) (shape1 B) ;;
  Ok (mkArray2 r c
        (fun i j => op (at2 A (bidx (shape0 A) i) (bidx (shape1 A) j))
                       (at2 B (bidx (shape0 B) i) (bidx (shape1 B) j)))).

Definition add : array2 -> array2 -> outcome array2 := broadcast Rplus.
Definition subtract : array2 -> array2 -> outcome array2 := broadcast Rminus.
Definition multiply : array2 -> array2 -> outcome array2 := broadcast Rmult.

(** A one-dimensional array where a two-dimensional one is expected: a
    single row. *)
Definition row (v : list R) : array2 :=
  mkArray2 1 (length v) (fun _ j => nth j v 0).

(** [v[:, np.newaxis]] *)
Definition column (v : list R) : array2 :=
  mkArray2 (length v) 1 (fun i _ => nth i v 0).

(** Elementwise operations on one-dimensional arrays. *)
Definition broadcast1 (op : R -> R -> R) (u v : list R) : outcome (list R) :=
  n <- bdim (length u) (length v) ;;
  Ok (map (fun i => op (nth (bidx (length u) i) u 0) (nth (bidx (length v) i) v 0))
        (seq 0 n)).

Definition add1 : list R -> list R -> outcome (list R) := broadcast1 Rplus.
Definition subtract1 : list R -> list R -> outcome (list R) := broadcast1 Rminus.

(** [np.outer(u, v)] *)
Definition outer (u v : list R) : array2 :=
  mkArray2 (length u) (length v) (fun i j => nth i u 0 * nth j v 0).

(** [np.trace] *)
Definition trace (A : array2) : R :=
  sum_n (fun i => at2 A i i) (Nat.min (shape0 A) (shape1 A)).

(** [np.average(A, axis=1)] *)
Definition average_axis1 (A : array2) : list R :=
  map (fun i => sum_n (fun j => at2 A i j) (shape1 A) / INR (shape1 A))
    (seq 0 (shape0 A)).

(** [A[:, j]] *)
Definition col (A : array2) (j : nat) : list R :=
  map (fun i => at2 A i j) (seq 0 (shape0 A)).

(** [A[:, mask]] for a boolean [mask]: the columns where it is true. *)
Definition compress_cols (A : array2) (mask : list bool) : outcome array2 :=
  if Nat.eqb (length mask) (shape1 A)
  then
    let keep := filter (fun j => nth j mask false) (seq 0 (length mask)) in
    Ok (mkArray2 (shape0 A) (length keep) (fun i k => at2 A i (nth k keep O)))
  else Raise IndexError.

(** [A[lo:hi, :]] with [lo <= hi] inside the array. *)
Definition rows_slice (A : array2) (lo hi : nat) : array2 :=
  mkArray2 (Nat.min hi (shape0 A) - lo) (shape1 A) (fun i j => at2 A (lo + i) j).

(** [np.random.multivariate_normal(mean=np.zeros(2), cov=R, size=n)]: the
    [n] draws, which the caller of the model supplies. *)
Definition multivariate_normal (draws : nat -> nat -> R) (size : nat) : array2 :=
  mkArray2 size 2 draws.

End np.

Module linalg.

Definition skip (i r : nat) : nat := if Nat.ltb r i then r else S r.

Definition minor (A : nat -> nat -> R) (i j : nat) : nat -> nat -> R :=
  fun r c => A (skip i r) (skip j c).

(** Determinant of the leading [n] x [n] block, by expansion along the
    first row. *)
Fixpoint det (n : nat) (A : nat -> nat -> R) : R :=
  match n with
  | O => 1
  | S k => sum_n (fun j => (-1) ^ j * A O j * det k (minor A O j)) (S k)
  end.

(** [scipy.linalg.inv]: the inverse of a square matrix, a [LinAlgError]
    when it is singular. *)
Definition inv (A : array2) : outcome array2 :=
  if Nat.eqb (shape0 A) (shape1 A) then
    let n := shape0 A in
    let d := det n (at2 A) in
    if Req_dec_T d 0 then Raise LinAlgError
    else Ok (mkArray2 n n
               (fun i j => (-1) ^ (i + j) * det (n - 1) (minor (at2 A) j i) / d))
  else Raise ValueError.

(** [np.linalg.solve(A, B)] *)
Definition solve (A B : array2) : outcome array2 :=
  if Nat.eqb (shape0 A) (shape1 A) then
    if Nat.eqb (shape0 A) (shape0 B) then
      Ainv <- inv A ;;
      np.matmul Ainv B
    else Raise ValueError
  else Raise LinAlgError.

(** What [scipy.linalg.eigh] promises of the eigenvalues [w] and the
    matrix [V] of eigenvectors it returns for a symmetric [M]: [V] is
    orthogonal, its columns are eigenvectors, the eigenvalues ascend. *)
Definition eigh_ok (M : array2) (w : list R) (V : array2) : Prop :=
  let n := shape0 M in
  shape1 M = n /\ length w = n /\ shape0 V = n /\ shape1 V = n /\
  (forall i j, (i < n)%nat -> (j < n)%nat ->
     sum_n (fun k => at2 V k i * at2 V k j) n = if Nat.eqb i j then 1 else 0) /\
  (forall i j, (i < n)%nat -> (j < n)%nat ->
     sum_n (fun k => at2 V i k * at2 V j k) n = if Nat.eqb i j then 1 else 0) /\
  (forall i j, (i < n)%nat -> (j < n)%nat ->
     sum_n (fun k => at2 M i k * at2 V k j) n = nth j w 0 * at2 V i j) /\
  (forall i j, (i <= j)%nat -> (j < n)%nat -> nth i w 0 <= nth j w 0).

End linalg.
(* ================================================================= *)
(** * The ensemble, as the filter reads it *)

Inductive ObservationType : Type :=
| DrifterPosition | UnderlyingFlow | DirectUnderlyingFlow | StaticBuoys.

Definition ObservationType_eqb (a b : ObservationType) : bool :=
  match a, b with
  | DrifterPosition, DrifterPosition
  | UnderlyingFlow, UnderlyingFlow
  | DirectUnderlyingFlow, DirectUnderlyingFlow
  | StaticBuoys, StaticBuoys => true
  | _, _ => false
  end.

Record Particle : Type := mkParticle {
  p_nx : nat;
  p_ny : nat;
  ghost_cells_x : nat;
  ghost_cells_y : nat;
  p_dx : R;
  p_eta : array2;
  p_hu : array2;
  p_hv : array2
}.

Record Ensemble : Type := mkEnsemble {
  particles : list Particle;
  particlesActive : list bool;
  getNumParticles : nat;
  getNumActiveParticles : nat;
  getNumDrifters : nat;
  observation_type : ObservationType;
  ens_dx : R;
  ens_dy : R;
  ens_nx : nat;
  ens_ny : nat;
  getObservationCov : array2;
  observeTrueState : list (list R);
  observeTrueDrifters : list (R * R);
  compensate_for_eta_flag : bool;
  mean_depth : R
}.

Definition getDx (e : Ensemble) : R := ens_dx e.
Definition getDy (e : Ensemble) : R := ens_dy e.
Definition getNx (e : Ensemble) : nat := ens_nx e.
Definition getNy (e : Ensemble) : nat := ens_ny e.

(* ================================================================= *)
(** * Observation groups: [LEnKFOcean.initializeGroups] *)

(** [observeTrueState()[:,0:2]]: the first two columns of every row. *)
Definition first_two (row : list R) : R * R := (nth 0 row 0, nth 1 row 0).

Definition drifter_positions_of (e : Ensemble) : list (R * R) :=
  if ObservationType_eqb (observation_type e) StaticBuoys
  then observeTrueDrifters e
  else map first_two (observeTrueState e).

(** One entry of the distance matrix before its diagonal is overwritten. *)
Definition periodic_dist (xdim ydim : R) (p q : R * R) : R :=
  let dx := Rabs (fst p - fst q) in
  let dx := if Rgt_dec dx (xdim / 2) then xdim - dx else dx in
  let dy := Rabs (snd p - snd q) in
  let dy := if Rgt_dec dy (ydim / 2) then ydim - dy else dy in
  sqrt (dx ^ 2 + dy ^ 2).

Definition heavy_diagonal (xdim ydim : R) : R := sqrt (xdim ^ 2 + ydim ^ 2).

(** [obs_dist_mat] after [np.fill_diagonal]. *)
Definition obs_dist_mat (xdim ydim : R) (pos : list (R * R)) (i j : nat) : R :=
  if Nat.eqb i j then heavy_diagonal xdim ydim
  else periodic_dist xdim ydim (nth i pos (0, 0)) (nth j pos (0, 0)).

(** [obs_dist_mat[np.ix_(G, G)]]. *)
Definition submatrix (M : nat -> nat -> R) (G : list nat) : list (list R) :=
  map (fun i => map (M i) G) G.

Definition group_min (M : nat -> nat -> R) (G : list nat) : outcome R :=
  array_min (concat (submatrix M G)).

(** The body of the inner [while]: the member in the column of the first
    least entry moves from group [g] to group [g+1]. *)
Definition move_step (M : nat -> nat -> R) (g : nat) (groups : list (list nat))
  : outcome (list (list nat)) :=
  G <- getitem groups g ;;
  m <- group_min M G ;;
  let mask := submatrix M G in
  col <- getitem (map snd (np_where2 (map (map (fun v => Reqb v m)) mask))) 0 ;;
  idx2move <- getitem G col ;;
  let G' := filter (fun i => negb (Nat.eqb i idx2move)) G in
  let groups := list_set groups g G' in
  if Nat.ltb (length groups) (g + 2)
  then Ok (groups ++ [[idx2move]])
  else
    H <- getitem groups (g + 1) ;;
    Ok (list_set groups (g + 1) (H ++ [idx2move])).

Fixpoint inner_loop (fuel : nat) (M : nat -> nat -> R) (threshold : R)
  (g : nat) (groups : list (list nat)) : outcome (list (list nat)) :=
  G <- getitem groups g ;;
  m <- group_min M G ;;
  if Rlt_dec m threshold then
    match fuel with
    | O => Diverge
    | S fuel' =>
        groups' <- move_step M g groups ;;
        inner_loop fuel' M threshold g groups'
    end
  else Ok groups.

Fixpoint outer_loop (fuel : nat) (M : nat -> nat -> R) (threshold : R)
  (g : nat) (groups : list (list nat)) : outcome (list (list nat)) :=
  G <- getitem groups g ;;
  m <- group_min M G ;;
  if Rlt_dec m threshold then
    match fuel with
    | O => Diverge
    | S fuel' =>
        groups' <- inner_loop (length G) M threshold g groups ;;
        outer_loop fuel' M threshold (S g) groups'
    end
  else Ok groups.

Definition groups_threshold (r_factor : R) (e : Ensemble) : outcome R :=
  p0 <- getitem (particles e) 0 ;;
  Ok (2 * 1.5 * r_factor * p_dx p0).

(** [initializeGroups]: the positions it stores and the groups it builds.
    Both loops get as much fuel as they can use: the inner one the size of
    the group it empties, the outer one the number of observations. *)
Definition initializeGroups (e : Ensemble) (r_factor : R)
  : outcome (list (R * R) * list (list nat)) :=
  let drifter_positions := drifter_positions_of e in
  let xdim := getDx e * INR (getNx e) in
  let ydim := getDy e * INR (getNy e) in
  let N_y := length drifter_positions in
  let M := obs_dist_mat xdim ydim drifter_positions in
  threshold <- groups_threshold r_factor e ;;
  groups <- outer_loop N_y M threshold 0 [seq 0 N_y] ;;
  Ok (drifter_positions, groups).

(* ================================================================= *)
(** * Rounding, slices and boolean masks *)

(** [np.floor], [np.ceil] and [np.round] (half to even), as integers. *)
Definition floorZ (x : R) : Z := Int_part x.

Definition ceilZ (x : R) : Z := (- Int_part (- x))%Z.

Definition roundZ (x : R) : Z :=
  let f := Int_part x in
  let d := x - IZR f in
  if Rlt_dec d (1/2) then f
  else if Rgt_dec d (1/2) then (f + 1)%Z
  else if Z.even f then f else (f + 1)%Z.

(** A bound of a Python slice, on an axis of length [n]. *)
Definition slice_bound (n : nat) (s : Z) : nat :=
  let s := if (s <? 0)%Z then (s + Z.of_nat n)%Z else s in
  if (s <? 0)%Z then O
  else if (Z.of_nat n <? s)%Z then n
  else Z.to_nat s.

Definition in_slice (n : nat) (r : Z * Z) (i : nat) : bool :=
  Nat.leb (slice_bound n (fst r)) i && Nat.ltb i (slice_bound n (snd r)).

(** An index into an axis of length [n]; negative indices count from the
    end. *)
Definition np_index (n : nat) (i : Z) : outcome nat :=
  if (0 <=? i)%Z && (i <? Z.of_nat n)%Z then Ok (Z.to_nat i)
  else if (- Z.of_nat n <=? i)%Z && (i <? 0)%Z then Ok (Z.to_nat (i + Z.of_nat n))
  else Raise IndexError.

Record mask2 : Type := mkMask2 {
  mshape0 : nat;
  mshape1 : nat;
  mask_at : nat -> nat -> bool
}.

(** The cells of an array of shape (n, m), in row-major order. *)
Definition cells (n m : nat) : list (nat * nat) :=
  flat_map (fun y => map (fun x => (y, x)) (seq 0 m)) (seq 0 n).

(** The cells a boolean mask selects, in the order numpy visits them. *)
Definition true_cells (L : mask2) : list (nat * nat) :=
  filter (fun c => mask_at L (fst c) (snd c)) (cells (mshape0 L) (mshape1 L)).

Definition cell_eqb (a b : nat * nat) : bool :=
  Nat.eqb (fst a) (fst b) && Nat.eqb (snd a) (snd b).

(** Position of a cell in a list of cells. *)
Fixpoint index_of (c : nat * nat) (l : list (nat * nat)) : nat :=
  match l with
  | [] => O
  | h :: t => if cell_eqb h c then O else S (index_of c t)
  end.

(** [np.roll(A, shift, axis=0)] and [np.roll(A, shift, axis=1)]. *)
Definition roll_index (n : nat) (shift : Z) (i : nat) : nat :=
  Z.to_nat ((Z.of_nat i - shift) mod Z.of_nat n).

Definition roll0 (A : array2) (shift : Z) : array2 :=
  mkArray2 (shape0 A) (shape1 A) (fun i j => at2 A (roll_index (shape0 A) shift i) j).

Definition roll1 (A : array2) (shift : Z) : array2 :=
  mkArray2 (shape0 A) (shape1 A) (fun i j => at2 A i (roll_index (shape1 A) shift j)).

(** [A.flatten()] *)
Definition flatten (A : array2) : list R :=
  map (fun c => at2 A (fst c) (snd c)) (cells (shape0 A) (shape1 A)).

(** [A[L] += v]: the k-th selected cell receives [v[k]]; a [v] of length
    one is broadcast. *)
Definition masked_add (A : array2) (L : mask2) (v : list R) : outcome array2 :=
  if negb (Nat.eqb (mshape0 L) (shape0 A) && Nat.eqb (mshape1 L) (shape1 A))
  then Raise IndexError
  else
    let sel := true_cells L in
    if Nat.eqb (length v) (length sel) then
      Ok (mkArray2 (shape0 A) (shape1 A)
            (fun y x => if mask_at L y x
                        then at2 A y x + nth (index_of (y, x) sel) v 0
                        else at2 A y x))
    else if Nat.eqb (length v) 1 then
      Ok (mkArray2 (shape0 A) (shape1 A)
            (fun y x => if mask_at L y x then at2 A y x + nth 0 v 0 else at2 A y x))
    else Raise ValueError.

(* ================================================================= *)
(** * Local patches and weights *)

(** [LEnKFOcean.getLocalIndices] *)
Definition getLocalIndices (obs_loc : R * R) (scale_r dx dy : R) (nx ny : nat)
  : outcome (mask2 * Z * Z) :=
  let boxed_r := dx * IZR (ceilZ (scale_r * 1.5)) in
  if Req_dec_T dx 0 then Raise OverflowError
  else if Req_dec_T dy 0 then Raise OverflowError
  else
    let loc_cell_left := (roundZ (fst obs_loc / dx) - roundZ (boxed_r / dx))%Z in
    let loc_cell_right := (roundZ (fst obs_loc / dx) + roundZ ((boxed_r + dx) / dx))%Z in
    let loc_cell_down := (roundZ (snd obs_loc / dy) - roundZ (boxed_r / dy))%Z in
    let loc_cell_up := (roundZ (snd obs_loc / dy) + roundZ ((boxed_r + dy) / dy))%Z in
    let '(xranges, xroll) :=
      if (loc_cell_left <? 0)%Z then
        ([(Z.of_nat nx + loc_cell_left, Z.of_nat nx); (0, loc_cell_right)], loc_cell_left)%Z
      else if (Z.of_nat nx <? loc_cell_right)%Z then
        ([(0, loc_cell_right - Z.of_nat nx); (loc_cell_left, Z.of_nat nx)],
         loc_cell_right - Z.of_nat nx)%Z
      else ([(loc_cell_left, loc_cell_right)], 0%Z) in
    let '(yranges, yroll) :=
      if (loc_cell_down <? 0)%Z then
        ([(Z.of_nat ny + loc_cell_down, Z.of_nat ny); (0, loc_cell_up)], loc_cell_down)%Z
      else if (Z.of_nat ny <? loc_cell_up)%Z then
        ([(0, loc_cell_up - Z.of_nat ny); (loc_cell_down, Z.of_nat ny)],
         loc_cell_up - Z.of_nat ny)%Z
      else ([(loc_cell_down, loc_cell_up)], 0%Z) in
    let localIndices :=
      mkMask2 ny nx
        (fun y x => existsb (fun xr => existsb (fun yr =>
                      in_slice ny yr y && in_slice nx xr x) yranges) xranges) in
    Ok (localIndices, xroll, yroll).

(** [LEnKFOcean.getLocalWeightShape] *)
Definition getLocalWeightShape (scale_r dx dy : R) (nx ny : nat) (scale_w : R)
  : outcome array2 :=
  let local_nx := (ceilZ (scale_r * 1.5) * 2 + 1)%Z in
  let local_ny := (ceilZ (scale_r * 1.5) * 2 + 1)%Z in
  if (local_ny <? 0)%Z then Raise ValueError
  else
    let obs_loc := (IZR local_nx * dx / 2, IZR local_ny * dy / 2) in
    let weights :=
      mkArray2 (Z.to_nat local_ny) (Z.to_nat local_ny)
        (fun y x =>
           let loc := ((INR x + 0.5) * dx, (INR y + 0.5) * dy) in
           if Rgt_dec (norm2 (vsub obs_loc loc)) (1.5 * scale_r * dx) then 0
           else Rmin 1 (distGC obs_loc loc (scale_r * dx)
                          (INR nx * dx) (INR ny * dy))) in
    Ok (np.scale scale_w weights).

(** [LEnKFOcean.getCombinedWeights]; the stencil it is handed is ignored
    and computed anew, as in the source. *)
Definition getCombinedWeights (observation_positions : list (R * R))
  (scale_r dx dy : R) (nx ny : nat) (W_loc_arg : option array2) (scale_w : R)
  : outcome array2 :=
  W_loc <- getLocalWeightShape scale_r dx dy nx ny scale_w ;;
  fold_left
    (fun acc obs =>
       W_scale <- acc ;;
       Lr <- getLocalIndices obs scale_r dx dy nx ny ;;
       let '(L, xroll, yroll) := Lr in
       let W_loc_d := roll1 (roll0 W_loc yroll) xroll in
       masked_add W_scale L (flatten W_loc_d))
    observation_positions (Ok (np.zeros ny nx)).

(* ================================================================= *)
(** * The filter object *)

Record LEnKF : Type := mkLEnKF {
  self_ensemble : Ensemble;
  N_e : nat;
  N_d : nat;
  n_i : nat;
  n_j : nat;
  self_ghost_cells_y : nat;
  self_ghost_cells_x : nat;
  inflation_factor : R;
  scale_w : R;
  r_factor : R;
  W_loc : option array2;
  all_Ls : option (list mask2);
  all_xrolls : list Z;
  all_yrolls : list Z;
  groups : option (list (list nat));
  method : string;
  N_e_active : option nat;
  drifter_positions : option (list (R * R));
  W_analyses : option (list array2);
  W_forecasts : option (list array2)
}.

(** Reading an attribute that was never assigned. *)
Definition getattr {A : Type} (a : option A) : outcome A :=
  match a with
  | Some x => Ok x
  | None => Raise AttributeError
  end.

(** [len(x)] or a loop over [x] when [x] is [None]. *)
Definition not_none {A : Type} (a : option A) : outcome A :=
  match a with
  | Some x => Ok x
  | None => Raise TypeError
  end.

Definition assert (b : bool) (msg : string) : outcome unit :=
  if b then Ok tt else Raise (AssertionError msg).

Definition assert_index (b : bool) : outcome unit :=
  if b then Ok tt else Raise IndexError.

(** [particles[-1]] *)
Definition last_particle (ps : list Particle) : outcome Particle :=
  match ps with
  | [] => Raise IndexError
  | p :: t => Ok (last t p)
  end.

(** [LEnKFOcean.__init__] *)
Definition init (ensemble : Ensemble) (relaxation_factor inflation : R)
  (meth : string) : outcome LEnKF :=
  first <- getitem (particles ensemble) 0 ;;
  final <- last_particle (particles ensemble) ;;
  _ <- assert (String.eqb meth "SEnKF" || String.eqb meth "ETKF")
         "Method not supported. Choose among ['SEnKF', 'ETKF']" ;;
  Ok {| self_ensemble := ensemble;
        N_e := getNumParticles ensemble;
        N_d := getNumDrifters ensemble;
        n_i := p_ny first + 2 * ghost_cells_y final;
        n_j := p_nx first + 2 * ghost_cells_x final;
        self_ghost_cells_y := ghost_cells_y final;
        self_ghost_cells_x := ghost_cells_x final;
        inflation_factor := inflation;
        scale_w := relaxation_factor;
        r_factor := 15;
        W_loc := None;
        all_Ls := None;
        all_xrolls := [];
        all_yrolls := [];
        groups := None;
        method := meth;
        N_e_active := None;
        drifter_positions := None;
        W_analyses := None;
        W_forecasts := None |}.

(** [positions[group]]: the rows at the indices of a group. *)
Fixpoint take_rows {A : Type} (l : list A) (idx : list nat) : outcome (list A) :=
  match idx with
  | [] => Ok []
  | i :: t =>
      x <- getitem l i ;;
      r <- take_rows l t ;;
      Ok (x :: r)
  end.

(** The blend weights of one group, from its combined weights. *)
Definition W_analysis_of (W_combined : array2) : array2 :=
  mkArray2 (shape0 W_combined) (shape1 W_combined)
    (fun y x => at2 W_combined y x / Rmax (at2 W_combined y x) 1).

Definition W_forecast_of (W_combined : array2) : array2 :=
  mkArray2 (shape0 W_combined) (shape1 W_combined)
    (fun y x => 1 - at2 (W_analysis_of W_combined) y x).

Definition set_r_factor (self : LEnKF) (r : R) : LEnKF :=
  {| self_ensemble := self_ensemble self; N_e := N_e self; N_d := N_d self;
     n_i := n_i self; n_j := n_j self;
     self_ghost_cells_y := self_ghost_cells_y self;
     self_ghost_cells_x := self_ghost_cells_x self;
     inflation_factor := inflation_factor self; scale_w := scale_w self;
     r_factor := r;
     W_loc := W_loc self; all_Ls := all_Ls self;
     all_xrolls := all_xrolls self; all_yrolls := all_yrolls self;
     groups := groups self; method := method self;
     N_e_active := N_e_active self; drifter_positions := drifter_positions self;
     W_analyses := W_analyses self; W_forecasts := W_forecasts self |}.

Definition set_patches (self : LEnKF) (W : array2) (WA WF : list array2) : LEnKF :=
  {| self_ensemble := self_ensemble self; N_e := N_e self; N_d := N_d self;
     n_i := n_i self; n_j := n_j self;
     self_ghost_cells_y := self_ghost_cells_y self;
     self_ghost_cells_x := self_ghost_cells_x self;
     inflation_factor := inflation_factor self; scale_w := scale_w self;
     r_factor := r_factor self;
     W_loc := Some W; all_Ls := all_Ls self;
     all_xrolls := all_xrolls self; all_yrolls := all_yrolls self;
     groups := groups self; method := method self;
     N_e_active := N_e_active self; drifter_positions := drifter_positions self;
     W_analyses := Some WA; W_forecasts := Some WF |}.

(** The loop of [initializeLocalPatches] over the groups. *)
Fixpoint patches_loop (self : LEnKF) (positions : list (R * R))
  (gs : list (list nat)) : outcome (list array2 * list array2) :=
  match gs with
  | [] => Ok ([], [])
  | G :: rest =>
      let e := self_ensemble self in
      obs <- take_rows positions G ;;
      W_combined <- getCombinedWeights obs (r_factor self) (ens_dx e) (ens_dy e)
                      (ens_nx e) (ens_ny e) (W_loc self) (scale_w self) ;;
      r <- patches_loop self positions rest ;;
      Ok (W_analysis_of W_combined :: fst r, W_forecast_of W_combined :: snd r)
  end.

(** [LEnKFOcean.initializeLocalPatches] *)
Definition initializeLocalPatches (self : LEnKF) (r : R) : outcome LEnKF :=
  let e := self_ensemble self in
  let self := if Rgt_dec r 0 then set_r_factor self r else self in
  W <- getLocalWeightShape (r_factor self) (ens_dx e) (ens_dy e)
         (ens_nx e) (ens_ny e) (scale_w self) ;;
  let self := set_patches self W [] [] in
  gs <- not_none (groups self) ;;
  positions <- getattr (drifter_positions self) ;;
  WW <- patches_loop self positions gs ;;
  Ok (set_patches self W (fst WW) (snd WW)).
(* ================================================================= *)
(** * Arrays of three and four dimensions *)

Record array3 : Type := mkArray3 {
  a3_shape0 : nat;
  a3_shape1 : nat;
  a3_shape2 : nat;
  at3 : nat -> nat -> nat -> R
}.

Record array4 : Type := mkArray4 {
  a4_shape0 : nat;
  a4_shape1 : nat;
  a4_shape2 : nat;
  a4_shape3 : nat;
  at4 : nat -> nat -> nat -> nat -> R
}.

Definition zeros4 (a b c d : nat) : array4 := mkArray4 a b c d (fun _ _ _ _ => 0).

(** A value may be stored into an axis of length [n] when its own length
    is [n] or 1. *)
Definition fits (n a : nat) : bool := Nat.eqb a n || Nat.eqb a 1.

(** [X[idx, c, :, :] = A] *)
Definition set_slab (X : array4) (idx c : nat) (A : array2) : outcome array4 :=
  if negb (Nat.ltb idx (a4_shape0 X) && Nat.ltb c (a4_shape1 X)) then Raise IndexError
  else if negb (fits (a4_shape2 X) (shape0 A) && fits (a4_shape3 X) (shape1 A))
  then Raise ValueError
  else Ok (mkArray4 (a4_shape0 X) (a4_shape1 X) (a4_shape2 X) (a4_shape3 X)
             (fun e k y x =>
                if Nat.eqb e idx && Nat.eqb k c
                then at2 A (np.bidx (shape0 A) y) (np.bidx (shape1 A) x)
                else at4 X e k y x)).

(** [A.reshape((n, m))] *)
Definition reshape2 (A : array2) (n m : nat) : outcome array2 :=
  if Nat.eqb (shape0 A * shape1 A) (n * m)
  then Ok (mkArray2 n m
             (fun i j => at2 A ((i * m + j) / shape1 A) ((i * m + j) mod shape1 A)))
  else Raise ValueError.

(* ================================================================= *)
(** * What the filter calls but does not define

    The simulator behind a particle, the random draws of
    [np.random.multivariate_normal] (one sample per observation) and the
    eigen-decomposition of [scipy.linalg.eigh]. *)

Class External : Type := {
  download : Particle -> bool -> array2 * array2 * array2;
  upload : Particle -> array2 -> array2 -> array2 -> Particle;
  applyBoundaryConditions : Particle -> Particle;
  normal_draws : nat -> nat -> nat -> R;
  eigh : array2 -> outcome (list R * array2)
}.

(* ================================================================= *)
(** * Local patches of the state *)

(** Cell of the local stencil that a rolled read takes its value from. *)
Definition rolled_cell (s0 s1 : nat) (yshift xshift : Z) (k : nat) : nat :=
  roll_index s0 yshift (k / s1) * s1 + roll_index s1 xshift (k mod s1).

(** Lines 491-509 for one of [X_f], [X_f_pert]: the values under the mask
    of every particle and variable, rolled back when the patch wraps, as a
    matrix with one column per particle and the three variables stacked. *)
Definition extract_local (X : array4) (L : mask2) (xroll yroll : Z)
  (W_shape0 W_shape1 N_e_active : nat) : outcome array2 :=
  let N_x_local := (W_shape0 * W_shape1)%nat in
  let sel := true_cells L in
  if negb (Nat.eqb (mshape0 L) (a4_shape2 X) && Nat.eqb (mshape1 L) (a4_shape3 X))
  then Raise IndexError
  else if negb (fits N_e_active (a4_shape0 X) && fits 3 (a4_shape1 X)
                && fits N_x_local (length sel))
  then Raise ValueError
  else
    let tmp := fun e c k =>
      let cell := nth (np.bidx (length sel) k) sel (O, O) in
      at4 X (np.bidx (a4_shape0 X) e) (np.bidx (a4_shape1 X) c) (fst cell) (snd cell) in
    let tmp :=
      if (Z.eqb xroll 0 && Z.eqb yroll 0)%bool then tmp
      else fun e c k => tmp e c (rolled_cell W_shape0 W_shape1 (- yroll) (- xroll) k) in
    Ok (mkArray2 (3 * N_x_local) N_e_active
          (fun r e => tmp e (r / N_x_local)%nat (r mod N_x_local)%nat)).

(** The same lines for [X_f_mean]. *)
Definition extract_local_mean (X_mean : array3) (L : mask2) (xroll yroll : Z)
  (W_shape0 W_shape1 : nat) : outcome (list R) :=
  let N_x_local := (W_shape0 * W_shape1)%nat in
  let sel := true_cells L in
  if negb (Nat.eqb (mshape0 L) (a3_shape1 X_mean) && Nat.eqb (mshape1 L) (a3_shape2 X_mean))
  then Raise IndexError
  else if negb (fits 3 (a3_shape0 X_mean) && fits N_x_local (length sel))
  then Raise ValueError
  else
    let tmp := fun c k =>
      let cell := nth (np.bidx (length sel) k) sel (O, O) in
      at3 X_mean (np.bidx (a3_shape0 X_mean) c) (fst cell) (snd cell) in
    let tmp :=
      if (Z.eqb xroll 0 && Z.eqb yroll 0)%bool then tmp
      else fun c k => tmp c (rolled_cell W_shape0 W_shape1 (- yroll) (- xroll) k) in
    Ok (map (fun r => tmp (r / N_x_local)%nat (r mod N_x_local)%nat)
          (seq 0 (3 * N_x_local))).

(** Lines 533-541 for variable [i]: the local analysis times the stencil,
    rolled forward when the patch wraps, added under the mask. *)
Definition scatter_variable (X_a : array4) (i : nat) (X_a_loc W_loc : array2)
  (L : mask2) (xroll yroll : Z) (N_e_active : nat) : outcome array4 :=
  let s0 := shape0 W_loc in
  let s1 := shape1 W_loc in
  let N_x_local := (s0 * s1)%nat in
  let tiled := mkArray2 N_x_local N_e_active
                 (fun k _ => at2 W_loc (k / s1)%nat (k mod s1)%nat) in
  weighted <- np.multiply (np.rows_slice X_a_loc (i * N_x_local) ((i + 1) * N_x_local))
                tiled ;;
  weighted <-
    (if (Z.eqb xroll 0 && Z.eqb yroll 0)%bool then Ok weighted
     else
       w <- reshape2 weighted N_x_local N_e_active ;;
       Ok (mkArray2 N_x_local N_e_active
             (fun k e => at2 w (rolled_cell s0 s1 yroll xroll k) e))) ;;
  weighted <- reshape2 weighted N_x_local N_e_active ;;
  let sel := true_cells L in
  if negb (Nat.ltb i (a4_shape1 X_a)) then Raise IndexError
  else if negb (Nat.eqb (mshape0 L) (a4_shape2 X_a) && Nat.eqb (mshape1 L) (a4_shape3 X_a))
  then Raise IndexError
  else if negb (fits (a4_shape0 X_a) N_e_active && fits (length sel) N_x_local)
  then Raise ValueError
  else
    Ok (mkArray4 (a4_shape0 X_a) (a4_shape1 X_a) (a4_shape2 X_a) (a4_shape3 X_a)
          (fun e c y x =>
             if Nat.eqb c i && mask_at L y x
             then at4 X_a e c y x
                  + at2 weighted (np.bidx N_x_local (index_of (y, x) sel))
                      (np.bidx N_e_active e)
             else at4 X_a e c y x)).

(** The loop [for i in range(3)] around it. *)
Definition scatter_local (X_a : array4) (X_a_loc W_loc : array2)
  (L : mask2) (xroll yroll : Z) (N_e_active : nat) : outcome array4 :=
  X_a <- scatter_variable X_a 0 X_a_loc W_loc L xroll yroll N_e_active ;;
  X_a <- scatter_variable X_a 1 X_a_loc W_loc L xroll yroll N_e_active ;;
  scatter_variable X_a 2 X_a_loc W_loc L xroll yroll N_e_active.

(* ================================================================= *)
(** * The two local updates *)

Section LocalUpdates.

Context {ext : External}.

(** [LEnKFOcean.SEnKF_loc]; [d] names the observation, for its draws. *)
Definition SEnKF_loc (self : LEnKF) (d : nat)
  (X_f_loc X_f_loc_pert : array2) (HX_f_loc_mean : list R)
  (HX_f_loc_pert : array2) (y_loc : list R) (D : option array2)
  : outcome array2 :=
  let Rcov := getObservationCov (self_ensemble self) in
  D <- match D with
       | Some D => Ok D
       | None =>
           Y <- np.add (np.row y_loc)
                  (np.multivariate_normal (normal_draws d) (N_e self)) ;;
           let Y_loc := np.T Y in
           HX <- np.add (np.column HX_f_loc_mean) HX_f_loc_pert ;;
           np.subtract Y_loc HX
       end ;;
  c <- py_div (inflation_factor self ^ 2) (INR (N_e self) - 1) ;;
  HH <- np.matmul (np.scale c HX_f_loc_pert) (np.T HX_f_loc_pert) ;;
  F <- np.add HH Rcov ;;
  c' <- py_div 1 (INR (N_e self) - 1) ;;
  XH <- np.matmul (np.scale c' X_f_loc_pert) (np.T HX_f_loc_pert) ;;
  Finv <- linalg.inv F ;;
  XHF <- np.matmul XH Finv ;;
  gain <- np.matmul XHF D ;;
  np.add X_f_loc gain.

(** The forgetting factor of [ETKF_loc], lines 586-594. *)
Definition ETKF_forgetting_factor (inflation : R) (Rinv : array2) (D : list R)
  (N_e_active : nat) : outcome R :=
  if Req_dec_T inflation 0 then
    RDD <- np.matmul Rinv (np.outer D D) ;;
    let inflation_factor := sqrt (1 + np.trace RDD / (INR N_e_active - 2)) in
    Ok (1 / inflation_factor ^ 2)
  else Ok (1 / inflation ^ 2).

(** The innovation [D] of [ETKF_loc], lines 581-584. *)
Definition ETKF_innovation (y_loc HX_f_loc_mean : list R) (D : option array2)
  : outcome (list R) :=
  match D with
  | None => np.subtract1 y_loc HX_f_loc_mean
  | Some D => Ok (np.average_axis1 D)
  end.

(** The mean and the perturbations that [ETKF_loc] computes before it
    adds them up. *)
Definition ETKF_parts (self : LEnKF) (ensemble : option Ensemble)
  (X_f_loc_mean : list R) (X_f_loc_pert : array2) (HX_f_loc_mean : list R)
  (HX_f_loc_pert : array2) (y_loc : list R) (D : option array2)
  : outcome (list R * array2) :=
  Rinv <- linalg.inv (getObservationCov (self_ensemble self)) ;;
  D <- ETKF_innovation y_loc HX_f_loc_mean D ;;
  N_a <- getattr (N_e_active self) ;;
  forgetting_factor <- ETKF_forgetting_factor (inflation_factor self) Rinv D N_a ;;
  let A1 := np.scale ((INR N_a - 1) * forgetting_factor) (np.eye N_a) in
  e <- getattr ensemble ;;
  HXa <- np.compress_cols HX_f_loc_pert (particlesActive e) ;;
  HR <- np.matmul (np.T HXa) Rinv ;;
  A2 <- np.matmul HR HXa ;;
  A <- np.add A1 A2 ;;
  S <- linalg.solve A HR ;;
  K <- np.matmul X_f_loc_pert S ;;
  KD <- np.matvec K D ;;
  X_a_loc_mean <- np.add1 X_f_loc_mean KD ;;
  c <- py_div 1 (INR N_a - 1) ;;
  wV <- eigh (np.scale c A) ;;
  let '(sigma_inv, V) := wV in
  XV <- np.matmul X_f_loc_pert V ;;
  XVd <- np.matmul XV (np.diag (map (fun s => sqrt (1 / s)) sigma_inv)) ;;
  X_a_loc_pert <- np.matmul XVd (np.T V) ;;
  Ok (X_a_loc_mean, X_a_loc_pert).

(** [X[:, j] += v] for every [j] below [n]. *)
Definition add_to_columns (X : array2) (v : list R) (n : nat) : outcome array2 :=
  if Nat.eqb n 0 then Ok X
  else if negb (Nat.leb n (shape1 X)) then Raise IndexError
  else if negb (fits (shape0 X) (length v)) then Raise ValueError
  else Ok (mkArray2 (shape0 X) (shape1 X)
             (fun i j => if Nat.ltb j n
                         then at2 X i j + nth (np.bidx (length v) i) v 0
                         else at2 X i j)).

(** [LEnKFOcean.ETKF_loc] *)
Definition ETKF_loc (self : LEnKF) (ensemble : option Ensemble)
  (X_f_loc_mean : list R) (X_f_loc_pert : array2) (HX_f_loc_mean : list R)
  (HX_f_loc_pert : array2) (y_loc : list R) (D : option array2)
  : outcome array2 :=
  parts <- ETKF_parts self ensemble X_f_loc_mean X_f_loc_pert
             HX_f_loc_mean HX_f_loc_pert y_loc D ;;
  N_a <- getattr (N_e_active self) ;;
  add_to_columns (snd parts) (fst parts) N_a.

End LocalUpdates.
(* ================================================================= *)
(** * The filter at work on the ensemble

    A call of the filter runs on the filter object, whose field
    [self_ensemble] stands for the ensemble it refers to, and leaves a
    record of the calls it makes to the simulator.  A run is a function
    from this state to an outcome and the state it leaves, so that the
    state is known also when an exception ends the run.  (The fields that
    a helper assigns before it raises are not kept: after an exception
    only the ensemble and the calls are meant.) *)

Inductive Event : Type :=
| CallDownload (particle : nat) (interior_domain_only : bool)
| CallUpload (particle : nat) (eta hu hv : array2)
| CallApplyBoundaryConditions (particle : nat).

Record World : Type := mkWorld {
  the_filter : LEnKF;
  the_calls : list Event
}.

Definition Run (A : Type) : Type := World -> outcome A * World.

Definition ret {A : Type} (a : A) : Run A := fun w => (Ok a, w).

Definition bindM {A B : Type} (m : Run A) (k : A -> Run B) : Run B :=
  fun w =>
    match m w with
    | (Ok a, w') => k a w'
    | (Raise e, w') => (Raise e, w')
    | (Diverge, w') => (Diverge, w')
    end.

Notation "x <~ m ;; k" := (bindM m (fun x => k))
  (at level 61, m at next level, right associativity).

(** A computation that touches neither the filter nor the simulator. *)
Definition lift {A : Type} (m : outcome A) : Run A := fun w => (m, w).

Definition get_self : Run LEnKF := fun w => (Ok (the_filter w), w).

Definition set_self (self : LEnKF) : Run unit :=
  fun w => (Ok tt, mkWorld self (the_calls w)).

Definition emit (ev : Event) : Run unit :=
  fun w => (Ok tt, mkWorld (the_filter w) (the_calls w ++ [ev])).

(** Setters of the fields that the calls below assign. *)
Definition with_ensemble (self : LEnKF) (e : Ensemble) (n_active : option nat) : LEnKF :=
  {| self_ensemble := e; N_e := N_e self; N_d := N_d self;
     n_i := n_i self; n_j := n_j self;
     self_ghost_cells_y := self_ghost_cells_y self;
     self_ghost_cells_x := self_ghost_cells_x self;
     inflation_factor := inflation_factor self; scale_w := scale_w self;
     r_factor := r_factor self;
     W_loc := W_loc self; all_Ls := all_Ls self;
     all_xrolls := all_xrolls self; all_yrolls := all_yrolls self;
     groups := groups self; method := method self;
     N_e_active := n_active; drifter_positions := drifter_positions self;
     W_analyses := W_analyses self; W_forecasts := W_forecasts self |}.

Definition reset_localisation (self : LEnKF) (r : R) : LEnKF :=
  {| self_ensemble := self_ensemble self; N_e := N_e self; N_d := N_d self;
     n_i := n_i self; n_j := n_j self;
     self_ghost_cells_y := self_ghost_cells_y self;
     self_ghost_cells_x := self_ghost_cells_x self;
     inflation_factor := inflation_factor self; scale_w := scale_w self;
     r_factor := r;
     W_loc := None; all_Ls := all_Ls self;
     all_xrolls := all_xrolls self; all_yrolls := all_yrolls self;
     groups := None; method := method self;
     N_e_active := N_e_active self; drifter_positions := drifter_positions self;
     W_analyses := W_analyses self; W_forecasts := W_forecasts self |}.

Definition with_groups (self : LEnKF) (pos : list (R * R)) (gs : list (list nat)) : LEnKF :=
  {| self_ensemble := self_ensemble self; N_e := N_e self; N_d := N_d self;
     n_i := n_i self; n_j := n_j self;
     self_ghost_cells_y := self_ghost_cells_y self;
     self_ghost_cells_x := self_ghost_cells_x self;
     inflation_factor := inflation_factor self; scale_w := scale_w self;
     r_factor := r_factor self;
     W_loc := W_loc self; all_Ls := all_Ls self;
     all_xrolls := all_xrolls self; all_yrolls := all_yrolls self;
     groups := Some gs; method := method self;
     N_e_active := N_e_active self; drifter_positions := Some pos;
     W_analyses := W_analyses self; W_forecasts := W_forecasts self |}.

Definition with_patches (self : LEnKF) (Ls : list mask2) (xr yr : list Z) : LEnKF :=
  {| self_ensemble := self_ensemble self; N_e := N_e self; N_d := N_d self;
     n_i := n_i self; n_j := n_j self;
     self_ghost_cells_y := self_ghost_cells_y self;
     self_ghost_cells_x := self_ghost_cells_x self;
     inflation_factor := inflation_factor self; scale_w := scale_w self;
     r_factor := r_factor self;
     W_loc := W_loc self; all_Ls := Some Ls;
     all_xrolls := xr; all_yrolls := yr;
     groups := groups self; method := method self;
     N_e_active := N_e_active self; drifter_positions := drifter_positions self;
     W_analyses := W_analyses self; W_forecasts := W_forecasts self |}.

Definition with_particles (e : Ensemble) (ps : list Particle) : Ensemble :=
  {| particles := ps; particlesActive := particlesActive e;
     getNumParticles := getNumParticles e;
     getNumActiveParticles := getNumActiveParticles e;
     getNumDrifters := getNumDrifters e;
     observation_type := observation_type e;
     ens_dx := ens_dx e; ens_dy := ens_dy e; ens_nx := ens_nx e; ens_ny := ens_ny e;
     getObservationCov := getObservationCov e;
     observeTrueState := observeTrueState e;
     observeTrueDrifters := observeTrueDrifters e;
     compensate_for_eta_flag := compensate_for_eta_flag e;
     mean_depth := mean_depth e |}.

(* ================================================================= *)
(** * [LEnKFOcean._prepare_LEnKF] *)

(** The four assertions on the ensemble that is handed in. *)
Definition check_configuration (self : LEnKF) (ensemble : Ensemble) : outcome unit :=
  _ <- assert (Nat.eqb (N_e self) (getNumParticles ensemble)) "ensemble changed size" ;;
  _ <- assert (Nat.eqb (N_d self) (getNumDrifters ensemble))
         "ensemble changed number of drifter" ;;
  first <- getitem (particles ensemble) 0 ;;
  final <- last_particle (particles ensemble) ;;
  _ <- assert (Nat.eqb (n_i self) (p_ny first + 2 * ghost_cells_y final))
         "ensemble changed size of physical domain" ;;
  first <- getitem (particles ensemble) 0 ;;
  final <- last_particle (particles ensemble) ;;
  assert (Nat.eqb (n_j self) (p_nx first + 2 * ghost_cells_x final))
    "ensemble changed size of physical domain".

(** The loop over the observations that stores their patches. *)
Fixpoint patches_of (self : LEnKF) (positions : list (R * R)) (ds : list nat)
  : outcome (list mask2 * list Z * list Z) :=
  match ds with
  | [] => Ok ([], [], [])
  | d :: rest =>
      obs <- getitem positions d ;;
      let e := self_ensemble self in
      Lr <- getLocalIndices obs (r_factor self) (ens_dx e) (ens_dy e)
              (ens_nx e) (ens_ny e) ;;
      r <- patches_of self positions rest ;;
      let '(L, xroll, yroll) := Lr in
      let '(Ls, xs, ys) := r in
      Ok (L :: Ls, xroll :: xs, yroll :: ys)
  end.

Definition Req_bool (a b : R) : bool := if Req_dec_T a b then true else false.

(** The first block: the assertions, then the binding of the ensemble and
    of its number of active particles. *)
Definition bind_ensemble (ensemble : option Ensemble) : Run unit :=
  self <~ get_self ;;
  match ensemble with
  | None => ret tt
  | Some e =>
      _ <~ lift (check_configuration self e) ;;
      set_self (with_ensemble self e (Some (getNumActiveParticles e)))
  end.

(** The other blocks: a new radius, the groups and weights, the patches. *)
Definition update_localisation (r : option R) : Run unit :=
  self <~ get_self ;;
  _ <~ match r with
       | None => ret tt
       | Some r =>
           if Req_bool r (r_factor self) then ret tt
           else set_self (reset_localisation self r)
       end ;;
  self <~ get_self ;;
  let moving :=
    negb (ObservationType_eqb (observation_type (self_ensemble self)) StaticBuoys) in
  _ <~ (if match groups self with None => true | Some _ => false end || moving
        then
          pg <~ lift (initializeGroups (self_ensemble self) (r_factor self)) ;;
          let self := with_groups self (fst pg) (snd pg) in
          self <~ lift (initializeLocalPatches self (r_factor self)) ;;
          set_self self
        else ret tt) ;;
  self <~ get_self ;;
  if match all_Ls self with None => true | Some _ => false end || moving
  then
    positions <~ lift (getattr (drifter_positions self)) ;;
    r <~ lift (patches_of self positions (seq 0 (N_d self))) ;;
    let '(Ls, xs, ys) := r in
    set_self (with_patches self Ls xs ys)
  else ret tt.

Definition _prepare_LEnKF (ensemble : option Ensemble) (r : option R) : Run unit :=
  _ <~ bind_ensemble ensemble ;;
  update_localisation r.

(* ================================================================= *)
(** * [LEnKFOcean.assimilate] and what it calls *)

Section Assimilation.

Context {ext : External}.

(** The loop of [giveX_f_global] that downloads the active particles. *)
Fixpoint download_particles (es : list nat) (idx : nat) (X_f : array4) : Run array4 :=
  match es with
  | [] => ret X_f
  | e :: rest =>
      self <~ get_self ;;
      active <~ lift (getitem (particlesActive (self_ensemble self)) e) ;;
      if (active : bool) then
        p <~ lift (getitem (particles (self_ensemble self)) e) ;;
        _ <~ emit (CallDownload e true) ;;
        let '(eta, hu, hv) := download p true in
        X <~ lift (set_slab X_f idx 0 eta) ;;
        X <~ lift (set_slab X idx 1 hu) ;;
        X <~ lift (set_slab X idx 2 hv) ;;
        download_particles rest (S idx) X
      else download_particles rest idx X_f
  end.

(** [np.mean(X_f, axis=0)] and [X_f - X_f_mean]. *)
Definition mean_axis0 (X : array4) : array3 :=
  mkArray3 (a4_shape1 X) (a4_shape2 X) (a4_shape3 X)
    (fun c y x => sum_n (fun e => at4 X e c y x) (a4_shape0 X) / INR (a4_shape0 X)).

Definition perturbations (X : array4) (X_mean : array3) : array4 :=
  mkArray4 (a4_shape0 X) (a4_shape1 X) (a4_shape2 X) (a4_shape3 X)
    (fun e c y x => at4 X e c y x - at3 X_mean c y x).

(** [LEnKFOcean.giveX_f_global] *)
Definition giveX_f_global (X_f : array4) (download_X_f : bool)
  : Run (array4 * array3 * array4) :=
  self <~ get_self ;;
  X_f <~ (if download_X_f
          then download_particles (seq 0 (N_e self)) 0 X_f
          else ret X_f) ;;
  let X_f_mean := mean_axis0 X_f in
  ret (X_f, X_f_mean, perturbations X_f X_f_mean).

(** The cell that holds an observation: [int(floor(pos / dx))] on each
    axis, as an index into the grid. *)
Definition observed_cell (self : LEnKF) (X_f : array4) (xy : list R)
  : outcome (nat * nat) :=
  let e := self_ensemble self in
  x <- getitem xy 0 ;;
  if Req_dec_T (ens_dx e) 0 then Raise OverflowError
  else
    y <- getitem xy 1 ;;
    if Req_dec_T (ens_dy e) 0 then Raise OverflowError
    else
      id_y <- np_index (a4_shape2 X_f) (floorZ (y / ens_dy e)) ;;
      id_x <- np_index (a4_shape3 X_f) (floorZ (x / ens_dx e)) ;;
      Ok (id_y, id_x).

Fixpoint observed_cells (self : LEnKF) (X_f : array4) (observations : list (list R))
  (ds : list nat) : outcome (list (nat * nat)) :=
  match ds with
  | [] => Ok []
  | d :: rest =>
      row <- getitem observations d ;;
      c <- observed_cell self X_f row ;;
      r <- observed_cells self X_f observations rest ;;
      Ok (c :: r)
  end.

(** [LEnKFOcean.observe_particles_from_X_f] *)
Definition observe_particles_from_X_f (self : LEnKF) (X_f : array4)
  (observations : list (list R)) : outcome array3 :=
  _ <- assert (Nat.eqb (N_d self) (length observations))
         "mismatch between observations and N_d" ;;
  cs <- observed_cells self X_f observations (seq 0 (N_d self)) ;;
  if negb (Nat.eqb (N_d self) 0) && negb (Nat.ltb 2 (a4_shape1 X_f))
  then Raise IndexError
  else
    Ok (mkArray3 (a4_shape0 X_f) (N_d self) 2
          (fun e d k =>
             let c := nth d cs (O, O) in
             at4 X_f e (S k) (fst c) (snd c))).

(** [LEnKFOcean.giveHX_f_global] *)
Definition giveHX_f_global (self : LEnKF) (X_f : array4)
  (observations : list (list R)) : outcome (array2 * array3) :=
  HX_f <- observe_particles_from_X_f self X_f observations ;;
  N_a <- getattr (N_e_active self) ;;
  c <- py_div 1 (INR N_a) ;;
  let HX_f_mean :=
    mkArray2 (a3_shape1 HX_f) (a3_shape2 HX_f)
      (fun d k => c * sum_n (fun e => at3 HX_f e d k) (a3_shape0 HX_f)) in
  let HX_f_pert :=
    mkArray3 (a3_shape0 HX_f) (a3_shape1 HX_f) (a3_shape2 HX_f)
      (fun e d k => at3 HX_f e d k - at2 HX_f_mean d k) in
  Ok (HX_f_mean, HX_f_pert).

(** [LEnKFOcean.compensate_for_eta] *)
Definition compensate_for_eta (self : LEnKF) (d : nat) (y_loc observations_xy : list R)
  (X_f : array4) (HX_f_loc_mean : list R) (HX_f_loc_pert : array2)
  : outcome array2 :=
  let e := self_ensemble self in
  Y <- np.add (np.row y_loc) (np.multivariate_normal (normal_draws d) (N_e self)) ;;
  let Y_loc := np.T Y in
  c <- observed_cell self X_f observations_xy ;;
  let eta_compensation :=
    map (fun p => (mean_depth e + at4 X_f p 0 (fst c) (snd c)) / mean_depth e)
      (seq 0 (a4_shape0 X_f)) in
  YE <- np.multiply Y_loc (np.row eta_compensation) ;;
  HX <- np.add (np.column HX_f_loc_mean) HX_f_loc_pert ;;
  np.subtract YE HX.

(** The body of the loop over the observations of a group, lines
    488-541: the local forecast, the local update, the weighted scatter
    into the accumulator [X_a]. *)
Definition assimilate_observation (self : LEnKF) (ensemble : option Ensemble)
  (observations : list (list R)) (X_f : array4) (X_f_mean : array3)
  (X_f_pert : array4) (HX_f_mean : array2) (HX_f_pert : array3)
  (X_a : array4) (d : nat) : outcome array4 :=
  Ls <- not_none (all_Ls self) ;;
  L <- getitem Ls d ;;
  xroll <- getitem (all_xrolls self) d ;;
  yroll <- getitem (all_yrolls self) d ;;
  W <- getattr (W_loc self) ;;
  N_a <- getattr (N_e_active self) ;;
  X_f_loc <- extract_local X_f L xroll yroll (shape0 W) (shape1 W) N_a ;;
  X_f_loc_pert <- extract_local X_f_pert L xroll yroll (shape0 W) (shape1 W) N_a ;;
  X_f_loc_mean <- extract_local_mean X_f_mean L xroll yroll (shape0 W) (shape1 W) ;;
  _ <- assert_index (Nat.ltb d (shape0 HX_f_mean)) ;;
  _ <- assert_index (Nat.ltb d (a3_shape1 HX_f_pert)) ;;
  let HX_f_loc_mean := map (fun k => at2 HX_f_mean d k) (seq 0 (shape1 HX_f_mean)) in
  let HX_f_loc_pert :=
    mkArray2 (a3_shape2 HX_f_pert) (a3_shape0 HX_f_pert)
      (fun k e => at3 HX_f_pert e d k) in
  row <- getitem observations d ;;
  let y_loc := firstn 2 (skipn 2 row) in
  D <- (if compensate_for_eta_flag (self_ensemble self)
        then
          D <- compensate_for_eta self d y_loc (firstn 2 row) X_f
                 HX_f_loc_mean HX_f_loc_pert ;;
          Ok (Some D)
        else Ok None) ;;
  X_a_loc <-
    (if String.eqb (method self) "SEnKF"
     then SEnKF_loc self d X_f_loc X_f_loc_pert HX_f_loc_mean HX_f_loc_pert y_loc D
     else if String.eqb (method self) "ETKF"
     then ETKF_loc self ensemble X_f_loc_mean X_f_loc_pert HX_f_loc_mean
            HX_f_loc_pert y_loc D
     else Raise UnboundLocalError) ;;
  scatter_local X_a X_a_loc W L xroll yroll N_a.

Fixpoint assimilate_observations (self : LEnKF) (ensemble : option Ensemble)
  (observations : list (list R)) (X_f : array4) (X_f_mean : array3)
  (X_f_pert : array4) (HX_f_mean : array2) (HX_f_pert : array3)
  (X_a : array4) (ds : list nat) : outcome array4 :=
  match ds with
  | [] => Ok X_a
  | d :: rest =>
      X_a <- assimilate_observation self ensemble observations X_f X_f_mean
               X_f_pert HX_f_mean HX_f_pert X_a d ;;
      assimilate_observations self ensemble observations X_f X_f_mean
        X_f_pert HX_f_mean HX_f_pert X_a rest
  end.

(** Lines 546-549: the forecast weighted by [W_forecasts[g]] plus the
    accumulated analysis. *)
Definition blend (W_forecast : array2) (X_f X_a : array4) (N_a : nat)
  : outcome array4 :=
  if Nat.eqb N_a 0 then Ok (zeros4 (a4_shape0 X_f) (a4_shape1 X_f)
                              (a4_shape2 X_f) (a4_shape3 X_f))
  else if negb (Nat.leb N_a (a4_shape0 X_f) && Nat.leb N_a (a4_shape0 X_a)
                && Nat.leb 3 (a4_shape1 X_f) && Nat.leb 3 (a4_shape1 X_a))
  then Raise IndexError
  else
    r <- np.bdim (shape0 W_forecast) (a4_shape2 X_f) ;;
    c <- np.bdim (shape1 W_forecast) (a4_shape3 X_f) ;;
    r <- np.bdim r (a4_shape2 X_a) ;;
    c <- np.bdim c (a4_shape3 X_a) ;;
    if negb (fits (a4_shape2 X_f) r && fits (a4_shape3 X_f) c) then Raise ValueError
    else
      Ok (mkArray4 (a4_shape0 X_f) (a4_shape1 X_f) (a4_shape2 X_f) (a4_shape3 X_f)
            (fun e i y x =>
               if Nat.ltb e N_a && Nat.ltb i 3
               then at2 W_forecast (np.bidx (shape0 W_forecast) y)
                      (np.bidx (shape1 W_forecast) x)
                    * at4 X_f e i y x
                    + at4 X_a e i (np.bidx (a4_shape2 X_a) y) (np.bidx (a4_shape3 X_a) x)
               else 0)).

(** The loop over the groups, lines 477-551. *)
Fixpoint assimilate_groups (ensemble : option Ensemble)
  (observations : list (list R)) (gs : list (list nat)) (g : nat) (X_f : array4)
  : Run array4 :=
  match gs with
  | [] => ret X_f
  | G :: rest =>
      r <~ giveX_f_global X_f (Nat.eqb g 0) ;;
      let '(X_f, X_f_mean, X_f_pert) := r in
      self <~ get_self ;;
      HX <~ lift (giveHX_f_global self X_f observations) ;;
      let X_a := zeros4 (a4_shape0 X_f) (a4_shape1 X_f) (a4_shape2 X_f) (a4_shape3 X_f) in
      X_a <~ lift (assimilate_observations self ensemble observations X_f X_f_mean
                     X_f_pert (fst HX) (snd HX) X_a G) ;;
      N_a <~ lift (getattr (N_e_active self)) ;;
      X_new <~ lift (if Nat.eqb N_a 0
                     then blend (np.zeros 0 0) X_f X_a N_a
                     else
                       WF <- getattr (W_forecasts self) ;;
                       W <- getitem WF g ;;
                       blend W X_f X_a N_a) ;;
      assimilate_groups ensemble observations rest (S g) X_new
  end.

(** The part of [assimilate] before the upload, lines 457-552. *)
Definition analysis (ensemble : option Ensemble) (r : option R) : Run array4 :=
  _ <~ _prepare_LEnKF ensemble r ;;
  self <~ get_self ;;
  N_a <~ lift (getattr (N_e_active self)) ;;
  let e := self_ensemble self in
  let X_f := zeros4 N_a 3 (ens_ny e) (ens_nx e) in
  _ <~ lift (getattr (W_loc self)) ;;
  let observations := observeTrueState e in
  gs <~ lift (not_none (groups self)) ;;
  assimilate_groups ensemble observations gs 0 X_f.

(** [eta[gy : ny+gy, gx : nx+gx] = A] on an array of zeros with a halo of
    ghost cells. *)
Definition embed_interior (ny nx gy gx : nat) (A : array2) : outcome array2 :=
  if negb (fits ny (shape0 A) && fits nx (shape1 A)) then Raise ValueError
  else
    Ok (mkArray2 (ny + 2 * gy) (nx + 2 * gx)
          (fun y x =>
             if Nat.leb gy y && Nat.ltb y (ny + gy) && Nat.leb gx x && Nat.ltb x (nx + gx)
             then at2 A (np.bidx (shape0 A) (y - gy)) (np.bidx (shape1 A) (x - gx))
             else 0)).

(** [X_new[idx][i]] *)
Definition slab (X : array4) (idx i : nat) : outcome array2 :=
  if negb (Nat.ltb idx (a4_shape0 X) && Nat.ltb i (a4_shape1 X)) then Raise IndexError
  else Ok (mkArray2 (a4_shape2 X) (a4_shape3 X) (fun y x => at4 X idx i y x)).

(** The loop of [uploadAnalysis]. *)
Fixpoint upload_particles (X_new : array4) (es : list nat) (idx : nat) : Run unit :=
  match es with
  | [] => ret tt
  | e :: rest =>
      self <~ get_self ;;
      let ens := self_ensemble self in
      active <~ lift (getitem (particlesActive ens) e) ;;
      if (active : bool) then
        let pad := embed_interior (ens_ny ens) (ens_nx ens)
                     (self_ghost_cells_y self) (self_ghost_cells_x self) in
        eta <~ lift (A <- slab X_new idx 0 ;; pad A) ;;
        hu <~ lift (A <- slab X_new idx 1 ;; pad A) ;;
        hv <~ lift (A <- slab X_new idx 2 ;; pad A) ;;
        p <~ lift (getitem (particles ens) e) ;;
        _ <~ emit (CallUpload e eta hu hv) ;;
        _ <~ set_self (with_ensemble self
                         (with_particles ens (list_set (particles ens) e (upload p eta hu hv)))
                         (N_e_active self)) ;;
        self <~ get_self ;;
        let ens := self_ensemble self in
        p <~ lift (getitem (particles ens) e) ;;
        _ <~ emit (CallApplyBoundaryConditions e) ;;
        _ <~ set_self (with_ensemble self
                         (with_particles ens
                            (list_set (particles ens) e (applyBoundaryConditions p)))
                         (N_e_active self)) ;;
        upload_particles X_new rest (S idx)
      else upload_particles X_new rest idx
  end.

(** [LEnKFOcean.uploadAnalysis] *)
Definition uploadAnalysis (X_new : array4) : Run unit :=
  self <~ get_self ;;
  upload_particles X_new (seq 0 (N_e self)) 0.

(** [LEnKFOcean.assimilate] *)
Definition assimilate (ensemble : option Ensemble) (r : option R) : Run unit :=
  X_f <~ analysis ensemble r ;;
  uploadAnalysis X_f.

End Assimilation.

(* ================================================================= *)
(** * Reshaping helpers of the filter: [LEnKFOcean._deleteDeactivatedObservations] *)

(** [np.delete(a, idx, axis=0)] for an index that is not negative: the
    rows of [a] without row [idx], an [IndexError] out of range. *)
Definition np_delete {T : Type} (a : list T) (idx : nat) : outcome (list T) :=
  if Nat.ltb idx (length a) then Ok (firstn idx a ++ skipn (S idx) a)
  else Raise IndexError.

(** The loop over the particles: [idx] moves on at an active particle,
    and row [idx] is deleted at one that is not. *)
Fixpoint delete_deactivated {T : Type} (active : list bool) (ps : list nat) (idx : nat)
  (observation : list T) : outcome (list T) :=
  match ps with
  | [] => Ok observation
  | p :: rest =>
      a <- getitem active p ;;
      if (a : bool) then delete_deactivated active rest (S idx) observation
      else
        observation <- np_delete observation idx ;;
        delete_deactivated active rest idx observation
  end.

Definition _deleteDeactivatedObservations {T : Type} (self : LEnKF)
  (observation : list T) : outcome (list T) :=
  delete_deactivated (particlesActive (self_ensemble self)) (seq 0 (N_e self)) 0
    observation.

(** The rows whose flag is set. *)
Definition active_rows {T : Type} (flags : list bool) (rows : list T) : list T :=
  map snd (filter fst (combine flags rows)).

(* ================================================================= *)
(** * [LEnKFOcean._getX_f] *)

(** [A.reshape(n)] *)
Definition reshape1 (A : array2) (n : nat) : outcome (list R) :=
  if Nat.eqb (shape0 A * shape1 A) n then Ok (flatten A) else Raise ValueError.

(** [X[:, idx] = v] *)
Definition set_column (X : array2) (idx : nat) (v : list R) : outcome array2 :=
  if negb (Nat.ltb idx (shape1 X)) then Raise IndexError
  else if negb (fits (shape0 X) (length v)) then Raise ValueError
  else Ok (mkArray2 (shape0 X) (shape1 X)
             (fun r k => if Nat.eqb k idx then nth (np.bidx (length v) r) v 0
                         else at2 X r k)).

Section StateMatrix.
Context {ext : External}.

(** The loop over the particles: the fields of an active particle, with
    their ghost cells, flattened and appended, become column [idx]. *)
Fixpoint getX_f_loop (es : list nat) (idx : nat) (X_f : array2) : Run array2 :=
  match es with
  | [] => ret X_f
  | e :: rest =>
      self <~ get_self ;;
      active <~ lift (getitem (particlesActive (self_ensemble self)) e) ;;
      if (active : bool) then
        p <~ lift (getitem (particles (self_ensemble self)) e) ;;
        _ <~ emit (CallDownload e false) ;;
        let '(eta, hu, hv) := download p false in
        eta <~ lift (reshape1 eta (n_i self * n_j self)) ;;
        hu <~ lift (reshape1 hu (n_i self * n_j self)) ;;
        hv <~ lift (reshape1 hv (n_i self * n_j self)) ;;
        X <~ lift (set_column X_f idx (eta ++ (hu ++ hv))) ;;
        getX_f_loop rest (S idx) X
      else getX_f_loop rest idx X_f
  end.

Definition _getX_f : Run (array2 * list R * array2) :=
  self <~ get_self ;;
  N_a <~ lift (getattr (N_e_active self)) ;;
  let rows := (3 * n_i self * n_j self)%nat in
  X_f <~ getX_f_loop (seq 0 (N_e self)) 0 (np.zeros rows N_a) ;;
  let X_f_mean :=
    map (fun r => sum_n (fun e => 1 / INR N_a * at2 X_f r e) N_a) (seq 0 rows) in
  let X_f_pert :=
    mkArray2 (shape0 X_f) (shape1 X_f) (fun r e => at2 X_f r e - nth r X_f_mean 0) in
  ret (X_f, X_f_mean, X_f_pert).

(** One of the three fields that a download hands out. *)
Definition field_of (fields : array2 * array2 * array2) (c : nat) : array2 :=
  match c with
  | O => fst (fst fields)
  | S O => snd (fst fields)
  | _ => snd fields
  end.

(** A download with ghost cells hands out fields of [n_i] rows and [n_j]
    columns. *)
Definition full_downloads_fit (ps : list Particle) (n_i n_j : nat) : Prop :=
  forall p c, In p ps ->
    shape0 (field_of (download p false) c) = n_i /\
    shape1 (field_of (download p false) c) = n_j.

(** The column of a particle: its three fields with their ghost cells,
    flattened and appended. *)
Definition state_vector (p : Particle) : list R :=
  let '(eta, hu, hv) := download p false in
  flatten eta ++ (flatten hu ++ flatten hv).

End StateMatrix.

(* ================================================================= *)
(** * [LEnKFOcean._constructRinv] *)

(** [A[i, j]] and [A[i, j] = v], an [IndexError] out of range. *)
Definition getitem2 (A : array2) (i j : nat) : outcome R :=
  if Nat.ltb i (shape0 A) && Nat.ltb j (shape1 A) then Ok (at2 A i j)
  else Raise IndexError.

Definition setitem2 (A : array2) (i j : nat) (v : R) : outcome array2 :=
  if Nat.ltb i (shape0 A) && Nat.ltb j (shape1 A)
  then Ok (mkArray2 (shape0 A) (shape1 A)
             (fun y x => if Nat.eqb y i && Nat.eqb x j then v else at2 A y x))
  else Raise IndexError.

(** [np.linalg.inv]: as [scipy.linalg.inv], but a [LinAlgError] also for
    a matrix that is not square. *)
Definition np_linalg_inv (A : array2) : outcome array2 :=
  if Nat.eqb (shape0 A) (shape1 A) then linalg.inv A else Raise LinAlgError.

(** The loop over the observations, lines 102-106. *)
Fixpoint constructR_loop (R_orig : array2) (N_d : nat) (ls : list nat) (R : array2)
  : outcome array2 :=
  match ls with
  | [] => Ok R
  | l :: rest =>
      v <- getitem2 R_orig 0 0 ;;
      R <- setitem2 R l l v ;;
      v <- getitem2 R_orig 1 1 ;;
      R <- setitem2 R (N_d + l) (N_d + l) v ;;
      v <- getitem2 R_orig 0 1 ;;
      R <- setitem2 R l (N_d + l) v ;;
      v <- getitem2 R_orig 1 0 ;;
      R <- setitem2 R (N_d + l) l v ;;
      constructR_loop R_orig N_d rest R
  end.

(** The matrix [R] that [_constructRinv] inverts. *)
Definition constructR (self : LEnKF) : outcome array2 :=
  let R_orig := getObservationCov (self_ensemble self) in
  let R := np.zeros (shape0 R_orig * N_d self) (shape1 R_orig * N_d self) in
  constructR_loop R_orig (N_d self) (seq 0 (N_d self)) R.

Definition _constructRinv (self : LEnKF) : outcome array2 :=
  R <- constructR self ;;
  np_linalg_inv R.

(** The entries of the matrix once the observations below [a] are done. *)
Definition blocks_below (R_orig : array2) (N a : nat) (R : array2) : Prop :=
  shape0 R = (2 * N)%nat /\ shape1 R = (2 * N)%nat /\
  forall i j, (i < 2 * N)%nat -> (j < 2 * N)%nat ->
    at2 R i j =
    if Nat.eqb (i mod N) (j mod N) && Nat.ltb (i mod N) a
    then at2 R_orig (i / N) (j / N) else 0.

(* ================================================================= *)
(** * Drifters of a multi-level ensemble: [gpuocean/drifters/MLDrifterCollection.py]

    The collection keeps one row of [positions] per drifter and ensemble
    member, the members of a drifter in consecutive rows, and one more
    row at the end, which the parent class uses for the observation.
    A position is a pair; what the parent class does is not part of this
    file, so a call of the parent is modelled by what it is handed. *)

Module MLDrifterCollection.

Record t : Type := mk {
  positions : list (R * R);
  ensemble_size : nat;
  num_unique_drifters : nat;
  numDrifters : nat;
  isPeriodic : bool
}.

(** Python's [str] of an integer. *)
Definition str (z : Z) : string := NilZero.string_of_int (Z.to_int z).

(** [np.repeat(a, n, axis=0)] *)
Definition np_repeat {T : Type} (a : list T) (n : nat) : list T :=
  flat_map (fun x => repeat x n) a.

(** [a[lo:hi]] for bounds that are not negative. *)
Definition slice {T : Type} (a : list T) (lo hi : nat) : list T :=
  firstn (hi - lo) (skipn lo a).

(** [a[start:stop:step]] for bounds that are not negative: the rows
    [start], [start + step], ... below [stop]. *)
Definition strided {T : Type} (a : list T) (start stop step : nat) : outcome (list T) :=
  if Nat.eqb step 0 then Raise ValueError
  else
    Ok (flat_map (fun k => match nth_error a (start + k * step) with
                           | Some x => [x]
                           | None => []
                           end)
          (seq 0 ((Nat.min stop (length a) - start + step - 1) / step))).

Definition expandDrifterPositions (self : t) (pos : list (R * R)) : list (R * R) :=
  np_repeat pos (ensemble_size self).

(** The third assertion of both getters builds its message from a string
    and an integer, which raises [TypeError] when the assertion fails. *)
Definition getDrifterPositionsForDrifter (self : t) (drifter_index : Z)
  : outcome (list (R * R)) :=
  _ <- assert (0 <=? drifter_index)%Z
         ("drifter_index must be positive, but got " ++ str drifter_index) ;;
  _ <- assert (drifter_index <? Z.of_nat (num_unique_drifters self))%Z
         ("drifter_index must be smaller than number of unique drifters ("
          ++ str (Z.of_nat (num_unique_drifters self)) ++ "), but got "
          ++ str drifter_index) ;;
  let i := Z.to_nat drifter_index in
  let pos := slice (positions self) (i * ensemble_size self)
               ((i + 1) * ensemble_size self) in
  if Nat.eqb (length pos) (ensemble_size self) then Ok pos else Raise TypeError.

Definition getDrifterPositionsForEnsembleMember (self : t) (ensemble_member : Z)
  : outcome (list (R * R)) :=
  _ <- assert (0 <=? ensemble_member)%Z
         ("ensemble_member must be positive, but got " ++ str ensemble_member) ;;
  _ <- assert (ensemble_member <? Z.of_nat (ensemble_size self))%Z
         ("drifter_index must be smaller than the ensemble size ("
          ++ str (Z.of_nat (ensemble_size self)) ++ "), but got "
          ++ str ensemble_member) ;;
  pos <- strided (positions self) (Z.to_nat ensemble_member)
           (length (positions self) - 1) (ensemble_size self) ;;
  if Nat.eqb (length pos) (num_unique_drifters self) then Ok pos else Raise TypeError.

(** What [setDrifterPositions] hands to the method of the parent class,
    [None] when it calls nothing. *)
Definition setDrifterPositions (self : t) (newDrifterPositions : list (R * R))
  : option (list (R * R)) :=
  if Nat.eqb (length newDrifterPositions) (numDrifters self)
  then Some newDrifterPositions
  else if Nat.eqb (length newDrifterPositions) (num_unique_drifters self)
  then Some (expandDrifterPositions self newDrifterPositions)
  else None.

(** [A[i, :] = v] and [A[:, j] = v] *)
Definition set_row (A : array2) (i : nat) (v : nat -> R) : array2 :=
  mkArray2 (shape0 A) (shape1 A) (fun y x => if Nat.eqb y i then v x else at2 A y x).

Definition set_col (A : array2) (j : nat) (v : nat -> R) : array2 :=
  mkArray2 (shape0 A) (shape1 A) (fun y x => if Nat.eqb x j then v y else at2 A y x).

(** [A[1:-1, 1:-1] = B] for a [B] of that shape. *)
Definition set_inner (A B : array2) : array2 :=
  mkArray2 (shape0 A) (shape1 A)
    (fun y x =>
       if Nat.leb 1 y && Nat.ltb y (shape0 A - 1) && Nat.leb 1 x && Nat.ltb x (shape1 A - 1)
       then at2 B (y - 1) (x - 1)
       else at2 A y x).

Definition _expandPeriodicField (field : array2) : array2 :=
  let ny := shape0 field in
  let nx := shape1 field in
  let exp_field := np.zeros (ny + 2) (nx + 2) in
  let exp_field := set_inner exp_field field in
  let exp_field := set_row exp_field 0 (at2 exp_field (ny + 2 - 2)) in
  let exp_field := set_row exp_field (ny + 2 - 1) (at2 exp_field 1) in
  let exp_field := set_col exp_field 0 (fun y => at2 exp_field y (nx + 2 - 2)) in
  set_col exp_field (nx + 2 - 1) (fun y => at2 exp_field y 1).

(** What [drift] hands to [driftFromVelocities] of the parent class. *)
Record velocities : Type := mkVelocities {
  u_field : array2;
  v_field : array2;
  dx : R;
  dy : R;
  dt : R;
  x_zero_ref : Z;
  y_zero_ref : Z;
  u_stddev : array2;
  v_stddev : array2;
  sensitivity : R
}.

Definition drift (self : t) (u_field v_field : array2) (dx dy dt : R)
  (x_zero_ref y_zero_ref : Z) (u_stddev v_stddev : option array2) (sensitivity : R)
  : outcome velocities :=
  match u_stddev, v_stddev with
  | Some u_stddev, Some v_stddev =>
      if isPeriodic self && Z.eqb x_zero_ref 0 && Z.eqb y_zero_ref 0
      then Ok (mkVelocities (_expandPeriodicField u_field) (_expandPeriodicField v_field)
                 dx dy dt 1 1
                 (_expandPeriodicField u_stddev) (_expandPeriodicField v_stddev)
                 sensitivity)
      else Ok (mkVelocities u_field v_field dx dy dt x_zero_ref y_zero_ref
                 u_stddev v_stddev sensitivity)
  | _, _ =>
      Raise (AssertionError
               "u_stddev and v_stddev must be provided for the MLDrifterCollection class to make sense")
  end.

End MLDrifterCollection.

(* ================================================================= *)
(** * Resampling schemes: [gpuocean/dataassimilation/DataAssimilationUtils.py]

    The ensemble is what the schemes read from it: its weights
    ([getGaussianWeight]) and its number of particles.  A scheme ends by
    handing the indices it sampled to [ensemble.resample]; the model
    returns these indices.  Random numbers are arguments. *)

(** [a[n] = x] on an array, an [IndexError] out of range. *)
Definition setitem {T : Type} (a : list T) (n : nat) (x : T) : outcome (list T) :=
  if Nat.ltb n (length a) then Ok (list_set a n x) else Raise IndexError.

(** [p < a / b] on numpy floats, for a finite [p] and weights that are not
    negative: a division by 0 gives inf or nan with a warning and no
    exception, [p < inf] holds and a comparison with nan does not. *)
Definition lt_quotient (p a b : R) : bool :=
  if Req_dec_T b 0 then (if Rlt_dec 0 a then true else false)
  else if Rlt_dec p (a / b) then true else false.

(** The loop of [metropolisHastingSampling]; [rand i] is the number drawn
    in iteration [i]. *)
Fixpoint metropolisHasting_loop (weights : list R) (rand : nat -> R) (steps : list nat)
  (newSampleIndices : list nat) : outcome (list nat) :=
  match steps with
  | [] => Ok newSampleIndices
  | i :: rest =>
      let p := rand i in
      w_i <- getitem weights i ;;
      previous <- getitem newSampleIndices (i - 1) ;;
      w_previous <- getitem weights previous ;;
      newSampleIndices <-
        (if lt_quotient p w_i w_previous
         then setitem newSampleIndices i i
         else setitem newSampleIndices i previous) ;;
      metropolisHasting_loop weights rand rest newSampleIndices
  end.

Definition metropolisHastingSampling (weights : list R) (getNumParticles : nat)
  (rand : nat -> R) : outcome (list nat) :=
  let newSampleIndices := repeat 0%nat (length weights) in
  newSampleIndices <- setitem newSampleIndices 0 0%nat ;;
  metropolisHasting_loop weights rand (seq 1 (getNumParticles - 1)) newSampleIndices.

(** The indices that the loop has settled below [a]: the first is 0, and
    each later one is its own position when the draw accepts it and the
    index before it otherwise. *)
Definition settled (weights : list R) (rand : nat -> R) (a : nat) (idx : list nat) : Prop :=
  nth 0 idx 0%nat = 0%nat /\
  forall i, (1 <= i < a)%nat ->
    nth i idx 0%nat =
    if lt_quotient (rand i) (nth i weights 0) (nth (nth (i - 1) idx 0%nat) weights 0)
    then i else nth (i - 1) idx 0%nat.

(** [np.sum] of a one-dimensional array. *)
Definition np_sum (a : list R) : R := fold_right Rplus 0 a.

(** [np.repeat(a, repeats)] with an array of counts: one count per
    element, or a single count for all; a [ValueError] for counts that
    do not fit or are negative. *)
Definition np_repeat_counts (a : list nat) (repeats : list Z) : outcome (list nat) :=
  if existsb (fun c => (c <? 0)%Z) repeats then Raise ValueError
  else if Nat.eqb (length repeats) (length a)
  then Ok (flat_map (fun ac => repeat (fst ac) (Z.to_nat (snd ac))) (combine a repeats))
  else if Nat.eqb (length repeats) 1
  then Ok (flat_map (fun x => repeat x (Z.to_nat (hd 0%Z repeats))) a)
  else Raise ValueError.

(** [np.random.choice(a, size, p=p)]: [choose size p] stands for the
    positions that are drawn.  The probabilities have to be as many as
    the elements, not negative and of sum 1, the size not negative. *)
Definition np_random_choice (choose : nat -> list R -> list nat) (a : list nat)
  (size : Z) (p : list R) : outcome (list nat) :=
  if negb (Nat.eqb (length p) (length a)) then Raise ValueError
  else if existsb (fun x => if Rlt_dec x 0 then true else false) p then Raise ValueError
  else if negb (Reqb (np_sum p) 1) then Raise ValueError
  else if (size <? 0)%Z then Raise ValueError
  else Ok (map (fun k => nth k a 0%nat) (choose (Z.to_nat size) p)).

(** [residualSampling]: the index arrays handed to [ensemble.resample],
    call by call. *)
Definition residualSampling (weights : list R) (getNumParticles : nat)
  (choose : nat -> list R -> list nat) (onlyDeterministic onlyStochastic : bool)
  : outcome (list (list nat)) :=
  let allIndices := seq 0 getNumParticles in
  let weightsTimesN := map (fun w => w * INR getNumParticles) weights in
  let weightsTimesNInteger := map floorZ weightsTimesN in
  deterministicResampleIndices <- np_repeat_counts allIndices weightsTimesNInteger ;;
  let decimalWeights := map (fun x => x - IZR (floorZ x)) weightsTimesN in
  let total := np_sum decimalWeights in
  let decimalWeights := map (fun x => x / total) decimalWeights in
  stochasticResampleIndices <-
    np_random_choice choose allIndices
      (Z.of_nat getNumParticles - Z.of_nat (length deterministicResampleIndices))
      decimalWeights ;;
  Ok ((if onlyDeterministic then [deterministicResampleIndices] else [])
      ++ (if onlyStochastic then [stochasticResampleIndices] else [])
      ++ [deterministicResampleIndices ++ stochasticResampleIndices]).

(** What a theorem assumes of the random draws: from probabilities that
    are not empty, as many positions as asked for, each the position of
    a probability. *)
Definition draws_positions (choose : nat -> list R -> list nat) : Prop :=
  forall size p, p <> [] ->
    length (choose size p) = size /\
    Forall (fun k => (k < length p)%nat) (choose size p).

(** [np.cumsum] *)
Fixpoint cumsum_from (acc : R) (a : list R) : list R :=
  match a with
  | [] => []
  | x :: rest => (acc + x) :: cumsum_from (acc + x) rest
  end.

Definition np_cumsum (a : list R) : list R := cumsum_from 0 a.

Definition Rleb (a b : R) : bool := if Rle_dec a b then true else false.
Definition Rltb (a b : R) : bool := if Rlt_dec a b then true else false.

(** The edges of [np.histogram] have to increase, not strictly. *)
Fixpoint increasing (edges : list R) : bool :=
  match edges with
  | a :: ((b :: _) as rest) => Rleb a b && increasing rest
  | _ => true
  end.

(** [np.histogram(values, bins=edges)[0]]: bin [i] counts the values from
    edge [i] up to, but not including, edge [i + 1]; the last bin
    includes its upper edge.  Values outside the edges are not counted. *)
Definition in_bin (edges : list R) (i : nat) (v : R) : bool :=
  Rleb (nth i edges 0) v
  && (if Nat.eqb (S (S i)) (length edges)
      then Rleb v (nth (S i) edges 0)
      else Rltb v (nth (S i) edges 0)).

Definition np_histogram (values edges : list R) : outcome (list nat) :=
  if increasing edges
  then Ok (map (fun i => length (filter (in_bin edges i) values))
             (seq 0 (length edges - 1)))
  else Raise ValueError.

(** [stochasticUniversalSampling]: the indices handed to
    [ensemble.resample]; [rand] is the number drawn for the start. *)
Definition stochasticUniversalSampling (weights : list R) (getNumParticles : nat)
  (rand : R) : outcome (list nat) :=
  let allIndices := seq 0 getNumParticles in
  let cumulativeWeights := 0 :: np_cumsum weights in
  startPos <- py_div rand (INR getNumParticles) ;;
  lengths <- py_div 1 (INR getNumParticles) ;;
  let selectionValues := map (fun i => INR i * lengths + startPos) allIndices in
  bucketValues <- np_histogram selectionValues cumulativeWeights ;;
  np_repeat_counts allIndices (map Z.of_nat bucketValues).

(** The selection values of [stochasticUniversalSampling], and how many
    values of a list lie below a bound. *)
Definition selection_value (N : nat) (rand : R) (k : nat) : R :=
  INR k * (1 / INR N) + rand / INR N.

Definition count_below (values : list R) (t : R) : nat :=
  length (filter (fun v => Rltb v t) values).
(* ================================================================= *)
(** * Predicates and concrete inputs used in the statements *)

(** A group is far apart when every entry of its distance submatrix is at
    least the threshold. *)
Definition far_apart (M : nat -> nat -> R) (threshold : R) (G : list nat) : Prop :=
  forall i j, In i G -> In j G -> threshold <= M i j.

(** The shape of the group list while group [g] is being thinned: the
    finished groups, group [g], and at most one group after it. *)
Definition short (rest : list (list nat)) : Prop :=
  rest = [] \/ exists H, rest = [H].

Definition nonempty (G : list nat) : Prop := G <> [].

(** Two buoys one cell apart on a 10 x 10 periodic grid. *)
Definition particle_10 : Particle := mkParticle 10 10 2 2 1 (np.zeros 14 14) (np.zeros 14 14) (np.zeros 14 14).

Definition two_buoys : Ensemble :=
  mkEnsemble [particle_10] [true] 1 1 2 StaticBuoys 1 1 10 10
    (np.eye 2) [] [(1, 1); (2, 1)] false 1.

Definition no_buoys : Ensemble :=
  mkEnsemble [particle_10] [true] 1 1 0 StaticBuoys 1 1 10 10
    (np.eye 2) [] [] false 1.

(** Every entry of an array is at least 0. *)
Definition nonneg2 (A : array2) : Prop := forall y x, 0 <= at2 A y x.

(** One buoy in the middle of a 10 x 10 grid, three active particles, and a
    filter bound to it whose groups are already built. *)
Definition one_buoy : Ensemble :=
  mkEnsemble [particle_10; particle_10; particle_10] [true; true; true] 3 3 1
    StaticBuoys 1 1 10 10 (np.eye 2) [[5; 5; 0; 0]] [(5, 5)] false 1.

Definition one_buoy_filter : LEnKF :=
  {| self_ensemble := one_buoy; N_e := 3; N_d := 1; n_i := 14; n_j := 14;
     self_ghost_cells_y := 2; self_ghost_cells_x := 2;
     inflation_factor := 1; scale_w := 1; r_factor := 0.5;
     W_loc := None; all_Ls := None; all_xrolls := []; all_yrolls := [];
     groups := Some [[O]]; method := "SEnKF"; N_e_active := Some 3%nat;
     drifter_positions := Some [(5, 5)];
     W_analyses := None; W_forecasts := None |}.

(** A 2 x 2 matrix whose quadratic form is positive away from 0. *)
Definition positive_definite2 (A : array2) : Prop :=
  shape0 A = 2%nat /\ shape1 A = 2%nat /\
  forall x y, x <> 0 \/ y <> 0 ->
    0 < x * (at2 A 0 0 * x + at2 A 0 1 * y) + y * (at2 A 1 0 * x + at2 A 1 1 * y).

(** The quadratic form of the inverse of a 2 x 2 matrix. *)
Definition quad_inv (A : array2) (d1 d2 : R) : R :=
  (at2 A 1 1 * d1 * d1 - (at2 A 0 1 + at2 A 1 0) * d1 * d2 + at2 A 0 0 * d2 * d2)
  / (at2 A 0 0 * at2 A 1 1 - at2 A 0 1 * at2 A 1 0).

(** What a particle stores: its fields with their ghost cells, or their
    interior. *)
Definition interior (p : Particle) (A : array2) : array2 :=
  mkArray2 (p_ny p) (p_nx p)
    (fun y x => at2 A (y + ghost_cells_y p) (x + ghost_cells_x p)).

Definition stored_fields (p : Particle) (interior_domain_only : bool)
  : array2 * array2 * array2 :=
  if interior_domain_only
  then (interior p (p_eta p), interior p (p_hu p), interior p (p_hv p))
  else (p_eta p, p_hu p, p_hv p).

(** A simulator that hands out what a particle stores and stores what it
    is handed, draws without noise and has no eigen-decomposition. *)
#[local] Instance still_water : External := {
  download := stored_fields;
  upload p eta hu hv :=
    mkParticle (p_nx p) (p_ny p) (ghost_cells_x p) (ghost_cells_y p) (p_dx p)
      eta hu hv;
  applyBoundaryConditions p := p;
  normal_draws _ _ _ := 0;
  eigh _ := Raise LinAlgError
}.

(** Calls that leave the particles as they are. *)
Definition is_download (ev : Event) : Prop :=
  match ev with
  | CallDownload _ _ => True
  | _ => False
  end.

(** The ensemble the filter refers to is, in the state it had at the
    start, its own or the one handed in; and since the start only
    downloads were called. *)
Definition ens_ok (E0 : Ensemble) (ensemble : option Ensemble) (E : Ensemble) : Prop :=
  E = E0 \/ Some E = ensemble.

Definition untouched (E0 : Ensemble) (ensemble : option Ensemble) (C0 : list Event)
  (w : World) : Prop :=
  ens_ok E0 ensemble (self_ensemble (the_filter w)) /\
  exists dl, the_calls w = C0 ++ dl /\ Forall is_download dl.

(** A run keeps an invariant of the state and, when it returns, its
    result satisfies [Q]. *)
Definition keeps (P : World -> Prop) {A : Type} (m : Run A) (Q : A -> Prop) : Prop :=
  forall w, P w -> P (snd (m w)) /\ forall a, fst (m w) = Ok a -> Q a.

Section Calls.

Context {ext : External}.

(** What a call does to the particles. *)
Definition apply_call (ps : list Particle) (ev : Event) : list Particle :=
  match ev with
  | CallDownload _ _ => ps
  | CallUpload e eta hu hv =>
      match nth_error ps e with
      | Some p => list_set ps e (upload p eta hu hv)
      | None => ps
      end
  | CallApplyBoundaryConditions e =>
      match nth_error ps e with
      | Some p => list_set ps e (applyBoundaryConditions p)
      | None => ps
      end
  end.

(** The calls of an upload: for every particle of the list in turn, one
    upload of the padded fields of its column of [X_new], then one
    application of the boundary conditions, and nothing else. *)
Inductive uploads_from (pad : array2 -> outcome array2) (X_new : array4)
  : nat -> list nat -> list Event -> Prop :=
| uploads_nil idx : uploads_from pad X_new idx [] []
| uploads_cons idx e es eta hu hv ul :
    (A <- slab X_new idx 0 ;; pad A) = Ok eta ->
    (A <- slab X_new idx 1 ;; pad A) = Ok hu ->
    (A <- slab X_new idx 2 ;; pad A) = Ok hv ->
    uploads_from pad X_new (S idx) es ul ->
    uploads_from pad X_new idx (e :: es)
      (CallUpload e eta hu hv :: CallApplyBoundaryConditions e :: ul).

Definition pad_of (self : LEnKF) : array2 -> outcome array2 :=
  embed_interior (ens_ny (self_ensemble self)) (ens_nx (self_ensemble self))
    (self_ghost_cells_y self) (self_ghost_cells_x self).

Definition active_of (self : LEnKF) (es : list nat) : list nat :=
  filter (fun e => nth e (particlesActive (self_ensemble self)) false) es.

(** A download hands out fields of the size of the grid. *)
Definition downloads_fit (ps : list Particle) (ny nx : nat) : Prop :=
  forall p, In p ps ->
    let '(eta, hu, hv) := download p true in
    (shape0 eta = ny /\ shape1 eta = nx) /\
    (shape0 hu = ny /\ shape1 hu = nx) /\
    (shape0 hv = ny /\ shape1 hv = nx).

End Calls.

(** The particles that a list of calls uploads to, and those whose boundary
    conditions it applies, in the order of the calls. *)
Definition uploaded_particles (ul : list Event) : list nat :=
  flat_map (fun ev => match ev with CallUpload e _ _ _ => [e] | _ => [] end) ul.

Definition boundary_particles (ul : list Event) : list nat :=
  flat_map (fun ev => match ev with CallApplyBoundaryConditions e => [e] | _ => [] end) ul.

(** An outcome other than a failed assertion. *)
Definition no_assert {A : Type} (m : outcome A) : Prop :=
  forall msg, m <> Raise (AssertionError msg).

(** The ensemble agrees with what the constructor recorded: the numbers of
    particles and of drifters and the size of the padded grid. *)
Definition configuration_matches (self : LEnKF) (e : Ensemble) (first final : Particle)
  : Prop :=
  N_e self = getNumParticles e /\
  N_d self = getNumDrifters e /\
  n_i self = (p_ny first + 2 * ghost_cells_y final)%nat /\
  n_j self = (p_nx first + 2 * ghost_cells_x final)%nat.

Definition is_assertion_error {A : Type} (o : outcome A) : Prop :=
  exists msg, o = Raise (AssertionError msg).

(** A run that never fails an assertion. *)
Definition run_no_assert {A : Type} (m : Run A) : Prop :=
  forall w, no_assert (fst (m w)).

(** The same ensemble with its last particle switched off, and with a second
    drifter. *)
Definition one_buoy_two_active : Ensemble :=
  mkEnsemble [particle_10; particle_10; particle_10] [true; true; false] 3 2 1
    StaticBuoys 1 1 10 10 (np.eye 2) [[5; 5; 0; 0]] [(5, 5)] false 1.

Definition one_buoy_two_drifters : Ensemble :=
  mkEnsemble [particle_10; particle_10; particle_10] [true; true; true] 3 3 2
    StaticBuoys 1 1 10 10 (np.eye 2) [[5; 5; 0; 0]] [(5, 5)] false 1.


(** What the local updates rely on of [scipy.linalg.eigh]. *)
Definition eigh_contract (ext : External) : Prop :=
  forall M w V, eigh M = Ok (w, V) -> linalg.eigh_ok M w V.

(** Two active particles around one buoy, a filter bound to them, and a
    local patch of one cell: forecast perturbations [1, -1] whose observed
    perturbations are [2, -2] in the first component and 0 in the second. *)
Definition two_particles : Ensemble :=
  mkEnsemble [particle_10; particle_10] [true; true] 2 2 1
    StaticBuoys 1 1 10 10 (np.eye 2) [[5; 5; 0; 0]] [(5, 5)] false 1.

Definition two_particle_filter : LEnKF :=
  {| self_ensemble := two_particles; N_e := 2; N_d := 1; n_i := 14; n_j := 14;
     self_ghost_cells_y := 2; self_ghost_cells_x := 2;
     inflation_factor := 1; scale_w := 1; r_factor := 0.5;
     W_loc := None; all_Ls := None; all_xrolls := []; all_yrolls := [];
     groups := Some [[O]]; method := "ETKF"; N_e_active := Some 2%nat;
     drifter_positions := Some [(5, 5)];
     W_analyses := None; W_forecasts := None |}.

Definition spread_X : array2 :=
  mkArray2 1 2 (fun _ j => if Nat.eqb j 0 then 1 else -1).

Definition spread_HX : array2 :=
  mkArray2 2 2 (fun i j => if Nat.eqb i 0 then (if Nat.eqb j 0 then 2 else -2) else 0).

(** The eigenvectors of [[5, -4], [-4, 5]], for its eigenvalues 1 and 9. *)
Definition sqrt2_inv : R := / sqrt 2.

Definition spread_V : array2 :=
  mkArray2 2 2 (fun i j => if Nat.eqb i 1 && Nat.eqb j 1 then - sqrt2_inv else sqrt2_inv).

Definition is_matrix2 (M : array2) (a b c d : R) : bool :=
  Nat.eqb (shape0 M) 2 && Nat.eqb (shape1 M) 2 &&
  Reqb (at2 M 0 0) a && Reqb (at2 M 0 1) b && Reqb (at2 M 1 0) c && Reqb (at2 M 1 1) d.

(** A simulator like [still_water] whose [eigh] knows two matrices: that
    one and the identity. *)
#[local] Instance eigh_table : External := {
  download := stored_fields;
  upload p eta hu hv :=
    mkParticle (p_nx p) (p_ny p) (ghost_cells_x p) (ghost_cells_y p) (p_dx p)
      eta hu hv;
  applyBoundaryConditions p := p;
  normal_draws _ _ _ := 0;
  eigh M :=
    if is_matrix2 M 5 (-4) (-4) 5 then Ok ([1; 9], spread_V)
    else if is_matrix2 M 1 0 0 1 then Ok ([1; 1], np.eye 2)
    else Raise LinAlgError
}.

(** The filter that the constructor builds for [one_buoy]. *)
Definition fresh_filter : LEnKF :=
  {| self_ensemble := one_buoy; N_e := 3; N_d := 1; n_i := 14; n_j := 14;
     self_ghost_cells_y := 2; self_ghost_cells_x := 2;
     inflation_factor := 1; scale_w := 1; r_factor := 15;
     W_loc := None; all_Ls := None; all_xrolls := []; all_yrolls := [];
     groups := None; method := "SEnKF"; N_e_active := None;
     drifter_positions := None;
     W_analyses := None; W_forecasts := None |}.

(** The filter with another [inflation_factor]. *)
Definition with_inflation_factor (self : LEnKF) (infl : R) : LEnKF :=
  {| self_ensemble := self_ensemble self; N_e := N_e self; N_d := N_d self;
     n_i := n_i self; n_j := n_j self;
     self_ghost_cells_y := self_ghost_cells_y self;
     self_ghost_cells_x := self_ghost_cells_x self;
     inflation_factor := infl; scale_w := scale_w self;
     r_factor := r_factor self;
     W_loc := W_loc self; all_Ls := all_Ls self;
     all_xrolls := all_xrolls self; all_yrolls := all_yrolls self;
     groups := groups self; method := method self;
     N_e_active := N_e_active self; drifter_positions := drifter_positions self;
     W_analyses := W_analyses self; W_forecasts := W_forecasts self |}.

(* ================================================================= *)
(** * Further predicates used in the statements *)

(** The ranges of one axis that [getLocalIndices] builds from the two
    ends of the box, and the roll. *)
Definition axis_ranges (n : nat) (lo hi : Z) : list (Z * Z) * Z :=
  if (lo <? 0)%Z then ([(Z.of_nat n + lo, Z.of_nat n); (0, hi)], lo)%Z
  else if (Z.of_nat n <? hi)%Z then
    ([(0, hi - Z.of_nat n); (lo, Z.of_nat n)], hi - Z.of_nat n)%Z
  else ([(lo, hi)], 0%Z).

(** The cell of an observation lies in the domain (its right and upper
    edges included, where the position rounds up). *)
Definition cell_in_domain (dx : R) (nx ny : nat) (obs : R * R) : Prop :=
  (0 <= roundZ (fst obs / dx) <= Z.of_nat nx)%Z /\
  (0 <= roundZ (snd obs / dx) <= Z.of_nat ny)%Z.

(** An array of shape (n, m). *)
Definition has_shape (n m : nat) (A : array2) : Prop := shape0 A = n /\ shape1 A = m.

Definition same_shape4 (X Y : array4) : Prop :=
  a4_shape0 X = a4_shape0 Y /\ a4_shape1 X = a4_shape1 Y /\
  a4_shape2 X = a4_shape2 Y /\ a4_shape3 X = a4_shape3 Y.

(** The filter after the first block of [_prepare_LEnKF]. *)
Definition bound_filter (self : LEnKF) (ensemble : option Ensemble) : LEnKF :=
  match ensemble with
  | Some e => with_ensemble self e (Some (getNumActiveParticles e))
  | None => self
  end.

(** The assertions of [_prepare_LEnKF] hold, or there is no ensemble to
    check. *)
Definition configuration_accepted (self : LEnKF) (ensemble : option Ensemble) : Prop :=
  match ensemble with
  | Some e => check_configuration self e = Ok tt
  | None => True
  end.

Section Innovation.
Context {ext : External}.

(** The innovation that [SEnKF_loc] computes when it is handed none,
    lines 562-564. *)
Definition SEnKF_innovation (self : LEnKF) (d : nat) (y_loc HX_f_loc_mean : list R)
  (HX_f_loc_pert : array2) : outcome array2 :=
  Y <- np.add (np.row y_loc) (np.multivariate_normal (normal_draws d) (N_e self)) ;;
  let Y_loc := np.T Y in
  HX <- np.add (np.column HX_f_loc_mean) HX_f_loc_pert ;;
  np.subtract Y_loc HX.

End Innovation.

(** Every entry of the array is 0. *)
Definition zero2 (A : array2) : Prop := forall i j, at2 A i j = 0.

(** No call was made since [calls], and the attribute [f] of the filter
    has the value [v]. *)
Definition field_is {T : Type} (f : LEnKF -> T) (v : T) (calls : list Event)
  (w : World) : Prop :=
  the_calls w = calls /\ f (the_filter w) = v.

(** ** What a theorem assumes of the simulator

    [a] is the interior of the padded field: the field without its ghost
    cells. *)
Definition interior_of (ny nx gy gx : nat) (a padded : array2) : Prop :=
  shape0 a = ny /\ shape1 a = nx /\
  forall y x, (y < ny)%nat -> (x < nx)%nat -> at2 a y x = at2 padded (y + gy) (x + gx).

(** After an upload to a particle and the boundary conditions, a download
    of the interior gives the interior of what was uploaded. *)
Definition reads_back (ext : External) (ny nx gy gx : nat) (p : Particle) : Prop :=
  forall eta hu hv,
    let '(a, b, c) := download (applyBoundaryConditions (upload p eta hu hv)) true in
    interior_of ny nx gy gx a eta /\
    interior_of ny nx gy gx b hu /\
    interior_of ny nx gy gx c hv.

(** Every entry of [A] within its shape is zero. *)
Definition zero_rows (A : array2) : Prop :=
  forall i j, (i < shape0 A)%nat -> (j < shape1 A)%nat -> at2 A i j = 0.

(** An ensemble without spread: every perturbation within the shape of the
    array is zero. *)
Definition without_spread (X_pert : array4) : Prop :=
  forall e c y x,
    (e < a4_shape0 X_pert)%nat -> (c < a4_shape1 X_pert)%nat ->
    (y < a4_shape2 X_pert)%nat -> (x < a4_shape3 X_pert)%nat ->
    at4 X_pert e c y x = 0.

(** The weight that the stencil [W], laid over the cells of the patch [L]
    in the order of the mask, puts on the cell [(y, x)]; nothing outside
    the patch. *)
Definition stencil_on (W : array2) (L : mask2) (y x : nat) : R :=
  if mask_at L y x
  then
    let k := index_of (y, x) (true_cells L) in
    at2 W (k / shape1 W)%nat (k mod shape1 W)%nat
  else 0.

(** The weights of the stencil over several patches, added up. *)
Definition stencil_sum (W : array2) (Ls : list mask2) (y x : nat) : R :=
  fold_right (fun L s => stencil_on W L y x + s) 0 Ls.

(** The patch stored for the observation [d] is the one that
    [getLocalIndices] gives at its position, it does not wrap around the
    domain, and it has as many cells as the stencil [W]. *)
Definition patch_without_wrap (self : LEnKF) (Ls : list mask2)
  (positions : list (R * R)) (W : array2) (nx ny : nat) (d : nat) : Prop :=
  exists L o,
    nth_error Ls d = Some L /\ nth_error positions d = Some o /\
    getLocalIndices o (r_factor self)
      (ens_dx (self_ensemble self)) (ens_dy (self_ensemble self)) nx ny
      = Ok (L, 0%Z, 0%Z) /\
    nth_error (all_xrolls self) d = Some 0%Z /\
    nth_error (all_yrolls self) d = Some 0%Z /\
    mshape0 L = ny /\ mshape1 L = nx /\
    length (true_cells L) = (shape0 W * shape1 W)%nat.

(** The messages of the assertions of [_prepare_LEnKF]. *)
Definition configuration_messages : list string :=
  ["ensemble changed size"; "ensemble changed number of drifter";
   "ensemble changed size of physical domain"]%string.

(** A failure of one of the assertions of [_prepare_LEnKF]. *)
Definition is_configuration_error {A : Type} (o : outcome A) : Prop :=
  exists msg, In msg configuration_messages /\ o = Raise (AssertionError msg).

(** An outcome whose only failed assertion, if any, has the message [msg0]. *)
Definition asserts_only (msg0 : string) {A : Type} (m : outcome A) : Prop :=
  forall msg, m = Raise (AssertionError msg) -> msg = msg0.

Definition run_asserts_only (msg0 : string) {A : Type} (m : Run A) : Prop :=
  forall w, asserts_only msg0 (fst (m w)).

(** What the call was handed and what the filter recorded do not fit the
    local update: the stochastic update with more than one active
    particle, or the transform with one flag per particle, and a number of
    active particles that is not the number of particles. *)
Definition update_misfit (self : LEnKF) (e : Ensemble) (N_a : nat) : Prop :=
  N_a <> N_e self /\
  ((method self = "SEnKF"%string /\ (1 < N_a)%nat) \/
   (method self = "ETKF"%string /\ length (particlesActive e) = N_e self)).

(** A filter with adaptive inflation bound to [one_buoy], and forecast
    perturbations [1, -1, 0] on a local patch of one cell. *)
Definition adaptive_filter : LEnKF :=
  {| self_ensemble := one_buoy; N_e := 3; N_d := 1; n_i := 14; n_j := 14;
     self_ghost_cells_y := 2; self_ghost_cells_x := 2;
     inflation_factor := 0; scale_w := 1; r_factor := 0.5;
     W_loc := None; all_Ls := None; all_xrolls := []; all_yrolls := [];
     groups := Some [[O]]; method := "ETKF"; N_e_active := Some 3%nat;
     drifter_positions := Some [(5, 5)];
     W_analyses := None; W_forecasts := None |}.

Definition spread_X3 : array2 :=
  mkArray2 1 3 (fun _ j => match j with O => 1 | S O => -1 | _ => 0 end).

(** The matrix [M] is [s] times the identity of size 3. *)
Definition is_scalar3 (M : array2) (s : R) : bool :=
  Nat.eqb (shape0 M) 3 && Nat.eqb (shape1 M) 3 &&
  forallb (fun i => forallb (fun j => Reqb (at2 M i j) (if Nat.eqb i j then s else 0))
                      (seq 0 3)) (seq 0 3).

(** A simulator like [still_water] whose [eigh] knows one matrix: a ninth
    of the identity of size 3. *)
Definition eigh_ninth : External := {|
  download := stored_fields;
  upload p eta hu hv :=
    mkParticle (p_nx p) (p_ny p) (ghost_cells_x p) (ghost_cells_y p) (p_dx p)
      eta hu hv;
  applyBoundaryConditions p := p;
  normal_draws _ _ _ := 0;
  eigh M := if is_scalar3 M (1 / 9) then Ok ([1 / 9; 1 / 9; 1 / 9], np.eye 3)
            else Raise LinAlgError
|}.

(** The filter that the first call for [one_buoy], with the radius 0.5,
    has prepared. *)
Definition one_buoy_prepared_filter : LEnKF :=
  the_filter (snd (_prepare_LEnKF (Some one_buoy) (Some 0.5) (mkWorld fresh_filter []))).
(* ================================================================= *)
(** * Proofs *)

(** ** The kernel *)

Ltac nonneg t :=
  assert (0 <= t) by (repeat (apply Rmult_le_pos || apply pow_le); lra).

Lemma GC_inner_mono a b :
  0 <= a -> a <= b -> b <= 1 -> GC_inner b <= GC_inner a.
Proof.
  intros Ha Hab Hb.
  assert (E : GC_inner a - GC_inner b =
     (b - a) * (5/3*(a+b) - 5/8*(a^2+a*b+b^2) - 1/2*(a+b)*(a^2+b^2)
               + 1/4*(a^4+a^3*b+a^2*b^2+a*b^3+b^4))).
  { unfold GC_inner. ring. }
  enough (0 <= GC_inner a - GC_inner b) by lra.
  rewrite E. apply Rmult_le_pos; [lra|].
  nonneg ((b-a)^2*(1-b)). nonneg ((b-a)*(1-b)^2).
  nonneg (a^3*(b-a)). nonneg (a^3*(1-b)). nonneg (a^2*(b-a)^2).
  nonneg (a^2*(b-a)*(1-b)). nonneg (a^2*(1-b)^2). nonneg (a*(b-a)^3).
  nonneg (a*(b-a)^2*(1-b)). nonneg (a*(b-a)*(1-b)^2). nonneg (a*(1-b)^3).
  nonneg ((b-a)^4).
  lra.
Qed.

Lemma GC_outer_mono a b :
  1 <= a -> a <= b -> b <= 2 -> GC_outer b <= GC_outer a.
Proof.
  intros Ha Hab Hb.
  assert (E : GC_outer a - GC_outer b =
     (b - a) * / (a * b) *
     (a*b*(5 - 5/3*(a+b) - 5/8*(a^2+a*b+b^2) + 1/2*(a+b)*(a^2+b^2)
           - 1/12*(a^4+a^3*b+a^2*b^2+a*b^3+b^4)) - 2/3)).
  { unfold GC_outer. field. lra. }
  enough (0 <= GC_outer a - GC_outer b) by lra.
  rewrite E. apply Rmult_le_pos.
  - apply Rmult_le_pos; [lra|]. left. apply Rinv_0_lt_compat. nra.
  - nonneg ((b-a)^3*(2-b)^2). nonneg ((2-b)^6). nonneg ((b-a)^2*(2-b)).
    nonneg ((a-1)*(b-a)^4*(2-b)). nonneg ((a-1)^2*(b-a)^3).
    nonneg ((a-1)^2*(b-a)*(2-b)^2). nonneg ((a-1)*(b-a)^2*(2-b)).
    nonneg ((a-1)*(2-b)^3). nonneg ((a-1)^3*(b-a)*(2-b)^2).
    nonneg ((b-a)*(2-b)^4). nonneg ((a-1)^2*(2-b)^3). nonneg ((a-1)*(b-a)^4).
    nonneg ((a-1)^2*(b-a)*(2-b)^3). nonneg ((a-1)*(2-b)^5).
    nonneg ((a-1)*(b-a)^2*(2-b)^3). nonneg ((b-a)^4).
    nonneg ((b-a)^3*(2-b)^3). nonneg ((a-1)*(b-a)*(2-b)^2).
    nonneg ((b-a)*(2-b)^3). nonneg ((a-1)*(b-a)^2*(2-b)^2).
    lra.
Qed.

Lemma GC_branches_meet : GC_inner 1 = GC_outer 1.
Proof. unfold GC_inner, GC_outer. field. Qed.

Lemma GC_outer_2 : GC_outer 2 = 0.
Proof. unfold GC_outer. field. Qed.

Lemma GC_inner_1 : GC_inner 1 = 5/24.
Proof. unfold GC_inner. field. Qed.

Lemma GC_outer_nonneg z : 1 <= z -> z <= 2 -> 0 <= GC_outer z.
Proof.
  intros H1 H2. rewrite <- GC_outer_2. apply GC_outer_mono; lra.
Qed.

Lemma GC_inner_lower z : 0 <= z -> z <= 1 -> 5/24 <= GC_inner z.
Proof.
  intros H0 H1. rewrite <- GC_inner_1. apply GC_inner_mono; lra.
Qed.

Lemma distGC_value_nonneg d r : 0 <= d / r -> 0 <= distGC_value d r.
Proof.
  intros Hz. unfold distGC_value.
  destruct (Req_dec_T r 0); [lra|].
  destruct (Rlt_dec (d / r) 1).
  - pose proof (GC_inner_lower (d / r)). lra.
  - destruct (Rle_dec 1 (d / r)); [|lra].
    destruct (Rlt_dec (d / r) 2); [|lra].
    apply GC_outer_nonneg; lra.
Qed.

Lemma distGC_value_mono_z d1 d2 r :
  0 <= d1 / r -> d1 / r <= d2 / r -> distGC_value d2 r <= distGC_value d1 r.
Proof.
  intros H0 H12. unfold distGC_value.
  destruct (Req_dec_T r 0); [lra|].
  destruct (Rlt_dec (d2 / r) 1) as [A2|A2].
  - destruct (Rlt_dec (d1 / r) 1); [|lra].
    apply GC_inner_mono; lra.
  - destruct (Rle_dec 1 (d2 / r)) as [B2|B2]; [|lra].
    destruct (Rlt_dec (d1 / r) 1) as [A1|A1].
    + destruct (Rlt_dec (d2 / r) 2) as [C2|C2].
      * pose proof (GC_inner_mono (d1 / r) 1).
        pose proof (GC_outer_mono 1 (d2 / r)).
        pose proof GC_branches_meet. lra.
      * pose proof (GC_inner_lower (d1 / r)). lra.
    + destruct (Rle_dec 1 (d1 / r)) as [B1|B1]; [|lra].
      destruct (Rlt_dec (d1 / r) 2) as [C1|C1].
      * destruct (Rlt_dec (d2 / r) 2) as [C2|C2].
        -- apply GC_outer_mono; lra.
        -- apply GC_outer_nonneg; lra.
      * destruct (Rlt_dec (d2 / r) 2); lra.
Qed.

Lemma div_le_div d1 d2 r : 0 < r -> d1 <= d2 -> d1 / r <= d2 / r.
Proof.
  intros Hr H. unfold Rdiv. apply Rmult_le_compat_r; [|exact H].
  left. apply Rinv_0_lt_compat. exact Hr.
Qed.

Lemma distGC_value_inner d r : 0 < r -> d < r -> distGC_value d r = GC_inner (d / r).
Proof.
  intros Hr Hd. unfold distGC_value.
  destruct (Req_dec_T r 0); [lra|].
  assert (d / r < 1).
  { apply (Rmult_lt_reg_r r); [exact Hr|]. unfold Rdiv.
    rewrite Rmult_assoc, Rinv_l by lra. lra. }
  destruct (Rlt_dec (d / r) 1); [reflexivity | lra].
Qed.

Lemma distGC_value_outer d r :
  0 < r -> r <= d -> d < 2 * r -> distGC_value d r = GC_outer (d / r).
Proof.
  intros Hr H1 H2. unfold distGC_value.
  destruct (Req_dec_T r 0); [lra|].
  assert (1 <= d / r).
  { replace 1 with (r / r) by (field; lra). apply div_le_div; assumption. }
  assert (d / r < 2).
  { apply (Rmult_lt_reg_r r); [exact Hr|]. unfold Rdiv.
    rewrite Rmult_assoc, Rinv_l by lra. lra. }
  destruct (Rlt_dec (d / r) 1); [lra|].
  destruct (Rle_dec 1 (d / r)); [|lra].
  destruct (Rlt_dec (d / r) 2); [reflexivity | lra].
Qed.

Lemma GC_inner_continuous r : 0 < r -> continuity_pt (fun d => GC_inner (d / r)) r.
Proof. intros Hr. unfold GC_inner. reg. Qed.

Lemma GC_outer_continuous r : 0 < r -> continuity_pt (fun d => GC_outer (d / r)) r.
Proof.
  intros Hr. unfold GC_outer. reg.
  replace (r * / r) with 1 by (field; lra). lra.
Qed.

(** The kernel has no jump where its branches change: it is continuous in
    the distance at [d = r]. *)
Lemma distGC_value_continuous r :
  0 < r -> continuity_pt (fun d => distGC_value d r) r.
Proof.
  intros Hr eps Heps.
  destruct (GC_inner_continuous r Hr eps Heps) as (a1 & Ha1 & Hin).
  destruct (GC_outer_continuous r Hr eps Heps) as (a2 & Ha2 & Hout).
  exists (Rmin r (Rmin a1 a2)). split.
  { repeat apply Rmin_glb_lt; assumption. }
  intros d [[_ Hne] Hd]. cbn [dist R_met] in *. unfold R_dist in *.
  assert (Hdr : Rabs (d - r) < r) by (eapply Rlt_le_trans; [exact Hd | apply Rmin_l]).
  assert (Hd1 : Rabs (d - r) < a1).
  { eapply Rlt_le_trans; [exact Hd|].
    eapply Rle_trans; [apply Rmin_r | apply Rmin_l]. }
  assert (Hd2 : Rabs (d - r) < a2).
  { eapply Rlt_le_trans; [exact Hd|].
    eapply Rle_trans; [apply Rmin_r | apply Rmin_r]. }
  apply Rabs_def2 in Hdr. destruct Hdr as [Hlo Hhi].
  assert (Hrr : distGC_value r r = GC_outer (r / r))
    by (apply distGC_value_outer; lra).
  destruct (Rlt_dec d r) as [Hlt|Hge].
  - rewrite (distGC_value_inner d r Hr Hlt), Hrr.
    replace (GC_outer (r / r)) with (GC_inner (r / r))
      by (replace (r / r) with 1 by (field; lra); apply GC_branches_meet).
    apply Hin. split; [split; [exact I | exact Hne] | exact Hd1].
  - rewrite (distGC_value_outer d r Hr) by lra. rewrite Hrr.
    apply Hout. split; [split; [exact I | exact Hne] | exact Hd2].
Qed.



(** ** Lists and arrays *)

Lemma bind_Ok {A B} (m : outcome A) (k : A -> outcome B) b :
  bind m k = Ok b -> exists a, m = Ok a /\ k a = Ok b.
Proof. destruct m; simpl; intros H; try discriminate. eauto. Qed.

Lemma getitem_Ok {A} (l : list A) n a :
  getitem l n = Ok a -> nth_error l n = Some a.
Proof. unfold getitem. destruct (nth_error l n); congruence. Qed.

Lemma getitem_app_mid {A} (pre : list A) x rest :
  getitem (pre ++ x :: rest) (length pre) = Ok x.
Proof.
  unfold getitem. rewrite nth_error_app2 by lia.
  rewrite Nat.sub_diag. reflexivity.
Qed.

Lemma list_set_app_mid {A} (pre : list A) x rest y :
  list_set (pre ++ x :: rest) (length pre) y = pre ++ y :: rest.
Proof. induction pre; simpl; [reflexivity | rewrite IHpre; reflexivity]. Qed.

Lemma fold_left_Rmin_le l x : fold_left Rmin l x <= x.
Proof.
  revert x. induction l as [|y l IH]; intros x; simpl; [lra|].
  eapply Rle_trans; [apply IH | apply Rmin_l].
Qed.

Lemma fold_left_Rmin_lower l x y : In y l -> fold_left Rmin l x <= y.
Proof.
  revert x. induction l as [|z l IH]; intros x Hin; simpl; [contradiction|].
  destruct Hin as [->|Hin].
  - eapply Rle_trans; [apply fold_left_Rmin_le | apply Rmin_r].
  - apply IH; assumption.
Qed.

Lemma fold_left_Rmin_In l x : fold_left Rmin l x = x \/ In (fold_left Rmin l x) l.
Proof.
  revert x. induction l as [|z l IH]; intros x; simpl; [left; reflexivity|].
  destruct (IH (Rmin x z)) as [E|Hin].
  - rewrite E. unfold Rmin. destruct (Rle_dec x z); auto.
  - right. right. exact Hin.
Qed.

Lemma array_min_Ok l m :
  array_min l = Ok m -> In m l /\ forall x, In x l -> m <= x.
Proof.
  destruct l as [|x l]; simpl; intros H; [discriminate|].
  injection H as <-. split.
  - destruct (fold_left_Rmin_In l x) as [E|Hin]; [left; symmetry; exact E | right; exact Hin].
  - intros y [<-|Hy]; [apply fold_left_Rmin_le | apply fold_left_Rmin_lower; exact Hy].
Qed.

Lemma array_min_nonempty l : l <> [] -> exists m, array_min l = Ok m.
Proof. destruct l; [congruence | simpl; eauto]. Qed.

Lemma In_submatrix M G i j :
  In i G -> In j G -> In (M i j) (concat (submatrix M G)).
Proof.
  intros Hi Hj. apply in_concat. exists (map (M i) G). split.
  - unfold submatrix. apply in_map_iff. exists i. auto.
  - apply in_map. exact Hj.
Qed.


Lemma group_min_far M thr G m :
  group_min M G = Ok m -> ~ m < thr -> far_apart M thr G.
Proof.
  intros Hm Hge i j Hi Hj. apply array_min_Ok in Hm. destruct Hm as [_ Hlow].
  specialize (Hlow (M i j) (In_submatrix M G i j Hi Hj)). lra.
Qed.


Lemma move_step_spec M pre G rest groups' :
  short rest ->
  move_step M (length pre) (pre ++ G :: rest) = Ok groups' ->
  exists idx, In idx G /\
    groups' = pre ++ [filter (fun i => negb (Nat.eqb i idx)) G; concat rest ++ [idx]].
Proof.
  intros Hrest H. unfold move_step in H.
  rewrite getitem_app_mid in H. simpl in H.
  apply bind_Ok in H. destruct H as (m & _ & H).
  apply bind_Ok in H. destruct H as (col & _ & H).
  apply bind_Ok in H. destruct H as (idx & Hidx & H).
  exists idx. split.
  { apply getitem_Ok in Hidx. eapply nth_error_In; eassumption. }
  rewrite list_set_app_mid in H.
  destruct Hrest as [->|[Hd ->]].
  - rewrite length_app in H. simpl in H.
    replace (length pre + 1 <? length pre + 2)%nat with true in H
      by (symmetry; apply Nat.ltb_lt; lia).
    injection H as <-. rewrite <- app_assoc. reflexivity.
  - rewrite length_app in H. simpl in H.
    replace (length pre + 2 <? length pre + 2)%nat with false in H
      by (symmetry; apply Nat.ltb_ge; lia).
    apply bind_Ok in H. destruct H as (H' & HH & H).
    replace (pre ++ filter (fun i => negb (i =? idx)%nat) G :: [Hd])
      with ((pre ++ [filter (fun i => negb (i =? idx)%nat) G]) ++ Hd :: []) in HH, H
      by (rewrite <- app_assoc; reflexivity).
    replace (length pre + 1)%nat
      with (length (pre ++ [filter (fun i => negb (i =? idx)%nat) G])) in HH, H
      by (rewrite length_app; simpl; lia).
    rewrite getitem_app_mid in HH. injection HH as <-.
    rewrite list_set_app_mid in H. injection H as <-.
    rewrite <- app_assoc. simpl. rewrite app_nil_r. reflexivity.
Qed.

Lemma filter_remove_perm (idx : nat) (G : list nat) :
  NoDup G -> In idx G ->
  Permutation G (idx :: filter (fun i => negb (Nat.eqb i idx)) G).
Proof.
  induction G as [|a G IH]; intros Hnd Hin; [contradiction|].
  inversion Hnd as [|? ? Hna Hnd']; subst. simpl.
  destruct (Nat.eqb_spec a idx) as [->|Hne]; simpl.
  - apply perm_skip.
    assert (E : filter (fun i => negb (i =? idx)%nat) G = G).
    { apply forallb_filter_id. apply forallb_forall. intros x Hx.
      destruct (Nat.eqb_spec x idx); [subst; contradiction | reflexivity]. }
    rewrite E. apply Permutation_refl.
  - destruct Hin as [->|Hin]; [congruence|].
    eapply perm_trans; [apply perm_skip, IH; assumption | apply perm_swap].
Qed.

Lemma in_submatrix_inv M G x :
  In x (concat (submatrix M G)) -> exists i j, In i G /\ In j G /\ x = M i j.
Proof.
  intros H. apply in_concat in H. destruct H as (row & Hrow & Hx).
  unfold submatrix in Hrow. apply in_map_iff in Hrow. destruct Hrow as (i & <- & Hi).
  apply in_map_iff in Hx. destruct Hx as (j & <- & Hj). eauto.
Qed.

Lemma far_apart_min M thr G m :
  group_min M G = Ok m -> far_apart M thr G -> ~ m < thr.
Proof.
  intros Hm Hfar. apply array_min_Ok in Hm. destruct Hm as [Hin _].
  apply in_submatrix_inv in Hin. destruct Hin as (i & j & Hi & Hj & ->).
  specialize (Hfar i j Hi Hj). lra.
Qed.

Lemma short_concat_snoc rest idx : short rest -> short [concat rest ++ [idx]].
Proof. intros _. right. eauto. Qed.

(** ** The inner loop, when it returns *)

Lemma inner_loop_spec M thr pre fuel :
  forall G rest groups',
    short rest ->
    NoDup (G ++ concat rest) ->
    inner_loop fuel M thr (length pre) (pre ++ G :: rest) = Ok groups' ->
    exists G' rest',
      groups' = pre ++ G' :: rest' /\ short rest' /\
      far_apart M thr G' /\
      Permutation (G' ++ concat rest') (G ++ concat rest) /\
      (rest' = [] -> G' = G).
Proof.
  induction fuel as [|fuel IH]; intros G rest groups' Hs Hnd H; simpl in H;
    rewrite getitem_app_mid in H; simpl in H;
    apply bind_Ok in H; destruct H as (m & Hm & H);
    destruct (Rlt_dec m thr) as [Hlt|Hge].
  - discriminate.
  - injection H as <-. exists G, rest. repeat split; auto.
    eapply group_min_far; eassumption.
  - apply bind_Ok in H. destruct H as (groups1 & Hmove & H).
    apply move_step_spec in Hmove; [|exact Hs].
    destruct Hmove as (idx & Hidx & ->).
    set (G1 := filter (fun i => negb (i =? idx)%nat) G) in *.
    assert (HndG : NoDup G) by (eapply NoDup_app_remove_r; eassumption).
    assert (HP : Permutation (G1 ++ concat [concat rest ++ [idx]]) (G ++ concat rest)).
    { simpl. rewrite app_nil_r.
      eapply perm_trans;
        [| apply Permutation_app_tail, Permutation_sym, (filter_remove_perm idx G HndG Hidx)].
      fold G1. simpl. rewrite app_assoc.
      eapply perm_trans; [apply Permutation_app_comm|]. simpl. apply perm_skip.
      apply Permutation_refl. }
    apply IH in H; [| apply short_concat_snoc; exact Hs
                    | eapply Permutation_NoDup; [apply Permutation_sym, HP | exact Hnd]].
    destruct H as (G' & rest' & -> & Hs' & Hfar & HP' & Hkeep).
    exists G', rest'. repeat split; auto.
    + eapply perm_trans; eassumption.
    + intros ->. exfalso.
      specialize (Hkeep eq_refl). subst G'.
      apply Permutation_length in HP'. simpl in HP'.
      repeat (rewrite length_app in HP'; simpl in HP'). lia.
  - injection H as <-. exists G, rest. repeat split; auto.
    eapply group_min_far; eassumption.
Qed.

(** ** The outer loop, when it returns *)

Lemma outer_loop_spec M thr fuel :
  forall pre G groups',
    NoDup (concat (pre ++ [G])) ->
    Forall (far_apart M thr) pre ->
    outer_loop fuel M thr (length pre) (pre ++ [G]) = Ok groups' ->
    Forall (far_apart M thr) groups' /\
    Permutation (concat groups') (concat (pre ++ [G])).
Proof.
  induction fuel as [|fuel IH]; intros pre G groups' Hnd Hpre H; simpl in H;
    rewrite getitem_app_mid in H; simpl in H;
    apply bind_Ok in H; destruct H as (m & Hm & H);
    destruct (Rlt_dec m thr) as [Hlt|Hge].
  - discriminate.
  - injection H as <-. split; [|apply Permutation_refl].
    apply Forall_app. split; [exact Hpre|]. constructor; [|constructor].
    eapply group_min_far; eassumption.
  - apply bind_Ok in H. destruct H as (groups1 & Hin & H).
    rewrite concat_app in Hnd. simpl in Hnd. rewrite app_nil_r in Hnd.
    apply inner_loop_spec in Hin;
      [| left; reflexivity
       | simpl; rewrite app_nil_r; eapply NoDup_app_remove_l; eassumption].
    destruct Hin as (G' & rest' & -> & Hs' & Hfar & HP & Hkeep).
    destruct Hs' as [->|[Hd ->]].
    { specialize (Hkeep eq_refl). subst G'. exfalso.
      eapply far_apart_min; eassumption. }
    simpl in HP. rewrite !app_nil_r in HP.
    replace (pre ++ [G'; Hd]) with ((pre ++ [G']) ++ [Hd]) in H
      by (rewrite <- app_assoc; reflexivity).
    replace (S (length pre)) with (length (pre ++ [G'])) in H
      by (rewrite length_app; simpl; lia).
    assert (HPall : Permutation (concat ((pre ++ [G']) ++ [Hd])) (concat pre ++ G)).
    { rewrite !concat_app. simpl. rewrite !app_nil_r. rewrite <- app_assoc.
      apply Permutation_app_head. exact HP. }
    apply IH in H.
    + destruct H as [HF HPf]. split; [exact HF|].
      rewrite concat_app. simpl. rewrite app_nil_r.
      eapply perm_trans; eassumption.
    + eapply Permutation_NoDup; [apply Permutation_sym, HPall | exact Hnd].
    + apply Forall_app. split; [exact Hpre|]. constructor; [exact Hfar|constructor].
  - injection H as <-. split; [|apply Permutation_refl].
    apply Forall_app. split; [exact Hpre|]. constructor; [|constructor].
    eapply group_min_far; eassumption.
Qed.

Lemma obs_dist_mat_off xdim ydim pos i j :
  i <> j ->
  obs_dist_mat xdim ydim pos i j =
  periodic_dist xdim ydim (nth i pos (0, 0)) (nth j pos (0, 0)).
Proof.
  intros Hne. unfold obs_dist_mat.
  destruct (Nat.eqb_spec i j); [contradiction | reflexivity].
Qed.


(** ** Evaluating comparisons of reals at concrete inputs *)

Lemma le_sqrt a x : 0 <= a -> a * a <= x -> a <= sqrt x.
Proof.
  intros Ha Hx. rewrite <- (sqrt_square a Ha). apply sqrt_le_1_alt. exact Hx.
Qed.

Lemma sqrt_sq_sum a : 0 <= a -> sqrt (a ^ 2 + 0 ^ 2) = a.
Proof.
  intros Ha. replace (a ^ 2 + 0 ^ 2) with (a * a) by ring.
  apply sqrt_square. exact Ha.
Qed.

Ltac r_decide :=
  repeat match goal with
  | |- context [Rmin ?a ?b] =>
      first [ rewrite (Rmin_left a b) by lra | rewrite (Rmin_right a b) by lra ]
  | |- context [Rlt_dec ?a ?b] => destruct (Rlt_dec a b); [ try lra | try lra ]
  | |- context [Rle_dec ?a ?b] => destruct (Rle_dec a b); [ try lra | try lra ]
  | |- context [Rgt_dec ?a ?b] => destruct (Rgt_dec a b); [ try lra | try lra ]
  | |- context [Req_dec_T ?a ?b] => destruct (Req_dec_T a b); [ try lra | try lra ]
  end.


Lemma two_buoys_groups :
  initializeGroups two_buoys 1 = Ok ([(1, 1); (2, 1)], [[0%nat]; [1%nat]]).
Proof.
  unfold initializeGroups.
  assert (Hd : 3 <= obs_dist_mat (getDx two_buoys * INR (getNx two_buoys))
                     (getDy two_buoys * INR (getNy two_buoys))
                     (drifter_positions_of two_buoys) 0 0).
  { unfold obs_dist_mat, heavy_diagonal. simpl. apply le_sqrt; lra. }
  assert (Hd1 : obs_dist_mat (getDx two_buoys * INR (getNx two_buoys))
                     (getDy two_buoys * INR (getNy two_buoys))
                     (drifter_positions_of two_buoys) 1 1 =
                obs_dist_mat (getDx two_buoys * INR (getNx two_buoys))
                     (getDy two_buoys * INR (getNy two_buoys))
                     (drifter_positions_of two_buoys) 0 0) by reflexivity.
  assert (H01 : obs_dist_mat (getDx two_buoys * INR (getNx two_buoys))
                     (getDy two_buoys * INR (getNy two_buoys))
                     (drifter_positions_of two_buoys) 0 1 = 1).
  { unfold obs_dist_mat, periodic_dist. simpl.
    replace (1 - 2) with (- (1)) by lra. rewrite Rabs_Ropp, Rabs_R1.
    replace (1 - 1) with 0 by lra. rewrite Rabs_R0.
    r_decide. apply sqrt_sq_sum. lra. }
  assert (H10 : obs_dist_mat (getDx two_buoys * INR (getNx two_buoys))
                     (getDy two_buoys * INR (getNy two_buoys))
                     (drifter_positions_of two_buoys) 1 0 = 1).
  { unfold obs_dist_mat, periodic_dist. simpl.
    replace (2 - 1) with 1 by lra. rewrite Rabs_R1.
    replace (1 - 1) with 0 by lra. rewrite Rabs_R0.
    r_decide. apply sqrt_sq_sum. lra. }
  remember (obs_dist_mat (getDx two_buoys * INR (getNx two_buoys))
              (getDy two_buoys * INR (getNy two_buoys))
              (drifter_positions_of two_buoys)) as M.
  cbn. unfold Reqb. rewrite ?Hd1, ?H01, ?H10.
  r_decide. cbn. rewrite ?Hd1. r_decide. cbn. rewrite ?Hd1. r_decide. reflexivity.
Qed.


(** ** The loops return: no group is ever emptied *)

Lemma np_where2_cols (b : list (list bool)) (n : nat) ij :
  Forall (fun row => length row = n) b ->
  In ij (np_where2 b) -> (snd ij < n)%nat.
Proof.
  intros Hlen Hin. unfold np_where2 in Hin.
  apply in_concat in Hin. destruct Hin as (l & Hl & Hin).
  apply in_map_iff in Hl. destruct Hl as ([i row] & <- & Hc).
  apply in_combine_r in Hc. simpl in Hin.
  unfold where_row in Hin. apply in_map_iff in Hin. destruct Hin as (j & <- & Hj).
  apply filter_In in Hj. destruct Hj as [Hj _]. apply in_seq in Hj.
  rewrite Forall_forall in Hlen. specialize (Hlen row Hc). simpl. lia.
Qed.

Lemma np_where2_nonempty (b : list (list bool)) row :
  In row b -> In true row -> np_where2 b <> [].
Proof.
  intros Hrow Htrue Hnil.
  destruct (In_nth b row [] Hrow) as (k & Hk & Hnth).
  destruct (In_nth row true false Htrue) as (j & Hj & Hnj).
  assert (Hin : In (k, j) (np_where2 b)).
  { unfold np_where2. apply in_concat. exists (where_row k row). split.
    - apply in_map_iff. exists (k, row). split; [reflexivity|].
      replace (k, row) with (nth k (combine (seq 0 (length b)) b) (O, [])).
      + apply nth_In. rewrite length_combine, length_seq. lia.
      + rewrite combine_nth by apply length_seq.
        rewrite seq_nth by exact Hk. rewrite Hnth. reflexivity.
    - unfold where_row. apply in_map. apply filter_In. split.
      + apply in_seq. lia.
      + exact Hnj. }
  rewrite Hnil in Hin. contradiction.
Qed.

Lemma Reqb_refl x : Reqb x x = true.
Proof. unfold Reqb. destruct (Req_dec_T x x); congruence. Qed.

Lemma first_min_col M G m :
  group_min M G = Ok m ->
  exists col, getitem (map snd (np_where2 (map (map (fun v => Reqb v m)) (submatrix M G)))) 0
              = Ok col /\ (col < length G)%nat.
Proof.
  intros Hm. apply array_min_Ok in Hm. destruct Hm as [Hin _].
  apply in_concat in Hin. destruct Hin as (row & Hrow & Hmrow).
  set (b := map (map (fun v => Reqb v m)) (submatrix M G)).
  assert (Hne : np_where2 b <> []).
  { apply (np_where2_nonempty b (map (fun v => Reqb v m) row)).
    - unfold b. apply in_map. exact Hrow.
    - apply in_map_iff. exists m. split; [apply Reqb_refl | exact Hmrow]. }
  destruct (np_where2 b) as [|ij rest] eqn:E; [congruence|].
  exists (snd ij). split; [reflexivity|].
  apply (np_where2_cols b (length G)).
  - unfold b, submatrix. rewrite Forall_forall. intros r Hr.
    apply in_map_iff in Hr. destruct Hr as (r0 & <- & Hr0).
    apply in_map_iff in Hr0. destruct Hr0 as (i & <- & _).
    rewrite !length_map. reflexivity.
  - rewrite E. left. reflexivity.
Qed.

Lemma move_step_total M pre G rest m :
  short rest ->
  group_min M G = Ok m ->
  exists idx, In idx G /\
    move_step M (length pre) (pre ++ G :: rest) =
    Ok (pre ++ [filter (fun i => negb (Nat.eqb i idx)) G; concat rest ++ [idx]]).
Proof.
  intros Hs Hm.
  destruct (first_min_col M G m Hm) as (col & Hcol & Hlt).
  destruct (nth_error G col) as [idx|] eqn:Eidx;
    [| apply nth_error_None in Eidx; lia].
  assert (Hstep : exists groups', move_step M (length pre) (pre ++ G :: rest) = Ok groups').
  { unfold move_step. rewrite getitem_app_mid. simpl. rewrite Hm. simpl.
    rewrite Hcol. simpl. unfold getitem at 1. rewrite Eidx. simpl.
    rewrite list_set_app_mid.
    destruct Hs as [->|[Hd ->]]; rewrite length_app; simpl.
    - replace (length pre + 1 <? length pre + 2)%nat with true
        by (symmetry; apply Nat.ltb_lt; lia). eauto.
    - replace (length pre + 2 <? length pre + 2)%nat with false
        by (symmetry; apply Nat.ltb_ge; lia).
      replace (pre ++ filter (fun i => negb (i =? idx)%nat) G :: [Hd])
        with ((pre ++ [filter (fun i => negb (i =? idx)%nat) G]) ++ Hd :: [])
        by (rewrite <- app_assoc; reflexivity).
      replace (length pre + 1)%nat
        with (length (pre ++ [filter (fun i => negb (i =? idx)%nat) G]))
        by (rewrite length_app; simpl; lia).
      rewrite getitem_app_mid. simpl. eauto. }
  destruct Hstep as (groups' & Hstep).
  destruct (move_step_spec M pre G rest groups' Hs Hstep) as (idx' & Hin & ->).
  exists idx'. auto.
Qed.

Lemma filter_remove_length (idx : nat) (G : list nat) :
  NoDup G -> In idx G ->
  length G = S (length (filter (fun i => negb (Nat.eqb i idx)) G)).
Proof.
  intros Hnd Hin.
  apply (Permutation_length (filter_remove_perm idx G Hnd Hin)).
Qed.

Lemma group_min_singleton M i : group_min M [i] = Ok (M i i).
Proof. reflexivity. Qed.


Lemma inner_loop_total M thr pre (Hdiag : forall i, thr <= M i i) fuel :
  forall G rest,
    short rest -> NoDup G -> nonempty G -> Forall nonempty rest ->
    (length G <= fuel)%nat ->
    exists G' rest',
      inner_loop fuel M thr (length pre) (pre ++ G :: rest) = Ok (pre ++ G' :: rest') /\
      nonempty G' /\ Forall nonempty rest'.
Proof.
  induction fuel as [|fuel IH]; intros G rest Hs Hnd Hne Hrest Hlen.
  { destruct G; [unfold nonempty in Hne; congruence | simpl in Hlen; lia]. }
  destruct (array_min_nonempty (concat (submatrix M G))) as (m & Hm).
  { destruct G; [unfold nonempty in Hne; congruence | discriminate]. }
  fold (group_min M G) in Hm.
  simpl. rewrite getitem_app_mid. cbn [bind]. rewrite Hm. cbn [bind].
  destruct (Rlt_dec m thr) as [Hlt|Hge].
  - destruct (move_step_total M pre G rest m Hs Hm) as (idx & Hidx & ->).
    cbn [bind].
    set (G1 := filter (fun i => negb (i =? idx)%nat) G).
    assert (HlenG : length G = S (length G1)) by (apply filter_remove_length; assumption).
    assert (HneG1 : nonempty G1).
    { destruct G as [|a [|b G]]; [unfold nonempty in Hne; congruence | |].
      - rewrite group_min_singleton in Hm. injection Hm as <-.
        specialize (Hdiag a). lra.
      - intros E. rewrite E in HlenG. simpl in HlenG. lia. }
    destruct (IH G1 [concat rest ++ [idx]]) as (G' & rest' & Heq & HneG' & Hrest').
    + right. eauto.
    + apply NoDup_filter. exact Hnd.
    + exact HneG1.
    + constructor; [|constructor]. intros E. apply app_eq_nil in E.
      destruct E as [_ E]. discriminate.
    + lia.
    + exists G', rest'. rewrite Heq. auto.
  - exists G, rest. auto.
Qed.

Lemma length_le_concat (l : list (list nat)) :
  Forall nonempty l -> (length l <= length (concat l))%nat.
Proof.
  induction 1 as [|G l HG _ IH]; simpl; [lia|].
  rewrite length_app. destruct G; [unfold nonempty in HG; congruence | simpl; lia].
Qed.

Lemma outer_loop_total M thr (Hdiag : forall i, thr <= M i i) fuel :
  forall pre G,
    Forall nonempty pre -> nonempty G ->
    NoDup (concat (pre ++ [G])) ->
    (length (concat (pre ++ [G])) <= fuel + length pre + 1)%nat ->
    exists groups',
      outer_loop fuel M thr (length pre) (pre ++ [G]) = Ok groups' /\
      Forall nonempty groups'.
Proof.
  induction fuel as [|fuel IH]; intros pre G Hpre Hne Hnd Hlen;
    (destruct (array_min_nonempty (concat (submatrix M G))) as (m & Hm);
     [ destruct G; [unfold nonempty in Hne; congruence | discriminate] | ]);
    fold (group_min M G) in Hm;
    simpl; rewrite getitem_app_mid; cbn [bind]; rewrite Hm; cbn [bind];
    (destruct (Rlt_dec m thr) as [Hlt|Hge];
     [| exists (pre ++ [G]); split; [reflexivity|];
        apply Forall_app; split; [exact Hpre | constructor; [exact Hne | constructor]]]);
    assert (HG2 : (2 <= length G)%nat)
      by (destruct G as [|a [|b G]];
          [ unfold nonempty in Hne; congruence
          | rewrite group_min_singleton in Hm; injection Hm as <-;
            specialize (Hdiag a); lra
          | simpl; lia ]);
    assert (Hsum : (length pre + length G <= length (concat (pre ++ [G])))%nat)
      by (rewrite concat_app, length_app; simpl; rewrite app_nil_r;
          pose proof (length_le_concat pre Hpre); lia).
  - lia.
  - assert (HndG : NoDup G).
    { rewrite concat_app in Hnd. simpl in Hnd. rewrite app_nil_r in Hnd.
      eapply NoDup_app_remove_l; eassumption. }
    destruct (inner_loop_total M thr pre Hdiag (length G) G [])
      as (G' & rest' & Heq & HneG' & Hrest'); auto.
    { left; reflexivity. }
    rewrite Heq. cbn [bind].
    rewrite concat_app in Hnd. simpl in Hnd. rewrite app_nil_r in Hnd.
    destruct (inner_loop_spec M thr pre (length G) G [] (pre ++ G' :: rest')
                (or_introl eq_refl))
      as (G2 & rest2 & Hsame & Hs2 & Hfar & HP & Hkeep);
      [ simpl; rewrite app_nil_r; exact HndG | exact Heq | ].
    apply app_inv_head in Hsame. injection Hsame as <- <-.
    destruct Hs2 as [->|[Hd ->]].
    { specialize (Hkeep eq_refl). subst G'. exfalso.
      eapply far_apart_min; eassumption. }
    simpl in HP. rewrite !app_nil_r in HP.
    assert (HPall : Permutation (concat ((pre ++ [G']) ++ [Hd])) (concat pre ++ G)).
    { rewrite !concat_app. simpl. rewrite !app_nil_r. rewrite <- app_assoc.
      apply Permutation_app_head. exact HP. }
    replace (pre ++ [G'; Hd]) with ((pre ++ [G']) ++ [Hd])
      by (rewrite <- app_assoc; reflexivity).
    replace (S (length pre)) with (length (pre ++ [G']))
      by (rewrite length_app; simpl; lia).
    apply IH.
    + apply Forall_app. split; [exact Hpre | constructor; [exact HneG' | constructor]].
    + inversion Hrest'; assumption.
    + eapply Permutation_NoDup; [apply Permutation_sym, HPall | exact Hnd].
    + rewrite (Permutation_length HPall).
      rewrite concat_app in Hlen. simpl in Hlen. rewrite app_nil_r in Hlen.
      rewrite !length_app in *. simpl. lia.
Qed.

(** C10 (amended). For at least one observation and a threshold that is at
    most the value on the diagonal of the distance matrix,
    [initializeGroups] returns, with no group empty and no more groups
    than observations; a group of one member has the diagonal value as its
    least distance; and a step of the inner loop moves one index out of
    the current group, whose size drops by one, to the end of the next. *)
Theorem initializeGroups_terminates
  (e : Ensemble) (r_factor : R) (p0 : Particle)
  (Hp0 : nth_error (particles e) 0 = Some p0)
  (Hobs : drifter_positions_of e <> [])
  (Hthr : 2 * 1.5 * r_factor * p_dx p0 <=
          heavy_diagonal (getDx e * INR (getNx e)) (getDy e * INR (getNy e))) :
  (exists groups,
     initializeGroups e r_factor = Ok (drifter_positions_of e, groups) /\
     (length groups <= length (drifter_positions_of e))%nat /\
     Forall nonempty groups) /\
  (forall i,
     group_min (obs_dist_mat (getDx e * INR (getNx e)) (getDy e * INR (getNy e))
                  (drifter_positions_of e)) [i] =
     Ok (heavy_diagonal (getDx e * INR (getNx e)) (getDy e * INR (getNy e)))) /\
  (forall M pre G rest groups',
     short rest -> NoDup G ->
     move_step M (length pre) (pre ++ G :: rest) = Ok groups' ->
     exists idx G',
       In idx G /\ groups' = pre ++ [G'; concat rest ++ [idx]] /\
       length G = S (length G')).
Proof.
  split; [|split].
  - unfold initializeGroups, groups_threshold, getitem. rewrite Hp0. cbn [bind].
    set (pos := drifter_positions_of e) in *.
    set (M := obs_dist_mat _ _ pos).
    set (thr := 2 * 1.5 * r_factor * p_dx p0) in *.
    assert (Hdiag : forall i, thr <= M i i).
    { intros i. unfold M, obs_dist_mat. rewrite Nat.eqb_refl. exact Hthr. }
    destruct (outer_loop_total M thr Hdiag (length pos) [] (seq 0 (length pos)))
      as (groups & Hloop & Hne).
    + constructor.
    + destruct pos; [congruence | discriminate].
    + simpl. rewrite app_nil_r. apply seq_NoDup.
    + simpl. rewrite app_nil_r, length_seq. lia.
    + simpl in Hloop. rewrite Hloop. cbn [bind].
      exists groups. split; [reflexivity|]. split; [|exact Hne].
      apply (outer_loop_spec _ _ _ []) in Hloop;
        [| simpl; rewrite app_nil_r; apply seq_NoDup | constructor].
      destruct Hloop as [_ HP]. simpl in HP. rewrite app_nil_r in HP.
      pose proof (length_le_concat groups Hne) as Hle.
      rewrite (Permutation_length HP), length_seq in Hle. exact Hle.
  - intros i. rewrite group_min_singleton. unfold obs_dist_mat.
    rewrite Nat.eqb_refl. reflexivity.
  - intros M pre G rest groups' Hs Hnd Hstep.
    destruct (move_step_spec M pre G rest groups' Hs Hstep) as (idx & Hin & ->).
    exists idx, (filter (fun i => negb (i =? idx)%nat) G).
    split; [exact Hin|]. split; [reflexivity|].
    apply filter_remove_length; assumption.
Qed.

Lemma two_buoys_threshold :
  2 * 1.5 * 1 * p_dx particle_10 <=
  heavy_diagonal (getDx two_buoys * INR (getNx two_buoys))
    (getDy two_buoys * INR (getNy two_buoys)).
Proof. unfold heavy_diagonal. simpl. apply le_sqrt; lra. Qed.

Lemma initializeGroups_terminates_witness :
  nth_error (particles two_buoys) 0 = Some particle_10 /\
  drifter_positions_of two_buoys <> [] /\
  2 * 1.5 * 1 * p_dx particle_10 <=
    heavy_diagonal (getDx two_buoys * INR (getNx two_buoys))
      (getDy two_buoys * INR (getNy two_buoys)) /\
  exists groups,
    initializeGroups two_buoys 1 = Ok (drifter_positions_of two_buoys, groups) /\
    (length groups <= length (drifter_positions_of two_buoys))%nat /\
    Forall nonempty groups.
Proof.
  assert (Hobs : drifter_positions_of two_buoys <> []) by (simpl; discriminate).
  split; [reflexivity|]. split; [exact Hobs|]. split; [exact two_buoys_threshold|].
  exact (proj1 (initializeGroups_terminates two_buoys 1 particle_10 eq_refl Hobs
                  two_buoys_threshold)).
Defined.

(** Whatever the observations, the loops of [initializeGroups] end: the
    fuel they are given is never used up. *)
Lemma initializeGroups_never_diverges (e : Ensemble) (r_factor : R) :
  (forall p0, nth_error (particles e) 0 = Some p0 ->
     2 * 1.5 * r_factor * p_dx p0 <=
     heavy_diagonal (getDx e * INR (getNx e)) (getDy e * INR (getNy e))) ->
  initializeGroups e r_factor <> Diverge.
Proof.
  intros Hthr. unfold initializeGroups, groups_threshold, getitem.
  destruct (nth_error (particles e) 0) as [p0|] eqn:Hp0; [|discriminate].
  specialize (Hthr p0 eq_refl). cbn [bind].
  set (pos := drifter_positions_of e) in *.
  set (M := obs_dist_mat _ _ pos).
  set (thr := 2 * 1.5 * r_factor * p_dx p0) in *.
  destruct (length pos) as [|n] eqn:En; [discriminate|].
  assert (Hdiag : forall i, thr <= M i i).
  { intros i. unfold M, obs_dist_mat. rewrite Nat.eqb_refl. exact Hthr. }
  destruct (outer_loop_total M thr Hdiag (S n) [] (seq 0 (S n)))
    as (groups & Hloop & _).
  - constructor.
  - discriminate.
  - cbn [app concat]. rewrite app_nil_r. apply seq_NoDup.
  - cbn [app concat]. rewrite app_nil_r, length_seq. cbn [length]. lia.
  - cbn [app length] in Hloop. rewrite Hloop. discriminate.
Qed.

(** C10 as stated fails on the empty set of observations: the group list
    starts with one, empty group, more groups than observations, and the
    least distance of that group does not exist, so that no groups are
    returned. *)
Lemma initializeGroups_no_observations :
  nth_error (particles no_buoys) 0 = Some particle_10 /\
  2 * 1.5 * 1 * p_dx particle_10 <=
    heavy_diagonal (getDx no_buoys * INR (getNx no_buoys))
      (getDy no_buoys * INR (getNy no_buoys)) /\
  drifter_positions_of no_buoys = [] /\
  (length (drifter_positions_of no_buoys)
   < length [seq 0 (length (drifter_positions_of no_buoys))])%nat /\
  group_min (obs_dist_mat (getDx no_buoys * INR (getNx no_buoys))
               (getDy no_buoys * INR (getNy no_buoys))
               (drifter_positions_of no_buoys))
    (seq 0 (length (drifter_positions_of no_buoys))) = Raise ValueError /\
  initializeGroups no_buoys 1 = Raise ValueError.
Proof.
  split; [reflexivity|]. split; [exact two_buoys_threshold|].
  split; [reflexivity|]. split; [simpl; lia|]. split; reflexivity.
Qed.

(** ** Shapes and sums *)

Lemma bdim_Ok a b c :
  np.bdim a b = Ok c ->
  (a = b /\ c = a) \/ (a = 1%nat /\ c = b) \/ (b = 1%nat /\ c = a).
Proof.
  unfold np.bdim. intros H.
  destruct (Nat.eqb_spec a b) as [->|Hab].
  - injection H as <-. left. auto.
  - destruct (Nat.eqb_spec a 1) as [->|Ha].
    + injection H as <-. right. left. auto.
    + destruct (Nat.eqb_spec b 1) as [->|Hb]; [|discriminate].
      injection H as <-. right. right. auto.
Qed.

Lemma bdim_same a : np.bdim a a = Ok a.
Proof. unfold np.bdim. rewrite Nat.eqb_refl. reflexivity. Qed.

Lemma bdim_one_l b : np.bdim 1 b = Ok b.
Proof.
  unfold np.bdim. destruct (Nat.eqb_spec 1 b) as [<-|_]; reflexivity.
Qed.

Lemma bdim_Raise a b :
  a <> b -> a <> 1%nat -> b <> 1%nat -> np.bdim a b = Raise ValueError.
Proof.
  intros Hab Ha Hb. unfold np.bdim.
  destruct (Nat.eqb_spec a b); [contradiction|].
  destruct (Nat.eqb_spec a 1); [contradiction|].
  destruct (Nat.eqb_spec b 1); [contradiction|]. reflexivity.
Qed.

Lemma broadcast_shape op A B C :
  np.broadcast op A B = Ok C ->
  np.bdim (shape0 A) (shape0 B) = Ok (shape0 C) /\
  np.bdim (shape1 A) (shape1 B) = Ok (shape1 C).
Proof.
  unfold np.broadcast. intros H.
  apply bind_Ok in H. destruct H as (r & Hr & H).
  apply bind_Ok in H. destruct H as (c & Hc & H).
  injection H as <-. simpl. auto.
Qed.

Lemma matmul_shape A B C :
  np.matmul A B = Ok C ->
  shape1 A = shape0 B /\ shape0 C = shape0 A /\ shape1 C = shape1 B.
Proof.
  unfold np.matmul. intros H.
  destruct (Nat.eqb_spec (shape1 A) (shape0 B)) as [E|_]; [|discriminate].
  injection H as <-. simpl. auto.
Qed.

Lemma inv_shape A B :
  linalg.inv A = Ok B -> shape0 A = shape1 A /\ shape0 B = shape0 A /\ shape1 B = shape0 A.
Proof.
  unfold linalg.inv. intros H.
  destruct (Nat.eqb_spec (shape0 A) (shape1 A)) as [E|_]; [|discriminate].
  destruct (Req_dec_T _ 0); [discriminate|].
  injection H as <-. simpl. auto.
Qed.

Lemma py_div_Ok a b c : py_div a b = Ok c -> b <> 0 /\ c = a / b.
Proof.
  unfold py_div. destruct (Req_dec_T b 0); [discriminate|].
  intros H. injection H as <-. auto.
Qed.

Lemma INR_minus_1_zero n : INR n - 1 = 0 <-> n = 1%nat.
Proof.
  split.
  - intros H. apply INR_eq. simpl. lra.
  - intros ->. simpl. lra.
Qed.


Lemma sum_n_ext f g n :
  (forall k, (k < n)%nat -> f k = g k) -> sum_n f n = sum_n g n.
Proof.
  induction n as [|n IH]; intros H; simpl; [reflexivity|].
  rewrite IH by (intros k Hk; apply H; lia). rewrite H by lia. reflexivity.
Qed.

Lemma sum_n_zero n : sum_n (fun _ => 0) n = 0.
Proof. induction n as [|n IH]; simpl; [reflexivity | rewrite IH; ring]. Qed.

Lemma sum_n_plus f g n : sum_n (fun k => f k + g k) n = sum_n f n + sum_n g n.
Proof. induction n as [|n IH]; simpl; [ring | rewrite IH; ring]. Qed.

Lemma sum_n_scal c f n : sum_n (fun k => c * f k) n = c * sum_n f n.
Proof. induction n as [|n IH]; simpl; [ring | rewrite IH; ring]. Qed.

Lemma sum_n_nonneg f n : (forall k, 0 <= f k) -> 0 <= sum_n f n.
Proof.
  intros H. induction n as [|n IH]; simpl; [lra|]. specialize (H n). lra.
Qed.

Lemma quad_sum c a b x y n :
  x * (sum_n (fun k => c * a k * a k) n * x + sum_n (fun k => c * a k * b k) n * y)
  + y * (sum_n (fun k => c * b k * a k) n * x + sum_n (fun k => c * b k * b k) n * y)
  = c * sum_n (fun k => (x * a k + y * b k) * (x * a k + y * b k)) n.
Proof.
  induction n as [|n IH]; simpl; [ring|].
  set (T := sum_n (fun k => (x * a k + y * b k) * (x * a k + y * b k)) n) in *.
  replace (c * (T + (x * a n + y * b n) * (x * a n + y * b n)))
    with (c * T + c * ((x * a n + y * b n) * (x * a n + y * b n))) by ring.
  rewrite <- IH. ring.
Qed.


(** ** Blend weights *)

Lemma norm2_nonneg v : 0 <= norm2 v.
Proof. unfold norm2. apply sqrt_pos. Qed.

Lemma norm2_vabs v : norm2 (vabs v) = norm2 v.
Proof.
  unfold norm2, vabs. cbn [fst snd]. f_equal.
  rewrite <- !Rsqr_pow2, <- !Rsqr_abs. reflexivity.
Qed.

Lemma distGC_dist_bounds obs loc lx ly :
  0 <= distGC_dist obs loc lx ly <= norm2 (vsub obs loc).
Proof.
  unfold distGC_dist. rewrite norm2_vabs. split.
  - repeat apply Rmin_glb; apply norm2_nonneg.
  - apply Rmin_l.
Qed.

Lemma distGC_nonneg obs loc r lx ly :
  norm2 (vsub obs loc) <= 1.5 * r -> 0 <= distGC obs loc r lx ly.
Proof.
  intros Hn. unfold distGC. apply distGC_value_nonneg.
  pose proof (distGC_dist_bounds obs loc lx ly) as [Hd0 Hd1].
  pose proof (norm2_nonneg (vsub obs loc)) as Hn0.
  destruct (Req_dec_T r 0) as [->|Hr].
  - assert (distGC_dist obs loc lx ly = 0) as -> by lra.
    unfold Rdiv. rewrite Rmult_0_l. lra.
  - unfold Rdiv. apply Rmult_le_pos; [exact Hd0|].
    left. apply Rinv_0_lt_compat. lra.
Qed.

Lemma getLocalWeightShape_nonneg scale_r dx dy nx ny w W :
  0 <= w ->
  getLocalWeightShape scale_r dx dy nx ny w = Ok W -> nonneg2 W.
Proof.
  intros Hw H. unfold getLocalWeightShape in H.
  destruct (ceilZ (scale_r * 1.5) * 2 + 1 <? 0)%Z; [discriminate|].
  injection H as <-. intros y x. simpl.
  apply Rmult_le_pos; [exact Hw|].
  match goal with |- context [Rgt_dec ?a ?b] => destruct (Rgt_dec a b) as [Hgt|Hle] end;
    [lra|].
  apply Rmin_glb; [lra|].
  apply distGC_nonneg.
  replace (1.5 * (scale_r * dx)) with (1.5 * scale_r * dx) by ring.
  apply Rnot_gt_le. exact Hle.
Qed.

Lemma flatten_nonneg A k : nonneg2 A -> 0 <= nth k (flatten A) 0.
Proof.
  intros HA. unfold flatten.
  destruct (Nat.lt_ge_cases k (length (cells (shape0 A) (shape1 A)))) as [Hk|Hk].
  - rewrite (nth_indep _ 0 (at2 A (fst (O, O)) (snd (O, O))))
      by (rewrite length_map; exact Hk).
    rewrite (map_nth (fun c => at2 A (fst c) (snd c))). apply HA.
  - rewrite nth_overflow by (rewrite length_map; exact Hk). lra.
Qed.

Lemma masked_add_nonneg A L v A' :
  nonneg2 A -> (forall k, 0 <= nth k v 0) ->
  masked_add A L v = Ok A' -> nonneg2 A'.
Proof.
  intros HA Hv H. unfold masked_add in H.
  destruct (negb _); [discriminate|].
  destruct (length v =? length (true_cells L))%nat.
  - injection H as <-. intros y x. simpl.
    destruct (mask_at L y x); [|apply HA].
    pose proof (HA y x). pose proof (Hv (index_of (y, x) (true_cells L))). lra.
  - destruct (length v =? 1)%nat; [|discriminate].
    injection H as <-. intros y x. simpl.
    destruct (mask_at L y x); [|apply HA].
    pose proof (HA y x). pose proof (Hv O). lra.
Qed.

Lemma combine_fold_nonneg W_loc scale_r dx dy nx ny obs :
  nonneg2 W_loc ->
  forall acc W,
    (forall A, acc = Ok A -> nonneg2 A) ->
    fold_left
      (fun acc obs =>
         W_scale <- acc ;;
         Lr <- getLocalIndices obs scale_r dx dy nx ny ;;
         let '(L, xroll, yroll) := Lr in
         let W_loc_d := roll1 (roll0 W_loc yroll) xroll in
         masked_add W_scale L (flatten W_loc_d))
      obs acc = Ok W ->
    nonneg2 W.
Proof.
  intros HW. induction obs as [|o obs IH]; intros acc W Hacc H; simpl in H.
  - apply Hacc. exact H.
  - eapply IH; [|exact H].
    intros A HA. apply bind_Ok in HA. destruct HA as (A0 & -> & HA).
    apply bind_Ok in HA. destruct HA as ([[L xroll] yroll] & _ & HA).
    eapply masked_add_nonneg; [apply Hacc; reflexivity | | exact HA].
    intros k. apply flatten_nonneg. intros y x. simpl. apply HW.
Qed.

Lemma getCombinedWeights_nonneg obs scale_r dx dy nx ny Warg w W :
  0 <= w ->
  getCombinedWeights obs scale_r dx dy nx ny Warg w = Ok W -> nonneg2 W.
Proof.
  intros Hw H. unfold getCombinedWeights in H.
  apply bind_Ok in H. destruct H as (W_loc & HWloc & H).
  eapply combine_fold_nonneg; [| |exact H].
  - eapply getLocalWeightShape_nonneg; eassumption.
  - intros A HA. injection HA as <-. intros y x. simpl. lra.
Qed.

Lemma blend_of_nonneg Wc y x :
  nonneg2 Wc ->
  at2 (W_analysis_of Wc) y x + at2 (W_forecast_of Wc) y x = 1 /\
  0 <= at2 (W_analysis_of Wc) y x <= 1 /\
  0 <= at2 (W_forecast_of Wc) y x <= 1.
Proof.
  intros HW. simpl. specialize (HW y x).
  set (c := at2 Wc y x) in *.
  assert (Hm : 1 <= Rmax c 1) by apply Rmax_r.
  assert (Hc : c <= Rmax c 1) by apply Rmax_l.
  assert (H0 : 0 <= c / Rmax c 1).
  { unfold Rdiv. apply Rmult_le_pos; [exact HW|].
    left. apply Rinv_0_lt_compat. lra. }
  assert (H1 : c / Rmax c 1 <= 1).
  { apply (Rmult_le_reg_r (Rmax c 1)); [lra|].
    unfold Rdiv. rewrite Rmult_assoc, Rinv_l by lra. lra. }
  lra.
Qed.

Lemma patches_loop_spec self positions gs :
  0 <= scale_w self ->
  forall WA WF,
    patches_loop self positions gs = Ok (WA, WF) ->
    length WA = length gs /\ length WF = length gs /\
    forall g A F,
      nth_error WA g = Some A -> nth_error WF g = Some F ->
      exists Wc, nonneg2 Wc /\ A = W_analysis_of Wc /\ F = W_forecast_of Wc.
Proof.
  intros Hw. induction gs as [|G gs IH]; intros WA WF H; simpl in H.
  - injection H as <- <-. repeat split; auto.
    intros g A F HA. destruct g; discriminate.
  - apply bind_Ok in H. destruct H as (obs & _ & H).
    apply bind_Ok in H. destruct H as (Wc & HWc & H).
    apply bind_Ok in H. destruct H as ([WA' WF'] & Hrest & H).
    injection H as <- <-. simpl.
    destruct (IH WA' WF' Hrest) as (HlA & HlF & Hnth).
    repeat split; [lia | lia |].
    intros [|g] A F HA HF; simpl in HA, HF.
    + injection HA as <-. injection HF as <-. exists Wc. repeat split.
      eapply getCombinedWeights_nonneg; eassumption.
    + eapply Hnth; eassumption.
Qed.

(** C2. With a relaxation factor of at least 0, the analysis and forecast
    weights that [initializeLocalPatches] stores for a group sum to 1 at
    every cell and both lie between 0 and 1. *)
Theorem blend_weights_convex
  (self self' : LEnKF) (r : R)
  (Hrelax : 0 <= scale_w self)
  (Hret : initializeLocalPatches self r = Ok self') :
  exists gs WA WF,
    groups self = Some gs /\
    W_analyses self' = Some WA /\ W_forecasts self' = Some WF /\
    length WA = length gs /\ length WF = length gs /\
    forall g A F,
      nth_error WA g = Some A -> nth_error WF g = Some F ->
      forall y x,
        at2 A y x + at2 F y x = 1 /\
        0 <= at2 A y x <= 1 /\
        0 <= at2 F y x <= 1.
Proof.
  unfold initializeLocalPatches in Hret.
  apply bind_Ok in Hret. destruct Hret as (W & _ & Hret).
  apply bind_Ok in Hret. destruct Hret as (gs & Hgs & Hret).
  apply bind_Ok in Hret. destruct Hret as (positions & _ & Hret).
  apply bind_Ok in Hret. destruct Hret as ([WA WF] & Hloop & Hret).
  injection Hret as <-. simpl.
  assert (Hgs' : groups self = Some gs).
  { destruct (Rgt_dec r 0); simpl in Hgs; destruct (groups self);
      simpl in Hgs; congruence. }
  apply patches_loop_spec in Hloop;
    [| destruct (Rgt_dec r 0); simpl; exact Hrelax].
  destruct Hloop as (HlA & HlF & Hnth).
  exists gs, WA, WF. repeat split; auto;
    destruct (Hnth g A F H H0) as (Wc & HWc & -> & ->);
    apply (blend_of_nonneg Wc y x HWc).
Qed.

(** ** Rounding at concrete values *)

Lemma Int_part_bounds x : IZR (Int_part x) <= x < IZR (Int_part x) + 1.
Proof. pose proof (base_Int_part x). lra. Qed.

Lemma roundZ_eq x z : IZR z - 1/2 < x < IZR z + 1/2 -> roundZ x = z.
Proof.
  intros [Hlo Hhi]. unfold roundZ.
  pose proof (Int_part_bounds x) as [Hf0 Hf1].
  set (f := Int_part x) in *.
  assert (Hfle : (f < z + 1)%Z).
  { apply lt_IZR. rewrite plus_IZR. lra. }
  assert (Hfge : (z - 2 < f)%Z).
  { apply lt_IZR. rewrite minus_IZR. lra. }
  assert (Hcase : f = z \/ f = (z - 1)%Z) by lia.
  destruct Hcase as [->| ->].
  - destruct (Rlt_dec (x - IZR z) (1/2)); [reflexivity | lra].
  - rewrite minus_IZR in *.
    destruct (Rlt_dec (x - (IZR z - 1)) (1/2)); [lra|].
    destruct (Rgt_dec (x - (IZR z - 1)) (1/2)); [lia | lra].
Qed.

Lemma ceilZ_eq x z : IZR z - 1 < x <= IZR z -> ceilZ x = z.
Proof.
  intros [Hlo Hhi]. unfold ceilZ.
  rewrite <- (Int_part_spec (- x) (- z)%Z); [lia|].
  rewrite opp_IZR. lra.
Qed.

Lemma length_cells n m : length (cells n m) = (n * m)%nat.
Proof.
  unfold cells. generalize 0%nat at 2.
  induction n as [|n IH]; intros s; simpl; [reflexivity|].
  rewrite length_app, length_map, length_seq, IH. reflexivity.
Qed.

Lemma length_flatten A : length (flatten A) = (shape0 A * shape1 A)%nat.
Proof. unfold flatten. rewrite length_map. apply length_cells. Qed.

(** ** A concrete run of [initializeLocalPatches] *)

Lemma one_buoy_stencil :
  exists W, getLocalWeightShape 0.5 1 1 10 10 1 = Ok W /\
            shape0 W = 3%nat /\ shape1 W = 3%nat.
Proof.
  unfold getLocalWeightShape.
  rewrite (ceilZ_eq (0.5 * 1.5) 1) by (simpl; lra).
  simpl. eexists. split; [reflexivity|]. split; reflexivity.
Qed.

Lemma one_buoy_patch :
  exists L, getLocalIndices (5, 5) 0.5 1 1 10 10 = Ok (L, 0%Z, 0%Z) /\
            mshape0 L = 10%nat /\ mshape1 L = 10%nat /\
            length (true_cells L) = 9%nat.
Proof.
  unfold getLocalIndices.
  rewrite (ceilZ_eq (0.5 * 1.5) 1) by (simpl; lra).
  destruct (Req_dec_T 1 0) as [H|_]; [lra|].
  cbn [fst snd].
  rewrite (roundZ_eq (5 / 1) 5) by (simpl; lra).
  rewrite (roundZ_eq (1 * IZR 1 / 1) 1) by (simpl; lra).
  rewrite (roundZ_eq ((1 * IZR 1 + 1) / 1) 2) by (simpl; lra).
  simpl. eexists. split; [reflexivity|]. repeat split.
Qed.

Lemma one_buoy_patches :
  exists self', initializeLocalPatches one_buoy_filter 0.5 = Ok self'.
Proof.
  unfold initializeLocalPatches.
  destruct (Rgt_dec 0.5 0) as [_|H]; [|lra].
  destruct one_buoy_stencil as (W & HW & Hs0 & Hs1).
  destruct one_buoy_patch as (L & HL & Hm0 & Hm1 & Hcount).
  cbn [set_r_factor set_patches r_factor self_ensemble one_buoy_filter one_buoy
       ens_dx ens_dy ens_nx ens_ny scale_w groups drifter_positions not_none
       getattr bind].
  rewrite HW. cbn [bind patches_loop take_rows getitem nth_error].
  cbn [set_r_factor set_patches r_factor self_ensemble one_buoy_filter one_buoy
       ens_dx ens_dy ens_nx ens_ny scale_w groups drifter_positions W_loc bind].
  unfold getCombinedWeights. rewrite HW. cbn [bind fold_left].
  rewrite HL. cbn [bind].
  unfold masked_add. rewrite Hm0, Hm1, length_flatten, Hcount.
  cbn [roll0 roll1 shape0 shape1 np.zeros]. rewrite Hs0, Hs1.
  cbn [Nat.eqb Nat.mul Nat.add negb andb bind fst snd]. eexists. reflexivity.
Qed.

Lemma blend_weights_convex_witness :
  0 <= scale_w one_buoy_filter /\
  exists self',
    initializeLocalPatches one_buoy_filter 0.5 = Ok self' /\
    exists gs WA WF,
      groups one_buoy_filter = Some gs /\
      W_analyses self' = Some WA /\ W_forecasts self' = Some WF /\
      length WA = length gs /\ length WF = length gs /\
      forall g A F,
        nth_error WA g = Some A -> nth_error WF g = Some F ->
        forall y x,
          at2 A y x + at2 F y x = 1 /\
          0 <= at2 A y x <= 1 /\
          0 <= at2 F y x <= 1.
Proof.
  assert (Hw : 0 <= scale_w one_buoy_filter) by (simpl; lra).
  split; [exact Hw|].
  destruct one_buoy_patches as (self' & Hret).
  exists self'. split; [exact Hret|].
  exact (blend_weights_convex one_buoy_filter self' 0.5 Hw Hret).
Defined.

(** ** Adaptive inflation *)


Lemma det2 A : linalg.det 2 A = A O O * A 1%nat 1%nat - A O 1%nat * A 1%nat O.
Proof. unfold linalg.det, linalg.minor, linalg.skip. simpl. ring. Qed.

Lemma det1 A : linalg.det 1 A = A O O.
Proof. unfold linalg.det. simpl. ring. Qed.

Lemma pd2_det A : positive_definite2 A ->
  0 < at2 A 0 0 /\ 0 < at2 A 1 1 /\
  0 < at2 A 0 0 * at2 A 1 1 - at2 A 0 1 * at2 A 1 0.
Proof.
  intros (_ & _ & H).
  set (a := at2 A 0 0) in *. set (b := at2 A 0 1) in *.
  set (c := at2 A 1 0) in *. set (d := at2 A 1 1) in *.
  clearbody a b c d.
  assert (Ha : 0 < a). { specialize (H 1 0). lapply H; [|left; lra]. intros; lra. }
  assert (Hd : 0 < d). { specialize (H 0 1). lapply H; [|right; lra]. intros; lra. }
  split; [exact Ha|]. split; [exact Hd|].
  specialize (H (b + c) (- 2 * a)). lapply H; [|right; lra]. intros Hq.
  assert (Hq' : 0 < a * (4 * a * d - (b + c) * (b + c)))
    by (eapply Rlt_le_trans; [exact Hq | right; ring]).
  assert (0 < 4 * a * d - (b + c) * (b + c))
    by (apply (Rmult_lt_reg_l a); [exact Ha | rewrite Rmult_0_r; exact Hq']).
  assert (0 <= (b - c) * (b - c)) by apply Rle_0_sqr.
  lra.
Qed.


Lemma inv_pd2 A : positive_definite2 A ->
  exists Rinv, linalg.inv A = Ok Rinv /\
    forall d1 d2, exists RDD,
      np.matmul Rinv (np.outer [d1; d2] [d1; d2]) = Ok RDD /\
      np.trace RDD = quad_inv A d1 d2.
Proof.
  intros HA. pose proof (pd2_det A HA) as (Ha & Hd & Hdet).
  destruct HA as (Hs0 & Hs1 & HA).
  unfold linalg.inv. rewrite Hs0, Hs1. simpl Nat.eqb. cbv iota.
  rewrite det2. destruct (Req_dec_T _ 0) as [E|_]; [lra|].
  eexists. split; [reflexivity|]. intros d1 d2.
  unfold np.matmul. simpl. eexists. split; [reflexivity|].
  unfold np.trace, quad_inv. simpl. unfold linalg.minor, linalg.skip. simpl.
  field. lra.
Qed.

Lemma quad_inv_nonneg A d1 d2 : positive_definite2 A ->
  0 <= quad_inv A d1 d2 /\ (d1 <> 0 \/ d2 <> 0 -> 0 < quad_inv A d1 d2).
Proof.
  intros HA. pose proof (pd2_det A HA) as (Ha & Hd & Hdet).
  destruct HA as (_ & _ & HA). unfold quad_inv.
  assert (Hnum : d1 <> 0 \/ d2 <> 0 ->
            0 < at2 A 1 1 * d1 * d1 - (at2 A 0 1 + at2 A 1 0) * d1 * d2
                + at2 A 0 0 * d2 * d2).
  { intros Hne. specialize (HA (- d2) d1).
    lapply HA; [|destruct Hne; [right; assumption | left; lra]].
    intros Hq. eapply Rlt_le_trans; [exact Hq | right; ring]. }
  split.
  - destruct (Req_dec_T d1 0) as [->|H1].
    + destruct (Req_dec_T d2 0) as [->|H2].
      * right. unfold Rdiv. ring.
      * left. apply Rdiv_lt_0_compat; [apply Hnum; right; exact H2 | exact Hdet].
    + left. apply Rdiv_lt_0_compat; [apply Hnum; left; exact H1 | exact Hdet].
  - intros Hne. apply Rdiv_lt_0_compat; [apply Hnum; exact Hne | exact Hdet].
Qed.

Lemma forgetting_value Rinv d1 d2 RDD N_a :
  np.matmul Rinv (np.outer [d1; d2] [d1; d2]) = Ok RDD ->
  0 <= np.trace RDD -> (2 < N_a)%nat ->
  ETKF_forgetting_factor 0 Rinv [d1; d2] N_a =
    Ok (1 / sqrt (1 + np.trace RDD / (INR N_a - 2)) ^ 2) /\
  1 / sqrt (1 + np.trace RDD / (INR N_a - 2)) ^ 2 =
    1 / (1 + np.trace RDD / (INR N_a - 2)) /\
  0 <= np.trace RDD / (INR N_a - 2).
Proof.
  intros Hm Ht HN.
  assert (HNr : 0 < INR N_a - 2).
  { apply lt_INR in HN. simpl in HN. lra. }
  assert (Hs : 0 <= np.trace RDD / (INR N_a - 2)).
  { unfold Rdiv. apply Rmult_le_pos; [exact Ht|]. left. apply Rinv_0_lt_compat. exact HNr. }
  split; [|split; [|exact Hs]].
  - unfold ETKF_forgetting_factor. destruct (Req_dec_T 0 0) as [_|E]; [|congruence].
    rewrite Hm. reflexivity.
  - rewrite pow2_sqrt by lra. reflexivity.
Qed.

Lemma quad_inv_bound A d1 d2 delta : positive_definite2 A ->
  0 < delta -> delta <= 1 -> Rabs d1 < delta -> Rabs d2 < delta ->
  quad_inv A d1 d2 <=
  (at2 A 1 1 + Rabs (at2 A 0 1 + at2 A 1 0) + at2 A 0 0) * delta
  / (at2 A 0 0 * at2 A 1 1 - at2 A 0 1 * at2 A 1 0).
Proof.
  intros HA Hd0 Hd1 H1 H2. pose proof (pd2_det A HA) as (Ha & Hd & Hdet).
  unfold quad_inv. apply Rmult_le_compat_r; [left; apply Rinv_0_lt_compat; exact Hdet|].
  set (a := at2 A 0 0) in *. set (d := at2 A 1 1) in *.
  set (s := at2 A 0 1 + at2 A 1 0) in *. clearbody a d s.
  pose proof (Rabs_pos d1) as Hu0. pose proof (Rabs_pos d2) as Hv0.
  pose proof (Rabs_pos s) as Hs0.
  assert (E1 : d1 * d1 = Rabs d1 * Rabs d1).
  { fold (Rsqr d1). fold (Rsqr (Rabs d1)). apply Rsqr_abs. }
  assert (E2 : d2 * d2 = Rabs d2 * Rabs d2).
  { fold (Rsqr d2). fold (Rsqr (Rabs d2)). apply Rsqr_abs. }
  assert (E3 : - (s * d1 * d2) <= Rabs s * Rabs d1 * Rabs d2).
  { rewrite <- !Rabs_mult. rewrite <- (Rabs_Ropp (s * d1 * d2)). apply Rle_abs. }
  set (u := Rabs d1) in *. set (v := Rabs d2) in *. set (B := Rabs s) in *.
  clearbody u v B.
  assert (Huu : u * u <= delta) by nra.
  assert (Hvv : v * v <= delta) by nra.
  assert (Huv : u * v <= delta) by nra.
  assert (d * (u * u) <= d * delta) by (apply Rmult_le_compat_l; lra).
  assert (a * (v * v) <= a * delta) by (apply Rmult_le_compat_l; lra).
  assert (B * (u * v) <= B * delta) by (apply Rmult_le_compat_l; lra).
  replace (d * d1 * d1) with (d * (d1 * d1)) by ring.
  replace (a * d2 * d2) with (a * (d2 * d2)) by ring.
  rewrite E1, E2. lra.
Qed.

(** The forgetting factor of the adaptive inflation, for a positive
    definite observation covariance and more than two active particles. *)
Lemma forgetting_factor_bounds
  (Rcov : array2) (N_a : nat)
  (HR : positive_definite2 Rcov) (HN : (2 < N_a)%nat) :
  exists Rinv,
    linalg.inv Rcov = Ok Rinv /\
    (forall d1 d2, exists RDD ff,
       np.matmul Rinv (np.outer [d1; d2] [d1; d2]) = Ok RDD /\
       ETKF_forgetting_factor 0 Rinv [d1; d2] N_a = Ok ff /\
       ff = 1 / sqrt (1 + np.trace RDD / (INR N_a - 2)) ^ 2 /\
       0 < ff <= 1 /\
       (d1 <> 0 \/ d2 <> 0 -> ff < 1)) /\
    (forall eps, 0 < eps ->
       exists delta, 0 < delta /\
         forall d1 d2 ff, Rabs d1 < delta -> Rabs d2 < delta ->
           ETKF_forgetting_factor 0 Rinv [d1; d2] N_a = Ok ff ->
           Rabs (ff - 1) < eps).
Proof.
  destruct (inv_pd2 Rcov HR) as (Rinv & Hinv & Hq).
  assert (HNr : 0 < INR N_a - 2).
  { apply lt_INR in HN. simpl in HN. lra. }
  pose proof (pd2_det Rcov HR) as (Ha & Hd & Hdet).
  exists Rinv. split; [exact Hinv|]. split.
  - intros d1 d2. destruct (Hq d1 d2) as (RDD & Hm & Ht).
    destruct (quad_inv_nonneg Rcov d1 d2 HR) as [Hq0 Hq1].
    rewrite <- Ht in Hq0, Hq1.
    destruct (forgetting_value Rinv d1 d2 RDD N_a Hm Hq0 HN) as (Hff & Hval & Hs).
    exists RDD, (1 / sqrt (1 + np.trace RDD / (INR N_a - 2)) ^ 2).
    split; [exact Hm|]. split; [exact Hff|]. split; [reflexivity|].
    rewrite Hval. set (s := np.trace RDD / (INR N_a - 2)) in *.
    assert (Hpos : 0 < 1 / (1 + s)) by (apply Rdiv_lt_0_compat; lra).
    assert (Hle : 1 / (1 + s) <= 1).
    { apply (Rmult_le_reg_r (1 + s)); [lra|]. unfold Rdiv.
      rewrite Rmult_assoc, Rinv_l by lra. lra. }
    split; [split; assumption|].
    intros Hne. specialize (Hq1 Hne).
    assert (Hs1 : 0 < s).
    { unfold s. apply Rdiv_lt_0_compat; assumption. }
    apply (Rmult_lt_reg_r (1 + s)); [lra|]. unfold Rdiv.
    rewrite Rmult_assoc, Rinv_l by lra. lra.
  - intros eps Heps.
    set (M := at2 Rcov 1 1 + Rabs (at2 Rcov 0 1 + at2 Rcov 1 0) + at2 Rcov 0 0).
    set (det := at2 Rcov 0 0 * at2 Rcov 1 1 - at2 Rcov 0 1 * at2 Rcov 1 0) in *.
    assert (HM : 0 < M).
    { unfold M. pose proof (Rabs_pos (at2 Rcov 0 1 + at2 Rcov 1 0)). lra. }
    set (c := M / (det * (INR N_a - 2))).
    assert (Hc : 0 < c).
    { unfold c. apply Rdiv_lt_0_compat; [exact HM|]. apply Rmult_lt_0_compat; assumption. }
    exists (Rmin 1 (eps / (2 * c))).
    assert (Hdel : 0 < Rmin 1 (eps / (2 * c))).
    { apply Rmin_glb_lt; [lra|]. apply Rdiv_lt_0_compat; lra. }
    split; [exact Hdel|].
    intros d1 d2 ff H1 H2 Hff.
    destruct (Hq d1 d2) as (RDD & Hm & Ht).
    destruct (quad_inv_nonneg Rcov d1 d2 HR) as [Hq0 _].
    pose proof (quad_inv_bound Rcov d1 d2 _ HR Hdel (Rmin_l _ _) H1 H2) as Hb.
    fold M det in Hb. rewrite <- Ht in Hq0, Hb.
    destruct (forgetting_value Rinv d1 d2 RDD N_a Hm Hq0 HN) as (Hff' & Hval & Hs).
    assert (Hffv : ff = 1 / (1 + np.trace RDD / (INR N_a - 2)))
      by (rewrite <- Hval; congruence).
    rewrite Hffv.
    set (s := np.trace RDD / (INR N_a - 2)) in *.
    assert (Hs_le : s <= eps / 2).
    { unfold s.
      apply Rle_trans with (M * Rmin 1 (eps / (2 * c)) / det / (INR N_a - 2)).
      - apply Rmult_le_compat_r; [left; apply Rinv_0_lt_compat; exact HNr | exact Hb].
      - replace (M * Rmin 1 (eps / (2 * c)) / det / (INR N_a - 2))
          with (c * Rmin 1 (eps / (2 * c))) by (unfold c; field; lra).
        apply Rle_trans with (c * (eps / (2 * c))).
        + apply Rmult_le_compat_l; [lra | apply Rmin_r].
        + right. field. lra. }
    replace (1 / (1 + s) - 1) with (- (s / (1 + s))) by (field; lra).
    rewrite Rabs_Ropp, Rabs_pos_eq.
    + apply Rle_lt_trans with s; [|lra].
      apply (Rmult_le_reg_r (1 + s)); [lra|]. unfold Rdiv.
      rewrite Rmult_assoc, Rinv_l by lra. nra.
    + unfold Rdiv. apply Rmult_le_pos; [exact Hs|].
      left. apply Rinv_0_lt_compat. lra.
Qed.

Lemma eye2_positive_definite : positive_definite2 (np.eye 2).
Proof.
  split; [reflexivity|]. split; [reflexivity|]. intros x y Hne. simpl.
  destruct Hne as [H|H].
  - assert (0 < x * x) by (destruct (Rtotal_order x 0) as [?|[?|?]]; nra). nra.
  - assert (0 < y * y) by (destruct (Rtotal_order y 0) as [?|[?|?]]; nra). nra.
Qed.


(** ** The stochastic update and the number of active particles *)

Section Shapes.
  Context {ext : External}.

Lemma SEnKF_loc_Ok_shape self d X_f_loc X_f_loc_pert HX_f_loc_mean HX_f_loc_pert y_loc
  n N_a X_a :
  shape0 X_f_loc = n -> shape1 X_f_loc = N_a ->
  shape0 X_f_loc_pert = n -> shape1 X_f_loc_pert = N_a ->
  length HX_f_loc_mean = 2%nat ->
  shape0 HX_f_loc_pert = 2%nat -> shape1 HX_f_loc_pert = N_a ->
  length y_loc = 2%nat ->
  SEnKF_loc self d X_f_loc X_f_loc_pert HX_f_loc_mean HX_f_loc_pert y_loc None = Ok X_a ->
  N_e self <> 1%nat /\ shape0 X_a = n /\
  ((N_a = N_e self /\ shape1 X_a = N_a) \/
   (N_a = 1%nat /\ N_a <> N_e self /\ shape1 X_a = N_e self)).
Proof.
  intros Hx0 Hx1 Hp0 Hp1 Hm Hh0 Hh1 Hy H. unfold SEnKF_loc in H.
  apply bind_Ok in H. destruct H as (D & HD & H).
  apply bind_Ok in HD. destruct HD as (Y & HY & HD).
  apply bind_Ok in HD. destruct HD as (HX & HHX & HD).
  apply broadcast_shape in HY. simpl in HY. rewrite Hy in HY. destruct HY as [HY0 HY1].
  apply broadcast_shape in HHX. simpl in HHX. rewrite Hm, Hh0, Hh1 in HHX.
  destruct HHX as [HHX0 HHX1].
  apply broadcast_shape in HD. simpl in HD. destruct HD as [HD0 HD1].
  rewrite bdim_one_l in HY0, HHX1. rewrite bdim_same in HY1, HHX0.
  injection HY0 as HY0. injection HY1 as HY1. injection HHX0 as HHX0. injection HHX1 as HHX1.
  rewrite <- HY0, <- HY1, <- HHX0, <- HHX1 in *.
  rewrite bdim_same in HD0. injection HD0 as HD0.
  apply bind_Ok in H. destruct H as (c & Hc & H).
  apply py_div_Ok in Hc. destruct Hc as [Hc _].
  assert (HNe : N_e self <> 1%nat) by (intros E; apply Hc, INR_minus_1_zero, E).
  apply bind_Ok in H. destruct H as (HH & HHH & H).
  apply bind_Ok in H. destruct H as (F & HF & H).
  apply bind_Ok in H. destruct H as (c' & _ & H).
  apply bind_Ok in H. destruct H as (XH & HXH & H).
  apply bind_Ok in H. destruct H as (Finv & HFinv & H).
  apply bind_Ok in H. destruct H as (XHF & HXHF & H).
  apply bind_Ok in H. destruct H as (gain & Hgain & H).
  apply matmul_shape in HXH. simpl in HXH. destruct HXH as (_ & HXH0 & HXH1).
  apply matmul_shape in HXHF. destruct HXHF as (HF1 & HXHF0 & HXHF1).
  apply matmul_shape in Hgain. destruct Hgain as (Hg & Hg0 & Hg1).
  apply broadcast_shape in H. destruct H as [H0 H1].
  rewrite Hg0, HXHF0, HXH0, Hp0, Hx0, bdim_same in H0. injection H0 as H0.
  rewrite Hg1, Hx1 in H1.
  split; [exact HNe|]. split; [symmetry; exact H0|].
  apply bdim_Ok in HD1. apply bdim_Ok in H1.
  destruct HD1 as [[E1 E2]|[[E1 E2]|[E1 E2]]]; rewrite E2 in H1;
    destruct H1 as [[E3 E4]|[[E3 E4]|[E3 E4]]]; try lia.
Qed.


Lemma SEnKF_loc_mismatch self d X_f_loc X_f_loc_pert HX_f_loc_mean HX_f_loc_pert y_loc N_a :
  length HX_f_loc_mean = 2%nat ->
  shape0 HX_f_loc_pert = 2%nat -> shape1 HX_f_loc_pert = N_a ->
  length y_loc = 2%nat ->
  (1 < N_a)%nat -> N_a <> N_e self -> N_e self <> 1%nat ->
  SEnKF_loc self d X_f_loc X_f_loc_pert HX_f_loc_mean HX_f_loc_pert y_loc None
  = Raise ValueError.
Proof.
  intros Hm Hh0 Hh1 Hy HNa Hne Hne1. unfold SEnKF_loc.
  unfold np.add, np.subtract, np.broadcast. simpl.
  rewrite Hy, Hm, Hh0, Hh1. rewrite !bdim_one_l, !bdim_same. simpl.
  rewrite bdim_Raise by lia. reflexivity.
Qed.


Lemma SEnKF_loc_consistent self d X_f_loc X_f_loc_pert HX_f_loc_mean HX_f_loc_pert y_loc
  n N_a :
  shape0 X_f_loc = n -> shape1 X_f_loc = N_a ->
  shape0 X_f_loc_pert = n -> shape1 X_f_loc_pert = N_a ->
  length HX_f_loc_mean = 2%nat ->
  shape0 HX_f_loc_pert = 2%nat -> shape1 HX_f_loc_pert = N_a ->
  length y_loc = 2%nat ->
  positive_definite2 (getObservationCov (self_ensemble self)) ->
  N_a = N_e self -> (2 <= N_e self)%nat ->
  exists X_a,
    SEnKF_loc self d X_f_loc X_f_loc_pert HX_f_loc_mean HX_f_loc_pert y_loc None = Ok X_a /\
    shape0 X_a = n /\ shape1 X_a = N_a.
Proof.
  intros Hx0 Hx1 Hp0 Hp1 Hm Hh0 Hh1 Hy HR HN HN2. unfold SEnKF_loc.
  destruct HR as (HR0 & HR1 & HR).
  assert (HNr : 0 < INR N_a - 1).
  { rewrite HN. apply le_INR in HN2. simpl in HN2. lra. }
  rewrite <- HN.
  unfold np.add, np.subtract, np.broadcast, np.matmul, py_div.
  repeat (cbn [bind shape0 shape1 np.T np.scale np.row np.column
                 np.multivariate_normal];
          rewrite ?Hy, ?Hm, ?Hh0, ?Hh1, ?Hp0, ?Hp1, ?Hx0, ?Hx1, ?HR0, ?HR1,
                  ?bdim_one_l, ?bdim_same, ?Nat.eqb_refl).
  destruct (Req_dec_T (INR N_a - 1) 0) as [E|_]; [lra|].
  repeat (cbn [bind shape0 shape1 np.T np.scale np.row np.column
                 np.multivariate_normal];
          rewrite ?Hy, ?Hm, ?Hh0, ?Hh1, ?Hp0, ?Hp1, ?Hx0, ?Hx1, ?HR0, ?HR1,
                  ?bdim_one_l, ?bdim_same, ?Nat.eqb_refl).
  set (c := inflation_factor self ^ 2 / (INR N_a - 1)).
  assert (Hc : 0 <= c).
  { unfold c. unfold Rdiv. apply Rmult_le_pos; [apply pow2_ge_0|].
    left. apply Rinv_0_lt_compat. exact HNr. }
  match goal with |- context [linalg.inv ?M] => set (F := M) end.
  assert (HF : positive_definite2 F).
  { split; [reflexivity|]. split; [reflexivity|]. intros x y Hne. unfold F.
    cbn [at2 np.bidx Nat.eqb np.scale np.T].
    specialize (HR x y Hne).
    pose proof (quad_sum c (at2 HX_f_loc_pert 0) (at2 HX_f_loc_pert 1) x y N_a) as Hq.
    assert (Hsq : 0 <= sum_n (fun k =>
                    (x * at2 HX_f_loc_pert 0 k + y * at2 HX_f_loc_pert 1 k) *
                    (x * at2 HX_f_loc_pert 0 k + y * at2 HX_f_loc_pert 1 k)) N_a).
    { apply sum_n_nonneg. intros k. apply Rle_0_sqr. }
    assert (0 <= c * sum_n (fun k =>
                    (x * at2 HX_f_loc_pert 0 k + y * at2 HX_f_loc_pert 1 k) *
                    (x * at2 HX_f_loc_pert 0 k + y * at2 HX_f_loc_pert 1 k)) N_a)
      by (apply Rmult_le_pos; assumption).
    lra. }
  pose proof (pd2_det F HF) as (_ & _ & Hdet).
  unfold linalg.inv. replace (shape0 F) with 2%nat by reflexivity.
  replace (shape1 F) with 2%nat by reflexivity. cbn [Nat.eqb].
  rewrite det2. destruct (Req_dec_T _ 0) as [E|_]; [lra|].
  repeat (cbn [bind shape0 shape1 Nat.eqb];
          rewrite ?Hy, ?Hm, ?Hh0, ?Hh1, ?Hp0, ?Hp1, ?Hx0, ?Hx1, ?HR0, ?HR1,
                  ?bdim_one_l, ?bdim_same, ?Nat.eqb_refl).
  eexists. split; [reflexivity|]. split; reflexivity.
Qed.



End Shapes.


(** ** Extracting a patch and scattering it back *)

Lemma bidx_lt n i : (i < n)%nat -> np.bidx n i = i.
Proof.
  unfold np.bidx. intros H. destruct (Nat.eqb_spec n 1) as [->|_]; [lia | reflexivity].
Qed.

Lemma in_cells n m y x : In (y, x) (cells n m) <-> (y < n)%nat /\ (x < m)%nat.
Proof.
  unfold cells. rewrite in_flat_map. split.
  - intros (y' & Hy & Hin). apply in_map_iff in Hin. destruct Hin as (x' & E & Hx).
    injection E as <- <-. apply in_seq in Hy. apply in_seq in Hx. lia.
  - intros [Hy Hx]. exists y. split; [apply in_seq; lia|].
    apply in_map. apply in_seq. lia.
Qed.

Lemma in_true_cells L y x :
  In (y, x) (true_cells L) <->
  (y < mshape0 L)%nat /\ (x < mshape1 L)%nat /\ mask_at L y x = true.
Proof.
  unfold true_cells. rewrite filter_In, in_cells. simpl. tauto.
Qed.

Lemma cell_eqb_eq a b : cell_eqb a b = true <-> a = b.
Proof.
  destruct a as [a1 a2], b as [b1 b2]. unfold cell_eqb. simpl.
  rewrite andb_true_iff, !Nat.eqb_eq. split; [intros [-> ->]; reflexivity|].
  intros E. injection E as -> ->. auto.
Qed.

Lemma index_of_lt c l : In c l -> (index_of c l < length l)%nat.
Proof.
  induction l as [|h t IH]; intros Hin; [contradiction|]. simpl.
  destruct (cell_eqb h c) eqn:E; [lia|].
  destruct Hin as [->|Hin].
  - assert (cell_eqb c c = true) by (apply cell_eqb_eq; reflexivity). congruence.
  - specialize (IH Hin). lia.
Qed.

Lemma nth_index_of c l d : In c l -> nth (index_of c l) l d = c.
Proof.
  induction l as [|h t IH]; intros Hin; [contradiction|]. simpl.
  destruct (cell_eqb h c) eqn:E.
  - apply cell_eqb_eq in E. exact E.
  - destruct Hin as [->|Hin].
    + assert (cell_eqb c c = true) by (apply cell_eqb_eq; reflexivity). congruence.
    + apply IH. exact Hin.
Qed.

Lemma fits_same n : fits n n = true.
Proof. unfold fits. rewrite Nat.eqb_refl. reflexivity. Qed.

Lemma div_mod_block i k N : (k < N)%nat ->
  ((i * N + k) / N = i)%nat /\ ((i * N + k) mod N = k)%nat.
Proof.
  intros Hk. split.
  - rewrite Nat.div_add_l by lia. rewrite Nat.div_small by lia. lia.
  - rewrite Nat.add_comm, Nat.Div0.mod_add. apply Nat.mod_small. exact Hk.
Qed.

(** The local matrix that the extraction builds, entry by entry. *)
Lemma extract_local_zero_roll X L W0 W1 N_a :
  a4_shape0 X = N_a -> a4_shape1 X = 3%nat ->
  mshape0 L = a4_shape2 X -> mshape1 L = a4_shape3 X ->
  length (true_cells L) = (W0 * W1)%nat ->
  exists X_loc,
    extract_local X L 0 0 W0 W1 N_a = Ok X_loc /\
    shape0 X_loc = (3 * (W0 * W1))%nat /\ shape1 X_loc = N_a /\
    forall e c k, (e < N_a)%nat -> (c < 3)%nat -> (k < W0 * W1)%nat ->
      at2 X_loc (c * (W0 * W1) + k) e =
      at4 X e c (fst (nth k (true_cells L) (O, O))) (snd (nth k (true_cells L) (O, O))).
Proof.
  intros H0 H1 H2 H3 Hc. unfold extract_local.
  rewrite H0, H1, H2, H3, Hc, !Nat.eqb_refl, !fits_same. simpl.
  eexists. split; [reflexivity|]. split; [reflexivity|]. split; [reflexivity|].
  intros e c k He Hc3 Hk. cbn [at2].
  destruct (div_mod_block c k (W0 * W1) Hk) as [-> ->].
  rewrite !bidx_lt by lia. reflexivity.
Qed.

Lemma scatter_variable_zero_roll X_a i X_loc W L N_a :
  (i < 3)%nat ->
  a4_shape0 X_a = N_a -> a4_shape1 X_a = 3%nat ->
  mshape0 L = a4_shape2 X_a -> mshape1 L = a4_shape3 X_a ->
  shape0 X_loc = (3 * (shape0 W * shape1 W))%nat -> shape1 X_loc = N_a ->
  length (true_cells L) = (shape0 W * shape1 W)%nat ->
  exists X',
    scatter_variable X_a i X_loc W L 0 0 N_a = Ok X' /\
    a4_shape0 X' = a4_shape0 X_a /\ a4_shape1 X' = a4_shape1 X_a /\
    a4_shape2 X' = a4_shape2 X_a /\ a4_shape3 X' = a4_shape3 X_a /\
    forall e c y x, (e < N_a)%nat ->
      at4 X' e c y x =
      if Nat.eqb c i && mask_at L y x
      then
        if (y <? mshape0 L)%nat && (x <? mshape1 L)%nat
        then
          let k := index_of (y, x) (true_cells L) in
          at4 X_a e c y x
          + at2 X_loc (i * (shape0 W * shape1 W) + k) e
            * at2 W (k / shape1 W)%nat (k mod shape1 W)%nat
        else at4 X' e c y x
      else at4 X_a e c y x.
Proof.
  intros Hi H0 H1 H2 H3 Hl0 Hl1 Hc.
  set (N := (shape0 W * shape1 W)%nat) in *.
  unfold scatter_variable. fold N.
  unfold np.multiply, np.broadcast.
  cbn [np.rows_slice shape0 shape1].
  rewrite Hl0, Hl1.
  replace (Nat.min ((i + 1) * N) (3 * N) - i * N)%nat with N by nia.
  rewrite !bdim_same. cbn [bind Z.eqb andb].
  unfold reshape2. cbn [shape0 shape1]. rewrite Nat.eqb_refl. cbn [bind].
  rewrite H1, H2, H3, H0, Hc, !Nat.eqb_refl, !fits_same.
  replace (i <? 3)%nat with true by (symmetry; apply Nat.ltb_lt; exact Hi).
  cbn [negb andb].
  eexists. split; [reflexivity|]. repeat (split; [reflexivity|]).
  intros e c y x He. cbn [at4].
  destruct (Nat.eqb c i && mask_at L y x) eqn:Ecm; [|reflexivity].
  destruct ((y <? a4_shape2 X_a)%nat && (x <? a4_shape3 X_a)%nat) eqn:Eyx;
    [|reflexivity].
  apply andb_true_iff in Ecm. destruct Ecm as [_ Hm].
  apply andb_true_iff in Eyx. destruct Eyx as [Hy Hx].
  apply Nat.ltb_lt in Hy. apply Nat.ltb_lt in Hx.
  assert (Hin : In (y, x) (true_cells L)).
  { apply in_true_cells. rewrite H2, H3. auto. }
  pose proof (index_of_lt _ _ Hin) as Hk. rewrite Hc in Hk.
  set (k := index_of (y, x) (true_cells L)) in *.
  cbn [at2]. f_equal.
  rewrite !(bidx_lt N k) by exact Hk. rewrite !(bidx_lt N_a e) by exact He.
  assert (E : ((k * N_a + e) / N_a = k /\ (k * N_a + e) mod N_a = e)%nat)
    by (apply div_mod_block; exact He).
  destruct E as [-> ->].
  rewrite !(bidx_lt N k) by exact Hk. rewrite !(bidx_lt N_a e) by exact He.
  reflexivity.
Qed.

(** C8. For a patch without wrap (both roll offsets 0) whose mask selects
    as many cells as the stencil has, extracting the local values of a
    field and scattering them back with a stencil of ones into an empty
    accumulator gives back the field at every cell of the patch. *)
Theorem local_patch_round_trip
  (X_f : array4) (L : mask2) (W0 W1 N_a : nat)
  (Hs0 : a4_shape0 X_f = N_a) (Hs1 : a4_shape1 X_f = 3%nat)
  (Hm0 : mshape0 L = a4_shape2 X_f) (Hm1 : mshape1 L = a4_shape3 X_f)
  (Hcount : length (true_cells L) = (W0 * W1)%nat) :
  exists X_f_loc X_a,
    extract_local X_f L 0 0 W0 W1 N_a = Ok X_f_loc /\
    scatter_local (zeros4 N_a 3 (a4_shape2 X_f) (a4_shape3 X_f))
      X_f_loc (np.ones W0 W1) L 0 0 N_a = Ok X_a /\
    forall e c y x,
      (e < N_a)%nat -> (c < 3)%nat ->
      (y < a4_shape2 X_f)%nat -> (x < a4_shape3 X_f)%nat ->
      mask_at L y x = true ->
      at4 X_a e c y x = at4 X_f e c y x.
Proof.
  destruct (extract_local_zero_roll X_f L W0 W1 N_a Hs0 Hs1 Hm0 Hm1 Hcount)
    as (X_loc & Hext & Hl0 & Hl1 & Hval).
  exists X_loc.
  destruct (scatter_variable_zero_roll (zeros4 N_a 3 (a4_shape2 X_f) (a4_shape3 X_f))
              0 X_loc (np.ones W0 W1) L N_a)
    as (X1 & HX1 & A0 & A1 & A2 & A3 & V1);
    [lia | reflexivity | reflexivity | exact Hm0 | exact Hm1 | exact Hl0
     | exact Hl1 | exact Hcount |].
  cbn [zeros4 a4_shape0 a4_shape1 a4_shape2 a4_shape3] in A0, A1, A2, A3.
  destruct (scatter_variable_zero_roll X1 1 X_loc (np.ones W0 W1) L N_a)
    as (X2 & HX2 & B0 & B1 & B2 & B3 & V2);
    [lia | exact A0 | exact A1 | congruence | congruence | exact Hl0
     | exact Hl1 | exact Hcount |].
  destruct (scatter_variable_zero_roll X2 2 X_loc (np.ones W0 W1) L N_a)
    as (X3 & HX3 & C0 & C1 & C2 & C3 & V3);
    [lia | congruence | congruence | congruence | congruence | exact Hl0
     | exact Hl1 | exact Hcount |].
  exists X3. split; [exact Hext|]. split.
  { unfold scatter_local. rewrite HX1. cbn [bind]. rewrite HX2. cbn [bind]. exact HX3. }
  intros e c y x He Hc Hy Hx Hmask.
  assert (Hin : In (y, x) (true_cells L)).
  { apply in_true_cells. rewrite Hm0, Hm1. auto. }
  pose proof (index_of_lt _ _ Hin) as Hk. rewrite Hcount in Hk.
  assert (Hrange : ((y <? mshape0 L)%nat && (x <? mshape1 L)%nat) = true).
  { rewrite Hm0, Hm1. apply andb_true_iff. split; apply Nat.ltb_lt; assumption. }
  assert (Hback : forall c', (c' < 3)%nat ->
            0 + at2 X_loc (c' * (W0 * W1) + index_of (y, x) (true_cells L)) e * 1
            = at4 X_f e c' y x).
  { intros c' Hc'. rewrite (Hval e c' _ He Hc' Hk).
    rewrite (nth_index_of _ _ (O, O) Hin). simpl. ring. }
  specialize (V1 e c y x He). specialize (V2 e c y x He). specialize (V3 e c y x He).
  rewrite Hmask, Hrange, andb_true_r in V1, V2, V3.
  cbn [np.ones shape0 shape1 at2 zeros4 at4] in V1, V2, V3.
  assert (Hcase : c = 0%nat \/ c = 1%nat \/ c = 2%nat) by lia.
  destruct Hcase as [->|[->| ->]]; cbn [Nat.eqb] in V1, V2, V3.
  - rewrite V3, V2, V1. apply (Hback 0%nat). lia.
  - rewrite V3, V2, V1. rewrite <- (Hback 1%nat) by lia. ring.
  - rewrite V3, V2, V1. rewrite <- (Hback 2%nat) by lia. ring.
Qed.

Lemma local_patch_round_trip_witness :
  let X_f := mkArray4 2 3 3 3 (fun e c y x => INR (e + c + y + x)) in
  let L := mkMask2 3 3 (fun _ _ => true) in
  length (true_cells L) = (3 * 3)%nat /\
  exists X_f_loc X_a,
    extract_local X_f L 0 0 3 3 2 = Ok X_f_loc /\
    scatter_local (zeros4 2 3 3 3) X_f_loc (np.ones 3 3) L 0 0 2 = Ok X_a /\
    forall e c y x,
      (e < 2)%nat -> (c < 3)%nat -> (y < 3)%nat -> (x < 3)%nat ->
      mask_at L y x = true ->
      at4 X_a e c y x = at4 X_f e c y x.
Proof.
  intros X_f L. split; [reflexivity|].
  exact (local_patch_round_trip X_f L 3 3 2 eq_refl eq_refl eq_refl eq_refl eq_refl).
Defined.

(** ** The ensemble changes only in the upload *)




Section Keeps.
Variable P : World -> Prop.

Lemma keeps_ret {A} (a : A) (Q : A -> Prop) : Q a -> keeps P (ret a) Q.
Proof. intros HQ w Hw. split; [exact Hw|]. simpl. intros a' E. injection E as <-. exact HQ. Qed.

Lemma keeps_lift {A} (m : outcome A) : keeps P (lift m) (fun a => m = Ok a).
Proof. intros w Hw. split; [exact Hw|]. simpl. auto. Qed.

Lemma keeps_bind {A B} (m : Run A) (k : A -> Run B) Q Q' :
  keeps P m Q -> (forall a, Q a -> keeps P (k a) Q') -> keeps P (bindM m k) Q'.
Proof.
  intros Hm Hk w Hw. unfold bindM. destruct (Hm w Hw) as [Hw1 HQ].
  destruct (m w) as [[a|e|] w1]; simpl in *.
  - apply (Hk a (HQ a eq_refl) w1 Hw1).
  - split; [exact Hw1 | discriminate].
  - split; [exact Hw1 | discriminate].
Qed.

Lemma keeps_weaken {A} (m : Run A) (Q Q' : A -> Prop) :
  keeps P m Q -> (forall a, Q a -> Q' a) -> keeps P m Q'.
Proof. intros Hm HQ w Hw. destruct (Hm w Hw) as [H1 H2]. split; auto. Qed.

End Keeps.


Lemma keeps_get_self E0 ensemble C0 :
  keeps (untouched E0 ensemble C0) get_self (fun self => ens_ok E0 ensemble (self_ensemble self)).
Proof.
  intros w Hw. split; [exact Hw|]. simpl. intros a E. injection E as <-.
  exact (proj1 Hw).
Qed.

Lemma keeps_set_self E0 ensemble C0 self' :
  ens_ok E0 ensemble (self_ensemble self') ->
  keeps (untouched E0 ensemble C0) (set_self self') (fun _ => True).
Proof.
  intros H w [_ Hc]. split; [|auto]. split; [exact H | exact Hc].
Qed.

Lemma keeps_emit_download E0 ensemble C0 e b :
  keeps (untouched E0 ensemble C0) (emit (CallDownload e b)) (fun _ => True).
Proof.
  intros w [He (dl & E & F)]. split; [|auto]. split; [exact He|].
  exists (dl ++ [CallDownload e b]). simpl. rewrite E, app_assoc. split; [reflexivity|].
  apply Forall_app. split; [exact F | repeat constructor].
Qed.

Lemma initializeLocalPatches_ensemble self r self' :
  initializeLocalPatches self r = Ok self' -> self_ensemble self' = self_ensemble self.
Proof.
  unfold initializeLocalPatches. intros H.
  apply bind_Ok in H. destruct H as (W & _ & H).
  apply bind_Ok in H. destruct H as (gs & _ & H).
  apply bind_Ok in H. destruct H as (pos & _ & H).
  apply bind_Ok in H. destruct H as (WW & _ & H).
  injection H as <-. destruct (Rgt_dec r 0); reflexivity.
Qed.

Lemma keeps_bind_ensemble E0 ensemble C0 :
  keeps (untouched E0 ensemble C0) (bind_ensemble ensemble) (fun _ => True).
Proof.
  unfold bind_ensemble.
  eapply keeps_bind; [apply keeps_get_self|]. intros self Hself.
  destruct ensemble as [e|] eqn:Ee; [|apply (keeps_ret _ tt (fun _ => True) I)].
  eapply keeps_bind; [apply keeps_lift|]. intros _ _.
  apply keeps_set_self. right. reflexivity.
Qed.

Lemma keeps_update_localisation E0 ensemble C0 r :
  keeps (untouched E0 ensemble C0) (update_localisation r) (fun _ => True).
Proof.
  unfold update_localisation.
  eapply keeps_bind; [apply keeps_get_self|]. intros self1 Hself1.
  eapply keeps_bind.
  { destruct r as [r0|]; [|apply (keeps_ret _ tt (fun _ => True) I)].
    destruct (Req_bool r0 (r_factor self1)); [apply (keeps_ret _ tt (fun _ => True) I)|].
    apply keeps_set_self. exact Hself1. }
  intros _ _. eapply keeps_bind; [apply keeps_get_self|]. intros self2 Hself2.
  eapply keeps_bind.
  { match goal with |- keeps _ (if ?c then _ else _) _ => destruct c end;
      [|apply (keeps_ret _ tt (fun _ => True) I)].
    eapply keeps_bind; [apply keeps_lift|]. intros pg _.
    eapply keeps_bind; [apply keeps_lift|]. intros self3 H3.
    apply keeps_set_self. apply initializeLocalPatches_ensemble in H3.
    rewrite H3. exact Hself2. }
  intros _ _. eapply keeps_bind; [apply keeps_get_self|]. intros self4 Hself4.
  match goal with |- keeps _ (if ?c then _ else _) _ => destruct c end;
    [|apply (keeps_ret _ tt (fun _ => True) I)].
  eapply keeps_bind; [apply keeps_lift|]. intros positions _.
  eapply keeps_bind; [apply keeps_lift|]. intros [[Ls xs] ys] _.
  apply keeps_set_self. exact Hself4.
Qed.

Lemma keeps_prepare E0 ensemble C0 r :
  keeps (untouched E0 ensemble C0) (_prepare_LEnKF ensemble r) (fun _ => True).
Proof.
  unfold _prepare_LEnKF.
  eapply keeps_bind; [apply keeps_bind_ensemble|]. intros _ _.
  apply keeps_update_localisation.
Qed.


Section AnalysisUntouched.
Context {ext : External}.
Variables (E0 : Ensemble) (ensemble : option Ensemble) (C0 : list Event).

Lemma keeps_download_particles es :
  forall idx X_f,
    keeps (untouched E0 ensemble C0) (download_particles es idx X_f) (fun _ => True).
Proof.
  induction es as [|e es IH]; intros idx X_f; simpl.
  - apply (keeps_ret _ X_f (fun _ => True) I).
  - eapply keeps_bind; [apply keeps_get_self|]. intros self _.
    eapply keeps_bind; [apply keeps_lift|]. intros [|] _; [|apply IH].
    eapply keeps_bind; [apply keeps_lift|]. intros p _.
    eapply keeps_bind; [apply keeps_emit_download|]. intros _ _.
    destruct (download p true) as [[eta hu] hv].
    eapply keeps_bind; [apply keeps_lift|]. intros X1 _.
    eapply keeps_bind; [apply keeps_lift|]. intros X2 _.
    eapply keeps_bind; [apply keeps_lift|]. intros X3 _.
    apply IH.
Qed.

Lemma keeps_giveX_f_global X_f b :
  keeps (untouched E0 ensemble C0) (giveX_f_global X_f b) (fun _ => True).
Proof.
  unfold giveX_f_global.
  eapply keeps_bind; [apply keeps_get_self|]. intros self _.
  eapply keeps_bind with (Q := fun _ => True).
  - destruct b; [apply keeps_download_particles | apply (keeps_ret _ X_f (fun _ => True) I)].
  - intros X _. apply keeps_ret. exact I.
Qed.

Lemma keeps_assimilate_groups observations gs :
  forall g X_f,
    keeps (untouched E0 ensemble C0)
      (assimilate_groups ensemble observations gs g X_f) (fun _ => True).
Proof.
  induction gs as [|G gs IH]; intros g X_f; simpl.
  - apply (keeps_ret _ X_f (fun _ => True) I).
  - eapply keeps_bind; [apply keeps_giveX_f_global|]. intros [[X Xm] Xp] _.
    eapply keeps_bind; [apply keeps_get_self|]. intros self _.
    eapply keeps_bind; [apply keeps_lift|]. intros HX _.
    eapply keeps_bind; [apply keeps_lift|]. intros X_a _.
    eapply keeps_bind; [apply keeps_lift|]. intros N_a _.
    eapply keeps_bind; [apply keeps_lift|]. intros X_new _.
    apply IH.
Qed.

Lemma keeps_analysis r :
  keeps (untouched E0 ensemble C0) (analysis ensemble r) (fun _ => True).
Proof.
  unfold analysis.
  eapply keeps_bind; [apply keeps_prepare|]. intros _ _.
  eapply keeps_bind; [apply keeps_get_self|]. intros self _.
  eapply keeps_bind; [apply keeps_lift|]. intros N_a _.
  eapply keeps_bind; [apply keeps_lift|]. intros W _.
  eapply keeps_bind; [apply keeps_lift|]. intros gs _.
  apply keeps_assimilate_groups.
Qed.

End AnalysisUntouched.

Section UploadSpec.
Context {ext : External}.
Lemma bindM_Ok {A B} (m : Run A) (k : A -> Run B) w b w' :
  bindM m k w = (Ok b, w') -> exists a w1, m w = (Ok a, w1) /\ k a w1 = (Ok b, w').
Proof.
  unfold bindM. destruct (m w) as [[a|e|] w1]; intros H; try discriminate.
  eauto.
Qed.

Lemma lift_Ok {A} (m : outcome A) w a w' :
  lift m w = (Ok a, w') -> m = Ok a /\ w' = w.
Proof. unfold lift. intros H. injection H as -> ->. auto. Qed.

Lemma nth_error_list_set {A} (l : list A) n x :
  (n < length l)%nat -> nth_error (list_set l n x) n = Some x.
Proof.
  revert n. induction l as [|h t IH]; intros n Hn; simpl in *; [lia|].
  destruct n; simpl; [reflexivity|]. apply IH. lia.
Qed.

Lemma with_ensemble_eta self :
  with_ensemble self (with_particles (self_ensemble self) (particles (self_ensemble self)))
    (N_e_active self) = self.
Proof. destruct self as [e]. destruct e. reflexivity. Qed.

Lemma upload_particles_spec X_new es :
  forall idx w w',
    upload_particles X_new es idx w = (Ok tt, w') ->
    exists ul,
      the_calls w' = the_calls w ++ ul /\
      uploads_from (pad_of (the_filter w)) X_new idx (active_of (the_filter w) es) ul /\
      the_filter w' =
        with_ensemble (the_filter w)
          (with_particles (self_ensemble (the_filter w))
             (fold_left apply_call ul (particles (self_ensemble (the_filter w)))))
          (N_e_active (the_filter w)).
Proof.
  induction es as [|e es IH]; intros idx w w' H; simpl in H.
  - injection H as <-. exists []. rewrite app_nil_r. split; [reflexivity|].
    split; [constructor|]. simpl. symmetry. apply with_ensemble_eta.
  - apply bindM_Ok in H. destruct H as (self & w1 & Hg & H).
    injection Hg as <- <-.
    apply bindM_Ok in H. destruct H as (active & w1 & Ha & H).
    apply lift_Ok in Ha. destruct Ha as [Ha ->].
    apply getitem_Ok in Ha.
    assert (Hact : nth e (particlesActive (self_ensemble (the_filter w))) false = active).
    { apply nth_error_nth. exact Ha. }
    unfold active_of. simpl. rewrite Hact.
    destruct active.
    + apply bindM_Ok in H. destruct H as (eta & w1 & He & H).
      apply lift_Ok in He. destruct He as [He ->].
      apply bindM_Ok in H. destruct H as (hu & w1 & Hu & H).
      apply lift_Ok in Hu. destruct Hu as [Hu ->].
      apply bindM_Ok in H. destruct H as (hv & w1 & Hv & H).
      apply lift_Ok in Hv. destruct Hv as [Hv ->].
      apply bindM_Ok in H. destruct H as (p & w1 & Hp & H).
      apply lift_Ok in Hp. destruct Hp as [Hp ->]. apply getitem_Ok in Hp.
      apply bindM_Ok in H. destruct H as (u1 & w1 & E1 & H).
      injection E1 as _ <-.
      apply bindM_Ok in H. destruct H as (u2 & w2 & E2 & H).
      injection E2 as _ <-.
      apply bindM_Ok in H. destruct H as (self2 & w3 & E3 & H).
      injection E3 as <- <-. cbn [the_filter the_calls] in H.
      apply bindM_Ok in H. destruct H as (p' & w3 & Hp' & H).
      apply lift_Ok in Hp'. destruct Hp' as [Hp' ->]. apply getitem_Ok in Hp'.
      cbn [self_ensemble with_ensemble with_particles particles] in Hp'.
      apply bindM_Ok in H. destruct H as (u3 & w3 & E3 & H).
      injection E3 as _ <-.
      apply bindM_Ok in H. destruct H as (u4 & w4 & E4 & H).
      injection E4 as _ <-. cbn [the_filter the_calls] in H.
      apply IH in H. destruct H as (ul & Hc & Hul & Hf).
      cbn [the_filter the_calls] in Hc, Hul, Hf.
      exists (CallUpload e eta hu hv :: CallApplyBoundaryConditions e :: ul).
      split; [rewrite Hc, <- !app_assoc; reflexivity|]. split.
      * econstructor; eauto.
      * rewrite Hf. cbn [fold_left apply_call]. rewrite Hp.
        cbn [self_ensemble with_ensemble with_particles particles
             N_e_active]. rewrite Hp'. reflexivity.
    + apply IH in H. exact H.
Qed.

End UploadSpec.

Section AssimilateSpec.
Context {ext : External}.

Lemma uploads_from_particles pad X_new idx es ul :
  uploads_from pad X_new idx es ul ->
  uploaded_particles ul = es /\ boundary_particles ul = es /\
  length ul = (2 * length es)%nat.
Proof.
  induction 1 as [|idx e es eta hu hv ul _ _ _ _ (IH1 & IH2 & IH3)]; simpl.
  - auto.
  - rewrite IH1, IH2, IH3. repeat split. lia.
Qed.

Lemma active_of_NoDup self n : NoDup (active_of self (seq 0 n)).
Proof. unfold active_of. apply NoDup_filter, seq_NoDup. Qed.

Lemma untouched_start w ensemble :
  untouched (self_ensemble (the_filter w)) ensemble (the_calls w) w.
Proof.
  split; [left; reflexivity|]. exists []. rewrite app_nil_r.
  split; [reflexivity | constructor].
Qed.

(** C6. Whatever the outcome of the part of [assimilate] before the
    upload, the ensemble the filter refers to is then in the state it had
    and the simulator was only asked for downloads; an exception of that
    part is the outcome of [assimilate]; and when [assimilate] returns, the
    calls after that part are, for every active particle in turn, one
    upload and then one application of the boundary conditions, which
    change the particles and nothing else. *)
Theorem assimilate_uploads_once_at_the_end
  (w : World) (ensemble : option Ensemble) (r : option R) :
  (forall o w1,
     analysis ensemble r w = (o, w1) ->
     untouched (self_ensemble (the_filter w)) ensemble (the_calls w) w1) /\
  (forall err w1,
     analysis ensemble r w = (Raise err, w1) ->
     assimilate ensemble r w = (Raise err, w1)) /\
  (forall w',
     assimilate ensemble r w = (Ok tt, w') ->
     exists X_new w1 ul,
       analysis ensemble r w = (Ok X_new, w1) /\
       the_calls w' = the_calls w1 ++ ul /\
       uploads_from (pad_of (the_filter w1)) X_new 0
         (active_of (the_filter w1) (seq 0 (N_e (the_filter w1)))) ul /\
       uploaded_particles ul = active_of (the_filter w1) (seq 0 (N_e (the_filter w1))) /\
       boundary_particles ul = active_of (the_filter w1) (seq 0 (N_e (the_filter w1))) /\
       NoDup (active_of (the_filter w1) (seq 0 (N_e (the_filter w1)))) /\
       the_filter w' =
         with_ensemble (the_filter w1)
           (with_particles (self_ensemble (the_filter w1))
              (fold_left apply_call ul (particles (self_ensemble (the_filter w1)))))
           (N_e_active (the_filter w1))).
Proof.
  split; [|split].
  - intros o w1 H.
    pose proof (keeps_analysis (self_ensemble (the_filter w)) ensemble (the_calls w) r
                  w (untouched_start w ensemble)) as [Hk _].
    rewrite H in Hk. exact Hk.
  - intros err w1 H. unfold assimilate, bindM. rewrite H. reflexivity.
  - intros w' H. unfold assimilate in H.
    apply bindM_Ok in H. destruct H as (X_new & w1 & Han & H).
    unfold uploadAnalysis in H.
    apply bindM_Ok in H. destruct H as (self & w2 & Hg & H).
    injection Hg as <- <-.
    apply upload_particles_spec in H. destruct H as (ul & Hc & Hul & Hf).
    destruct (uploads_from_particles _ _ _ _ _ Hul) as (Hup & Hbc & _).
    exists X_new, w1, ul. repeat split; auto. apply active_of_NoDup.
Qed.

End AssimilateSpec.

(** ** The configuration check *)


Lemma no_assert_Ok {A} (a : A) : no_assert (Ok a).
Proof. intros msg. discriminate. Qed.

Lemma no_assert_bind {A B} (m : outcome A) (k : A -> outcome B) :
  no_assert m -> (forall a, m = Ok a -> no_assert (k a)) -> no_assert (bind m k).
Proof.
  intros Hm Hk msg. destruct m as [a|e|]; simpl.
  - apply Hk. reflexivity.
  - intros E. injection E as ->. apply (Hm msg). reflexivity.
  - discriminate.
Qed.

Lemma no_assert_getitem {A} (l : list A) n : no_assert (getitem l n).
Proof. unfold getitem. destruct (nth_error l n); intros msg; discriminate. Qed.

Lemma no_assert_getattr {A} (a : option A) : no_assert (getattr a).
Proof. destruct a; intros msg; discriminate. Qed.

Lemma no_assert_not_none {A} (a : option A) : no_assert (not_none a).
Proof. destruct a; intros msg; discriminate. Qed.

Lemma no_assert_array_min l : no_assert (array_min l).
Proof. destruct l; intros msg; discriminate. Qed.

Ltac no_assert_step :=
  first
    [ apply no_assert_Ok
    | apply no_assert_getitem
    | apply no_assert_getattr
    | apply no_assert_not_none
    | apply no_assert_array_min
    | (intros ?msg; discriminate)
    | (apply no_assert_bind; [| intros ? _]) ].

Lemma no_assert_move_step M g groups : no_assert (move_step M g groups).
Proof.
  unfold move_step, group_min. repeat no_assert_step.
  destruct (_ <? _)%nat; repeat no_assert_step.
Qed.

Lemma no_assert_group_min M G : no_assert (group_min M G).
Proof. unfold group_min. apply no_assert_array_min. Qed.

Lemma no_assert_inner_loop M thr g fuel :
  forall groups, no_assert (inner_loop fuel M thr g groups).
Proof.
  induction fuel as [|fuel IH]; intros groups; cbn [inner_loop];
    (apply no_assert_bind; [apply no_assert_getitem|]; intros G _;
     apply no_assert_bind; [apply no_assert_group_min|]; intros m _;
     destruct (Rlt_dec m thr); [|apply no_assert_Ok]).
  - intros msg. discriminate.
  - apply no_assert_bind; [apply no_assert_move_step|]. intros groups' _. apply IH.
Qed.

Lemma no_assert_outer_loop M thr fuel :
  forall g groups, no_assert (outer_loop fuel M thr g groups).
Proof.
  induction fuel as [|fuel IH]; intros g groups; cbn [outer_loop];
    (apply no_assert_bind; [apply no_assert_getitem|]; intros G _;
     apply no_assert_bind; [apply no_assert_group_min|]; intros m _;
     destruct (Rlt_dec m thr); [|apply no_assert_Ok]).
  - intros msg. discriminate.
  - apply no_assert_bind; [apply no_assert_inner_loop|]. intros groups' _. apply IH.
Qed.

Lemma no_assert_initializeGroups e r : no_assert (initializeGroups e r).
Proof.
  unfold initializeGroups.
  apply no_assert_bind.
  { unfold groups_threshold. apply no_assert_bind; [apply no_assert_getitem|].
    intros p0 _. apply no_assert_Ok. }
  intros thr _. apply no_assert_bind; [apply no_assert_outer_loop|].
  intros gs _. apply no_assert_Ok.
Qed.

Lemma no_assert_getLocalIndices obs r dx dy nx ny :
  no_assert (getLocalIndices obs r dx dy nx ny).
Proof.
  unfold getLocalIndices.
  destruct (Req_dec_T dx 0); [no_assert_step|].
  destruct (Req_dec_T dy 0); [no_assert_step|].
  repeat match goal with |- context [if ?c then _ else _] => destruct c end;
    no_assert_step.
Qed.

Lemma no_assert_getLocalWeightShape r dx dy nx ny w :
  no_assert (getLocalWeightShape r dx dy nx ny w).
Proof.
  unfold getLocalWeightShape. destruct (_ <? _)%Z; no_assert_step.
Qed.

Lemma no_assert_masked_add A L v : no_assert (masked_add A L v).
Proof.
  unfold masked_add.
  repeat match goal with |- context [if ?c then _ else _] => destruct c end;
    no_assert_step.
Qed.

Lemma no_assert_getCombinedWeights obs r dx dy nx ny W w :
  no_assert (getCombinedWeights obs r dx dy nx ny W w).
Proof.
  unfold getCombinedWeights. apply no_assert_bind;
    [apply no_assert_getLocalWeightShape|]. intros W_loc _.
  generalize (Ok (np.zeros ny nx)) (no_assert_Ok (np.zeros ny nx)).
  induction obs as [|o obs IH]; intros acc Hacc; simpl; [exact Hacc|].
  apply IH. apply no_assert_bind; [exact Hacc|]. intros A _.
  apply no_assert_bind; [apply no_assert_getLocalIndices|]. intros [[L xr] yr] _.
  apply no_assert_masked_add.
Qed.

Lemma no_assert_take_rows {A} (l : list A) idx : no_assert (take_rows l idx).
Proof. induction idx as [|i idx IH]; simpl; repeat no_assert_step. exact IH. Qed.

Lemma no_assert_patches_loop self pos gs : no_assert (patches_loop self pos gs).
Proof.
  induction gs as [|G gs IH]; simpl; [no_assert_step|].
  apply no_assert_bind; [apply no_assert_take_rows|]. intros obs _.
  apply no_assert_bind; [apply no_assert_getCombinedWeights|]. intros W _.
  apply no_assert_bind; [exact IH|]. intros rr _. no_assert_step.
Qed.

Lemma no_assert_initializeLocalPatches self r : no_assert (initializeLocalPatches self r).
Proof.
  unfold initializeLocalPatches.
  apply no_assert_bind; [apply no_assert_getLocalWeightShape|]. intros W _.
  apply no_assert_bind; [apply no_assert_not_none|]. intros gs _.
  apply no_assert_bind; [apply no_assert_getattr|]. intros pos _.
  apply no_assert_bind; [apply no_assert_patches_loop|]. intros WW _.
  no_assert_step.
Qed.

Lemma no_assert_patches_of self pos ds : no_assert (patches_of self pos ds).
Proof.
  induction ds as [|d ds IH]; simpl; [no_assert_step|].
  apply no_assert_bind; [apply no_assert_getitem|]. intros obs _.
  apply no_assert_bind; [apply no_assert_getLocalIndices|]. intros [[L xr] yr] _.
  apply no_assert_bind; [exact IH|]. intros [[Ls xs] ys] _. no_assert_step.
Qed.


Lemma assert_Ok b msg : assert b msg = Ok tt <-> b = true.
Proof. unfold assert. destruct b; split; intros H; congruence. Qed.

Lemma check_configuration_spec self e first rest :
  particles e = first :: rest ->
  (check_configuration self e = Ok tt <->
   configuration_matches self e first (last rest first)) /\
  (check_configuration self e <> Ok tt -> is_assertion_error (check_configuration self e)).
Proof.
  intros Hp. unfold check_configuration, configuration_matches, last_particle, getitem.
  rewrite Hp. cbn [nth_error bind].
  destruct (Nat.eqb_spec (N_e self) (getNumParticles e)) as [E1|E1]; cbn [assert bind].
  2:{ split; [split; [discriminate | tauto] | intros _; eexists; reflexivity]. }
  destruct (Nat.eqb_spec (N_d self) (getNumDrifters e)) as [E2|E2]; cbn [assert bind].
  2:{ split; [split; [discriminate | tauto] | intros _; eexists; reflexivity]. }
  destruct (Nat.eqb_spec (n_i self) (p_ny first + 2 * ghost_cells_y (last rest first)))
    as [E3|E3]; cbn [assert bind].
  2:{ split; [split; [discriminate | tauto] | intros _; eexists; reflexivity]. }
  destruct (Nat.eqb_spec (n_j self) (p_nx first + 2 * ghost_cells_x (last rest first)))
    as [E4|E4]; cbn [assert bind].
  2:{ split; [split; [discriminate | tauto] | intros _; eexists; reflexivity]. }
  split; [tauto | congruence].
Qed.


Lemma run_no_assert_ret {A} (a : A) : run_no_assert (ret a).
Proof. intros w msg. discriminate. Qed.

Lemma run_no_assert_lift {A} (m : outcome A) : no_assert m -> run_no_assert (lift m).
Proof. intros H w. exact H. Qed.

Lemma run_no_assert_get_self : run_no_assert get_self.
Proof. intros w msg. discriminate. Qed.

Lemma run_no_assert_set_self self : run_no_assert (set_self self).
Proof. intros w msg. discriminate. Qed.

Lemma run_no_assert_bind {A B} (m : Run A) (k : A -> Run B) :
  run_no_assert m -> (forall a, run_no_assert (k a)) -> run_no_assert (bindM m k).
Proof.
  intros Hm Hk w msg. unfold bindM. specialize (Hm w msg).
  destruct (m w) as [[a|e|] w1]; simpl in *.
  - apply Hk.
  - intros E. apply Hm. injection E as ->. reflexivity.
  - discriminate.
Qed.

Lemma run_no_assert_update_localisation r : run_no_assert (update_localisation r).
Proof.
  unfold update_localisation.
  apply run_no_assert_bind; [apply run_no_assert_get_self|]. intros self.
  apply run_no_assert_bind.
  { destruct r as [r0|]; [|apply run_no_assert_ret].
    destruct (Req_bool r0 (r_factor self));
      [apply run_no_assert_ret | apply run_no_assert_set_self]. }
  intros _. apply run_no_assert_bind; [apply run_no_assert_get_self|]. intros self2.
  apply run_no_assert_bind.
  { match goal with |- run_no_assert (if ?c then _ else _) => destruct c end;
      [|apply run_no_assert_ret].
    apply run_no_assert_bind;
      [apply run_no_assert_lift, no_assert_initializeGroups|]. intros pg.
    apply run_no_assert_bind;
      [apply run_no_assert_lift, no_assert_initializeLocalPatches|]. intros self3.
    apply run_no_assert_set_self. }
  intros _. apply run_no_assert_bind; [apply run_no_assert_get_self|]. intros self4.
  match goal with |- run_no_assert (if ?c then _ else _) => destruct c end;
    [|apply run_no_assert_ret].
  apply run_no_assert_bind; [apply run_no_assert_lift, no_assert_getattr|]. intros pos.
  apply run_no_assert_bind; [apply run_no_assert_lift, no_assert_patches_of|].
  intros [[Ls xs] ys]. apply run_no_assert_set_self.
Qed.

Lemma prepare_given e r w :
  _prepare_LEnKF (Some e) r w =
  match check_configuration (the_filter w) e with
  | Ok _ =>
      update_localisation r
        (mkWorld (with_ensemble (the_filter w) e (Some (getNumActiveParticles e)))
           (the_calls w))
  | Raise err => (Raise err, w)
  | Diverge => (Diverge, w)
  end.
Proof.
  unfold _prepare_LEnKF, bind_ensemble, bindM, get_self, lift, set_self.
  destruct (check_configuration (the_filter w) e) as [[]|err|]; reflexivity.
Qed.

Lemma prepare_not_given r w : _prepare_LEnKF None r w = update_localisation r w.
Proof.
  unfold _prepare_LEnKF, bind_ensemble, bindM, get_self, ret. reflexivity.
Qed.

(** When an ensemble is handed in, [_prepare_LEnKF] fails an assertion
    exactly when the number of particles, the number of drifters or the
    size of the padded grid differs from what the constructor recorded,
    and it then leaves the filter as it was; otherwise it binds the
    ensemble and takes over its number of active particles, which it
    compares with nothing.  Without an ensemble no assertion is made. *)
Lemma prepare_checks_configuration
  (w : World) (e : Ensemble) (r : option R) (first : Particle) (rest : list Particle)
  (Hparticles : particles e = first :: rest) :
  (is_assertion_error (fst (_prepare_LEnKF (Some e) r w)) <->
   ~ configuration_matches (the_filter w) e first (last rest first)) /\
  (is_assertion_error (fst (_prepare_LEnKF (Some e) r w)) ->
   snd (_prepare_LEnKF (Some e) r w) = w) /\
  (configuration_matches (the_filter w) e first (last rest first) ->
   _prepare_LEnKF (Some e) r w =
   update_localisation r
     (mkWorld (with_ensemble (the_filter w) e (Some (getNumActiveParticles e)))
        (the_calls w))) /\
  ~ is_assertion_error (fst (_prepare_LEnKF None r w)).
Proof.
  destruct (check_configuration_spec (the_filter w) e first rest Hparticles)
    as [Hiff Hfail].
  assert (Hrun : forall w1, ~ is_assertion_error (fst (update_localisation r w1))).
  { intros w1 [msg E]. exact (run_no_assert_update_localisation r w1 msg E). }
  assert (Hnone : ~ is_assertion_error (fst (_prepare_LEnKF None r w))).
  { intros [msg E]. rewrite prepare_not_given in E. exact (Hrun w (ex_intro _ msg E)). }
  rewrite prepare_given.
  destruct (check_configuration (the_filter w) e) as [[]|err|] eqn:Ec.
  - assert (Hm : configuration_matches (the_filter w) e first (last rest first))
      by (apply Hiff; reflexivity).
    split; [split|split; [|split]].
    + intros Ha. exfalso. exact (Hrun _ Ha).
    + intros Hn. contradiction.
    + intros Ha. exfalso. exact (Hrun _ Ha).
    + intros _. reflexivity.
    + exact Hnone.
  - assert (Hn : ~ configuration_matches (the_filter w) e first (last rest first)).
    { intros Hm. apply Hiff in Hm. congruence. }
    split; [split|split; [|split]].
    + intros _. exact Hn.
    + intros _. apply Hfail. congruence.
    + intros _. reflexivity.
    + intros Hm. contradiction.
    + exact Hnone.
  - exfalso. destruct Hfail as [msg E]; congruence.
Qed.

(** The preparation alone: an ensemble with one particle fewer active
    and the same total passes its checks, and one with the same active
    particles and one more drifter fails them. *)
Lemma prepare_ignores_active_count :
  N_e_active one_buoy_filter = Some 3%nat /\
  getNumActiveParticles one_buoy_two_active = 2%nat /\
  getNumParticles one_buoy_two_active = N_e one_buoy_filter /\
  (exists w',
     _prepare_LEnKF (Some one_buoy_two_active) None (mkWorld one_buoy_filter [])
       = (Ok tt, w') /\
     N_e_active (the_filter w') = Some 2%nat) /\
  getNumActiveParticles one_buoy_two_drifters = 3%nat /\
  _prepare_LEnKF (Some one_buoy_two_drifters) None (mkWorld one_buoy_filter [])
    = (Raise (AssertionError "ensemble changed number of drifter"),
       mkWorld one_buoy_filter []).
Proof.
  split; [reflexivity|]. split; [reflexivity|]. split; [reflexivity|].
  split; [|split; [reflexivity|]].
  - rewrite prepare_given.
    replace (check_configuration (the_filter (mkWorld one_buoy_filter []))
               one_buoy_two_active) with (Ok tt) by reflexivity.
    destruct one_buoy_patch as (L & HL & _).
    unfold update_localisation, bindM, get_self, ret, lift, set_self.
    cbn [the_filter the_calls fst snd with_ensemble one_buoy_filter groups all_Ls
         self_ensemble observation_type one_buoy_two_active ObservationType_eqb
         negb orb drifter_positions getattr N_d seq patches_of getitem nth_error
         bind r_factor ens_dx ens_dy ens_nx ens_ny].
    rewrite HL. cbn [bind]. eexists. split; reflexivity.
  - rewrite prepare_given. reflexivity.
Qed.

(* ================================================================= *)
(** * The transform of [ETKF_loc] at a zero innovation *)

Lemma sum_n_delta_r f n j : (j < n)%nat ->
  sum_n (fun k => f k * (if Nat.eqb k j then 1 else 0)) n = f j.
Proof.
  induction n as [|n IH]; intros Hj; [lia|]. simpl.
  destruct (Nat.eqb_spec n j) as [->|Hne].
  - rewrite (sum_n_ext _ (fun _ => 0)).
    + rewrite sum_n_zero. ring.
    + intros k Hk. destruct (Nat.eqb_spec k j); [lia | ring].
  - rewrite IH by lia. ring.
Qed.

Lemma sum_n_delta_l f n j : (j < n)%nat ->
  sum_n (fun k => (if Nat.eqb j k then 1 else 0) * f k) n = f j.
Proof.
  intros Hj. rewrite <- (sum_n_delta_r f n j Hj). apply sum_n_ext.
  intros k _. rewrite (Nat.eqb_sym j k). ring.
Qed.

Lemma sum_n_swap (f : nat -> nat -> R) n m :
  sum_n (fun i => sum_n (fun j => f i j) m) n =
  sum_n (fun j => sum_n (fun i => f i j) n) m.
Proof.
  induction n as [|n IH]; simpl.
  - symmetry. apply sum_n_zero.
  - rewrite IH. rewrite <- sum_n_plus. reflexivity.
Qed.

Lemma map_nth_seq (l : list R) :
  map (fun i => nth i l 0) (seq 0 (length l)) = l.
Proof.
  apply nth_ext with (d := 0) (d' := 0).
  - rewrite length_map, length_seq. reflexivity.
  - intros n Hn. rewrite length_map, length_seq in Hn.
    rewrite (nth_indep _ 0 (nth 0 l 0)) by (rewrite length_map, length_seq; exact Hn).
    rewrite (map_nth (fun i => nth i l 0)). rewrite seq_nth by exact Hn. reflexivity.
Qed.

(** The eigenvalues of the identity are 1. *)
Lemma eigh_identity M w V :
  linalg.eigh_ok M w V ->
  (forall i j, (i < shape0 M)%nat -> (j < shape0 M)%nat ->
     at2 M i j = if Nat.eqb i j then 1 else 0) ->
  forall j, (j < shape0 M)%nat -> nth j w 0 = 1.
Proof.
  intros (_ & _ & _ & _ & Hcol & _ & Heig & _) HM j Hj.
  set (n := shape0 M) in *.
  assert (HV : forall i, (i < n)%nat -> at2 V i j = nth j w 0 * at2 V i j).
  { intros i Hi. rewrite <- (Heig i j Hi Hj).
    rewrite (sum_n_ext _ (fun k => (if Nat.eqb i k then 1 else 0) * at2 V k j)).
    - symmetry. apply (sum_n_delta_l (fun k => at2 V k j)). exact Hi.
    - intros k Hk. rewrite HM by assumption. reflexivity. }
  pose proof (Hcol j j Hj Hj) as Hnorm. rewrite Nat.eqb_refl in Hnorm.
  rewrite <- Hnorm.
  transitivity (nth j w 0 * sum_n (fun k => at2 V k j * at2 V k j) n).
  - rewrite Hnorm. ring.
  - rewrite <- sum_n_scal. apply sum_n_ext. intros k Hk.
    rewrite (HV k Hk) at 3. ring.
Qed.

Lemma nth_map_seq (f : nat -> R) n k :
  nth k (map f (seq 0 n)) 0 = if (k <? n)%nat then f k else 0.
Proof.
  destruct (Nat.ltb_spec k n) as [Hk|Hk].
  - rewrite (nth_indep _ 0 (f O)) by (rewrite length_map, length_seq; exact Hk).
    rewrite map_nth, seq_nth by exact Hk. reflexivity.
  - apply nth_overflow. rewrite length_map, length_seq. exact Hk.
Qed.

Lemma subtract1_self y D :
  np.subtract1 y y = Ok D -> forall k, nth k D 0 = 0.
Proof.
  unfold np.subtract1, np.broadcast1. rewrite bdim_same. cbn [bind].
  intros H k. injection H as <-. rewrite nth_map_seq.
  destruct (k <? length y)%nat; [ring | reflexivity].
Qed.

Lemma matvec_zero K D v :
  (forall k, nth k D 0 = 0) -> np.matvec K D = Ok v ->
  length v = shape0 K /\ forall k, nth k v 0 = 0.
Proof.
  intros HD. unfold np.matvec. destruct (_ =? _)%nat; [|discriminate].
  intros H. injection H as <-. split.
  - rewrite length_map, length_seq. reflexivity.
  - intros k. rewrite nth_map_seq. destruct (k <? shape0 K)%nat; [|reflexivity].
    rewrite (sum_n_ext _ (fun _ => 0)); [apply sum_n_zero|].
    intros j _. rewrite HD. ring.
Qed.

Lemma add1_zero m v r :
  (forall k, nth k v 0 = 0) -> length v = length m ->
  np.add1 m v = Ok r -> r = m.
Proof.
  intros Hv Hl. unfold np.add1, np.broadcast1. rewrite Hl, bdim_same. cbn [bind].
  intros H. injection H as <-.
  transitivity (map (fun i => nth i m 0) (seq 0 (length m))); [|apply map_nth_seq].
  apply map_ext_in. intros i Hi.
  apply in_seq in Hi. rewrite Hv, (bidx_lt (length m) i) by lia. ring.
Qed.

Lemma add_entries A B C :
  np.add A B = Ok C ->
  forall i j, at2 C i j =
    at2 A (np.bidx (shape0 A) i) (np.bidx (shape1 A) j)
    + at2 B (np.bidx (shape0 B) i) (np.bidx (shape1 B) j).
Proof.
  unfold np.add, np.broadcast. intros H.
  apply bind_Ok in H. destruct H as (r & _ & H).
  apply bind_Ok in H. destruct H as (c & _ & H).
  injection H as <-. reflexivity.
Qed.

Lemma matmul_entries A B C :
  np.matmul A B = Ok C ->
  forall i j, at2 C i j = sum_n (fun k => at2 A i k * at2 B k j) (shape1 A).
Proof.
  unfold np.matmul. destruct (_ =? _)%nat; [|discriminate].
  intros H. injection H as <-. reflexivity.
Qed.

Section ETKF.
Context {ext : External}.

Lemma ETKF_parts_zero_innovation
  self ensemble X_f_loc_mean X_f_loc_pert HX_f_loc_mean HX_f_loc_pert y_loc D D0
  X_a_mean X_a_pert :
  eigh_contract ext ->
  inflation_factor self = 1 ->
  length X_f_loc_mean = shape0 X_f_loc_pert ->
  ETKF_innovation y_loc HX_f_loc_mean D = Ok D0 ->
  (forall k, nth k D0 0 = 0) ->
  ETKF_parts self ensemble X_f_loc_mean X_f_loc_pert HX_f_loc_mean HX_f_loc_pert
    y_loc D = Ok (X_a_mean, X_a_pert) ->
  exists N_a,
    N_e_active self = Some N_a /\ N_a <> 1%nat /\
    X_a_mean = X_f_loc_mean /\
    shape0 X_a_pert = shape0 X_f_loc_pert /\
    shape1 X_a_pert = shape1 X_f_loc_pert /\
    shape1 X_f_loc_pert = N_a /\
    ((forall i j, at2 HX_f_loc_pert i j = 0) ->
     forall i j, (j < N_a)%nat -> at2 X_a_pert i j = at2 X_f_loc_pert i j).
Proof.
  intros Heigh Hinfl Hlen HD HD0 H. unfold ETKF_parts in H.
  apply bind_Ok in H. destruct H as (Rinv & HRinv & H).
  rewrite HD in H. cbn [bind] in H.
  apply bind_Ok in H. destruct H as (N_a & HNa & H).
  apply bind_Ok in H. destruct H as (ff & Hff & H).
  apply bind_Ok in H. destruct H as (e & He & H).
  apply bind_Ok in H. destruct H as (HXa & HHXa & H).
  apply bind_Ok in H. destruct H as (HR & HHR & H).
  apply bind_Ok in H. destruct H as (A2 & HA2 & H).
  apply bind_Ok in H. destruct H as (A & HA & H).
  apply bind_Ok in H. destruct H as (S & HS & H).
  apply bind_Ok in H. destruct H as (K & HK & H).
  apply bind_Ok in H. destruct H as (KD & HKD & H).
  apply bind_Ok in H. destruct H as (m & Hm & H).
  apply bind_Ok in H. destruct H as (c & Hc & H).
  apply bind_Ok in H. destruct H as ([w V] & HwV & H).
  apply bind_Ok in H. destruct H as (XV & HXV & H).
  apply bind_Ok in H. destruct H as (XVd & HXVd & H).
  apply bind_Ok in H. destruct H as (pert & Hpert & H).
  injection H as <- <-.
  exists N_a.
  assert (HNa' : N_e_active self = Some N_a).
  { destruct (N_e_active self); simpl in HNa; congruence. }
  apply py_div_Ok in Hc. destruct Hc as [Hc0 Hc].
  assert (HNa1 : N_a <> 1%nat) by (intros E; apply Hc0, INR_minus_1_zero, E).
  (* the mean *)
  pose proof (matmul_shape _ _ _ HK) as (_ & HK0 & _).
  destruct (matvec_zero K D0 KD HD0 HKD) as [HlKD HKD0].
  assert (Hmean : m = X_f_loc_mean).
  { apply (add1_zero X_f_loc_mean KD m HKD0); [|exact Hm]. congruence. }
  (* shapes *)
  pose proof (Heigh _ _ _ HwV) as Hok.
  pose proof Hok as (HM1 & Hlw & HV0 & HV1 & Hcol & Hrow & Heig & _).
  cbn [np.scale shape0 shape1] in HM1, Hlw, HV0, HV1, Hcol, Hrow, Heig.
  pose proof (matmul_shape _ _ _ HXV) as (HXV_in & HXV0 & HXV1).
  pose proof (matmul_shape _ _ _ HXVd) as (HXVd_in & HXVd0 & HXVd1).
  pose proof (matmul_shape _ _ _ Hpert) as (Hp_in & Hp0 & Hp1).
  cbn [np.diag np.T shape0 shape1] in HXVd_in, HXVd1, Hp_in, Hp1.
  rewrite ?length_map in *.
  pose proof (add_entries _ _ _ HA) as HAe.
  apply broadcast_shape in HA. cbn [np.scale np.eye shape0 shape1] in HA.
  destruct HA as [HA0 HA1].
  assert (HsA : shape0 A = N_a).
  { apply bdim_Ok in HA0. destruct HA0 as [[_ E]|[[E _]|[_ E]]]; congruence. }
  split; [exact HNa'|]. split; [exact HNa1|]. split; [exact Hmean|].
  split; [congruence|]. split; [congruence|]. split; [congruence|].
  intros HX0 i j Hj.
  (* the matrix handed to eigh is the identity *)
  assert (HAid : forall a b, (a < shape0 A)%nat -> (b < shape0 A)%nat ->
            at2 (np.scale c A) a b = if Nat.eqb a b then 1 else 0).
  { intros a b Ha Hb. rewrite HsA in Ha, Hb.
    assert (HA2z : forall p q, at2 A2 p q = 0).
    { intros p q. rewrite (matmul_entries _ _ _ HA2).
      rewrite (sum_n_ext _ (fun _ => 0)); [apply sum_n_zero|].
      intros k _. unfold np.compress_cols in HHXa.
      destruct (_ =? _)%nat; [|discriminate]. injection HHXa as <-. cbn [at2].
      rewrite HX0. ring. }
    assert (Hffv : ff = 1).
    { unfold ETKF_forgetting_factor in Hff. rewrite Hinfl in Hff.
      destruct (Req_dec_T 1 0) as [E|_]; [lra|]. injection Hff as <-. field. }
    cbn [np.scale at2]. rewrite HAe, HA2z. cbn [np.scale np.eye shape0 shape1 at2].
    rewrite !(bidx_lt N_a) by assumption. rewrite Hc, Hffv.
    destruct (a =? b)%nat; field; exact Hc0. }
  pose proof (eigh_identity _ _ _ Hok HAid) as Hw1.
  cbn [np.scale shape0] in Hw1.
  set (n := shape0 A) in *.
  assert (Hjn : (j < n)%nat) by lia.
  rewrite (matmul_entries _ _ _ Hpert). rewrite HXVd1, Hlw.
  transitivity (sum_n (fun l => at2 XV i l * at2 V j l) n).
  { apply sum_n_ext. intros l Hl. cbn [np.T at2]. f_equal.
    rewrite (matmul_entries _ _ _ HXVd). rewrite HXV1, HV1.
    rewrite (sum_n_ext _ (fun k => at2 XV i k * (if Nat.eqb k l then 1 else 0))).
    - apply sum_n_delta_r. exact Hl.
    - intros k Hk. cbn [np.diag at2]. destruct (Nat.eqb_spec k l) as [->|_]; [|reflexivity].
      f_equal. rewrite (nth_indep _ 0 (sqrt (1 / 0)))
        by (rewrite length_map, Hlw; exact Hl).
      rewrite (map_nth (fun s => sqrt (1 / s))). rewrite Hw1 by exact Hl.
      replace (1 / 1) with 1 by field. apply sqrt_1. }
  rewrite (sum_n_ext _ (fun l => sum_n (fun k => at2 X_f_loc_pert i k * (at2 V k l * at2 V j l)) n)).
  2:{ intros l Hl. rewrite (matmul_entries _ _ _ HXV). rewrite HXV_in, HV0.
      rewrite Rmult_comm, <- sum_n_scal. apply sum_n_ext. intros k _. ring. }
  rewrite sum_n_swap.
  rewrite (sum_n_ext _ (fun k => at2 X_f_loc_pert i k * (if Nat.eqb k j then 1 else 0))).
  - apply sum_n_delta_r. exact Hjn.
  - intros k Hk. rewrite sum_n_scal. f_equal. apply Hrow; assumption.
Qed.

(** C4 (amended).  With [inflation_factor = 1] and a zero innovation,
    whenever [ETKF_loc] returns, the analysis mean it computed is the
    forecast mean and every column of an active particle of the result
    is that mean plus the analysis perturbations; and when the observed
    perturbations [HX_f_loc_pert] vanish, the transform is the identity:
    the analysis perturbations are the forecast perturbations. *)
Theorem ETKF_loc_zero_innovation
  self ensemble X_f_loc_mean X_f_loc_pert HX_f_loc_mean HX_f_loc_pert y_loc D D0
  X_a_loc :
  eigh_contract ext ->
  inflation_factor self = 1 ->
  length X_f_loc_mean = shape0 X_f_loc_pert ->
  ETKF_innovation y_loc HX_f_loc_mean D = Ok D0 ->
  (forall k, nth k D0 0 = 0) ->
  ETKF_loc self ensemble X_f_loc_mean X_f_loc_pert HX_f_loc_mean HX_f_loc_pert
    y_loc D = Ok X_a_loc ->
  exists N_a X_a_loc_pert,
    N_e_active self = Some N_a /\
    ETKF_parts self ensemble X_f_loc_mean X_f_loc_pert HX_f_loc_mean HX_f_loc_pert
      y_loc D = Ok (X_f_loc_mean, X_a_loc_pert) /\
    shape0 X_a_loc = shape0 X_f_loc_pert /\
    shape1 X_a_loc = N_a /\ shape1 X_f_loc_pert = N_a /\
    (forall i j, (i < shape0 X_f_loc_pert)%nat -> (j < N_a)%nat ->
       at2 X_a_loc i j = nth i X_f_loc_mean 0 + at2 X_a_loc_pert i j) /\
    ((forall i j, at2 HX_f_loc_pert i j = 0) ->
     forall i j, (i < shape0 X_f_loc_pert)%nat -> (j < N_a)%nat ->
       at2 X_a_loc_pert i j = at2 X_f_loc_pert i j /\
       at2 X_a_loc i j = nth i X_f_loc_mean 0 + at2 X_f_loc_pert i j).
Proof.
  intros Heigh Hinfl Hlen HD HD0 H. unfold ETKF_loc in H.
  apply bind_Ok in H. destruct H as ([m pert] & Hparts & H).
  apply bind_Ok in H. destruct H as (N_a' & HNa' & H). cbn [fst snd] in H.
  destruct (ETKF_parts_zero_innovation _ _ _ _ _ _ _ _ _ _ _
              Heigh Hinfl Hlen HD HD0 Hparts)
    as (N_a & HNa & _ & -> & Hs0 & Hs1 & HsN & Hid).
  rewrite HNa in HNa'. injection HNa' as <-.
  assert (Hcols : shape0 X_a_loc = shape0 pert /\ shape1 X_a_loc = shape1 pert /\
            forall i j, (i < shape0 pert)%nat -> (j < N_a)%nat ->
              at2 X_a_loc i j = nth i X_f_loc_mean 0 + at2 pert i j).
  { unfold add_to_columns in H. destruct (Nat.eqb_spec N_a 0) as [E|_].
    - injection H as <-. repeat split. intros i j _ Hj. lia.
    - destruct (negb _); [discriminate|]. destruct (negb _); [discriminate|].
      injection H as <-. repeat split. intros i j Hi Hj. cbn [at2].
      apply Nat.ltb_lt in Hj. rewrite Hj.
      rewrite bidx_lt by congruence. ring. }
  destruct Hcols as (Hc0 & Hc1 & Hcol).
  exists N_a, pert. split; [exact HNa|]. split; [exact Hparts|].
  split; [congruence|]. split; [congruence|]. split; [exact HsN|].
  split.
  - intros i j Hi Hj. apply Hcol; [congruence | exact Hj].
  - intros HX0 i j Hi Hj. split; [apply Hid; assumption|].
    rewrite Hcol by congruence. rewrite Hid by assumption. reflexivity.
Qed.

End ETKF.

Lemma sqrt2_inv_sqr : sqrt2_inv * sqrt2_inv = 1 / 2.
Proof.
  unfold sqrt2_inv. rewrite <- Rinv_mult. rewrite sqrt_sqrt by lra. lra.
Qed.

Lemma Reqb_true a b : Reqb a b = true -> a = b.
Proof. unfold Reqb. destruct (Req_dec_T a b); [auto | discriminate]. Qed.

Lemma is_matrix2_true M a b c d :
  is_matrix2 M a b c d = true ->
  shape0 M = 2%nat /\ shape1 M = 2%nat /\
  at2 M 0 0 = a /\ at2 M 0 1 = b /\ at2 M 1 0 = c /\ at2 M 1 1 = d.
Proof.
  unfold is_matrix2. rewrite !andb_true_iff, !Nat.eqb_eq.
  intros [[[[[H0 H1] Ha] Hb] Hc] Hd].
  repeat split; auto using Reqb_true.
Qed.

Lemma lt2 i : (i < 2)%nat -> i = 0%nat \/ i = 1%nat.
Proof. lia. Qed.

Lemma eigh_table_contract : eigh_contract eigh_table.
Proof.
  intros M w V H. cbn [eigh eigh_table] in H.
  destruct (is_matrix2 M 5 (-4) (-4) 5) eqn:E5.
  - injection H as <- <-. apply is_matrix2_true in E5.
    destruct E5 as (H0 & H1 & Ha & Hb & Hc & Hd).
    pose proof sqrt2_inv_sqr as Hs.
    unfold linalg.eigh_ok. rewrite H0.
    repeat split; try reflexivity; try assumption;
      intros i j Hi Hj;
      try (destruct (lt2 i Hi) as [-> | ->]; destruct (lt2 j Hj) as [-> | ->];
           cbn [sum_n spread_V at2 Nat.eqb andb nth]; rewrite ?Ha, ?Hb, ?Hc, ?Hd; nra).
    assert (Hij : ((i = 0 /\ j = 0) \/ (i = 0 /\ j = 1) \/ (i = 1 /\ j = 1))%nat) by lia.
    destruct Hij as [[-> ->]|[[-> ->]|[-> ->]]]; simpl; lra.
  - destruct (is_matrix2 M 1 0 0 1) eqn:E1; [|discriminate].
    injection H as <- <-. apply is_matrix2_true in E1.
    destruct E1 as (H0 & H1 & Ha & Hb & Hc & Hd).
    unfold linalg.eigh_ok. rewrite H0.
    repeat split; try reflexivity; try assumption;
      intros i j Hi Hj;
      try (destruct (lt2 i Hi) as [-> | ->]; destruct (lt2 j Hj) as [-> | ->];
           cbn [sum_n np.eye at2 Nat.eqb andb nth]; rewrite ?Ha, ?Hb, ?Hc, ?Hd; lra).
    assert (Hij : ((i = 0 /\ j = 0) \/ (i = 0 /\ j = 1) \/ (i = 1 /\ j = 1))%nat) by lia.
    destruct Hij as [[-> ->]|[[-> ->]|[-> ->]]]; simpl; lra.
Qed.

Lemma inv_Ok A : shape0 A = shape1 A ->
  linalg.det (shape0 A) (at2 A) <> 0 ->
  linalg.inv A =
    Ok (mkArray2 (shape0 A) (shape0 A)
          (fun i j => (-1) ^ (i + j)
             * linalg.det (shape0 A - 1) (linalg.minor (at2 A) j i)
             / linalg.det (shape0 A) (at2 A))).
Proof.
  intros Hs Hd. unfold linalg.inv. rewrite <- Hs, Nat.eqb_refl.
  destruct (Req_dec_T _ 0); [contradiction | reflexivity].
Qed.

Lemma matmul_Ok A B : shape1 A = shape0 B ->
  np.matmul A B =
    Ok (mkArray2 (shape0 A) (shape1 B)
          (fun i j => sum_n (fun k => at2 A i k * at2 B k j) (shape1 A))).
Proof.
  intros Hs. unfold np.matmul. rewrite Hs, Nat.eqb_refl. rewrite <- Hs. reflexivity.
Qed.

Lemma py_div_value a b : b <> 0 -> py_div a b = Ok (a / b).
Proof. intros H. unfold py_div. destruct (Req_dec_T b 0); [contradiction | reflexivity]. Qed.

Lemma Reqb_eq_true a b : a = b -> Reqb a b = true.
Proof. intros ->. unfold Reqb. destruct (Req_dec_T b b); [reflexivity | contradiction]. Qed.

Lemma sqrt_ninth : sqrt (1 / 9) = 1 / 3.
Proof.
  replace (1 / 9) with ((1 / 3) * (1 / 3)) by field. apply sqrt_square. lra.
Qed.


Lemma add_Ok A B : shape0 A = shape0 B -> shape1 A = shape1 B ->
  np.add A B =
    Ok (mkArray2 (shape0 A) (shape1 A)
          (fun i j => at2 A (np.bidx (shape0 A) i) (np.bidx (shape1 A) j)
                      + at2 B (np.bidx (shape0 B) i) (np.bidx (shape1 B) j))).
Proof.
  intros H0 H1. unfold np.add, np.broadcast. rewrite <- H0, <- H1, !bdim_same.
  reflexivity.
Qed.

Lemma solve_Ok A B Ainv : shape0 A = shape1 A -> shape0 A = shape0 B ->
  linalg.inv A = Ok Ainv -> linalg.solve A B = np.matmul Ainv B.
Proof.
  intros H0 H1 Hi. unfold linalg.solve.
  rewrite <- H0, <- H1, !Nat.eqb_refl, Hi. reflexivity.
Qed.

Lemma matvec_Ok A v : shape1 A = length v ->
  np.matvec A v =
    Ok (map (fun i => sum_n (fun k => at2 A i k * nth k v 0) (shape1 A))
          (seq 0 (shape0 A))).
Proof. intros H. unfold np.matvec. rewrite H, Nat.eqb_refl. rewrite <- H. reflexivity. Qed.

Lemma add1_Ok u v : length u = length v ->
  np.add1 u v =
    Ok (map (fun i => nth (np.bidx (length u) i) u 0 + nth (np.bidx (length v) i) v 0)
          (seq 0 (length u))).
Proof.
  intros H. unfold np.add1, np.broadcast1. rewrite <- H, bdim_same. reflexivity.
Qed.


Lemma is_matrix2_false M a b c d : at2 M 0 0 <> a -> is_matrix2 M a b c d = false.
Proof.
  intros H. unfold is_matrix2, Reqb at 1.
  destruct (Req_dec_T (at2 M 0 0) a); [contradiction|].
  rewrite andb_false_r. reflexivity.
Qed.

Ltac name_result x :=
  match goal with |- context [bind (Ok ?X) _] => set (x := X); cbn [bind] end.

(** The steps of [ETKF_parts] for two particles and the unit observation
    covariance, up to the call of [eigh]; [a], [b], [c], [d] are the entries
    of the matrix [A]. *)
Ltac ETKF_parts_until_eigh X_pert HX_pert a b c d :=
  unfold ETKF_parts;
  cbn [two_particle_filter self_ensemble two_particles getObservationCov
       N_e_active inflation_factor getattr particlesActive];
  rewrite inv_Ok; [|reflexivity|cbn [shape0 np.eye]; rewrite det2; cbn; lra];
  let R_inv := fresh "R_inv" in name_result R_inv;
  cbn [ETKF_innovation]; unfold np.subtract1, np.broadcast1;
  cbn [length np.bdim Nat.eqb bind seq map];
  unfold ETKF_forgetting_factor;
  destruct (Req_dec_T 1 0) as [?|_]; [lra|]; cbn [bind];
  unfold np.compress_cols;
  cbn [length HX_pert np.zeros shape0 shape1 Nat.eqb seq filter nth two_particles
       particlesActive];
  let HXa := fresh "HXa" in name_result HXa;
  rewrite matmul_Ok by reflexivity; let HR := fresh "HR" in name_result HR;
  rewrite matmul_Ok by reflexivity; let A2 := fresh "A2" in name_result A2;
  rewrite add_Ok by reflexivity; let A := fresh "A" in name_result A;
  assert (HA00 : at2 A 0 0 = a) by (cbn; field);
  assert (HA01 : at2 A 0 1 = b) by (cbn; field);
  assert (HA10 : at2 A 1 0 = c) by (cbn; field);
  assert (HA11 : at2 A 1 1 = d) by (cbn; field);
  erewrite solve_Ok;
    [|reflexivity|reflexivity
     |apply inv_Ok;
      [reflexivity
      |change (shape0 A) with 2%nat; rewrite det2, HA00, HA01, HA10, HA11; lra]];
  rewrite matmul_Ok by reflexivity; let S_ := fresh "S_" in name_result S_;
  rewrite matmul_Ok by reflexivity; let K := fresh "K" in name_result K;
  rewrite matvec_Ok by reflexivity; let KD := fresh "KD" in name_result KD;
  rewrite add1_Ok by reflexivity;
  let X_a_loc_mean := fresh "X_a_loc_mean" in name_result X_a_loc_mean;
  rewrite py_div_value by (cbn; lra); let c' := fresh "c" in name_result c';
  assert (Hc : c' = 1) by (unfold c'; cbn; field);
  cbn [eigh eigh_table].

(** The run of [ETKF_parts] on the one-cell patch whose observed
    perturbations are [2, -2]. *)
Lemma ETKF_parts_spread_run :
  match @ETKF_parts eigh_table two_particle_filter (Some two_particles) [3] spread_X
          [0; 0] spread_HX [0; 0] None with
  | Ok (m, pert) =>
      length m = 1%nat /\ shape0 pert = 1%nat /\ shape1 pert = 2%nat /\
      at2 pert 0 0 = 1 / 3 /\ at2 pert 0 1 = - (1 / 3)
  | _ => False
  end.
Proof.
  ETKF_parts_until_eigh spread_X spread_HX 5 (-4) (-4) 5.
  assert (E : is_matrix2 (np.scale c A) 5 (-4) (-4) 5 = true).
  { unfold is_matrix2. repeat (apply andb_true_intro; split);
      try reflexivity; apply Reqb_eq_true; cbn [np.scale at2];
      rewrite Hc, ?HA00, ?HA01, ?HA10, ?HA11; ring. }
  rewrite E. cbn [bind].
  rewrite matmul_Ok by reflexivity. name_result XV.
  rewrite matmul_Ok by reflexivity. name_result XVd.
  rewrite matmul_Ok by reflexivity. name_result X_a_loc_pert.
  pose proof sqrt2_inv_sqr as Hs. pose proof sqrt_ninth as H9.
  split; [reflexivity|]. split; [reflexivity|]. split; [reflexivity|]. split.
  - cbn. rewrite H9.
    transitivity (2 * (sqrt2_inv * sqrt2_inv) * (1 / 3)); [ring | rewrite Hs; field].
  - cbn. rewrite H9.
    transitivity (- 2 * (sqrt2_inv * sqrt2_inv) * (1 / 3)); [ring | rewrite Hs; field].
Qed.

(** The run on the same patch when the observed perturbations vanish. *)
Lemma ETKF_parts_zero_run :
  match @ETKF_parts eigh_table two_particle_filter (Some two_particles) [3] spread_X
          [0; 0] (np.zeros 2 2) [0; 0] None with
  | Ok (m, pert) => length m = 1%nat /\ shape0 pert = 1%nat /\ shape1 pert = 2%nat
  | _ => False
  end.
Proof.
  ETKF_parts_until_eigh spread_X np.zeros 1 0 0 1.
  rewrite is_matrix2_false
    by (cbn [np.scale at2]; rewrite Hc, HA00; lra).
  assert (E : is_matrix2 (np.scale c A) 1 0 0 1 = true).
  { unfold is_matrix2. repeat (apply andb_true_intro; split);
      try reflexivity; apply Reqb_eq_true; cbn [np.scale at2];
      rewrite Hc, ?HA00, ?HA01, ?HA10, ?HA11; ring. }
  rewrite E. cbn [bind].
  rewrite matmul_Ok by reflexivity. name_result XV.
  rewrite matmul_Ok by reflexivity. name_result XVd.
  rewrite matmul_Ok by reflexivity. name_result X_a_loc_pert.
  repeat split.
Qed.

Lemma ETKF_loc_of_parts self ensemble X_f_loc_mean X_f_loc_pert HX_f_loc_mean
  HX_f_loc_pert y_loc D m pert :
  @ETKF_parts eigh_table self ensemble X_f_loc_mean X_f_loc_pert HX_f_loc_mean
    HX_f_loc_pert y_loc D = Ok (m, pert) ->
  N_e_active self = Some 2%nat ->
  length m = shape0 pert -> shape1 pert = 2%nat ->
  exists X_a_loc,
    @ETKF_loc eigh_table self ensemble X_f_loc_mean X_f_loc_pert HX_f_loc_mean
      HX_f_loc_pert y_loc D = Ok X_a_loc /\
    forall i j, (i < shape0 pert)%nat -> (j < 2)%nat ->
      at2 X_a_loc i j = at2 pert i j + nth i m 0.
Proof.
  intros Hp HN Hm H1. unfold ETKF_loc. rewrite Hp, HN. cbn [bind getattr fst snd].
  unfold add_to_columns, fits. rewrite H1, Hm, Nat.eqb_refl. cbn [Nat.eqb Nat.leb negb orb].
  eexists. split; [reflexivity|]. intros i j Hi Hj. cbn [at2].
  apply Nat.ltb_lt in Hj. rewrite Hj. rewrite bidx_lt by congruence. reflexivity.
Qed.

Lemma zero_innovation_example :
  exists D0, ETKF_innovation [0; 0] [0; 0] None = Ok D0 /\ forall k, nth k D0 0 = 0.
Proof.
  eexists. split; [reflexivity|]. intros [|[|[|k]]]; cbn; lra.
Qed.

Lemma ETKF_loc_zero_innovation_witness :
  eigh_contract eigh_table /\
  inflation_factor two_particle_filter = 1 /\
  length [3] = shape0 spread_X /\
  (exists D0, ETKF_innovation [0; 0] [0; 0] None = Ok D0 /\ forall k, nth k D0 0 = 0) /\
  exists X_a_loc,
    @ETKF_loc eigh_table two_particle_filter (Some two_particles) [3] spread_X
      [0; 0] (np.zeros 2 2) [0; 0] None = Ok X_a_loc /\
    shape0 X_a_loc = 1%nat /\ shape1 X_a_loc = 2%nat /\
    at2 X_a_loc 0 0 = 3 + 1 /\ at2 X_a_loc 0 1 = 3 + -1.
Proof.
  split; [exact eigh_table_contract|]. split; [reflexivity|]. split; [reflexivity|].
  split; [exact zero_innovation_example|].
  destruct zero_innovation_example as (D0 & HD & HD0).
  pose proof ETKF_parts_zero_run as Hrun.
  destruct (@ETKF_parts eigh_table two_particle_filter (Some two_particles) [3]
              spread_X [0; 0] (np.zeros 2 2) [0; 0] None)
    as [[m pert]| |] eqn:Hparts; try contradiction.
  destruct Hrun as (Hm & Hp0 & Hp1).
  destruct (ETKF_loc_of_parts _ _ _ _ _ _ _ _ _ _ Hparts eq_refl
              ltac:(congruence) Hp1) as (X_a_loc & Hloc & _).
  exists X_a_loc. split; [exact Hloc|].
  destruct (@ETKF_loc_zero_innovation eigh_table two_particle_filter
              (Some two_particles) [3] spread_X [0; 0] (np.zeros 2 2) [0; 0] None
              D0 X_a_loc eigh_table_contract eq_refl eq_refl HD HD0 Hloc)
    as (N_a & X_a_loc_pert & HN & _ & Hs0 & Hs1 & _ & _ & Hid).
  injection HN as <-.
  split; [exact Hs0|]. split; [exact Hs1|].
  split; apply (Hid (fun _ _ => eq_refl)); cbn; lia.
Defined.

(** C4 as stated fails on the same patch with observed perturbations
    [2, -2]: the innovation is zero and the inflation factor 1, the
    analysis mean is the forecast mean 3, but the analysis perturbations
    are [1/3, -1/3], not the forecast's [1, -1], and the sum of their
    squares is 2/9, not 2. *)
Lemma ETKF_loc_spread_shrinks :
  eigh_contract eigh_table /\
  inflation_factor two_particle_filter = 1 /\
  (exists D0, ETKF_innovation [0; 0] [0; 0] None = Ok D0 /\ forall k, nth k D0 0 = 0) /\
  at2 spread_X 0 0 = 1 /\ at2 spread_X 0 1 = -1 /\
  exists X_a_loc_pert X_a_loc,
    @ETKF_parts eigh_table two_particle_filter (Some two_particles) [3] spread_X
      [0; 0] spread_HX [0; 0] None = Ok ([3], X_a_loc_pert) /\
    @ETKF_loc eigh_table two_particle_filter (Some two_particles) [3] spread_X
      [0; 0] spread_HX [0; 0] None = Ok X_a_loc /\
    at2 X_a_loc_pert 0 0 = 1 / 3 /\ at2 X_a_loc_pert 0 1 = - (1 / 3) /\
    at2 X_a_loc 0 0 = 3 + 1 / 3 /\ at2 X_a_loc 0 1 = 3 - 1 / 3 /\
    at2 X_a_loc_pert 0 0 <> at2 spread_X 0 0 /\
    at2 X_a_loc_pert 0 0 ^ 2 + at2 X_a_loc_pert 0 1 ^ 2
      < at2 spread_X 0 0 ^ 2 + at2 spread_X 0 1 ^ 2.
Proof.
  split; [exact eigh_table_contract|]. split; [reflexivity|].
  split; [exact zero_innovation_example|].
  split; [reflexivity|]. split; [reflexivity|].
  destruct zero_innovation_example as (D0 & HD & HD0).
  pose proof ETKF_parts_spread_run as Hrun.
  destruct (@ETKF_parts eigh_table two_particle_filter (Some two_particles) [3]
              spread_X [0; 0] spread_HX [0; 0] None)
    as [[m pert]| |] eqn:Hparts; try contradiction.
  destruct Hrun as (Hm & Hp0 & Hp1 & H00 & H01).
  pose proof (fun Hi Hl =>
                @ETKF_parts_zero_innovation eigh_table _ _ _ _ _ _ _ _ _ _ _
                  eigh_table_contract Hi Hl HD HD0 Hparts) as Hz.
  destruct (Hz eq_refl eq_refl) as (_ & _ & _ & -> & _).
  destruct (ETKF_loc_of_parts _ _ _ _ _ _ _ _ _ _ Hparts eq_refl
              ltac:(congruence) Hp1) as (X_a_loc & Hloc & Hcol).
  exists pert, X_a_loc. split; [reflexivity|]. split; [exact Hloc|].
  split; [exact H00|]. split; [exact H01|].
  split; [rewrite Hcol by lia; rewrite H00; cbn; lra|].
  split; [rewrite Hcol by lia; rewrite H01; cbn; lra|].
  rewrite H00, H01. cbn. split; lra.
Qed.

(* ================================================================= *)
(** * Adaptive inflation in [ETKF_loc] *)

Lemma matmul_zero_l A B C : zero2 A -> np.matmul A B = Ok C -> zero2 C.
Proof.
  intros HA H i j. rewrite (matmul_entries _ _ _ H).
  rewrite (sum_n_ext _ (fun _ => 0)); [apply sum_n_zero|].
  intros k _. rewrite HA. ring.
Qed.

Lemma matmul_zero_r A B C : zero2 B -> np.matmul A B = Ok C -> zero2 C.
Proof.
  intros HB H i j. rewrite (matmul_entries _ _ _ H).
  rewrite (sum_n_ext _ (fun _ => 0)); [apply sum_n_zero|].
  intros k _. rewrite HB. ring.
Qed.

(** The eigenvalues of a multiple of the identity. *)
Lemma eigh_scalar M w V s :
  linalg.eigh_ok M w V ->
  (forall i j, (i < shape0 M)%nat -> (j < shape0 M)%nat ->
     at2 M i j = if Nat.eqb i j then s else 0) ->
  forall j, (j < shape0 M)%nat -> nth j w 0 = s.
Proof.
  intros (_ & _ & _ & _ & Hcol & _ & Heig & _) HM j Hj.
  set (n := shape0 M) in *.
  assert (HV : forall i, (i < n)%nat -> s * at2 V i j = nth j w 0 * at2 V i j).
  { intros i Hi. rewrite <- (Heig i j Hi Hj).
    rewrite (sum_n_ext _ (fun k => (if Nat.eqb i k then 1 else 0) * (s * at2 V k j))).
    - symmetry. apply (sum_n_delta_l (fun k => s * at2 V k j)). exact Hi.
    - intros k Hk. rewrite HM by assumption. destruct (i =? k)%nat; ring. }
  pose proof (Hcol j j Hj Hj) as Hnorm. rewrite Nat.eqb_refl in Hnorm.
  transitivity (nth j w 0 * sum_n (fun k => at2 V k j * at2 V k j) n).
  - rewrite Hnorm. ring.
  - rewrite <- sum_n_scal.
    transitivity (sum_n (fun k => s * (at2 V k j * at2 V k j)) n).
    + apply sum_n_ext. intros k Hk. rewrite <- Rmult_assoc, <- (HV k Hk). ring.
    + rewrite sum_n_scal, Hnorm. ring.
Qed.

Lemma matvec_zero_l K D v :
  zero2 K -> np.matvec K D = Ok v ->
  length v = shape0 K /\ forall k, nth k v 0 = 0.
Proof.
  intros HK. unfold np.matvec. destruct (_ =? _)%nat; [|discriminate].
  intros H. injection H as <-. split.
  - rewrite length_map, length_seq. reflexivity.
  - intros k. rewrite nth_map_seq. destruct (k <? shape0 K)%nat; [|reflexivity].
    rewrite (sum_n_ext _ (fun _ => 0)); [apply sum_n_zero|].
    intros j _. rewrite HK. ring.
Qed.

Lemma forgetting_factor_of_inflation Rinv D N_a ff :
  ETKF_forgetting_factor 0 Rinv D N_a = Ok ff ->
  exists RDD,
    np.matmul Rinv (np.outer D D) = Ok RDD /\
    ff = 1 / sqrt (1 + np.trace RDD / (INR N_a - 2)) ^ 2.
Proof.
  unfold ETKF_forgetting_factor. destruct (Req_dec_T 0 0) as [_|E]; [|congruence].
  intros H. apply bind_Ok in H. destruct H as (RDD & HRDD & H).
  injection H as <-. exists RDD. split; [exact HRDD | reflexivity].
Qed.

Lemma list_of_length_2 (D : list R) : length D = 2%nat -> exists d1 d2, D = [d1; d2].
Proof.
  destruct D as [|d1 [|d2 [|d3 D]]]; cbn; intros H; try discriminate.
  exists d1, d2. reflexivity.
Qed.

Section Adaptive.
Context {ext : External}.

(** With any inflation other than 0 handed in, [ETKF_parts] and
    [ETKF_loc] depend on it through the forgetting factor only. *)
Lemma ETKF_loc_same_factor self infl ensemble X_f_loc_mean X_f_loc_pert HX_f_loc_mean
  HX_f_loc_pert y_loc D Rinv D0 N_a ff :
  linalg.inv (getObservationCov (self_ensemble self)) = Ok Rinv ->
  ETKF_innovation y_loc HX_f_loc_mean D = Ok D0 ->
  N_e_active self = Some N_a ->
  ETKF_forgetting_factor (inflation_factor self) Rinv D0 N_a = Ok ff ->
  ETKF_forgetting_factor infl Rinv D0 N_a = Ok ff ->
  ETKF_loc (with_inflation_factor self infl) ensemble X_f_loc_mean X_f_loc_pert
    HX_f_loc_mean HX_f_loc_pert y_loc D =
  ETKF_loc self ensemble X_f_loc_mean X_f_loc_pert HX_f_loc_mean HX_f_loc_pert y_loc D.
Proof.
  intros HRinv HD HNa Hff Hff'. unfold ETKF_loc, ETKF_parts.
  cbn [with_inflation_factor self_ensemble N_e_active inflation_factor].
  rewrite HRinv, HD, HNa. cbn [bind getattr]. rewrite Hff, Hff'. reflexivity.
Qed.

Lemma ETKF_parts_no_observed_spread
  self ensemble X_f_loc_mean X_f_loc_pert HX_f_loc_mean HX_f_loc_pert y_loc D
  X_a_mean X_a_pert Rinv D0 N_a ff :
  eigh_contract ext ->
  linalg.inv (getObservationCov (self_ensemble self)) = Ok Rinv ->
  ETKF_innovation y_loc HX_f_loc_mean D = Ok D0 ->
  N_e_active self = Some N_a ->
  ETKF_forgetting_factor (inflation_factor self) Rinv D0 N_a = Ok ff ->
  length X_f_loc_mean = shape0 X_f_loc_pert ->
  (forall i j, at2 HX_f_loc_pert i j = 0) ->
  ETKF_parts self ensemble X_f_loc_mean X_f_loc_pert HX_f_loc_mean HX_f_loc_pert
    y_loc D = Ok (X_a_mean, X_a_pert) ->
  X_a_mean = X_f_loc_mean /\
  shape0 X_a_pert = shape0 X_f_loc_pert /\
  shape1 X_a_pert = shape1 X_f_loc_pert /\
  shape1 X_f_loc_pert = N_a /\
  forall i j, (j < N_a)%nat ->
    at2 X_a_pert i j = sqrt (1 / ff) * at2 X_f_loc_pert i j.
Proof.
  intros Heigh HRinv HD HNa Hff Hlen HX0 H. unfold ETKF_parts in H.
  rewrite HRinv, HD, HNa in H. cbn [bind getattr] in H. rewrite Hff in H.
  cbn [bind] in H.
  apply bind_Ok in H. destruct H as (e & He & H).
  apply bind_Ok in H. destruct H as (HXa & HHXa & H).
  apply bind_Ok in H. destruct H as (HR & HHR & H).
  apply bind_Ok in H. destruct H as (A2 & HA2 & H).
  apply bind_Ok in H. destruct H as (A & HA & H).
  apply bind_Ok in H. destruct H as (S & HS & H).
  apply bind_Ok in H. destruct H as (K & HK & H).
  apply bind_Ok in H. destruct H as (KD & HKD & H).
  apply bind_Ok in H. destruct H as (m & Hm & H).
  apply bind_Ok in H. destruct H as (c & Hc & H).
  apply bind_Ok in H. destruct H as ([w V] & HwV & H).
  apply bind_Ok in H. destruct H as (XV & HXV & H).
  apply bind_Ok in H. destruct H as (XVd & HXVd & H).
  apply bind_Ok in H. destruct H as (pert & Hpert & H).
  injection H as <- <-.
  apply py_div_Ok in Hc. destruct Hc as [Hc0 Hc].
  (* nothing is observed of the spread *)
  assert (HXaz : zero2 (np.T HXa)).
  { intros p q. unfold np.compress_cols in HHXa.
    destruct (_ =? _)%nat; [|discriminate]. injection HHXa as <-.
    cbn [np.T at2]. apply HX0. }
  assert (HRz : zero2 HR) by exact (matmul_zero_l _ _ _ HXaz HHR).
  assert (HA2z : zero2 A2) by exact (matmul_zero_l _ _ _ HRz HA2).
  assert (HSz : zero2 S).
  { unfold linalg.solve in HS.
    destruct (_ =? _)%nat; [|discriminate]. destruct (_ =? _)%nat; [|discriminate].
    apply bind_Ok in HS. destruct HS as (Ainv & _ & HS).
    exact (matmul_zero_r _ _ _ HRz HS). }
  assert (HKz : zero2 K) by exact (matmul_zero_r _ _ _ HSz HK).
  (* the mean *)
  pose proof (matmul_shape _ _ _ HK) as (_ & HK0 & _).
  destruct (matvec_zero_l K D0 KD HKz HKD) as [HlKD HKD0].
  assert (Hmean : m = X_f_loc_mean).
  { apply (add1_zero X_f_loc_mean KD m HKD0); [|exact Hm]. congruence. }
  (* shapes *)
  pose proof (Heigh _ _ _ HwV) as Hok.
  pose proof Hok as (HM1 & Hlw & HV0 & HV1 & Hcol & Hrow & Heig & _).
  cbn [np.scale shape0 shape1] in HM1, Hlw, HV0, HV1, Hcol, Hrow, Heig.
  pose proof (matmul_shape _ _ _ HXV) as (HXV_in & HXV0 & HXV1).
  pose proof (matmul_shape _ _ _ HXVd) as (HXVd_in & HXVd0 & HXVd1).
  pose proof (matmul_shape _ _ _ Hpert) as (Hp_in & Hp0 & Hp1).
  cbn [np.diag np.T shape0 shape1] in HXVd_in, HXVd1, Hp_in, Hp1.
  rewrite ?length_map in *.
  pose proof (add_entries _ _ _ HA) as HAe.
  apply broadcast_shape in HA. cbn [np.scale np.eye shape0 shape1] in HA.
  destruct HA as [HA0 HA1].
  assert (HsA : shape0 A = N_a).
  { apply bdim_Ok in HA0. destruct HA0 as [[_ E]|[[E _]|[_ E]]]; try congruence.
    exfalso. apply Hc0. rewrite E. simpl. lra. }
  split; [exact Hmean|]. split; [congruence|]. split; [congruence|].
  split; [congruence|].
  intros i j Hj.
  (* the matrix handed to eigh is the forgetting factor times the identity *)
  assert (HAid : forall a b, (a < shape0 A)%nat -> (b < shape0 A)%nat ->
            at2 (np.scale c A) a b = if Nat.eqb a b then ff else 0).
  { intros a b Ha Hb. rewrite HsA in Ha, Hb.
    cbn [np.scale at2]. rewrite HAe, HA2z. cbn [np.scale np.eye shape0 shape1 at2].
    rewrite !(bidx_lt N_a) by assumption. rewrite Hc.
    destruct (a =? b)%nat; field; exact Hc0. }
  pose proof (eigh_scalar _ _ _ ff Hok HAid) as Hw1.
  cbn [np.scale shape0] in Hw1.
  set (n := shape0 A) in *.
  assert (Hjn : (j < n)%nat) by lia.
  rewrite (matmul_entries _ _ _ Hpert). rewrite HXVd1, Hlw.
  transitivity (sum_n (fun l => sqrt (1 / ff) * (at2 XV i l * at2 V j l)) n).
  { apply sum_n_ext. intros l Hl. cbn [np.T at2].
    rewrite (matmul_entries _ _ _ HXVd). rewrite HXV1, HV1.
    rewrite (sum_n_ext _ (fun k => (at2 XV i k * sqrt (1 / ff))
                                   * (if Nat.eqb k l then 1 else 0))).
    - rewrite (sum_n_delta_r (fun k => at2 XV i k * sqrt (1 / ff)) n l Hl). ring.
    - intros k Hk. cbn [np.diag at2].
      destruct (Nat.eqb_spec k l) as [->|_]; [|ring].
      rewrite (nth_indep _ 0 (sqrt (1 / 0)))
        by (rewrite length_map, Hlw; exact Hl).
      rewrite (map_nth (fun s => sqrt (1 / s))). rewrite Hw1 by exact Hl. ring. }
  rewrite sum_n_scal. f_equal.
  rewrite (sum_n_ext _ (fun l => sum_n (fun k => at2 X_f_loc_pert i k * (at2 V k l * at2 V j l)) n)).
  2:{ intros l Hl. rewrite (matmul_entries _ _ _ HXV). rewrite HXV_in, HV0.
      rewrite Rmult_comm, <- sum_n_scal. apply sum_n_ext. intros k _. ring. }
  rewrite sum_n_swap.
  rewrite (sum_n_ext _ (fun k => at2 X_f_loc_pert i k * (if Nat.eqb k j then 1 else 0))).
  - apply sum_n_delta_r. exact Hjn.
  - intros k Hk. rewrite sum_n_scal. f_equal. apply Hrow; assumption.
Qed.

End Adaptive.

Lemma add_to_columns_entries X v n Y :
  length v = shape0 X ->
  add_to_columns X v n = Ok Y ->
  shape0 Y = shape0 X /\ shape1 Y = shape1 X /\
  forall i j, (i < shape0 X)%nat -> (j < n)%nat ->
    at2 Y i j = nth i v 0 + at2 X i j.
Proof.
  intros Hv H. unfold add_to_columns in H. destruct (Nat.eqb_spec n 0) as [E|_].
  - injection H as <-. repeat split. intros i j _ Hj. lia.
  - destruct (negb _); [discriminate|]. destruct (negb _); [discriminate|].
    injection H as <-. repeat split. intros i j Hi Hj. cbn [at2].
    apply Nat.ltb_lt in Hj. rewrite Hj.
    rewrite bidx_lt by congruence. ring.
Qed.

Section AdaptiveInflation.
Context {ext : External}.


End AdaptiveInflation.

(** ** A run with adaptive inflation *)

Lemma sqrt_nine : sqrt 9 = 3.
Proof. replace 9 with (3 * 3) by ring. apply sqrt_square. lra. Qed.

Lemma det3 A :
  linalg.det 3 A =
  A 0%nat 0%nat * (A 1%nat 1%nat * A 2%nat 2%nat - A 1%nat 2%nat * A 2%nat 1%nat)
  - A 0%nat 1%nat * (A 1%nat 0%nat * A 2%nat 2%nat - A 1%nat 2%nat * A 2%nat 0%nat)
  + A 0%nat 2%nat * (A 1%nat 0%nat * A 2%nat 1%nat - A 1%nat 1%nat * A 2%nat 0%nat).
Proof. unfold linalg.det, linalg.minor, linalg.skip. simpl. ring. Qed.

Lemma lt3 i : (i < 3)%nat -> i = 0%nat \/ i = 1%nat \/ i = 2%nat.
Proof. lia. Qed.

(** Three particles, the unit observation covariance and the innovation
    [2, 2] with nothing of the spread observed: the run returns. *)
Lemma adaptive_run_returns :
  exists X_a_loc,
    @ETKF_loc eigh_ninth adaptive_filter (Some one_buoy) [3] spread_X3 [0; 0]
      (np.zeros 2 3) [2; 2] None = Ok X_a_loc.
Proof.
  unfold ETKF_loc, ETKF_parts.
  cbn [adaptive_filter self_ensemble one_buoy getObservationCov
       N_e_active inflation_factor getattr particlesActive].
  rewrite inv_Ok; [|reflexivity|cbn [shape0 np.eye]; rewrite det2; cbn; lra].
  name_result R_inv.
  cbn [ETKF_innovation]; unfold np.subtract1, np.broadcast1;
  cbn [length np.bdim Nat.eqb bind seq map].
  unfold ETKF_forgetting_factor.
  destruct (Req_dec_T 0 0) as [_|?]; [|lra]. 
  rewrite matmul_Ok by reflexivity. name_result RDD.
  assert (Htr : np.trace RDD = 8).
  { unfold np.trace, RDD, R_inv. cbn. field. }
  assert (Hinfl : sqrt (1 + np.trace RDD / (INR 3 - 2)) = 3).
  { rewrite Htr. replace (1 + 8 / (INR 3 - 2)) with 9 by (simpl; field; lra).
    exact sqrt_nine. }
  rewrite Hinfl. clearbody RDD.
  unfold np.compress_cols.
  cbn [length np.zeros shape0 shape1 Nat.eqb seq filter nth one_buoy particlesActive].
  name_result HXa.
  rewrite matmul_Ok by reflexivity. name_result HR.
  rewrite matmul_Ok by reflexivity. name_result A2.
  rewrite add_Ok by reflexivity. name_result A.
  assert (HA : forall i j, (i < 3)%nat -> (j < 3)%nat ->
            at2 A i j = if Nat.eqb i j then 2 / 9 else 0).
  { intros i j Hi Hj.
    destruct (lt3 i Hi) as [->|[->| ->]]; destruct (lt3 j Hj) as [->|[->| ->]];
      cbn; field. }
  assert (HAs0 : shape0 A = 3%nat) by reflexivity.
  assert (HAs1 : shape1 A = 3%nat) by reflexivity.
  assert (HRs0 : shape0 HR = 3%nat) by reflexivity.
  assert (HRs1 : shape1 HR = 2%nat) by reflexivity.
  assert (HRz : forall i j, at2 HR i j = 0).
  { intros i j. cbn. ring. }
  clearbody A HR. clear A2 HXa.
  erewrite solve_Ok;
    [|congruence|congruence
     |apply inv_Ok;
      [congruence
      |rewrite HAs0, det3, !HA by lia; cbn [Nat.eqb]; lra]].
  rewrite matmul_Ok by (cbn [shape0 shape1]; congruence). name_result S_.
  rewrite matmul_Ok by (cbn; congruence). name_result K.
  rewrite matvec_Ok by (cbn; congruence). name_result KD.
  rewrite add1_Ok by (cbn; congruence).
  name_result X_a_loc_mean.
  rewrite py_div_value by (cbn; lra). name_result c.
  assert (Hc : c = 1 / 2) by (unfold c; cbn; field).
  cbn [eigh eigh_ninth].
  assert (E : is_scalar3 (np.scale c A) (1 / 9) = true).
  { unfold is_scalar3. cbn [np.scale shape0 shape1]. rewrite HAs0, HAs1.
    cbn [Nat.eqb andb seq forallb at2 np.scale]. rewrite !HA by lia. cbn [Nat.eqb].
    rewrite Hc. rewrite !Reqb_eq_true by field. reflexivity. }
  rewrite E. cbn [bind].
  rewrite matmul_Ok by reflexivity. name_result XV.
  rewrite matmul_Ok by reflexivity. name_result XVd.
  rewrite matmul_Ok by reflexivity. name_result X_a_loc_pert.
  cbn [fst snd]. unfold add_to_columns.
  replace (shape1 X_a_loc_pert) with 3%nat by reflexivity.
  replace (shape0 X_a_loc_pert) with 1%nat by reflexivity.
  replace (length X_a_loc_mean) with 1%nat by reflexivity.
  cbn [Nat.eqb Nat.leb negb]. unfold fits. cbn [Nat.eqb orb negb].
  eexists. reflexivity.
Qed.

Lemma is_scalar3_true M s :
  is_scalar3 M s = true ->
  shape0 M = 3%nat /\ shape1 M = 3%nat /\
  forall i j, (i < 3)%nat -> (j < 3)%nat -> at2 M i j = if Nat.eqb i j then s else 0.
Proof.
  unfold is_scalar3. rewrite !andb_true_iff, !Nat.eqb_eq.
  intros [[H0 H1] H]. split; [exact H0|]. split; [exact H1|].
  intros i j Hi Hj. rewrite forallb_forall in H.
  assert (Hi' : In i (seq 0 3)) by (apply in_seq; lia).
  specialize (H i Hi'). rewrite forallb_forall in H.
  assert (Hj' : In j (seq 0 3)) by (apply in_seq; lia).
  exact (Reqb_true _ _ (H j Hj')).
Qed.

Lemma eigh_ninth_contract : eigh_contract eigh_ninth.
Proof.
  intros M w V H. cbn [eigh eigh_ninth] in H.
  destruct (is_scalar3 M (1 / 9)) eqn:E; [|discriminate].
  injection H as <- <-. apply is_scalar3_true in E. destruct E as (H0 & H1 & HM).
  unfold linalg.eigh_ok. rewrite H0.
  repeat split; try reflexivity; try assumption; intros i j Hi Hj.
  - destruct (lt3 i Hi) as [->|[->| ->]]; destruct (lt3 j Hj) as [->|[->| ->]];
      cbn [sum_n np.eye at2 Nat.eqb]; lra.
  - destruct (lt3 i Hi) as [->|[->| ->]]; destruct (lt3 j Hj) as [->|[->| ->]];
      cbn [sum_n np.eye at2 Nat.eqb]; lra.
  - cbn [sum_n]. rewrite !HM by lia.
    destruct (lt3 i Hi) as [->|[->| ->]]; destruct (lt3 j Hj) as [->|[->| ->]];
      cbn [np.eye at2 Nat.eqb nth]; lra.
  - assert (Hj3 := lt3 j Hj).
    destruct Hj3 as [->|[->| ->]];
      destruct i as [|[|[|i]]]; try lia; cbn [nth]; lra.
Qed.

(** The inflation that the run [adaptive_run_returns] computes. *)
Lemma adaptive_run_inflation Rinv d1 d2 RDD :
  linalg.inv (np.eye 2) = Ok Rinv ->
  ETKF_innovation [2; 2] [0; 0] None = Ok [d1; d2] ->
  np.matmul Rinv (np.outer [d1; d2] [d1; d2]) = Ok RDD ->
  sqrt (1 + np.trace RDD / (INR 3 - 2)) = 3.
Proof.
  intros Hinv HD HRDD.
  rewrite inv_Ok in Hinv; [|reflexivity|cbn [shape0 np.eye]; rewrite det2; cbn; lra].
  injection Hinv as <-.
  cbn in HD. injection HD as <- <-.
  rewrite matmul_Ok in HRDD by reflexivity. injection HRDD as <-.
  replace (1 + _ / _) with 9; [exact sqrt_nine|].
  unfold np.trace. cbn. field.
Qed.



(* ================================================================= *)
(** * A whole cycle of [assimilate] *)

Lemma one_buoy_groups :
  initializeGroups one_buoy 0.5 = Ok ([(5, 5)], [[0%nat]]).
Proof.
  unfold initializeGroups.
  assert (Hd : 3 <= obs_dist_mat (getDx one_buoy * INR (getNx one_buoy))
                     (getDy one_buoy * INR (getNy one_buoy))
                     (drifter_positions_of one_buoy) 0 0).
  { unfold obs_dist_mat, heavy_diagonal. simpl. apply le_sqrt; lra. }
  remember (obs_dist_mat (getDx one_buoy * INR (getNx one_buoy))
              (getDy one_buoy * INR (getNy one_buoy))
              (drifter_positions_of one_buoy)) as M.
  cbn. r_decide. reflexivity.
Qed.

Lemma floorZ_eq x z : IZR z <= x < IZR z + 1 -> floorZ x = z.
Proof.
  intros [Hlo Hhi]. unfold floorZ. symmetry. apply Int_part_spec. lra.
Qed.

Lemma init_one_buoy : init one_buoy 1 1 "SEnKF" = Ok fresh_filter.
Proof. reflexivity. Qed.

Ltac ev :=
  cbn [the_filter the_calls fst snd with_ensemble reset_localisation with_groups
       with_patches set_r_factor set_patches fresh_filter one_buoy self_ensemble
       r_factor groups orb negb andb all_Ls drifter_positions getattr not_none
       N_d N_e N_e_active seq patches_of getitem nth_error bind
       ens_dx ens_dy ens_nx ens_ny scale_w W_loc patches_loop take_rows fold_left
       getNumActiveParticles observation_type ObservationType_eqb method
       self_ghost_cells_y self_ghost_cells_x all_xrolls all_yrolls W_forecasts
       W_analyses inflation_factor n_i n_j].

Lemma one_buoy_prepare :
  exists self,
    _prepare_LEnKF (Some one_buoy) (Some 0.5) (mkWorld fresh_filter [])
      = (Ok tt, mkWorld self []) /\
    self_ensemble self = one_buoy /\ N_e self = 3%nat /\ N_d self = 1%nat /\
    N_e_active self = Some 3%nat /\ method self = "SEnKF"%string /\
    self_ghost_cells_y self = 2%nat /\ self_ghost_cells_x self = 2%nat /\
    groups self = Some [[0%nat]] /\
    all_xrolls self = [0%Z] /\ all_yrolls self = [0%Z] /\
    (exists W, W_loc self = Some W /\ shape0 W = 3%nat /\ shape1 W = 3%nat) /\
    (exists L, all_Ls self = Some [L] /\ mshape0 L = 10%nat /\ mshape1 L = 10%nat /\
               length (true_cells L) = 9%nat) /\
    (exists WF, W_forecasts self = Some [WF] /\ shape0 WF = 10%nat /\ shape1 WF = 10%nat).
Proof.
  rewrite prepare_given.
  replace (check_configuration (the_filter (mkWorld fresh_filter [])) one_buoy)
    with (Ok tt) by reflexivity.
  destruct one_buoy_stencil as (W & HW & Hs0 & Hs1).
  destruct one_buoy_patch as (L & HL & Hm0 & Hm1 & Hcount).
  unfold update_localisation, bindM, get_self, ret, lift, set_self, Req_bool.
  ev.
  destruct (Req_dec_T 0.5 15) as [E|_]; [lra|].
  ev.
  rewrite one_buoy_groups.
  ev.
  unfold initializeLocalPatches.
  destruct (Rgt_dec 0.5 0) as [_|H]; [|lra].
  ev.
  rewrite HW. ev.
  unfold getCombinedWeights. rewrite HW. ev.
  rewrite HL. ev.
  unfold masked_add. rewrite Hm0, Hm1, length_flatten, Hcount.
  cbn [roll0 roll1 shape0 shape1 np.zeros]. rewrite Hs0, Hs1.
  cbn [Nat.eqb Nat.mul Nat.add negb andb bind fst snd].
  ev.
  rewrite HL. ev.
  eexists. split; [reflexivity|].
  cbn [with_patches set_patches self_ensemble N_e N_d N_e_active method
       self_ghost_cells_y self_ghost_cells_x groups all_xrolls all_yrolls W_loc
       all_Ls W_forecasts].
  repeat (split; [reflexivity|]).
  split; [exists W; auto|]. split; [exists L; auto|].
  eexists. split; [reflexivity|]. split; reflexivity.
Qed.

Lemma length_list_set {A} (l : list A) n x : length (list_set l n x) = length l.
Proof.
  revert n. induction l as [|h t IH]; intros n; [reflexivity|].
  destruct n; simpl; [reflexivity|]. rewrite IH. reflexivity.
Qed.

Lemma getitem_lt {A} (l : list A) n : (n < length l)%nat -> exists a, getitem l n = Ok a.
Proof.
  intros H. unfold getitem. destruct (nth_error l n) eqn:E; [eauto|].
  apply nth_error_None in E. lia.
Qed.

Lemma getitem_nth {A} (l : list A) n d : (n < length l)%nat -> getitem l n = Ok (nth n l d).
Proof.
  intros H. unfold getitem. rewrite (nth_error_nth' l d H). reflexivity.
Qed.

Section Upload.
Context {ext : External}.

Lemma padded_slab X_new ny nx gy gx idx i :
  (idx < a4_shape0 X_new)%nat -> (i < a4_shape1 X_new)%nat ->
  a4_shape2 X_new = ny -> a4_shape3 X_new = nx ->
  exists A, (A <- slab X_new idx i ;; embed_interior ny nx gy gx A) = Ok A.
Proof.
  intros Hidx Hi H2 H3. unfold slab.
  apply Nat.ltb_lt in Hidx. apply Nat.ltb_lt in Hi. rewrite Hidx, Hi.
  cbn [andb negb bind]. unfold embed_interior. cbn [shape0 shape1].
  rewrite H2, H3, !fits_same. cbn [andb negb]. eauto.
Qed.

(** The loop of [uploadAnalysis] returns when the analysis has a slab for
    every active particle and the shape of the grid. *)
Lemma upload_particles_returns X_new es :
  forall idx w,
    a4_shape1 X_new = 3%nat ->
    a4_shape2 X_new = ens_ny (self_ensemble (the_filter w)) ->
    a4_shape3 X_new = ens_nx (self_ensemble (the_filter w)) ->
    (forall e, In e es ->
       (e < length (particlesActive (self_ensemble (the_filter w))))%nat /\
       (e < length (particles (self_ensemble (the_filter w))))%nat) ->
    (idx + length (active_of (the_filter w) es) <= a4_shape0 X_new)%nat ->
    exists w', upload_particles X_new es idx w = (Ok tt, w').
Proof.
  induction es as [|e es IH]; intros idx w H1 H2 H3 Hin Hlen.
  - eexists. reflexivity.
  - destruct (Hin e (or_introl eq_refl)) as [Hea Hep].
    cbn [upload_particles]. unfold bindM at 1. cbn [get_self].
    unfold bindM at 1, lift at 1.
    rewrite (getitem_nth _ _ false Hea).
    cbn [active_of filter] in Hlen. fold (active_of (the_filter w) es) in Hlen.
    destruct (nth e (particlesActive (self_ensemble (the_filter w))) false) eqn:Eact.
    + cbn [length] in Hlen.
      destruct (padded_slab X_new (ens_ny (self_ensemble (the_filter w)))
                  (ens_nx (self_ensemble (the_filter w)))
                  (self_ghost_cells_y (the_filter w)) (self_ghost_cells_x (the_filter w))
                  idx 0) as (eta & Heta); [lia | lia | exact H2 | exact H3 |].
      destruct (padded_slab X_new (ens_ny (self_ensemble (the_filter w)))
                  (ens_nx (self_ensemble (the_filter w)))
                  (self_ghost_cells_y (the_filter w)) (self_ghost_cells_x (the_filter w))
                  idx 1) as (hu & Hhu); [lia | lia | exact H2 | exact H3 |].
      destruct (padded_slab X_new (ens_ny (self_ensemble (the_filter w)))
                  (ens_nx (self_ensemble (the_filter w)))
                  (self_ghost_cells_y (the_filter w)) (self_ghost_cells_x (the_filter w))
                  idx 2) as (hv & Hhv); [lia | lia | exact H2 | exact H3 |].
      unfold bindM, lift, emit, set_self, get_self.
      rewrite Heta, Hhu, Hhv.
      rewrite (getitem_nth _ _ particle_10 Hep).
      cbn [the_filter the_calls with_ensemble self_ensemble with_particles particles].
      rewrite (getitem_nth _ _ particle_10) by (rewrite length_list_set; exact Hep).
      cbn [the_filter the_calls with_ensemble self_ensemble with_particles particles
           N_e_active].
      match goal with |- context [upload_particles X_new es (S idx) ?w1] =>
        destruct (IH (S idx) w1) as (w' & Hw')
      end.
      * exact H1.
      * exact H2.
      * exact H3.
      * intros e' He'. cbn [the_filter self_ensemble with_ensemble with_particles
                            particlesActive particles].
        rewrite !length_list_set. apply Hin. right. exact He'.
      * unfold active_of in *.
        cbn [the_filter self_ensemble with_ensemble with_particles particlesActive].
        lia.
      * fold (@bindM unit unit). exists w'. exact Hw'.
    + destruct (IH idx w H1 H2 H3) as (w' & Hw').
      * intros e' He'. apply Hin. right. exact He'.
      * exact Hlen.
      * exists w'. exact Hw'.
Qed.

End Upload.

Lemma fits_eq n a : a = n -> fits n a = true.
Proof. intros ->. apply fits_same. Qed.

Lemma set_slab_returns X idx c A :
  (idx < a4_shape0 X)%nat -> (c < a4_shape1 X)%nat ->
  shape0 A = a4_shape2 X -> shape1 A = a4_shape3 X ->
  exists X', set_slab X idx c A = Ok X' /\
    a4_shape0 X' = a4_shape0 X /\ a4_shape1 X' = a4_shape1 X /\
    a4_shape2 X' = a4_shape2 X /\ a4_shape3 X' = a4_shape3 X.
Proof.
  intros Hi Hc H0 H1. unfold set_slab.
  apply Nat.ltb_lt in Hi. apply Nat.ltb_lt in Hc.
  rewrite Hi, Hc, H0, H1, !fits_same. cbn [andb negb].
  eexists. split; [reflexivity|]. repeat split.
Qed.

Section Download.
Context {ext : External}.

Lemma download_particles_returns es :
  forall idx X w,
    a4_shape1 X = 3%nat ->
    downloads_fit (particles (self_ensemble (the_filter w))) (a4_shape2 X) (a4_shape3 X) ->
    (forall e, In e es ->
       (e < length (particlesActive (self_ensemble (the_filter w))))%nat /\
       (e < length (particles (self_ensemble (the_filter w))))%nat) ->
    (idx + length (active_of (the_filter w) es) <= a4_shape0 X)%nat ->
    exists X',
      download_particles es idx X w =
        (Ok X', mkWorld (the_filter w)
                  (the_calls w ++ map (fun e => CallDownload e true)
                                    (active_of (the_filter w) es))) /\
      a4_shape0 X' = a4_shape0 X /\ a4_shape1 X' = a4_shape1 X /\
      a4_shape2 X' = a4_shape2 X /\ a4_shape3 X' = a4_shape3 X.
Proof.
  induction es as [|e es IH]; intros idx X w H1 Hfit Hin Hlen.
  - exists X. cbn [download_particles ret active_of filter map]. rewrite app_nil_r.
    destruct w. repeat split.
  - destruct (Hin e (or_introl eq_refl)) as [Hea Hep].
    cbn [download_particles]. unfold bindM at 1. cbn [get_self].
    unfold bindM at 1, lift at 1.
    rewrite (getitem_nth _ _ false Hea).
    cbn [active_of filter] in Hlen |- *. fold (active_of (the_filter w) es) in Hlen |- *.
    destruct (nth e (particlesActive (self_ensemble (the_filter w))) false) eqn:Eact.
    + cbn [length] in Hlen.
      unfold bindM at 1, lift at 1.
      rewrite (getitem_nth _ _ particle_10 Hep).
      unfold bindM at 1, emit at 1.
      pose proof (Hfit (nth e (particles (self_ensemble (the_filter w))) particle_10)
                    (nth_In _ _ Hep)) as Hp.
      destruct (download (nth e (particles (self_ensemble (the_filter w))) particle_10) true)
        as [[eta hu] hv].
      destruct Hp as ((He0 & He1) & (Hu0 & Hu1) & (Hv0 & Hv1)).
      destruct (set_slab_returns X idx 0 eta) as (X1 & HX1 & A0 & A1 & A2 & A3);
        [lia | lia | exact He0 | exact He1 |].
      destruct (set_slab_returns X1 idx 1 hu) as (X2 & HX2 & B0 & B1 & B2 & B3);
        [lia | lia | congruence | congruence |].
      destruct (set_slab_returns X2 idx 2 hv) as (X3 & HX3 & C0 & C1 & C2 & C3);
        [lia | lia | congruence | congruence |].
      unfold bindM at 1, lift at 1. rewrite HX1.
      unfold bindM at 1, lift at 1. rewrite HX2.
      unfold bindM at 1, lift at 1. rewrite HX3.
      destruct (IH (S idx) X3
                  (mkWorld (the_filter w) (the_calls w ++ [CallDownload e true])))
        as (X' & HX' & D0 & D1 & D2 & D3).
      * congruence.
      * cbn [the_filter]. replace (a4_shape2 X3) with (a4_shape2 X) by congruence.
        replace (a4_shape3 X3) with (a4_shape3 X) by congruence. exact Hfit.
      * intros e' He'. apply Hin. right. exact He'.
      * cbn [the_filter]. lia.
      * exists X'. rewrite HX'. cbn [the_filter the_calls map].
        rewrite <- app_assoc. split; [reflexivity|]. repeat split; congruence.
    + destruct (IH idx X w H1 Hfit) as (X' & HX' & D).
      * intros e' He'. apply Hin. right. exact He'.
      * exact Hlen.
      * exists X'. split; [exact HX' | exact D].
Qed.

End Download.

Lemma extract_local_mean_returns X_mean L W0 W1 :
  a3_shape0 X_mean = 3%nat ->
  mshape0 L = a3_shape1 X_mean -> mshape1 L = a3_shape2 X_mean ->
  length (true_cells L) = (W0 * W1)%nat ->
  exists v, extract_local_mean X_mean L 0 0 W0 W1 = Ok v.
Proof.
  intros H0 H1 H2 Hc. unfold extract_local_mean.
  rewrite H0, H1, H2, Hc, !Nat.eqb_refl, !fits_same. cbn [andb negb]. eauto.
Qed.

Lemma scatter_local_returns X_a X_loc W L N_a :
  a4_shape0 X_a = N_a -> a4_shape1 X_a = 3%nat ->
  mshape0 L = a4_shape2 X_a -> mshape1 L = a4_shape3 X_a ->
  shape0 X_loc = (3 * (shape0 W * shape1 W))%nat -> shape1 X_loc = N_a ->
  length (true_cells L) = (shape0 W * shape1 W)%nat ->
  exists X',
    scatter_local X_a X_loc W L 0 0 N_a = Ok X' /\
    a4_shape0 X' = a4_shape0 X_a /\ a4_shape1 X' = a4_shape1 X_a /\
    a4_shape2 X' = a4_shape2 X_a /\ a4_shape3 X' = a4_shape3 X_a.
Proof.
  intros H0 H1 H2 H3 Hl0 Hl1 Hc.
  destruct (scatter_variable_zero_roll X_a 0 X_loc W L N_a)
    as (X1 & HX1 & A0 & A1 & A2 & A3 & _);
    [lia | exact H0 | exact H1 | exact H2 | exact H3 | exact Hl0 | exact Hl1 | exact Hc |].
  destruct (scatter_variable_zero_roll X1 1 X_loc W L N_a)
    as (X2 & HX2 & B0 & B1 & B2 & B3 & _);
    [lia | congruence | congruence | congruence | congruence | exact Hl0 | exact Hl1
     | exact Hc |].
  destruct (scatter_variable_zero_roll X2 2 X_loc W L N_a)
    as (X3 & HX3 & C0 & C1 & C2 & C3 & _);
    [lia | congruence | congruence | congruence | congruence | exact Hl0 | exact Hl1
     | exact Hc |].
  exists X3. split.
  - unfold scatter_local. rewrite HX1. cbn [bind]. rewrite HX2. cbn [bind]. exact HX3.
  - repeat split; congruence.
Qed.

Section Observation.
Context {ext : External}.

(** The body of the loop over the observations returns for the stochastic
    update on a patch without wrap when all particles are active. *)
Lemma assimilate_observation_returns self ensemble observations X_f X_f_mean X_f_pert
  HX_f_mean HX_f_pert X_a d Ls L W N_a row ny nx :
  all_Ls self = Some Ls -> nth_error Ls d = Some L ->
  nth_error (all_xrolls self) d = Some 0%Z ->
  nth_error (all_yrolls self) d = Some 0%Z ->
  W_loc self = Some W -> N_e_active self = Some N_a ->
  N_a = N_e self -> (2 <= N_e self)%nat ->
  method self = "SEnKF"%string ->
  compensate_for_eta_flag (self_ensemble self) = false ->
  positive_definite2 (getObservationCov (self_ensemble self)) ->
  mshape0 L = ny -> mshape1 L = nx ->
  length (true_cells L) = (shape0 W * shape1 W)%nat ->
  a4_shape0 X_f = N_a -> a4_shape1 X_f = 3%nat ->
  a4_shape2 X_f = ny -> a4_shape3 X_f = nx ->
  a4_shape0 X_f_pert = N_a -> a4_shape1 X_f_pert = 3%nat ->
  a4_shape2 X_f_pert = ny -> a4_shape3 X_f_pert = nx ->
  a3_shape0 X_f_mean = 3%nat -> a3_shape1 X_f_mean = ny -> a3_shape2 X_f_mean = nx ->
  (d < shape0 HX_f_mean)%nat -> shape1 HX_f_mean = 2%nat ->
  a3_shape0 HX_f_pert = N_a -> (d < a3_shape1 HX_f_pert)%nat ->
  a3_shape2 HX_f_pert = 2%nat ->
  nth_error observations d = Some row -> (4 <= length row)%nat ->
  a4_shape0 X_a = N_a -> a4_shape1 X_a = 3%nat ->
  a4_shape2 X_a = ny -> a4_shape3 X_a = nx ->
  exists X_a',
    assimilate_observation self ensemble observations X_f X_f_mean X_f_pert
      HX_f_mean HX_f_pert X_a d = Ok X_a' /\
    a4_shape0 X_a' = N_a /\ a4_shape1 X_a' = 3%nat /\
    a4_shape2 X_a' = ny /\ a4_shape3 X_a' = nx.
Proof.
  intros HLs HL Hxr Hyr HW HNa HNe HN2 Hmeth Hcomp HR Hm0 Hm1 Hcount
    F0 F1 F2 F3 P0 P1 P2 P3 M0 M1 M2 Hd0 Hh1 Q0 Qd Q2 Hrow Hlen A0 A1 A2 A3.
  unfold assimilate_observation.
  rewrite HLs. cbn [not_none bind]. unfold getitem. rewrite HL, Hxr, Hyr.
  cbn [bind]. rewrite HW, HNa. cbn [getattr bind].
  destruct (extract_local_zero_roll X_f L (shape0 W) (shape1 W) N_a)
    as (X_f_loc & -> & Hl0 & Hl1 & _); [congruence .. |].
  cbn [bind].
  destruct (extract_local_zero_roll X_f_pert L (shape0 W) (shape1 W) N_a)
    as (X_f_loc_pert & -> & Hp0 & Hp1 & _); [congruence .. |].
  cbn [bind].
  destruct (extract_local_mean_returns X_f_mean L (shape0 W) (shape1 W))
    as (X_f_loc_mean & ->); [congruence .. |].
  cbn [bind].
  apply Nat.ltb_lt in Hd0. apply Nat.ltb_lt in Qd. rewrite Hd0, Qd.
  cbn [assert_index bind]. rewrite Hrow. cbn [bind]. rewrite Hcomp. cbn [bind].
  rewrite Hmeth. cbn [String.eqb Ascii.eqb Bool.eqb].
  destruct (SEnKF_loc_consistent self d X_f_loc X_f_loc_pert
              (map (fun k => at2 HX_f_mean d k) (seq 0 (shape1 HX_f_mean)))
              (mkArray2 (a3_shape2 HX_f_pert) (a3_shape0 HX_f_pert)
                 (fun k e => at3 HX_f_pert e d k))
              (firstn 2 (skipn 2 row)) (3 * (shape0 W * shape1 W))%nat N_a)
    as (X_a_loc & -> & Hs0 & Hs1);
    [ exact Hl0 | exact Hl1 | exact Hp0 | exact Hp1
    | rewrite length_map, length_seq; exact Hh1
    | exact Q2 | exact Q0
    | rewrite length_firstn, length_skipn; lia
    | exact HR | exact HNe | exact HN2 |].
  cbn [bind].
  destruct (scatter_local_returns X_a X_a_loc W L N_a)
    as (X' & HX' & B0 & B1 & B2 & B3); [congruence .. |].
  exists X'. split; [exact HX'|]. repeat split; congruence.
Qed.

End Observation.

Lemma blend_returns W X_f X_a N_a ny nx :
  shape0 W = ny -> shape1 W = nx ->
  a4_shape0 X_f = N_a -> a4_shape1 X_f = 3%nat ->
  a4_shape2 X_f = ny -> a4_shape3 X_f = nx ->
  a4_shape0 X_a = N_a -> a4_shape1 X_a = 3%nat ->
  a4_shape2 X_a = ny -> a4_shape3 X_a = nx ->
  exists X_new,
    blend W X_f X_a N_a = Ok X_new /\
    a4_shape0 X_new = N_a /\ a4_shape1 X_new = 3%nat /\
    a4_shape2 X_new = ny /\ a4_shape3 X_new = nx.
Proof.
  intros W0 W1 F0 F1 F2 F3 A0 A1 A2 A3. unfold blend.
  destruct (Nat.eqb_spec N_a 0) as [E|_].
  - eexists. split; [reflexivity|]. cbn [zeros4 a4_shape0 a4_shape1 a4_shape2 a4_shape3].
    repeat split; congruence.
  - rewrite F0, F1, F2, F3, A0, A1, A2, A3, W0, W1, !Nat.leb_refl, !bdim_same.
    cbn [andb negb bind]. rewrite !bdim_same. cbn [bind]. rewrite !fits_same.
    cbn [andb negb]. eexists. split; [reflexivity|]. repeat split.
Qed.

Lemma one_buoy_HX self X_f :
  self_ensemble self = one_buoy -> N_d self = 1%nat -> N_e_active self = Some 3%nat ->
  a4_shape0 X_f = 3%nat -> a4_shape1 X_f = 3%nat ->
  a4_shape2 X_f = 10%nat -> a4_shape3 X_f = 10%nat ->
  exists HX_f_mean HX_f_pert,
    giveHX_f_global self X_f (observeTrueState one_buoy) = Ok (HX_f_mean, HX_f_pert) /\
    shape0 HX_f_mean = 1%nat /\ shape1 HX_f_mean = 2%nat /\
    a3_shape0 HX_f_pert = 3%nat /\ a3_shape1 HX_f_pert = 1%nat /\
    a3_shape2 HX_f_pert = 2%nat.
Proof.
  intros He Hd Ha F0 F1 F2 F3.
  unfold giveHX_f_global, observe_particles_from_X_f.
  rewrite Hd, Ha. cbn [one_buoy observeTrueState length Nat.eqb assert bind seq
                       observed_cells getitem nth_error].
  unfold observed_cell. rewrite He, F1, F2, F3.
  cbn [one_buoy ens_dx ens_dy getitem nth_error bind].
  destruct (Req_dec_T 1 0) as [E|_]; [lra|].
  rewrite (floorZ_eq (5 / 1) 5) by (simpl; lra).
  cbn [np_index Z.leb Z.ltb Z.compare Z.of_nat Pos.of_succ_nat Pos.succ Pos.compare
       Pos.compare_cont andb bind Nat.ltb Nat.leb negb getattr].
  unfold py_div. destruct (Req_dec_T (INR 3) 0) as [E|_]; [simpl in E; lra|].
  cbn [bind]. eexists. eexists. split; [reflexivity|].
  cbn [shape0 shape1 a3_shape0 a3_shape1 a3_shape2]. rewrite F0. repeat split.
Qed.

Lemma bindM_run {A B} (m : Run A) (k : A -> Run B) w a w1 :
  m w = (Ok a, w1) -> bindM m k w = k a w1.
Proof. intros H. unfold bindM. rewrite H. reflexivity. Qed.

Lemma still_water_fits : @downloads_fit still_water (particles one_buoy) 10 10.
Proof.
  intros p Hp. cbn [one_buoy particles In] in Hp.
  destruct Hp as [<-|[<-|[<-|[]]]]; repeat split.
Qed.

Lemma one_buoy_analysis :
  exists self X_new,
    @analysis still_water (Some one_buoy) (Some 0.5) (mkWorld fresh_filter []) =
      (Ok X_new,
       mkWorld self [CallDownload 0 true; CallDownload 1 true; CallDownload 2 true]) /\
    self_ensemble self = one_buoy /\ N_e self = 3%nat /\
    N_e_active self = Some 3%nat /\
    self_ghost_cells_y self = 2%nat /\ self_ghost_cells_x self = 2%nat /\
    a4_shape0 X_new = 3%nat /\ a4_shape1 X_new = 3%nat /\
    a4_shape2 X_new = 10%nat /\ a4_shape3 X_new = 10%nat.
Proof.
  destruct one_buoy_prepare
    as (self & Hprep & Hens & HNe & HNd & HNa & Hmeth & Hgy & Hgx & Hgroups & Hxr & Hyr
        & (W & HW & HW0 & HW1) & (L & HL & Hm0 & Hm1 & Hcount)
        & (WF & HWF & HWF0 & HWF1)).
  unfold analysis.
  rewrite (bindM_run _ _ _ _ _ Hprep).
  unfold bindM at 1. cbn [get_self the_filter].
  unfold bindM at 1, lift at 1. rewrite HNa. cbn [getattr].
  unfold bindM at 1, lift at 1. rewrite HW. cbn [getattr].
  unfold bindM at 1, lift at 1. rewrite Hgroups. cbn [not_none].
  rewrite Hens. cbn [assimilate_groups Nat.eqb].
  (* the download *)
  set (w1 := mkWorld self []).
  destruct (@download_particles_returns still_water (seq 0 3) 0
              (zeros4 3 3 (ens_ny one_buoy) (ens_nx one_buoy)) w1)
    as (X_f & HXf & F0 & F1 & F2 & F3).
  { reflexivity. }
  { unfold w1. cbn [the_filter]. rewrite Hens. exact still_water_fits. }
  { unfold w1. cbn [the_filter]. rewrite Hens. cbn [one_buoy particles particlesActive length].
    intros e He. apply in_seq in He. lia. }
  { unfold w1, active_of. cbn [the_filter]. rewrite Hens. cbn. lia. }
  cbn [zeros4 a4_shape0 a4_shape1 a4_shape2 a4_shape3 one_buoy ens_ny ens_nx] in F0, F1, F2, F3.
  assert (Hgive : @giveX_f_global still_water (zeros4 3 3 (ens_ny one_buoy) (ens_nx one_buoy)) true w1
                  = (Ok (X_f, mean_axis0 X_f, perturbations X_f (mean_axis0 X_f)),
                     mkWorld self
                       [CallDownload 0 true; CallDownload 1 true; CallDownload 2 true])).
  { unfold giveX_f_global. unfold bindM at 1. cbn [get_self]. unfold w1 at 1 2.
    cbn [the_filter]. rewrite HNe. fold w1.
    rewrite (bindM_run _ _ _ _ _ HXf). unfold ret. f_equal.
    unfold w1, active_of. cbn [the_filter the_calls]. rewrite Hens. reflexivity. }
  rewrite (bindM_run _ _ _ _ _ Hgive).
  unfold bindM at 1. cbn [get_self the_filter].
  destruct (one_buoy_HX self X_f Hens HNd HNa F0 F1 F2 F3)
    as (HXm & HXp & HHX & Hm_0 & Hm_1 & Hp_0 & Hp_1 & Hp_2).
  unfold bindM at 1, lift at 1. rewrite HHX. cbn [fst snd].
  cbn [assimilate_observations].
  destruct (@assimilate_observation_returns still_water self (Some one_buoy)
              (observeTrueState one_buoy) X_f (mean_axis0 X_f)
              (perturbations X_f (mean_axis0 X_f)) HXm HXp
              (zeros4 (a4_shape0 X_f) (a4_shape1 X_f) (a4_shape2 X_f) (a4_shape3 X_f))
              0 [L] L W 3 [5; 5; 0; 0] 10 10)
    as (X_a & HXa & A0 & A1 & A2 & A3);
    try assumption; try reflexivity;
    try (rewrite ?Hxr, ?Hyr, ?Hens, ?HW0, ?HW1, ?HNe; reflexivity);
    try (rewrite ?Hens, ?HNe, ?Hm_0, ?Hp_1; cbn; lia).
  { rewrite Hens. exact eye2_positive_definite. }
  unfold bindM at 1, lift at 1. rewrite HXa. cbn [bind].
  unfold bindM at 1, lift at 1. rewrite HNa. cbn [getattr Nat.eqb].
  unfold bindM at 1, lift at 1. rewrite HWF. cbn [getattr bind getitem nth_error].
  destruct (blend_returns WF X_f X_a 3 10 10) as (X_new & HXn & N0 & N1 & N2 & N3);
    try assumption.
  rewrite HXn. cbn [assimilate_groups ret].
  exists self, X_new. split; [reflexivity|]. repeat split; assumption.
Qed.

(** A whole cycle on a fresh filter: three particles, one buoy. *)
Lemma one_buoy_cycle :
  exists w',
    @assimilate still_water (Some one_buoy) (Some 0.5) (mkWorld fresh_filter [])
      = (Ok tt, w').
Proof.
  destruct one_buoy_analysis
    as (self & X_new & Han & Hens & HNe & HNa & Hgy & Hgx & N0 & N1 & N2 & N3).
  unfold assimilate. rewrite (bindM_run _ _ _ _ _ Han).
  unfold uploadAnalysis. unfold bindM at 1. cbn [get_self the_filter]. rewrite HNe.
  apply upload_particles_returns; cbn [the_filter]; rewrite ?Hens.
  - exact N1.
  - exact N2.
  - exact N3.
  - intros e He. apply in_seq in He. cbn. lia.
  - unfold active_of. rewrite Hens. cbn. lia.
Qed.

Lemma uploads_from_length pad X_new idx es ul :
  uploads_from pad X_new idx es ul -> length ul = (2 * length es)%nat.
Proof.
  induction 1 as [|idx e es eta hu hv ul _ _ _ _ IH]; [reflexivity|].
  cbn [length]. rewrite IH. lia.
Qed.

Lemma assimilate_uploads_once_at_the_end_witness :
  init one_buoy 1 1 "SEnKF" = Ok fresh_filter /\
  exists w' ul,
    @assimilate still_water (Some one_buoy) (Some 0.5) (mkWorld fresh_filter [])
      = (Ok tt, w') /\
    the_calls w' =
      [CallDownload 0 true; CallDownload 1 true; CallDownload 2 true] ++ ul /\
    uploaded_particles ul = [0; 1; 2]%nat /\
    boundary_particles ul = [0; 1; 2]%nat /\
    length ul = 6%nat.
Proof.
  split; [exact init_one_buoy|].
  destruct one_buoy_cycle as (w' & Hrun).
  destruct one_buoy_analysis
    as (self & X_new & Han & Hens & HNe & _).
  destruct (@assimilate_uploads_once_at_the_end still_water
              (mkWorld fresh_filter []) (Some one_buoy) (Some 0.5))
    as (_ & _ & Hok).
  destruct (Hok w' Hrun) as (X_new' & w1 & ul & Han' & Hcalls & Hul & Hup & Hbd & _).
  rewrite Han in Han'. injection Han' as <- <-.
  cbn [the_filter the_calls] in Hcalls, Hup, Hbd, Hul.
  assert (Hact : active_of self (seq 0 (N_e self)) = [0; 1; 2]%nat).
  { unfold active_of. rewrite HNe, Hens. reflexivity. }
  rewrite Hact in Hup, Hbd, Hul.
  exists w', ul. split; [exact Hrun|]. split; [exact Hcalls|].
  split; [exact Hup|]. split; [exact Hbd|].
  apply uploads_from_length in Hul. exact Hul.
Defined.

(* ================================================================= *)
(** * The size of a local patch and the weights of a group *)

(** ** Counting the cells of a mask *)

Lemma filter_or_length {A} (f g : A -> bool) l :
  (forall a, In a l -> f a && g a = false) ->
  length (filter (fun a => f a || g a) l) =
  (length (filter f l) + length (filter g l))%nat.
Proof.
  induction l as [|a l IH]; intros Hd; [reflexivity|].
  cbn [filter]. pose proof (Hd a (or_introl eq_refl)) as Ha.
  rewrite <- plus_n_Sm || idtac.
  destruct (f a), (g a); try discriminate; cbn [orb length];
    rewrite IH by (intros b Hb; apply Hd; right; exact Hb); lia.
Qed.

Lemma count_range n lo hi :
  length (filter (fun i => Nat.leb lo i && Nat.ltb i hi) (seq 0 n)) =
  (Nat.min hi n - Nat.min lo n)%nat.
Proof.
  induction n as [|n IH]; [simpl; lia|].
  rewrite seq_S, filter_app, length_app, IH. cbn [filter Nat.add].
  destruct (Nat.leb_spec lo n), (Nat.ltb_spec n hi); cbn [andb length]; lia.
Qed.

Lemma filter_cells_length (f g : nat -> bool) n m :
  length (filter (fun c => f (fst c) && g (snd c)) (cells n m)) =
  (length (filter f (seq 0 n)) * length (filter g (seq 0 m)))%nat.
Proof.
  unfold cells. generalize (seq 0 n) as ys.
  induction ys as [|y ys IH]; [reflexivity|].
  cbn [flat_map filter]. rewrite filter_app, length_app, IH.
  assert (E : length (filter (fun c : nat * nat => f (fst c) && g (snd c))
                        (map (fun x => (y, x)) (seq 0 m)))
              = if f y then length (filter g (seq 0 m)) else 0%nat).
  { generalize (seq 0 m) as xs. induction xs as [|x xs IHx].
    - destruct (f y); reflexivity.
    - cbn [map filter fst snd]. destruct (f y) eqn:Ef; cbn [andb].
      + destruct (g x); cbn [length]; rewrite IHx; reflexivity.
      + exact IHx. }
  rewrite E. destruct (f y); cbn [length]; lia.
Qed.

Lemma existsb_and_r {B} (Q : B -> bool) (b : bool) ys :
  existsb (fun y => Q y && b) ys = existsb Q ys && b.
Proof.
  induction ys as [|y ys IHy]; [reflexivity|]. cbn [existsb]. rewrite IHy.
  destruct (Q y), b, (existsb Q ys); reflexivity.
Qed.

Lemma existsb_split {A B} (P : A -> bool) (Q : B -> bool) xs ys :
  existsb (fun x => existsb (fun y => Q y && P x) ys) xs =
  existsb Q ys && existsb P xs.
Proof.
  induction xs as [|x xs IH]; cbn [existsb].
  - rewrite andb_false_r. reflexivity.
  - rewrite IH, existsb_and_r.
    destruct (existsb Q ys), (P x), (existsb P xs); reflexivity.
Qed.

Lemma slice_bound_in n s : (0 <= s <= Z.of_nat n)%Z -> slice_bound n s = Z.to_nat s.
Proof.
  intros H. unfold slice_bound.
  destruct (Z.ltb_spec s 0); [lia|]. destruct (Z.ltb_spec s 0); [lia|].
  destruct (Z.ltb_spec (Z.of_nat n) s); [lia|]. reflexivity.
Qed.

(** On an axis of [n] cells a box of [w <= n] cells that starts at most
    [w] cells before the axis and ends at most [w] cells after it covers
    [w] cells, wrapped around. *)
Lemma axis_count n lo w :
  (0 <= w <= Z.of_nat n)%Z -> (- w <= lo <= Z.of_nat n)%Z ->
  length (filter (fun i => existsb (fun r => in_slice n r i)
                             (fst (axis_ranges n lo (lo + w))))
            (seq 0 n)) = Z.to_nat w.
Proof.
  intros Hw Hlo. unfold axis_ranges.
  destruct (Z.ltb_spec lo 0) as [Hneg|Hpos].
  - cbn [fst existsb].
    rewrite (filter_ext _ (fun i => in_slice n (Z.of_nat n + lo, Z.of_nat n)%Z i
                                  || in_slice n (0, lo + w)%Z i))
      by (intros i; rewrite orb_false_r; reflexivity).
    unfold in_slice. cbn [fst snd].
    rewrite !slice_bound_in by lia.
    rewrite filter_or_length.
    + rewrite !count_range. lia.
    + intros i _.
      destruct (Nat.leb_spec (Z.to_nat (Z.of_nat n + lo)) i),
               (Nat.ltb_spec i (Z.to_nat (Z.of_nat n))),
               (Nat.leb_spec (Z.to_nat 0) i),
               (Nat.ltb_spec i (Z.to_nat (lo + w))); cbn [andb]; try reflexivity; lia.
  - destruct (Z.ltb_spec (Z.of_nat n) (lo + w)) as [Hover|Hin].
    + cbn [fst existsb].
      rewrite (filter_ext _ (fun i => in_slice n (0, lo + w - Z.of_nat n)%Z i
                                    || in_slice n (lo, Z.of_nat n)%Z i))
        by (intros i; rewrite orb_false_r; reflexivity).
      unfold in_slice. cbn [fst snd].
      rewrite !slice_bound_in by lia.
      rewrite filter_or_length.
      * rewrite !count_range. lia.
      * intros i _.
        destruct (Nat.leb_spec (Z.to_nat 0) i),
                 (Nat.ltb_spec i (Z.to_nat (lo + w - Z.of_nat n))),
                 (Nat.leb_spec (Z.to_nat lo) i),
                 (Nat.ltb_spec i (Z.to_nat (Z.of_nat n))); cbn [andb]; try reflexivity; lia.
    + cbn [fst existsb].
      rewrite (filter_ext _ (fun i => Nat.leb (slice_bound n lo) i
                                    && Nat.ltb i (slice_bound n (lo + w))))
        by (intros i; rewrite orb_false_r; reflexivity).
      rewrite !slice_bound_in by lia. rewrite count_range. lia.
Qed.

Lemma roundZ_IZR z : roundZ (IZR z) = z.
Proof. apply roundZ_eq. lra. Qed.

(** [getLocalIndices] on square cells, axis by axis. *)
Lemma getLocalIndices_axes obs scale_r dx nx ny :
  dx <> 0 ->
  let c := ceilZ (scale_r * 1.5) in
  let kx := roundZ (fst obs / dx) in
  let ky := roundZ (snd obs / dx) in
  exists L,
    getLocalIndices obs scale_r dx dx nx ny =
      Ok (L, snd (axis_ranges nx (kx - c) (kx + (c + 1))),
             snd (axis_ranges ny (ky - c) (ky + (c + 1)))) /\
    mshape0 L = ny /\ mshape1 L = nx /\
    forall y x,
      mask_at L y x =
      existsb (fun r => in_slice ny r y) (fst (axis_ranges ny (ky - c) (ky + (c + 1))))
      && existsb (fun r => in_slice nx r x) (fst (axis_ranges nx (kx - c) (kx + (c + 1)))).
Proof.
  intros Hdx c kx ky. unfold getLocalIndices.
  destruct (Req_dec_T dx 0) as [E|_]; [contradiction|].
  fold c.
  replace (dx * IZR c / dx) with (IZR c) by (field; exact Hdx).
  replace ((dx * IZR c + dx) / dx) with (IZR (c + 1)) by (rewrite plus_IZR; field; exact Hdx).
  rewrite !roundZ_IZR. fold kx ky.
  unfold axis_ranges.
  destruct (kx - c <? 0)%Z, (Z.of_nat nx <? kx + (c + 1))%Z,
           (ky - c <? 0)%Z, (Z.of_nat ny <? ky + (c + 1))%Z;
    (eexists; split; [reflexivity|]; split; [reflexivity|]; split; [reflexivity|];
     intros y x; cbn [mask_at fst snd]; apply existsb_split).
Qed.

Lemma true_cells_count L (f g : nat -> bool) :
  (forall y x, mask_at L y x = f y && g x) ->
  length (true_cells L) =
  (length (filter f (seq 0 (mshape0 L))) * length (filter g (seq 0 (mshape1 L))))%nat.
Proof.
  intros H. unfold true_cells.
  rewrite (filter_ext _ (fun c => f (fst c) && g (snd c))) by (intros [y x]; apply H).
  apply filter_cells_length.
Qed.

(** The number of cells of a patch whose box fits the domain. *)
Lemma getLocalIndices_count obs scale_r dx nx ny :
  dx <> 0 ->
  let c := ceilZ (scale_r * 1.5) in
  let kx := roundZ (fst obs / dx) in
  let ky := roundZ (snd obs / dx) in
  (0 <= c)%Z -> (2 * c + 1 <= Z.of_nat nx)%Z -> (2 * c + 1 <= Z.of_nat ny)%Z ->
  (0 <= kx <= Z.of_nat nx)%Z -> (0 <= ky <= Z.of_nat ny)%Z ->
  exists L xroll yroll,
    getLocalIndices obs scale_r dx dx nx ny = Ok (L, xroll, yroll) /\
    mshape0 L = ny /\ mshape1 L = nx /\
    length (true_cells L) = (Z.to_nat (2 * c + 1) * Z.to_nat (2 * c + 1))%nat.
Proof.
  intros Hdx c kx ky Hc Hnx Hny Hkx Hky.
  destruct (getLocalIndices_axes obs scale_r dx nx ny Hdx) as (L & HL & H0 & H1 & Hm).
  fold c kx ky in HL, Hm.
  exists L. eexists. eexists. split; [exact HL|]. split; [exact H0|]. split; [exact H1|].
  rewrite (true_cells_count L _ _ Hm). rewrite H0, H1.
  replace (ky + (c + 1))%Z with (ky - c + (2 * c + 1))%Z by lia.
  replace (kx + (c + 1))%Z with (kx - c + (2 * c + 1))%Z by lia.
  rewrite !axis_count by lia. reflexivity.
Qed.

Lemma getLocalWeightShape_shape scale_r dx dy nx ny w :
  (0 <= ceilZ (scale_r * 1.5))%Z ->
  exists W,
    getLocalWeightShape scale_r dx dy nx ny w = Ok W /\
    shape0 W = Z.to_nat (2 * ceilZ (scale_r * 1.5) + 1) /\
    shape1 W = Z.to_nat (2 * ceilZ (scale_r * 1.5) + 1).
Proof.
  intros Hc. unfold getLocalWeightShape.
  destruct (Z.ltb_spec (ceilZ (scale_r * 1.5) * 2 + 1) 0) as [H|_]; [lia|].
  eexists. split; [reflexivity|]. cbn [np.scale shape0 shape1].
  replace (ceilZ (scale_r * 1.5) * 2 + 1)%Z with (2 * ceilZ (scale_r * 1.5) + 1)%Z by lia.
  split; reflexivity.
Qed.

Lemma in_slice_inside n lo hi i :
  (0 <= lo)%Z -> (lo <= hi <= Z.of_nat n)%Z ->
  in_slice n (lo, hi) i = true <-> (lo <= Z.of_nat i < hi)%Z.
Proof.
  intros Hlo Hhi. unfold in_slice. cbn [fst snd].
  rewrite !slice_bound_in by lia.
  rewrite andb_true_iff, Nat.leb_le, Nat.ltb_lt. lia.
Qed.

(** X1. On square cells ([dy = dx], not 0), for a radius with
    [c = ceil(1.5 scale_r)] at least 0, on a grid that is at least
    [2c + 1] cells wide and high (the box fits the grid), and for an
    observation whose cell lies in the domain (its rounded cell indices
    are between 0 and [nx], 0 and [ny]), the patch of [getLocalIndices]
    is a box of [2c + 1] by [2c + 1] cells, wrapped around the domain
    where it sticks out: the mask has the shape of the grid and as many
    cells as the stencil of [getLocalWeightShape]; a roll is the overhang
    of the box on the low side (negative) or on the high side (positive),
    and is 0 when the box is inside; and a box that is inside on both
    axes is the set of cells around the cell of the observation. *)
Theorem getLocalIndices_patch
  (obs : R * R) (scale_r dx scale_w : R) (nx ny : nat)
  (Hdx : dx <> 0)
  (Hc : (0 <= ceilZ (scale_r * 1.5))%Z)
  (Hnx : (2 * ceilZ (scale_r * 1.5) + 1 <= Z.of_nat nx)%Z)
  (Hny : (2 * ceilZ (scale_r * 1.5) + 1 <= Z.of_nat ny)%Z)
  (Hkx : (0 <= roundZ (fst obs / dx) <= Z.of_nat nx)%Z)
  (Hky : (0 <= roundZ (snd obs / dx) <= Z.of_nat ny)%Z) :
  let c := ceilZ (scale_r * 1.5) in
  let kx := roundZ (fst obs / dx) in
  let ky := roundZ (snd obs / dx) in
  exists L xroll yroll W,
    getLocalIndices obs scale_r dx dx nx ny = Ok (L, xroll, yroll) /\
    getLocalWeightShape scale_r dx dx nx ny scale_w = Ok W /\
    mshape0 L = ny /\ mshape1 L = nx /\
    length (true_cells L) = (shape0 W * shape1 W)%nat /\
    shape0 W = Z.to_nat (2 * c + 1) /\ shape1 W = Z.to_nat (2 * c + 1) /\
    xroll = (if (kx - c <? 0)%Z then kx - c
             else if (Z.of_nat nx <? kx + c + 1)%Z then kx + c + 1 - Z.of_nat nx
             else 0)%Z /\
    yroll = (if (ky - c <? 0)%Z then ky - c
             else if (Z.of_nat ny <? ky + c + 1)%Z then ky + c + 1 - Z.of_nat ny
             else 0)%Z /\
    (xroll = 0%Z -> yroll = 0%Z ->
     forall y x,
       mask_at L y x = true <->
       (ky - c <= Z.of_nat y <= ky + c)%Z /\ (kx - c <= Z.of_nat x <= kx + c)%Z).
Proof.
  intros c kx ky.
  destruct (getLocalIndices_axes obs scale_r dx nx ny Hdx) as (L & HL & H0 & H1 & Hm).
  destruct (getLocalWeightShape_shape scale_r dx dx nx ny scale_w Hc) as (W & HW & HW0 & HW1).
  fold c kx ky in HL, Hm, HW0, HW1, Hc, Hnx, Hny, Hkx, Hky.
  exists L. eexists. eexists. exists W.
  split; [exact HL|]. split; [exact HW|]. split; [exact H0|]. split; [exact H1|].
  split.
  { rewrite (true_cells_count L _ _ Hm), H0, H1, HW0, HW1.
    replace (ky + (c + 1))%Z with (ky - c + (2 * c + 1))%Z by lia.
    replace (kx + (c + 1))%Z with (kx - c + (2 * c + 1))%Z by lia.
    rewrite !axis_count by lia. reflexivity. }
  split; [exact HW0|]. split; [exact HW1|].
  unfold axis_ranges in *.
  replace (kx + (c + 1))%Z with (kx + c + 1)%Z in * by lia.
  replace (ky + (c + 1))%Z with (ky + c + 1)%Z in * by lia.
  destruct (Z.ltb_spec (kx - c) 0) as [Hxl|Hxl];
    [|destruct (Z.ltb_spec (Z.of_nat nx) (kx + c + 1)) as [Hxr|Hxr]];
    (destruct (Z.ltb_spec (ky - c) 0) as [Hyl|Hyl];
     [|destruct (Z.ltb_spec (Z.of_nat ny) (ky + c + 1)) as [Hyr|Hyr]]);
    cbn [fst snd] in *;
    (split; [reflexivity|]); (split; [reflexivity|]);
    intros Ex Ey; try lia.
  intros y x. rewrite Hm. cbn [existsb]. rewrite !orb_false_r, andb_true_iff.
  rewrite !in_slice_inside by lia. lia.
Qed.

Lemma getLocalIndices_patch_witness :
  exists L W,
    getLocalIndices (5, 5) 0.5 1 1 10 10 = Ok (L, 0%Z, 0%Z) /\
    getLocalWeightShape 0.5 1 1 10 10 1 = Ok W /\
    length (true_cells L) = (shape0 W * shape1 W)%nat /\
    shape0 W = 3%nat /\
    forall y x, mask_at L y x = true <-> (4 <= y <= 6)%nat /\ (4 <= x <= 6)%nat.
Proof.
  assert (Ec : ceilZ (0.5 * 1.5) = 1%Z) by (apply ceilZ_eq; simpl; lra).
  assert (Ek : roundZ (5 / 1) = 5%Z) by (apply roundZ_eq; simpl; lra).
  assert (H1 : (1 : R) <> 0) by lra.
  destruct (getLocalIndices_patch (5, 5) 0.5 1 1 10 10 H1)
    as (L & xroll & yroll & W & HL & HW & _ & _ & Hcount & Hs0 & _ & Hx & Hy & Hbox);
    cbn [fst snd]; rewrite ?Ec, ?Ek; try lia.
  cbn [fst snd] in Hx, Hy, Hbox. rewrite Ec in Hs0. rewrite Ec, Ek in Hx, Hy, Hbox.
  cbn in Hx, Hy. subst xroll yroll.
  exists L, W. split; [exact HL|]. split; [exact HW|]. split; [exact Hcount|].
  split; [exact Hs0|].
  intros y x. rewrite (Hbox eq_refl eq_refl). lia.
Defined.

Lemma masked_add_returns A L v :
  mshape0 L = shape0 A -> mshape1 L = shape1 A ->
  length v = length (true_cells L) ->
  exists A',
    masked_add A L v = Ok A' /\
    shape0 A' = shape0 A /\ shape1 A' = shape1 A /\
    forall y x, mask_at L y x = false -> at2 A' y x = at2 A y x.
Proof.
  intros H0 H1 Hl. unfold masked_add.
  rewrite H0, H1, Hl, !Nat.eqb_refl. cbn [andb negb].
  eexists. split; [reflexivity|]. split; [reflexivity|]. split; [reflexivity|].
  intros y x Hm. cbn [at2]. rewrite Hm. reflexivity.
Qed.

(** The loop of [getCombinedWeights] over the observations. *)
Lemma combine_fold_returns W_loc scale_r dx nx ny :
  dx <> 0 ->
  (0 <= ceilZ (scale_r * 1.5))%Z ->
  (2 * ceilZ (scale_r * 1.5) + 1 <= Z.of_nat nx)%Z ->
  (2 * ceilZ (scale_r * 1.5) + 1 <= Z.of_nat ny)%Z ->
  shape0 W_loc = Z.to_nat (2 * ceilZ (scale_r * 1.5) + 1) ->
  shape1 W_loc = Z.to_nat (2 * ceilZ (scale_r * 1.5) + 1) ->
  forall obs A,
    Forall (cell_in_domain dx nx ny) obs ->
    shape0 A = ny -> shape1 A = nx ->
    exists W,
      fold_left
        (fun acc obs =>
           W_scale <- acc ;;
           Lr <- getLocalIndices obs scale_r dx dx nx ny ;;
           let '(L, xroll, yroll) := Lr in
           let W_loc_d := roll1 (roll0 W_loc yroll) xroll in
           masked_add W_scale L (flatten W_loc_d))
        obs (Ok A) = Ok W /\
      shape0 W = ny /\ shape1 W = nx.
Proof.
  intros Hdx Hc Hnx Hny HW0 HW1 obs.
  induction obs as [|o obs IH]; intros A Hall HA0 HA1.
  - exists A. cbn [fold_left]. auto.
  - apply Forall_cons_iff in Hall. destruct Hall as [[Hkx Hky] Hrest].
    destruct (getLocalIndices_count o scale_r dx nx ny Hdx Hc Hnx Hny Hkx Hky)
      as (L & xroll & yroll & HL & Hm0 & Hm1 & Hcount).
    cbn [fold_left bind]. rewrite HL. cbn [bind].
    destruct (masked_add_returns A L (flatten (roll1 (roll0 W_loc yroll) xroll)))
      as (A' & HA' & HA'0 & HA'1 & _).
    + congruence.
    + congruence.
    + rewrite length_flatten. cbn [roll0 roll1 shape0 shape1].
      rewrite HW0, HW1, Hcount. reflexivity.
    + rewrite HA'. apply IH; [exact Hrest | congruence | congruence].
Qed.

Lemma getCombinedWeights_returns obs scale_r dx nx ny Warg w :
  dx <> 0 ->
  (0 <= ceilZ (scale_r * 1.5))%Z ->
  (2 * ceilZ (scale_r * 1.5) + 1 <= Z.of_nat nx)%Z ->
  (2 * ceilZ (scale_r * 1.5) + 1 <= Z.of_nat ny)%Z ->
  Forall (cell_in_domain dx nx ny) obs ->
  exists W,
    getCombinedWeights obs scale_r dx dx nx ny Warg w = Ok W /\
    shape0 W = ny /\ shape1 W = nx.
Proof.
  intros Hdx Hc Hnx Hny Hall. unfold getCombinedWeights.
  destruct (getLocalWeightShape_shape scale_r dx dx nx ny w Hc) as (W & -> & HW0 & HW1).
  cbn [bind].
  apply combine_fold_returns; try assumption; reflexivity.
Qed.

Lemma take_rows_returns {A} (l : list A) idx (P : A -> Prop) :
  (forall d, In d idx -> exists a, nth_error l d = Some a /\ P a) ->
  exists r, take_rows l idx = Ok r /\ Forall P r.
Proof.
  induction idx as [|d idx IH]; intros H.
  - exists []. split; [reflexivity | constructor].
  - destruct (H d (or_introl eq_refl)) as (a & Ha & HPa).
    destruct IH as (r & Hr & HPr); [intros d' Hd'; apply H; right; exact Hd'|].
    exists (a :: r). cbn [take_rows]. unfold getitem. rewrite Ha. cbn [bind].
    rewrite Hr. cbn [bind]. split; [reflexivity | constructor; assumption].
Qed.

Lemma patches_loop_returns self positions gs :
  let e := self_ensemble self in
  ens_dx e <> 0 -> ens_dy e = ens_dx e ->
  (0 <= ceilZ (r_factor self * 1.5))%Z ->
  (2 * ceilZ (r_factor self * 1.5) + 1 <= Z.of_nat (ens_nx e))%Z ->
  (2 * ceilZ (r_factor self * 1.5) + 1 <= Z.of_nat (ens_ny e))%Z ->
  (forall G d, In G gs -> In d G ->
     exists obs, nth_error positions d = Some obs /\
                 cell_in_domain (ens_dx e) (ens_nx e) (ens_ny e) obs) ->
  exists WA WF,
    patches_loop self positions gs = Ok (WA, WF) /\
    length WA = length gs /\ length WF = length gs /\
    Forall (has_shape (ens_ny e) (ens_nx e)) WA /\
    Forall (has_shape (ens_ny e) (ens_nx e)) WF.
Proof.
  intros e Hdx Hdy Hc Hnx Hny. induction gs as [|G gs IH]; intros Hpos.
  - exists [], []. repeat split; constructor.
  - destruct (take_rows_returns positions G
                (cell_in_domain (ens_dx e) (ens_nx e) (ens_ny e)))
      as (obs & Hobs & Hall).
    { intros d Hd. apply (Hpos G d); [left; reflexivity | exact Hd]. }
    destruct (getCombinedWeights_returns obs (r_factor self) (ens_dx e) (ens_nx e)
                (ens_ny e) (W_loc self) (scale_w self) Hdx Hc Hnx Hny Hall)
      as (Wc & HWc & HWc0 & HWc1).
    destruct IH as (WA & WF & Hloop & HlA & HlF & HsA & HsF).
    { intros G' d HG' Hd. apply (Hpos G' d); [right; exact HG' | exact Hd]. }
    cbn [patches_loop]. fold e. rewrite Hobs. cbn [bind]. rewrite Hdy, HWc. cbn [bind].
    rewrite Hloop. cbn [bind fst snd].
    eexists. eexists. split; [reflexivity|]. cbn [length].
    split; [congruence|]. split; [congruence|].
    split; constructor; try assumption; split; assumption.
Qed.

(** When [initializeLocalPatches] returns, and what it then stores. *)
Lemma initializeLocalPatches_total
  (self : LEnKF) (r : R) (gs : list (list nat)) (positions : list (R * R))
  (Hdx : ens_dx (self_ensemble self) <> 0)
  (Hdy : ens_dy (self_ensemble self) = ens_dx (self_ensemble self))
  (Hc : (0 <= ceilZ ((if Rgt_dec r 0 then r else r_factor self) * 1.5))%Z)
  (Hnx : (2 * ceilZ ((if Rgt_dec r 0 then r else r_factor self) * 1.5) + 1
          <= Z.of_nat (ens_nx (self_ensemble self)))%Z)
  (Hny : (2 * ceilZ ((if Rgt_dec r 0 then r else r_factor self) * 1.5) + 1
          <= Z.of_nat (ens_ny (self_ensemble self)))%Z)
  (Hgroups : groups self = Some gs)
  (Hpositions : drifter_positions self = Some positions)
  (Hcells : forall G d, In G gs -> In d G ->
     exists obs, nth_error positions d = Some obs /\
       cell_in_domain (ens_dx (self_ensemble self)) (ens_nx (self_ensemble self))
         (ens_ny (self_ensemble self)) obs) :
  exists self' W WA WF,
    initializeLocalPatches self r = Ok self' /\
    r_factor self' = (if Rgt_dec r 0 then r else r_factor self) /\
    W_loc self' = Some W /\
    shape0 W = Z.to_nat (2 * ceilZ (r_factor self' * 1.5) + 1) /\
    shape1 W = Z.to_nat (2 * ceilZ (r_factor self' * 1.5) + 1) /\
    W_analyses self' = Some WA /\ W_forecasts self' = Some WF /\
    length WA = length gs /\ length WF = length gs /\
    Forall (has_shape (ens_ny (self_ensemble self)) (ens_nx (self_ensemble self))) WA /\
    Forall (has_shape (ens_ny (self_ensemble self)) (ens_nx (self_ensemble self))) WF /\
    self_ensemble self' = self_ensemble self /\ groups self' = Some gs.
Proof.
  unfold initializeLocalPatches.
  set (self1 := if Rgt_dec r 0 then set_r_factor self r else self).
  assert (Hr1 : r_factor self1 = if Rgt_dec r 0 then r else r_factor self)
    by (unfold self1; destruct (Rgt_dec r 0); reflexivity).
  assert (He1 : self_ensemble self1 = self_ensemble self)
    by (unfold self1; destruct (Rgt_dec r 0); reflexivity).
  assert (Hg1 : groups self1 = Some gs)
    by (unfold self1; destruct (Rgt_dec r 0); exact Hgroups).
  assert (Hp1 : drifter_positions self1 = Some positions)
    by (unfold self1; destruct (Rgt_dec r 0); exact Hpositions).
  rewrite <- Hr1 in Hc, Hnx, Hny.
  destruct (getLocalWeightShape_shape (r_factor self1) (ens_dx (self_ensemble self))
              (ens_dy (self_ensemble self)) (ens_nx (self_ensemble self))
              (ens_ny (self_ensemble self)) (scale_w self1) Hc)
    as (W & HW & HW0 & HW1).
  rewrite HW. cbn [bind set_patches groups drifter_positions].
  rewrite Hg1, Hp1. cbn [not_none getattr bind].
  destruct (patches_loop_returns (set_patches self1 W [] []) positions gs)
    as (WA & WF & Hloop & HlA & HlF & HsA & HsF);
    cbn [set_patches self_ensemble r_factor]; rewrite ?He1; try assumption.
  rewrite Hloop. cbn [bind fst snd].
  eexists. exists W, WA, WF. split; [reflexivity|].
  cbn [set_patches r_factor W_loc W_analyses W_forecasts self_ensemble groups].
  cbn [set_patches self_ensemble] in HsA, HsF. rewrite ?He1 in HsA, HsF.
  repeat split; try assumption.
Qed.

(** X2. [initializeLocalPatches] returns on square cells when the stencil
    fits the grid, the groups and positions are set and every grouped
    observation has its cell in the domain: a radius [r > 0] replaces the
    stored one and any other [r] keeps it; the stencil is stored, and
    for every group one analysis and one forecast weight field of the
    shape of the grid; the ensemble and the groups stay as they are. *)
Theorem initializeLocalPatches_returns
  (self : LEnKF) (r : R) (gs : list (list nat)) (positions : list (R * R))
  (Hdx : ens_dx (self_ensemble self) <> 0)
  (Hdy : ens_dy (self_ensemble self) = ens_dx (self_ensemble self))
  (Hc : (0 <= ceilZ ((if Rgt_dec r 0 then r else r_factor self) * 1.5))%Z)
  (Hnx : (2 * ceilZ ((if Rgt_dec r 0 then r else r_factor self) * 1.5) + 1
          <= Z.of_nat (ens_nx (self_ensemble self)))%Z)
  (Hny : (2 * ceilZ ((if Rgt_dec r 0 then r else r_factor self) * 1.5) + 1
          <= Z.of_nat (ens_ny (self_ensemble self)))%Z)
  (Hgroups : groups self = Some gs)
  (Hpositions : drifter_positions self = Some positions)
  (Hcells : forall G d, In G gs -> In d G ->
     exists obs, nth_error positions d = Some obs /\
       cell_in_domain (ens_dx (self_ensemble self)) (ens_nx (self_ensemble self))
         (ens_ny (self_ensemble self)) obs) :
  exists self' W WA WF,
    initializeLocalPatches self r = Ok self' /\
    r_factor self' = (if Rgt_dec r 0 then r else r_factor self) /\
    W_loc self' = Some W /\
    shape0 W = Z.to_nat (2 * ceilZ (r_factor self' * 1.5) + 1) /\
    shape1 W = Z.to_nat (2 * ceilZ (r_factor self' * 1.5) + 1) /\
    W_analyses self' = Some WA /\ W_forecasts self' = Some WF /\
    length WA = length gs /\ length WF = length gs /\
    Forall (has_shape (ens_ny (self_ensemble self)) (ens_nx (self_ensemble self))) WA /\
    Forall (has_shape (ens_ny (self_ensemble self)) (ens_nx (self_ensemble self))) WF /\
    self_ensemble self' = self_ensemble self /\ groups self' = Some gs.
Proof.
  destruct (initializeLocalPatches_total self r gs positions Hdx Hdy Hc Hnx Hny
              Hgroups Hpositions Hcells)
    as (self' & W & WA & WF & Hret & Hfields).
  exists self', W, WA, WF. split; [exact Hret | exact Hfields].
Qed.

Lemma one_buoy_cells :
  forall G d, In G [[0%nat]] -> In d G ->
    exists obs, nth_error [(5, 5)] d = Some obs /\ cell_in_domain 1 10 10 obs.
Proof.
  intros G d [<-|[]] [<-|[]]. exists (5, 5). split; [reflexivity|].
  unfold cell_in_domain. cbn [fst snd].
  rewrite (roundZ_eq (5 / 1) 5) by (simpl; lra). lia.
Qed.

Lemma initializeLocalPatches_returns_witness :
  exists self' W WA WF,
    initializeLocalPatches one_buoy_filter 0.5 = Ok self' /\
    W_loc self' = Some W /\ shape0 W = 3%nat /\ shape1 W = 3%nat /\
    W_analyses self' = Some WA /\ W_forecasts self' = Some WF /\
    length WA = 1%nat /\ length WF = 1%nat /\
    groups self' = Some [[0%nat]].
Proof.
  assert (Ec : ceilZ (0.5 * 1.5) = 1%Z) by (apply ceilZ_eq; simpl; lra).
  assert (H1 : (1 : R) <> 0) by lra.
  destruct (initializeLocalPatches_returns one_buoy_filter 0.5 [[0%nat]] [(5, 5)])
    as (self' & W & WA & WF & Hret & Hr & HW & HW0 & HW1 & HWA & HWF & HlA & HlF & _ & _
        & _ & Hg);
    cbn [one_buoy_filter self_ensemble one_buoy ens_dx ens_dy ens_nx ens_ny groups
         drifter_positions r_factor];
    try (destruct (Rgt_dec 0.5 0) as [_|Hn]; [|lra]; rewrite Ec; lia);
    try reflexivity; try exact H1; try exact one_buoy_cells.
  destruct (Rgt_dec 0.5 0) as [_|Hn]; [|lra].
  rewrite Hr, Ec in HW0, HW1.
  exists self', W, WA, WF. repeat split; assumption.
Defined.

(* ================================================================= *)
(** * What the analysis leaves outside the patches *)

Lemma same_shape4_trans X Y Z : same_shape4 X Y -> same_shape4 Y Z -> same_shape4 X Z.
Proof. unfold same_shape4. intuition congruence. Qed.

(** The scatter of one variable touches the cells of the patch only. *)
Lemma scatter_variable_frame X_a i X_loc W L xroll yroll N_a X' :
  scatter_variable X_a i X_loc W L xroll yroll N_a = Ok X' ->
  same_shape4 X' X_a /\
  forall e c y x, mask_at L y x = false -> at4 X' e c y x = at4 X_a e c y x.
Proof.
  unfold scatter_variable. intros H.
  apply bind_Ok in H. destruct H as (w1 & _ & H).
  apply bind_Ok in H. destruct H as (w2 & _ & H).
  apply bind_Ok in H. destruct H as (w3 & _ & H).
  destruct (negb (i <? a4_shape1 X_a)%nat); [discriminate|].
  destruct (negb _); [discriminate|].
  destruct (negb _); [discriminate|].
  injection H as <-. split; [repeat split|].
  intros e c y x Hm. cbn [at4]. rewrite Hm, andb_false_r. reflexivity.
Qed.

Lemma scatter_local_frame X_a X_loc W L xroll yroll N_a X' :
  scatter_local X_a X_loc W L xroll yroll N_a = Ok X' ->
  same_shape4 X' X_a /\
  forall e c y x, mask_at L y x = false -> at4 X' e c y x = at4 X_a e c y x.
Proof.
  unfold scatter_local. intros H.
  apply bind_Ok in H. destruct H as (X1 & H1 & H).
  apply bind_Ok in H. destruct H as (X2 & H2 & H3).
  apply scatter_variable_frame in H1, H2, H3.
  destruct H1 as [S1 F1], H2 as [S2 F2], H3 as [S3 F3]. split.
  - eapply same_shape4_trans; [exact S3|]. eapply same_shape4_trans; eassumption.
  - intros e c y x Hm. rewrite F3, F2, F1 by exact Hm. reflexivity.
Qed.

Section Outside.
Context {ext : External}.

Lemma assimilate_observation_frame self ensemble observations X_f X_f_mean X_f_pert
  HX_f_mean HX_f_pert X_a d X_a' :
  assimilate_observation self ensemble observations X_f X_f_mean X_f_pert
    HX_f_mean HX_f_pert X_a d = Ok X_a' ->
  exists Ls L,
    all_Ls self = Some Ls /\ nth_error Ls d = Some L /\
    same_shape4 X_a' X_a /\
    forall e c y x, mask_at L y x = false -> at4 X_a' e c y x = at4 X_a e c y x.
Proof.
  unfold assimilate_observation. intros H.
  apply bind_Ok in H. destruct H as (Ls & HLs & H).
  apply bind_Ok in H. destruct H as (L & HL & H).
  apply bind_Ok in H. destruct H as (xroll & _ & H).
  apply bind_Ok in H. destruct H as (yroll & _ & H).
  apply bind_Ok in H. destruct H as (W & _ & H).
  apply bind_Ok in H. destruct H as (N_a & _ & H).
  apply bind_Ok in H. destruct H as (X_f_loc & _ & H).
  apply bind_Ok in H. destruct H as (X_f_loc_pert & _ & H).
  apply bind_Ok in H. destruct H as (X_f_loc_mean & _ & H).
  apply bind_Ok in H. destruct H as (? & _ & H).
  apply bind_Ok in H. destruct H as (? & _ & H).
  apply bind_Ok in H. destruct H as (row & _ & H).
  apply bind_Ok in H. destruct H as (D & _ & H).
  apply bind_Ok in H. destruct H as (X_a_loc & _ & H).
  apply scatter_local_frame in H.
  exists Ls, L. split.
  - destruct (all_Ls self); [injection HLs as <-; reflexivity | discriminate].
  - split; [apply getitem_Ok; exact HL | exact H].
Qed.

Lemma assimilate_observations_frame self ensemble observations X_f X_f_mean X_f_pert
  HX_f_mean HX_f_pert ds :
  forall X_a X_a',
    assimilate_observations self ensemble observations X_f X_f_mean X_f_pert
      HX_f_mean HX_f_pert X_a ds = Ok X_a' ->
    same_shape4 X_a' X_a /\
    forall y x,
      (forall d Ls L, In d ds -> all_Ls self = Some Ls -> nth_error Ls d = Some L ->
         mask_at L y x = false) ->
      forall e c, at4 X_a' e c y x = at4 X_a e c y x.
Proof.
  induction ds as [|d ds IH]; intros X_a X_a' H; cbn [assimilate_observations] in H.
  - injection H as <-. split; [repeat split | reflexivity].
  - apply bind_Ok in H. destruct H as (X1 & H1 & H).
    apply assimilate_observation_frame in H1.
    destruct H1 as (Ls & L & HLs & HL & S1 & F1).
    apply IH in H. destruct H as [S2 F2]. split.
    + eapply same_shape4_trans; eassumption.
    + intros y x Hout e c. rewrite F2.
      * apply F1. apply (Hout d Ls L); [left; reflexivity | exact HLs | exact HL].
      * intros d' Ls' L' Hd'. apply Hout. right. exact Hd'.
Qed.

End Outside.

Lemma masked_add_frame A L v A' :
  masked_add A L v = Ok A' ->
  shape0 A' = shape0 A /\ shape1 A' = shape1 A /\
  forall y x, mask_at L y x = false -> at2 A' y x = at2 A y x.
Proof.
  unfold masked_add. intros H.
  destruct (negb _); [discriminate|].
  destruct (length v =? length (true_cells L))%nat.
  - injection H as <-. repeat split. intros y x Hm. cbn [at2]. rewrite Hm. reflexivity.
  - destruct (length v =? 1)%nat; [|discriminate].
    injection H as <-. repeat split. intros y x Hm. cbn [at2]. rewrite Hm. reflexivity.
Qed.

Lemma combine_fold_frame W_loc scale_r dx dy nx ny obs :
  forall acc W,
    fold_left
      (fun acc obs =>
         W_scale <- acc ;;
         Lr <- getLocalIndices obs scale_r dx dy nx ny ;;
         let '(L, xroll, yroll) := Lr in
         let W_loc_d := roll1 (roll0 W_loc yroll) xroll in
         masked_add W_scale L (flatten W_loc_d))
      obs acc = Ok W ->
    exists A,
      acc = Ok A /\ shape0 W = shape0 A /\ shape1 W = shape1 A /\
      forall y x,
        (forall o L xroll yroll, In o obs ->
           getLocalIndices o scale_r dx dy nx ny = Ok (L, xroll, yroll) ->
           mask_at L y x = false) ->
        at2 W y x = at2 A y x.
Proof.
  induction obs as [|o obs IH]; intros acc W H; cbn [fold_left] in H.
  - exists W. repeat split; auto.
  - apply IH in H. destruct H as (A1 & HA1 & HS0 & HS1 & HF).
    apply bind_Ok in HA1. destruct HA1 as (A & -> & HA1).
    apply bind_Ok in HA1. destruct HA1 as ([[L xroll] yroll] & HL & HA1).
    apply masked_add_frame in HA1. destruct HA1 as (M0 & M1 & MF).
    exists A. split; [reflexivity|]. split; [congruence|]. split; [congruence|].
    intros y x Hout. rewrite HF.
    + apply MF. apply (Hout o L xroll yroll); [left; reflexivity | exact HL].
    + intros o' L' xr' yr' Ho'. apply Hout. right. exact Ho'.
Qed.

Lemma getCombinedWeights_frame obs scale_r dx dy nx ny Warg w Wc :
  getCombinedWeights obs scale_r dx dy nx ny Warg w = Ok Wc ->
  shape0 Wc = ny /\ shape1 Wc = nx /\
  forall y x,
    (forall o L xroll yroll, In o obs ->
       getLocalIndices o scale_r dx dy nx ny = Ok (L, xroll, yroll) ->
       mask_at L y x = false) ->
    at2 Wc y x = 0.
Proof.
  unfold getCombinedWeights. intros H.
  apply bind_Ok in H. destruct H as (W_loc & _ & H).
  apply combine_fold_frame in H. destruct H as (A & HA & H0 & H1 & HF).
  injection HA as <-. split; [exact H0|]. split; [exact H1|].
  intros y x Hout. rewrite HF by exact Hout. reflexivity.
Qed.

Lemma blend_entries W X_f X_a N_a X_new :
  blend W X_f X_a N_a = Ok X_new ->
  shape0 W = a4_shape2 X_f -> shape1 W = a4_shape3 X_f ->
  a4_shape2 X_a = a4_shape2 X_f -> a4_shape3 X_a = a4_shape3 X_f ->
  same_shape4 X_new X_f /\
  forall e i y x, (e < N_a)%nat -> (i < 3)%nat ->
    (y < a4_shape2 X_f)%nat -> (x < a4_shape3 X_f)%nat ->
    at4 X_new e i y x = at2 W y x * at4 X_f e i y x + at4 X_a e i y x.
Proof.
  unfold blend. intros H W0 W1 A2 A3.
  destruct (Nat.eqb_spec N_a 0) as [->|_].
  - injection H as <-. split; [repeat split|]. intros e i y x He. lia.
  - destruct (negb _); [discriminate|].
    apply bind_Ok in H. destruct H as (r & _ & H).
    apply bind_Ok in H. destruct H as (c & _ & H).
    apply bind_Ok in H. destruct H as (r' & _ & H).
    apply bind_Ok in H. destruct H as (c' & _ & H).
    destruct (negb _); [discriminate|].
    injection H as <-. split; [repeat split|].
    intros e i y x He Hi Hy Hx. cbn [at4].
    apply Nat.ltb_lt in He. apply Nat.ltb_lt in Hi. rewrite He, Hi. cbn [andb].
    rewrite W0, W1, A2, A3, !bidx_lt by assumption. reflexivity.
Qed.

Section Kept.
Context {ext : External}.

(** X3. Outside the patches of a group the analysis of the group is the
    forecast: at a cell that no mask of the group's observations selects,
    neither among the stored patches nor among those of the combined
    weights, the forecast weight is 1, nothing is scattered, and the
    blended state has the value of the forecast, for every particle and
    variable. *)
Theorem forecast_kept_outside_patches
  (self : LEnKF) (ensemble : option Ensemble) (observations : list (list R))
  (X_f : array4) (X_f_mean : array3) (X_f_pert : array4)
  (HX_f_mean : array2) (HX_f_pert : array3)
  (G : list nat) (positions obs : list (R * R)) (N_a : nat)
  (X_a X_new : array4) (W_combined : array2)
  (Hobs : assimilate_observations self ensemble observations X_f X_f_mean X_f_pert
            HX_f_mean HX_f_pert
            (zeros4 (a4_shape0 X_f) (a4_shape1 X_f) (a4_shape2 X_f) (a4_shape3 X_f)) G
          = Ok X_a)
  (Hrows : take_rows positions G = Ok obs)
  (Hweights : getCombinedWeights obs (r_factor self)
                (ens_dx (self_ensemble self)) (ens_dy (self_ensemble self))
                (a4_shape3 X_f) (a4_shape2 X_f) (W_loc self) (scale_w self)
              = Ok W_combined)
  (Hblend : blend (W_forecast_of W_combined) X_f X_a N_a = Ok X_new) :
  same_shape4 X_new X_f /\
  forall y x,
    (y < a4_shape2 X_f)%nat -> (x < a4_shape3 X_f)%nat ->
    (forall d Ls L, In d G -> all_Ls self = Some Ls -> nth_error Ls d = Some L ->
       mask_at L y x = false) ->
    (forall o L xroll yroll, In o obs ->
       getLocalIndices o (r_factor self)
         (ens_dx (self_ensemble self)) (ens_dy (self_ensemble self))
         (a4_shape3 X_f) (a4_shape2 X_f) = Ok (L, xroll, yroll) ->
       mask_at L y x = false) ->
    at2 (W_forecast_of W_combined) y x = 1 /\
    forall e i, (e < N_a)%nat -> (i < 3)%nat ->
      at4 X_a e i y x = 0 /\
      at4 X_new e i y x = at4 X_f e i y x.
Proof.
  apply assimilate_observations_frame in Hobs. destruct Hobs as [(_ & _ & S2 & S3) FA].
  cbn [zeros4 a4_shape2 a4_shape3] in S2, S3.
  apply getCombinedWeights_frame in Hweights. destruct Hweights as (W0 & W1 & FW).
  apply blend_entries in Hblend; try assumption.
  destruct Hblend as [SN FN]. split; [exact SN|].
  intros y x Hy Hx HoutL HoutW.
  assert (HWF : at2 (W_forecast_of W_combined) y x = 1).
  { cbn [W_forecast_of W_analysis_of at2]. rewrite (FW y x HoutW).
    unfold Rdiv. rewrite Rmult_0_l. ring. }
  split; [exact HWF|].
  intros e i He Hi.
  assert (HXa : at4 X_a e i y x = 0) by (rewrite (FA y x HoutL); reflexivity).
  split; [exact HXa|].
  rewrite (FN e i y x He Hi Hy Hx), HWF, HXa. ring.
Qed.

End Kept.

(** What the first call of [_prepare_LEnKF] leaves in the filter of
    [one_buoy]. *)
Lemma one_buoy_prepared_sizes :
  exists self L W,
    getLocalWeightShape 0.5 1 1 10 10 1 = Ok W /\
    _prepare_LEnKF (Some one_buoy) (Some 0.5) (mkWorld fresh_filter [])
      = (Ok tt, mkWorld self []) /\
    self_ensemble self = one_buoy /\ N_e self = 3%nat /\ N_d self = 1%nat /\
    N_e_active self = Some 3%nat /\ method self = "SEnKF"%string /\
    r_factor self = 0.5 /\ scale_w self = 1 /\
    drifter_positions self = Some [(5, 5)] /\
    groups self = Some [[0%nat]] /\
    all_xrolls self = [0%Z] /\ all_yrolls self = [0%Z] /\
    W_loc self = Some W /\ shape0 W = 3%nat /\ shape1 W = 3%nat /\
    all_Ls self = Some [L] /\
    getLocalIndices (5, 5) 0.5 1 1 10 10 = Ok (L, 0%Z, 0%Z) /\
    mshape0 L = 10%nat /\ mshape1 L = 10%nat /\ length (true_cells L) = 9%nat /\
    n_i self = 14%nat /\ n_j self = 14%nat.
Proof.
  rewrite prepare_given.
  replace (check_configuration (the_filter (mkWorld fresh_filter [])) one_buoy)
    with (Ok tt) by reflexivity.
  destruct one_buoy_stencil as (W & HW & Hs0 & Hs1).
  destruct one_buoy_patch as (L & HL & Hm0 & Hm1 & Hcount).
  unfold update_localisation, bindM, get_self, ret, lift, set_self, Req_bool.
  ev.
  destruct (Req_dec_T 0.5 15) as [E|_]; [lra|].
  ev.
  rewrite one_buoy_groups.
  ev.
  unfold initializeLocalPatches.
  destruct (Rgt_dec 0.5 0) as [_|H]; [|lra].
  ev.
  rewrite HW. ev.
  unfold getCombinedWeights. rewrite HW. ev.
  rewrite HL. ev.
  unfold masked_add. rewrite Hm0, Hm1, length_flatten, Hcount.
  cbn [roll0 roll1 shape0 shape1 np.zeros]. rewrite Hs0, Hs1.
  cbn [Nat.eqb Nat.mul Nat.add negb andb bind fst snd].
  ev.
  rewrite HL. ev.
  eexists. exists L, W. split; [reflexivity|]. split; [reflexivity|].
  cbn [with_patches set_patches self_ensemble N_e N_d N_e_active method
       self_ghost_cells_y self_ghost_cells_x groups all_xrolls all_yrolls W_loc
       all_Ls W_forecasts r_factor scale_w drifter_positions n_i n_j].
  repeat (split; [reflexivity|]).
  repeat split; assumption.
Qed.

Lemma one_buoy_prepared_stencil :
  exists self L W,
    getLocalWeightShape 0.5 1 1 10 10 1 = Ok W /\
    _prepare_LEnKF (Some one_buoy) (Some 0.5) (mkWorld fresh_filter [])
      = (Ok tt, mkWorld self []) /\
    self_ensemble self = one_buoy /\ N_e self = 3%nat /\ N_d self = 1%nat /\
    N_e_active self = Some 3%nat /\ method self = "SEnKF"%string /\
    r_factor self = 0.5 /\ scale_w self = 1 /\
    drifter_positions self = Some [(5, 5)] /\
    groups self = Some [[0%nat]] /\
    all_xrolls self = [0%Z] /\ all_yrolls self = [0%Z] /\
    W_loc self = Some W /\ shape0 W = 3%nat /\ shape1 W = 3%nat /\
    all_Ls self = Some [L] /\
    getLocalIndices (5, 5) 0.5 1 1 10 10 = Ok (L, 0%Z, 0%Z) /\
    mshape0 L = 10%nat /\ mshape1 L = 10%nat /\ length (true_cells L) = 9%nat.
Proof.
  destruct one_buoy_prepared_sizes as (self & L & W & H).
  exists self, L, W. repeat (split; [apply H|]). apply H.
Qed.

Lemma one_buoy_prepared :
  exists self L W,
    _prepare_LEnKF (Some one_buoy) (Some 0.5) (mkWorld fresh_filter [])
      = (Ok tt, mkWorld self []) /\
    self_ensemble self = one_buoy /\ N_e self = 3%nat /\ N_d self = 1%nat /\
    N_e_active self = Some 3%nat /\ method self = "SEnKF"%string /\
    r_factor self = 0.5 /\ scale_w self = 1 /\
    drifter_positions self = Some [(5, 5)] /\
    groups self = Some [[0%nat]] /\
    all_xrolls self = [0%Z] /\ all_yrolls self = [0%Z] /\
    W_loc self = Some W /\ shape0 W = 3%nat /\ shape1 W = 3%nat /\
    all_Ls self = Some [L] /\
    getLocalIndices (5, 5) 0.5 1 1 10 10 = Ok (L, 0%Z, 0%Z) /\
    mshape0 L = 10%nat /\ mshape1 L = 10%nat /\ length (true_cells L) = 9%nat.
Proof.
  destruct one_buoy_prepared_stencil as (self & L & W & _ & H).
  exists self, L, W. exact H.
Qed.

Lemma one_buoy_corner_outside L xroll yroll :
  getLocalIndices (5, 5) 0.5 1 1 10 10 = Ok (L, xroll, yroll) ->
  mask_at L 0 0 = false.
Proof.
  intros H.
  assert (H1 : (1 : R) <> 0) by lra.
  destruct (getLocalIndices_axes (5, 5) 0.5 1 10 10 H1) as (L' & HL' & _ & _ & Hm).
  rewrite H in HL'. injection HL' as <- _ _.
  rewrite Hm. cbn [fst snd].
  rewrite (ceilZ_eq (0.5 * 1.5) 1) by (simpl; lra).
  rewrite (roundZ_eq (5 / 1) 5) by (simpl; lra).
  reflexivity.
Qed.

Lemma forecast_kept_outside_patches_witness :
  let X_f := mkArray4 3 3 10 10 (fun e c y x => INR (e + c + y + x)) in
  exists self HX_f_mean HX_f_pert X_a W_combined X_new,
    @assimilate_observations still_water self (Some one_buoy) (observeTrueState one_buoy)
      X_f (mean_axis0 X_f) (perturbations X_f (mean_axis0 X_f)) HX_f_mean HX_f_pert
      (zeros4 3 3 10 10) [0%nat] = Ok X_a /\
    take_rows [(5, 5)] [0%nat] = Ok [(5, 5)] /\
    getCombinedWeights [(5, 5)] (r_factor self) 1 1 10 10 (W_loc self) (scale_w self)
      = Ok W_combined /\
    blend (W_forecast_of W_combined) X_f X_a 3 = Ok X_new /\
    forall e i, (e < 3)%nat -> (i < 3)%nat ->
      at4 X_new e i 0 0 = INR (e + i + 0 + 0).
Proof.
  intros X_f.
  destruct one_buoy_prepared
    as (self & L & W & _ & Hens & HNe & HNd & HNa & Hmeth & Hr & Hw & Hpos & Hgroups
        & Hxr & Hyr & HW & HW0 & HW1 & HLs & HL & Hm0 & Hm1 & Hcount).
  destruct (one_buoy_HX self X_f Hens HNd HNa eq_refl eq_refl eq_refl eq_refl)
    as (HXm & HXp & HHX & Hm_0 & Hm_1 & Hp_0 & Hp_1 & Hp_2).
  destruct (@assimilate_observation_returns still_water self (Some one_buoy)
              (observeTrueState one_buoy) X_f (mean_axis0 X_f)
              (perturbations X_f (mean_axis0 X_f)) HXm HXp
              (zeros4 3 3 10 10) 0 [L] L W 3 [5; 5; 0; 0] 10 10)
    as (X_a & HXa & A0 & A1 & A2 & A3);
    try assumption; try reflexivity;
    try (rewrite ?Hxr, ?Hyr, ?Hens, ?HW0, ?HW1, ?HNe; reflexivity);
    try (rewrite ?Hens, ?HNe, ?Hm_0, ?Hp_1; cbn; lia).
  { rewrite Hens. exact eye2_positive_definite. }
  assert (Hobs : @assimilate_observations still_water self (Some one_buoy)
                   (observeTrueState one_buoy) X_f (mean_axis0 X_f)
                   (perturbations X_f (mean_axis0 X_f)) HXm HXp
                   (zeros4 3 3 10 10) [0%nat] = Ok X_a).
  { cbn [assimilate_observations]. rewrite HXa. reflexivity. }
  assert (Ec : ceilZ (0.5 * 1.5) = 1%Z) by (apply ceilZ_eq; simpl; lra).
  assert (H1 : (1 : R) <> 0) by lra.
  destruct (getCombinedWeights_returns [(5, 5)] (r_factor self) 1 10 10 (W_loc self)
              (scale_w self) H1)
    as (Wc & HWc & HWc0 & HWc1); rewrite ?Hr, ?Ec; try lia.
  { constructor; [|constructor]. unfold cell_in_domain. cbn [fst snd].
    rewrite (roundZ_eq (5 / 1) 5) by (simpl; lra). lia. }
  destruct (blend_returns (W_forecast_of Wc) X_f X_a 3 10 10)
    as (X_new & HXn & _); try assumption; try reflexivity.
  exists self, HXm, HXp, X_a, Wc, X_new.
  split; [exact Hobs|]. split; [reflexivity|]. split; [exact HWc|]. split; [exact HXn|].
  intros e i He Hi.
  destruct (@forecast_kept_outside_patches still_water self (Some one_buoy)
              (observeTrueState one_buoy) X_f (mean_axis0 X_f)
              (perturbations X_f (mean_axis0 X_f)) HXm HXp [0%nat] [(5, 5)] [(5, 5)] 3
              X_a X_new Wc Hobs eq_refl)
    as [_ Hkept].
  - rewrite Hens. exact HWc.
  - exact HXn.
  - destruct (Hkept 0%nat 0%nat) as [_ Hcell].
    + cbn. lia.
    + cbn. lia.
    + intros d Ls L' [<-|[]] HLs' HL'. rewrite HLs in HLs'. injection HLs' as <-.
      injection HL' as <-. exact (one_buoy_corner_outside L _ _ HL).
    + intros o L' xr yr [<-|[]] HL'. rewrite Hens, Hr in HL'.
      exact (one_buoy_corner_outside L' _ _ HL').
    + destruct (Hcell e i He Hi) as [_ E]. exact E.
Defined.


(* ================================================================= *)
(** * Reuse of the localisation by [_prepare_LEnKF] *)

Lemma prepare_accepted w ensemble r :
  configuration_accepted (the_filter w) ensemble ->
  _prepare_LEnKF ensemble r w =
  update_localisation r (mkWorld (bound_filter (the_filter w) ensemble) (the_calls w)).
Proof.
  destruct ensemble as [e|]; cbn [configuration_accepted bound_filter]; intros H.
  - rewrite prepare_given, H. reflexivity.
  - rewrite prepare_not_given. destruct w; reflexivity.
Qed.

(** X4. On static buoys whose groups and patches are stored,
    [_prepare_LEnKF] with no radius, or with the radius the filter has,
    computes nothing anew: it returns, and the filter is as it was but
    for the ensemble and the number of active particles it takes over
    when an ensemble is handed in. *)
Theorem prepare_reuses_localisation
  (w : World) (ensemble : option Ensemble) (r : option R)
  (gs : list (list nat)) (Ls : list mask2)
  (Hcheck : configuration_accepted (the_filter w) ensemble)
  (Hstatic : observation_type (self_ensemble (bound_filter (the_filter w) ensemble))
             = StaticBuoys)
  (Hgroups : groups (the_filter w) = Some gs)
  (Hpatches : all_Ls (the_filter w) = Some Ls)
  (Hradius : r = None \/ r = Some (r_factor (the_filter w))) :
  _prepare_LEnKF ensemble r w =
  (Ok tt, mkWorld (bound_filter (the_filter w) ensemble) (the_calls w)).
Proof.
  rewrite (prepare_accepted w ensemble r Hcheck).
  set (self1 := bound_filter (the_filter w) ensemble) in *.
  assert (Hg1 : groups self1 = Some gs)
    by (unfold self1; destruct ensemble; exact Hgroups).
  assert (HL1 : all_Ls self1 = Some Ls)
    by (unfold self1; destruct ensemble; exact Hpatches).
  assert (Hr1 : r_factor self1 = r_factor (the_filter w))
    by (unfold self1; destruct ensemble; reflexivity).
  unfold update_localisation, bindM, get_self, ret, set_self, Req_bool.
  cbn [the_filter the_calls].
  destruct Hradius as [-> | ->].
  - cbn [the_filter]. rewrite Hg1, Hstatic.
    cbn [ObservationType_eqb negb orb the_filter]. rewrite HL1. reflexivity.
  - rewrite Hr1.
    destruct (Req_dec_T (r_factor (the_filter w)) (r_factor (the_filter w))) as [_|Hn];
      [|contradiction].
    cbn [the_filter]. rewrite Hg1, Hstatic.
    cbn [ObservationType_eqb negb orb the_filter]. rewrite HL1. reflexivity.
Qed.

Lemma prepare_reuses_localisation_witness :
  exists self,
    _prepare_LEnKF (Some one_buoy) (Some 0.5) (mkWorld fresh_filter [])
      = (Ok tt, mkWorld self []) /\
    _prepare_LEnKF None None (mkWorld self []) = (Ok tt, mkWorld self []) /\
    _prepare_LEnKF None (Some 0.5) (mkWorld self []) = (Ok tt, mkWorld self []).
Proof.
  destruct one_buoy_prepared
    as (self & L & W & Hrun & Hens & _ & _ & _ & _ & Hr & _ & _ & Hgroups
        & _ & _ & _ & _ & _ & HLs & _).
  exists self. split; [exact Hrun|]. split.
  - apply (prepare_reuses_localisation (mkWorld self []) None None [[0%nat]] [L]);
      cbn [the_filter bound_filter configuration_accepted]; auto.
    rewrite Hens. reflexivity.
  - apply (prepare_reuses_localisation (mkWorld self []) None (Some 0.5) [[0%nat]] [L]);
      cbn [the_filter bound_filter configuration_accepted]; auto.
    + rewrite Hens. reflexivity.
    + right. rewrite Hr. reflexivity.
Defined.

(** What [initializeLocalPatches] assigns, when it returns. *)
Lemma initializeLocalPatches_fields self r self' :
  initializeLocalPatches self r = Ok self' ->
  exists W WA WF,
    self' = set_patches (if Rgt_dec r 0 then set_r_factor self r else self) W WA WF /\
    getLocalWeightShape (if Rgt_dec r 0 then r else r_factor self)
      (ens_dx (self_ensemble self)) (ens_dy (self_ensemble self))
      (ens_nx (self_ensemble self)) (ens_ny (self_ensemble self)) (scale_w self) = Ok W.
Proof.
  unfold initializeLocalPatches. intros H.
  apply bind_Ok in H. destruct H as (W & HW & H).
  apply bind_Ok in H. destruct H as (gs & _ & H).
  apply bind_Ok in H. destruct H as (pos & _ & H).
  apply bind_Ok in H. destruct H as ([WA WF] & _ & H).
  injection H as <-. exists W, WA, WF. cbn [fst snd]. split.
  - destruct (Rgt_dec r 0); reflexivity.
  - destruct (Rgt_dec r 0); exact HW.
Qed.

(** X5. A new radius does not renew the patches of static buoys: when
    the patches are stored and [_prepare_LEnKF] is handed a radius other
    than the one the filter has, it stores the radius and, if it returns,
    a stencil computed for it, but the patches and their rolls are the
    ones that were stored before. *)
Theorem prepare_keeps_patches_of_old_radius
  (w w' : World) (ensemble : option Ensemble) (r : R) (Ls : list mask2)
  (Hcheck : configuration_accepted (the_filter w) ensemble)
  (Hstatic : observation_type (self_ensemble (bound_filter (the_filter w) ensemble))
             = StaticBuoys)
  (Hpatches : all_Ls (the_filter w) = Some Ls)
  (Hradius : r <> r_factor (the_filter w))
  (Hret : _prepare_LEnKF ensemble (Some r) w = (Ok tt, w')) :
  r_factor (the_filter w') = r /\
  all_Ls (the_filter w') = Some Ls /\
  all_xrolls (the_filter w') = all_xrolls (the_filter w) /\
  all_yrolls (the_filter w') = all_yrolls (the_filter w) /\
  exists W,
    W_loc (the_filter w') = Some W /\
    getLocalWeightShape r
      (ens_dx (self_ensemble (the_filter w'))) (ens_dy (self_ensemble (the_filter w')))
      (ens_nx (self_ensemble (the_filter w'))) (ens_ny (self_ensemble (the_filter w')))
      (scale_w (the_filter w')) = Ok W.
Proof.
  rewrite (prepare_accepted w ensemble (Some r) Hcheck) in Hret.
  set (self1 := bound_filter (the_filter w) ensemble) in *.
  assert (HL1 : all_Ls self1 = Some Ls)
    by (unfold self1; destruct ensemble; exact Hpatches).
  assert (Hr1 : r_factor self1 = r_factor (the_filter w))
    by (unfold self1; destruct ensemble; reflexivity).
  assert (Hx1 : all_xrolls self1 = all_xrolls (the_filter w))
    by (unfold self1; destruct ensemble; reflexivity).
  assert (Hy1 : all_yrolls self1 = all_yrolls (the_filter w))
    by (unfold self1; destruct ensemble; reflexivity).
  clearbody self1.
  unfold update_localisation, bindM, get_self, ret, set_self, lift, Req_bool in Hret.
  cbn [the_filter the_calls] in Hret. rewrite Hr1 in Hret.
  destruct (Req_dec_T r (r_factor (the_filter w))) as [E|_]; [contradiction|].
  cbn [the_filter the_calls reset_localisation groups orb self_ensemble r_factor] in Hret.
  destruct (initializeGroups (self_ensemble self1) r) as [[pos gs]| |]; try discriminate.
  cbn [fst snd with_groups reset_localisation r_factor] in Hret.
  match type of Hret with context [initializeLocalPatches ?s r] =>
    destruct (initializeLocalPatches s r) as [self2| |] eqn:Hpatch; try discriminate
  end.
  apply initializeLocalPatches_fields in Hpatch.
  destruct Hpatch as (W & WA & WF & -> & HW).
  cbn [the_filter the_calls] in Hret.
  destruct (Rgt_dec r 0);
    cbn [set_patches set_r_factor with_groups reset_localisation all_Ls self_ensemble
         observation_type ens_dx ens_dy ens_nx ens_ny scale_w r_factor] in Hret, HW;
    rewrite HL1, Hstatic in Hret; cbn [ObservationType_eqb negb orb] in Hret;
    injection Hret as <-; cbn [the_filter];
    cbn [set_patches set_r_factor with_groups reset_localisation r_factor all_Ls
         all_xrolls all_yrolls W_loc self_ensemble scale_w];
    (split; [reflexivity|]); (split; [exact HL1|]); (split; [exact Hx1|]);
    (split; [exact Hy1|]); exists W; (split; [reflexivity | exact HW]).
Qed.

Section Refused.
Context {ext : External}.

(** X6. A stored patch that does not have as many cells as the stencil
    (and more than one) stops the step of its observation: copying the
    values under the mask into the local array raises [ValueError], and
    nothing is written to the accumulator. *)
Theorem patch_of_other_size_is_refused
  (self : LEnKF) (ensemble : option Ensemble) (observations : list (list R))
  (X_f : array4) (X_f_mean : array3) (X_f_pert : array4)
  (HX_f_mean : array2) (HX_f_pert : array3) (X_a : array4) (d : nat)
  (Ls : list mask2) (L : mask2) (xroll yroll : Z) (W : array2) (N_a : nat)
  (HLs : all_Ls self = Some Ls) (HL : nth_error Ls d = Some L)
  (Hxr : nth_error (all_xrolls self) d = Some xroll)
  (Hyr : nth_error (all_yrolls self) d = Some yroll)
  (HW : W_loc self = Some W) (HNa : N_e_active self = Some N_a)
  (Hm0 : mshape0 L = a4_shape2 X_f) (Hm1 : mshape1 L = a4_shape3 X_f)
  (Hsize : length (true_cells L) <> (shape0 W * shape1 W)%nat)
  (Hone : length (true_cells L) <> 1%nat) :
  assimilate_observation self ensemble observations X_f X_f_mean X_f_pert
    HX_f_mean HX_f_pert X_a d = Raise ValueError.
Proof.
  unfold assimilate_observation.
  rewrite HLs. cbn [not_none bind]. unfold getitem. rewrite HL, Hxr, Hyr.
  cbn [bind]. rewrite HW, HNa. cbn [getattr bind].
  unfold extract_local. rewrite Hm0, Hm1, !Nat.eqb_refl. cbn [andb negb].
  assert (Hfit : fits (shape0 W * shape1 W) (length (true_cells L)) = false).
  { unfold fits. apply orb_false_iff. split; apply Nat.eqb_neq; assumption. }
  rewrite Hfit, !andb_false_r. reflexivity.
Qed.

End Refused.

Lemma one_buoy_groups_wide :
  initializeGroups one_buoy 1 = Ok ([(5, 5)], [[0%nat]]).
Proof.
  unfold initializeGroups.
  assert (Hd : 3 <= obs_dist_mat (getDx one_buoy * INR (getNx one_buoy))
                     (getDy one_buoy * INR (getNy one_buoy))
                     (drifter_positions_of one_buoy) 0 0).
  { unfold obs_dist_mat, heavy_diagonal. simpl. apply le_sqrt; lra. }
  remember (obs_dist_mat (getDx one_buoy * INR (getNx one_buoy))
              (getDy one_buoy * INR (getNy one_buoy))
              (drifter_positions_of one_buoy)) as M.
  cbn. r_decide. reflexivity.
Qed.

(** The second call on [one_buoy], with the radius 1 in place of 0.5. *)
Lemma one_buoy_new_radius :
  exists self L w' W',
    _prepare_LEnKF (Some one_buoy) (Some 0.5) (mkWorld fresh_filter [])
      = (Ok tt, mkWorld self []) /\
    all_Ls self = Some [L] /\ length (true_cells L) = 9%nat /\
    mshape0 L = 10%nat /\ mshape1 L = 10%nat /\
    self_ensemble self = one_buoy /\ r_factor self = 0.5 /\
    _prepare_LEnKF None (Some 1) (mkWorld self []) = (Ok tt, w') /\
    all_Ls (the_filter w') = Some [L] /\
    all_xrolls (the_filter w') = [0%Z] /\ all_yrolls (the_filter w') = [0%Z] /\
    N_e_active (the_filter w') = Some 3%nat /\
    W_loc (the_filter w') = Some W' /\ shape0 W' = 5%nat /\ shape1 W' = 5%nat.
Proof.
  destruct one_buoy_prepared
    as (self & L & W & Hrun & Hens & HNe & HNd & HNa & Hmeth & Hr & Hw & Hpos & Hgroups
        & Hxr & Hyr & HW & HW0 & HW1 & HLs & HL & Hm0 & Hm1 & Hcount).
  exists self, L.
  assert (Ec : ceilZ (1 * 1.5) = 2%Z) by (apply ceilZ_eq; simpl; lra).
  assert (Hpatch : exists self2,
            initializeLocalPatches
              (with_groups (reset_localisation self 1) [(5, 5)] [[0%nat]]) 1 = Ok self2).
  { destruct (initializeLocalPatches_total
                (with_groups (reset_localisation self 1) [(5, 5)] [[0%nat]]) 1
                [[0%nat]] [(5, 5)])
      as (self2 & W2 & WA & WF & Hret & _);
      cbn [with_groups reset_localisation self_ensemble groups drifter_positions r_factor];
      rewrite ?Hens; cbn [one_buoy ens_dx ens_dy ens_nx ens_ny];
      try (destruct (Rgt_dec 1 0) as [_|Hn]; [|lra]; rewrite Ec; lia);
      try reflexivity; try lra; try exact one_buoy_cells.
    exists self2. exact Hret. }
  destruct Hpatch as (self2 & Hret).
  pose proof (initializeLocalPatches_fields _ _ _ Hret) as (W3 & WA3 & WF3 & E2 & HW3).
  destruct (Rgt_dec 1 0) as [_|Hn]; [|lra].
  assert (HW3s : shape0 W3 = 5%nat /\ shape1 W3 = 5%nat).
  { match type of HW3 with getLocalWeightShape ?r ?dx ?dy ?nx ?ny ?sw = _ =>
      destruct (getLocalWeightShape_shape r dx dy nx ny sw) as (W4 & HW4 & S0 & S1)
    end.
    - rewrite Ec. lia.
    - rewrite HW4 in HW3. injection HW3 as <-. rewrite Ec in S0, S1. split; assumption. }
  eexists. exists W3. split; [exact Hrun|]. split; [exact HLs|]. split; [exact Hcount|].
  split; [exact Hm0|]. split; [exact Hm1|]. split; [exact Hens|]. split; [exact Hr|].
  rewrite prepare_not_given.
  unfold update_localisation, bindM, get_self, ret, set_self, lift, Req_bool.
  cbn [the_filter the_calls]. rewrite Hr.
  destruct (Req_dec_T 1 0.5) as [E|_]; [lra|].
  cbn [the_filter the_calls reset_localisation groups orb self_ensemble r_factor].
  rewrite Hens, one_buoy_groups_wide. cbn [fst snd].
  change (r_factor (with_groups (reset_localisation self 1) [(5, 5)] [[0%nat]])) with 1.
  rewrite Hret. cbn [the_filter the_calls]. rewrite E2.
  cbn [set_patches set_r_factor with_groups reset_localisation all_Ls self_ensemble
       observation_type].
  rewrite HLs. cbn [one_buoy observation_type ObservationType_eqb negb orb].
  split; [reflexivity|].
  cbn [the_filter set_patches set_r_factor with_groups reset_localisation all_Ls
       all_xrolls all_yrolls N_e_active W_loc].
  destruct HW3s. repeat split; assumption.
Qed.

Lemma prepare_keeps_patches_of_old_radius_witness :
  exists self L w',
    _prepare_LEnKF (Some one_buoy) (Some 0.5) (mkWorld fresh_filter [])
      = (Ok tt, mkWorld self []) /\
    all_Ls self = Some [L] /\ r_factor self = 0.5 /\
    _prepare_LEnKF None (Some 1) (mkWorld self []) = (Ok tt, w') /\
    r_factor (the_filter w') = 1 /\
    all_Ls (the_filter w') = Some [L] /\
    exists W, W_loc (the_filter w') = Some W /\ shape0 W = 5%nat /\
              length (true_cells L) = 9%nat.
Proof.
  destruct one_buoy_new_radius
    as (self & L & w' & W' & Hrun & HLs & Hcount & _ & _ & Hens & Hr & Hrun2 & _ & _ & _
        & _ & HW' & HW'0 & _).
  exists self, L, w'. split; [exact Hrun|]. split; [exact HLs|]. split; [exact Hr|].
  split; [exact Hrun2|].
  destruct (prepare_keeps_patches_of_old_radius (mkWorld self []) w' None 1 [L])
    as (Hr' & HLs' & _ & _ & W & HW & _);
    cbn [the_filter configuration_accepted bound_filter]; auto.
  - rewrite Hens. reflexivity.
  - rewrite Hr. lra.
  - split; [exact Hr'|]. split; [exact HLs'|]. exists W'.
    split; [exact HW'|]. split; [exact HW'0 | exact Hcount].
Defined.

Lemma patch_of_other_size_is_refused_witness :
  let X_f := mkArray4 3 3 10 10 (fun e c y x => INR (e + c + y + x)) in
  exists self w',
    _prepare_LEnKF (Some one_buoy) (Some 0.5) (mkWorld fresh_filter [])
      = (Ok tt, mkWorld self []) /\
    _prepare_LEnKF None (Some 1) (mkWorld self []) = (Ok tt, w') /\
    forall HX_f_mean HX_f_pert X_a,
      @assimilate_observation still_water (the_filter w') None
        (observeTrueState one_buoy) X_f (mean_axis0 X_f)
        (perturbations X_f (mean_axis0 X_f)) HX_f_mean HX_f_pert X_a 0
      = Raise ValueError.
Proof.
  intros X_f.
  destruct one_buoy_new_radius
    as (self & L & w' & W' & Hrun & HLs & Hcount & Hm0 & Hm1 & Hens & Hr & Hrun2 & HLs'
        & Hxr & Hyr & HNa & HW' & HW'0 & HW'1).
  exists self, w'. split; [exact Hrun|]. split; [exact Hrun2|].
  intros HXm HXp X_a.
  apply (@patch_of_other_size_is_refused still_water (the_filter w') None
           (observeTrueState one_buoy) X_f (mean_axis0 X_f)
           (perturbations X_f (mean_axis0 X_f)) HXm HXp X_a 0 [L] L 0%Z 0%Z W' 3);
    try assumption; try reflexivity.
  - rewrite Hxr. reflexivity.
  - rewrite Hyr. reflexivity.
  - rewrite Hcount, HW'0, HW'1. discriminate.
  - rewrite Hcount. discriminate.
Defined.


(* ================================================================= *)
(** * The statistics of the ensemble *)

Lemma sum_n_minus f g n :
  sum_n (fun k => f k - g k) n = sum_n f n - sum_n g n.
Proof. induction n as [|n IH]; simpl; [ring | rewrite IH; ring]. Qed.

Lemma sum_n_const c n : sum_n (fun _ => c) n = INR n * c.
Proof.
  induction n as [|n IH]; [simpl; ring|].
  change (sum_n (fun _ => c) (S n)) with (sum_n (fun _ => c) n + c).
  rewrite IH, S_INR. ring.
Qed.

Lemma perturbations_sum X c y x :
  a4_shape0 X <> 0%nat ->
  sum_n (fun e => at4 (perturbations X (mean_axis0 X)) e c y x) (a4_shape0 X) = 0.
Proof.
  intros HN. cbn [perturbations mean_axis0 at4 at3].
  rewrite sum_n_minus, sum_n_const. field.
  apply not_0_INR. exact HN.
Qed.

Section Statistics.
Context {ext : External}.

(** The downloads do not change the filter. *)
Lemma download_particles_filter es :
  forall idx X w X' w',
    download_particles es idx X w = (Ok X', w') -> the_filter w' = the_filter w.
Proof.
  induction es as [|e es IH]; intros idx X0 w0 X' w' H; cbn [download_particles] in H.
  - injection H as _ <-. reflexivity.
  - apply bindM_Ok in H. destruct H as (self & w3 & Hs & H). injection Hs as <- <-.
    apply bindM_Ok in H. destruct H as (act & w3 & Ha & H).
    apply lift_Ok in Ha. destruct Ha as [_ ->].
    destruct act.
    + apply bindM_Ok in H. destruct H as (p & w3 & Hp & H).
      apply lift_Ok in Hp. destruct Hp as [_ ->].
      apply bindM_Ok in H. destruct H as ([] & w3 & He & H).
      injection He as <-.
      destruct (download p true) as [[eta hu] hv].
      apply bindM_Ok in H. destruct H as (Xa & w4 & HXa & H).
      apply lift_Ok in HXa. destruct HXa as [_ ->].
      apply bindM_Ok in H. destruct H as (Xb & w4 & HXb & H).
      apply lift_Ok in HXb. destruct HXb as [_ ->].
      apply bindM_Ok in H. destruct H as (Xc & w4 & HXc & H).
      apply lift_Ok in HXc. destruct HXc as [_ ->].
      apply IH in H. exact H.
    + apply IH in H. exact H.
Qed.

(** X7. [giveX_f_global] returns the state it was handed, downloaded anew
    only when asked to, with its mean over the particles and its
    perturbations: without a download neither the state nor the simulator
    is touched; every entry of the state is the mean plus the perturbation;
    and with at least one particle the perturbations of every cell add up
    to 0 over the particles. *)
Theorem giveX_f_global_statistics
  (X_f : array4) (download_X_f : bool) (w w' : World)
  (X : array4) (X_mean : array3) (X_pert : array4)
  (Hret : giveX_f_global X_f download_X_f w = (Ok (X, X_mean, X_pert), w')) :
  (download_X_f = false -> X = X_f /\ w' = w) /\
  the_filter w' = the_filter w /\
  (forall e c y x, at4 X e c y x = at3 X_mean c y x + at4 X_pert e c y x) /\
  (forall c y x,
     INR (a4_shape0 X) * at3 X_mean c y x = sum_n (fun e => at4 X e c y x) (a4_shape0 X)) /\
  (a4_shape0 X <> 0%nat ->
   forall c y x, sum_n (fun e => at4 X_pert e c y x) (a4_shape0 X) = 0).
Proof.
  unfold giveX_f_global in Hret.
  apply bindM_Ok in Hret. destruct Hret as (self & w1 & Hs & Hret).
  injection Hs as <- <-.
  apply bindM_Ok in Hret. destruct Hret as (X1 & w2 & HX1 & Hret).
  injection Hret as <- <- <- <-.
  assert (Hfilter : the_filter w2 = the_filter w).
  { destruct download_X_f.
    - exact (download_particles_filter _ _ _ _ _ _ HX1).
    - injection HX1 as _ <-. reflexivity. }
  split.
  { intros ->. injection HX1 as <- <-. split; reflexivity. }
  split; [exact Hfilter|].
  split; [intros e c y x; cbn [perturbations at4]; ring|].
  split.
  - intros c y x. cbn [mean_axis0 at3].
    destruct (Nat.eq_dec (a4_shape0 X1) 0) as [E|E].
    + rewrite E. simpl. ring.
    + field. apply not_0_INR. exact E.
  - intros HN c y x. apply perturbations_sum. exact HN.
Qed.

End Statistics.

Lemma giveX_f_global_statistics_witness :
  exists X X_mean X_pert w',
    @giveX_f_global still_water (zeros4 3 3 10 10) true (mkWorld one_buoy_filter [])
      = (Ok (X, X_mean, X_pert), w') /\
    the_filter w' = one_buoy_filter /\
    forall c y x, sum_n (fun e => at4 X_pert e c y x) 3 = 0.
Proof.
  destruct (@download_particles_returns still_water (seq 0 3) 0 (zeros4 3 3 10 10)
              (mkWorld one_buoy_filter []))
    as (X & HX & F0 & _).
  { reflexivity. }
  { exact still_water_fits. }
  { intros e He. apply in_seq in He. cbn. lia. }
  { cbn. lia. }
  assert (Hrun : @giveX_f_global still_water (zeros4 3 3 10 10) true
                   (mkWorld one_buoy_filter [])
                 = (Ok (X, mean_axis0 X, perturbations X (mean_axis0 X)),
                    mkWorld one_buoy_filter
                      ([] ++ map (fun e => CallDownload e true)
                               (active_of one_buoy_filter (seq 0 3))))).
  { unfold giveX_f_global. unfold bindM at 1. cbn [get_self the_filter one_buoy_filter N_e].
    rewrite (bindM_run _ _ _ _ _ HX). reflexivity. }
  eexists. eexists. eexists. eexists. split; [exact Hrun|].
  destruct (@giveX_f_global_statistics still_water _ _ _ _ _ _ _ Hrun)
    as (_ & Hf & _ & _ & Hsum).
  split; [exact Hf|].
  intros c y x. cbn [zeros4 a4_shape0] in F0. rewrite <- F0. apply Hsum.
  rewrite F0. discriminate.
Defined.


(* ================================================================= *)
(** * The observation operator *)

Lemma np_index_wraps n i :
  (- Z.of_nat n <= i < Z.of_nat n)%Z ->
  np_index n i = Ok (Z.to_nat (i mod Z.of_nat n)).
Proof.
  intros H. unfold np_index.
  destruct (Z.leb_spec 0 i) as [H0|H0].
  - destruct (Z.ltb_spec i (Z.of_nat n)) as [_|H1]; [|lia].
    cbn [andb]. rewrite Z.mod_small by lia. reflexivity.
  - cbn [andb]. destruct (Z.leb_spec (- Z.of_nat n) i) as [_|H1]; [|lia].
    destruct (Z.ltb_spec i 0) as [_|H2]; [|lia]. cbn [andb].
    replace (i mod Z.of_nat n)%Z with (i + Z.of_nat n)%Z; [reflexivity|].
    apply Z.mod_unique with (q := (-1)%Z); lia.
Qed.

Lemma np_index_outside n i :
  ~ (- Z.of_nat n <= i < Z.of_nat n)%Z -> np_index n i = Raise IndexError.
Proof.
  intros H. unfold np_index.
  destruct (Z.leb_spec 0 i), (Z.ltb_spec i (Z.of_nat n)),
           (Z.leb_spec (- Z.of_nat n) i), (Z.ltb_spec i 0); cbn [andb]; try reflexivity; lia.
Qed.

(** X8. The cell that an observation at (x, y) is read from is the cell
    of [floor(x/dx)], [floor(y/dy)] taken modulo the size of the grid:
    a position up to one domain length below 0 is read from the far side
    of the grid, as an index counted from the end, and a position at or
    beyond the upper edge of the domain, or more than a domain length
    below 0, raises [IndexError]. *)
Theorem observed_cell_wraps
  (self : LEnKF) (X_f : array4) (x y : R) (rest : list R)
  (Hdx : ens_dx (self_ensemble self) <> 0)
  (Hdy : ens_dy (self_ensemble self) <> 0) :
  let fx := floorZ (x / ens_dx (self_ensemble self)) in
  let fy := floorZ (y / ens_dy (self_ensemble self)) in
  let nx := Z.of_nat (a4_shape3 X_f) in
  let ny := Z.of_nat (a4_shape2 X_f) in
  ((- nx <= fx < nx)%Z /\ (- ny <= fy < ny)%Z ->
   observed_cell self X_f (x :: y :: rest)
   = Ok (Z.to_nat (fy mod ny), Z.to_nat (fx mod nx))) /\
  (~ ((- nx <= fx < nx)%Z /\ (- ny <= fy < ny)%Z) ->
   observed_cell self X_f (x :: y :: rest) = Raise IndexError).
Proof.
  intros fx fy nx ny. unfold observed_cell. cbn [getitem nth_error bind].
  destruct (Req_dec_T (ens_dx (self_ensemble self)) 0) as [E|_]; [contradiction|].
  destruct (Req_dec_T (ens_dy (self_ensemble self)) 0) as [E|_]; [contradiction|].
  fold fx fy. split.
  - intros [Hx Hy]. rewrite (np_index_wraps _ _ Hy). cbn [bind].
    rewrite (np_index_wraps _ _ Hx). reflexivity.
  - intros Hn.
    destruct (Z_le_dec (- ny) fy) as [Hy1|Hy1];
      [destruct (Z_lt_dec fy ny) as [Hy2|Hy2]|].
    + rewrite (np_index_wraps _ fy) by (fold ny; lia). cbn [bind].
      rewrite np_index_outside; [reflexivity|]. fold nx. intros Hx. apply Hn. lia.
    + rewrite np_index_outside; [reflexivity|]. fold ny. lia.
    + rewrite np_index_outside; [reflexivity|]. fold ny. lia.
Qed.

Lemma observed_cell_wraps_witness :
  observed_cell one_buoy_filter (zeros4 3 3 10 10) [5; -1] = Ok (9%nat, 5%nat) /\
  observed_cell one_buoy_filter (zeros4 3 3 10 10) [10; 5] = Raise IndexError.
Proof.
  assert (H1 : ens_dx (self_ensemble one_buoy_filter) <> 0) by (simpl; lra).
  assert (H2 : ens_dy (self_ensemble one_buoy_filter) <> 0) by (simpl; lra).
  assert (E5 : floorZ (5 / 1) = 5%Z) by (apply floorZ_eq; simpl; lra).
  assert (Em : floorZ (-1 / 1) = (-1)%Z) by (apply floorZ_eq; simpl; lra).
  assert (E10 : floorZ (10 / 1) = 10%Z) by (apply floorZ_eq; simpl; lra).
  split.
  - destruct (observed_cell_wraps one_buoy_filter (zeros4 3 3 10 10) 5 (-1) [] H1 H2)
      as [Hin _].
    cbn [one_buoy_filter self_ensemble one_buoy ens_dx ens_dy zeros4 a4_shape2 a4_shape3]
      in Hin.
    rewrite E5, Em in Hin. apply Hin. lia.
  - destruct (observed_cell_wraps one_buoy_filter (zeros4 3 3 10 10) 10 5 [] H1 H2)
      as [_ Hout].
    cbn [one_buoy_filter self_ensemble one_buoy ens_dx ens_dy zeros4 a4_shape2 a4_shape3]
      in Hout.
    rewrite E5, E10 in Hout. apply Hout. lia.
Defined.

(** X9. [giveHX_f_global] observes [hu] and [hv] of every particle at the
    cells of the observations and asserts that there are [N_d]
    observations.  The mean it returns is the sum over the particles
    divided by [N_e_active], so
    when the state has [N_e_active] particles, observing commutes with the
    statistics of [giveX_f_global]: the mean of the observed values is the
    observed mean, the perturbations of the observed values are the
    observed perturbations, and they add up to 0 over the particles. *)
Theorem giveHX_f_global_commutes
  (self : LEnKF) (X_f : array4) (observations : list (list R))
  (HX_f_mean : array2) (HX_f_pert : array3)
  (Hret : giveHX_f_global self X_f observations = Ok (HX_f_mean, HX_f_pert)) :
  N_d self = length observations /\
  exists cs N_a,
    observed_cells self X_f observations (seq 0 (N_d self)) = Ok cs /\
    N_e_active self = Some N_a /\
    shape0 HX_f_mean = N_d self /\ shape1 HX_f_mean = 2%nat /\
    a3_shape0 HX_f_pert = a4_shape0 X_f /\ a3_shape1 HX_f_pert = N_d self /\
    a3_shape2 HX_f_pert = 2%nat /\
    (forall d k,
       INR N_a * at2 HX_f_mean d k =
       sum_n (fun e => at4 X_f e (S k) (fst (nth d cs (O, O))) (snd (nth d cs (O, O))))
         (a4_shape0 X_f)) /\
    (forall e d k,
       at3 HX_f_pert e d k =
       at4 X_f e (S k) (fst (nth d cs (O, O))) (snd (nth d cs (O, O)))
       - at2 HX_f_mean d k) /\
    (N_a = a4_shape0 X_f ->
     forall d k,
       at2 HX_f_mean d k =
       at3 (mean_axis0 X_f) (S k) (fst (nth d cs (O, O))) (snd (nth d cs (O, O))) /\
       (forall e,
          at3 HX_f_pert e d k =
          at4 (perturbations X_f (mean_axis0 X_f)) e (S k)
            (fst (nth d cs (O, O))) (snd (nth d cs (O, O)))) /\
       sum_n (fun e => at3 HX_f_pert e d k) (a4_shape0 X_f) = 0).
Proof.
  unfold giveHX_f_global, observe_particles_from_X_f in Hret.
  apply bind_Ok in Hret. destruct Hret as (HX & HHX & Hret).
  apply bind_Ok in HHX. destruct HHX as ([] & Hassert & HHX).
  apply assert_Ok in Hassert. apply Nat.eqb_eq in Hassert.
  apply bind_Ok in HHX. destruct HHX as (cs & Hcs & HHX).
  destruct (negb (N_d self =? 0)%nat && negb (2 <? a4_shape1 X_f)%nat); [discriminate|].
  injection HHX as <-.
  apply bind_Ok in Hret. destruct Hret as (N_a & HNa & Hret).
  apply bind_Ok in Hret. destruct Hret as (c & Hc & Hret).
  apply py_div_Ok in Hc. destruct Hc as [Hc0 ->].
  injection Hret as <- <-.
  assert (HNa' : N_e_active self = Some N_a)
    by (destruct (N_e_active self); [injection HNa as <-; reflexivity | discriminate]).
  split; [exact Hassert|]. exists cs, N_a.
  split; [exact Hcs|]. split; [exact HNa'|].
  cbn [shape0 shape1 a3_shape0 a3_shape1 a3_shape2 at2 at3].
  repeat (split; [reflexivity|]).
  split; [intros d k; field; exact Hc0|].
  split; [reflexivity|].
  intros -> d k. cbn [mean_axis0 perturbations at3 at4].
  split; [field; exact Hc0|]. split; [intros e; field; exact Hc0|].
  rewrite sum_n_minus, sum_n_const. field. exact Hc0.
Qed.

Lemma giveHX_f_global_commutes_witness :
  let X_f := mkArray4 3 3 10 10 (fun e c y x => INR (e + c + y + x)) in
  exists HX_f_mean HX_f_pert,
    giveHX_f_global one_buoy_filter X_f (observeTrueState one_buoy)
      = Ok (HX_f_mean, HX_f_pert) /\
    forall d k, sum_n (fun e => at3 HX_f_pert e d k) 3 = 0.
Proof.
  intros X_f.
  destruct (one_buoy_HX one_buoy_filter X_f eq_refl eq_refl eq_refl eq_refl eq_refl
              eq_refl eq_refl)
    as (HXm & HXp & HHX & _).
  exists HXm, HXp. split; [exact HHX|].
  destruct (giveHX_f_global_commutes one_buoy_filter X_f (observeTrueState one_buoy)
              HXm HXp HHX)
    as (_ & cs & N_a & _ & HNa & _ & _ & _ & _ & _ & _ & _ & Hcomm).
  injection HNa as <-.
  intros d k. destruct (Hcomm eq_refl d k) as (_ & _ & Hsum). exact Hsum.
Defined.


(* ================================================================= *)
(** * The stochastic update and its innovation *)

Section FixedPoint.
Context {ext : External}.

(** X10. [SEnKF_loc] leaves the local forecast as it is when there is
    nothing to correct or nothing to correct with: if the innovation [D]
    it is handed is zero, or if the forecast perturbations are zero (an
    ensemble without spread), the analysis it returns has the entries of
    the forecast. *)
Theorem SEnKF_loc_fixed_point
  (self : LEnKF) (d : nat) (X_f_loc X_f_loc_pert : array2) (HX_f_loc_mean : list R)
  (HX_f_loc_pert : array2) (y_loc : list R) (D : option array2) (X_a_loc : array2)
  (Hzero : (exists D0, D = Some D0 /\ zero2 D0) \/ zero2 X_f_loc_pert)
  (Hret : SEnKF_loc self d X_f_loc X_f_loc_pert HX_f_loc_mean HX_f_loc_pert y_loc D
          = Ok X_a_loc) :
  forall i j, (i < shape0 X_f_loc)%nat -> (j < shape1 X_f_loc)%nat ->
    at2 X_a_loc i j = at2 X_f_loc i j.
Proof.
  unfold SEnKF_loc in Hret.
  apply bind_Ok in Hret. destruct Hret as (D1 & HD1 & Hret).
  apply bind_Ok in Hret. destruct Hret as (c & _ & Hret).
  apply bind_Ok in Hret. destruct Hret as (HH & _ & Hret).
  apply bind_Ok in Hret. destruct Hret as (F & _ & Hret).
  apply bind_Ok in Hret. destruct Hret as (c' & _ & Hret).
  apply bind_Ok in Hret. destruct Hret as (XH & HXH & Hret).
  apply bind_Ok in Hret. destruct Hret as (Finv & _ & Hret).
  apply bind_Ok in Hret. destruct Hret as (XHF & HXHF & Hret).
  apply bind_Ok in Hret. destruct Hret as (gain & Hgain & Hret).
  assert (Hg : zero2 gain).
  { destruct Hzero as [(D0 & -> & HD0) | HX0].
    - injection HD1 as <-. exact (matmul_zero_r _ _ _ HD0 Hgain).
    - apply (matmul_zero_l _ _ _) in Hgain; [exact Hgain|].
      apply (matmul_zero_l _ _ _) in HXHF; [exact HXHF|].
      apply (matmul_zero_l _ _ _) in HXH; [exact HXH|].
      intros i j. cbn [np.scale at2]. rewrite HX0. ring. }
  intros i j Hi Hj. rewrite (add_entries _ _ _ Hret), Hg.
  rewrite !bidx_lt by assumption. ring.
Qed.

End FixedPoint.

Lemma SEnKF_loc_fixed_point_witness :
  let X := mkArray2 3 3 (fun i j => INR (i + j)) in
  exists X_a,
    @SEnKF_loc still_water one_buoy_filter 0 X (np.zeros 3 3) [0; 0] (np.zeros 2 3)
      [1; 2] None = Ok X_a /\
    forall i j, (i < 3)%nat -> (j < 3)%nat -> at2 X_a i j = INR (i + j).
Proof.
  intros X.
  destruct (@SEnKF_loc_consistent still_water one_buoy_filter 0 X (np.zeros 3 3)
              [0; 0] (np.zeros 2 3) [1; 2] 3 3)
    as (X_a & HXa & _); try reflexivity.
  { exact eye2_positive_definite. }
  { simpl. lia. }
  exists X_a. split; [exact HXa|].
  intros i j Hi Hj.
  apply (@SEnKF_loc_fixed_point still_water one_buoy_filter 0 X (np.zeros 3 3)
           [0; 0] (np.zeros 2 3) [1; 2] None X_a); auto.
  right. intros a b. reflexivity.
Defined.

Section OwnInnovation.
Context {ext : External}.

Lemma SEnKF_loc_own_innovation self d X_f_loc X_f_loc_pert HX_f_loc_mean HX_f_loc_pert
  y_loc :
  SEnKF_loc self d X_f_loc X_f_loc_pert HX_f_loc_mean HX_f_loc_pert y_loc None =
  (D <- SEnKF_innovation self d y_loc HX_f_loc_mean HX_f_loc_pert ;;
   SEnKF_loc self d X_f_loc X_f_loc_pert HX_f_loc_mean HX_f_loc_pert y_loc (Some D)).
Proof.
  unfold SEnKF_loc, SEnKF_innovation.
  destruct (np.add (np.row y_loc) _) as [Y| |]; cbn [bind]; reflexivity.
Qed.

Lemma bdim_one_r a : np.bdim a 1 = Ok a.
Proof.
  unfold np.bdim. destruct (Nat.eqb_spec a 1) as [->|H]; [reflexivity|].
  rewrite Nat.eqb_refl. reflexivity.
Qed.

Lemma broadcast_entries op A B C :
  np.broadcast op A B = Ok C ->
  forall i j, at2 C i j =
    op (at2 A (np.bidx (shape0 A) i) (np.bidx (shape1 A) j))
       (at2 B (np.bidx (shape0 B) i) (np.bidx (shape1 B) j)).
Proof.
  unfold np.broadcast. intros H.
  apply bind_Ok in H. destruct H as (r & _ & H).
  apply bind_Ok in H. destruct H as (c & _ & H).
  injection H as <-. reflexivity.
Qed.

Lemma compensate_for_eta_returns
  (self : LEnKF) (d : nat) (y_loc observations_xy : list R) (X_f : array4)
  (HX_f_loc_mean : list R) (HX_f_loc_pert : array2) (c : nat * nat) :
  length y_loc = 2%nat -> a4_shape0 X_f = N_e self ->
  length HX_f_loc_mean = 2%nat ->
  shape0 HX_f_loc_pert = 2%nat -> shape1 HX_f_loc_pert = N_e self ->
  observed_cell self X_f observations_xy = Ok c ->
  exists D, compensate_for_eta self d y_loc observations_xy X_f HX_f_loc_mean
              HX_f_loc_pert = Ok D.
Proof.
  intros Hy Hparticles Hmean Hp0 Hp1 Hcell.
  unfold compensate_for_eta, np.add, np.multiply, np.subtract, np.broadcast.
  cbn [np.row np.column np.multivariate_normal np.T shape0 shape1].
  rewrite Hy, bdim_one_l, bdim_same. cbn [bind shape0 shape1 np.T].
  rewrite Hcell. cbn [bind].
  rewrite length_map, length_seq, Hparticles, bdim_one_r, bdim_same.
  cbn [bind shape0 shape1].
  rewrite Hmean, Hp0, Hp1, bdim_same, bdim_one_l. cbn [bind shape0 shape1].
  rewrite !bdim_same. cbn [bind]. eexists. reflexivity.
Qed.

(** X11. [compensate_for_eta] is the innovation of [SEnKF_loc] with every
    particle's perturbed observation scaled by [(H + eta)/H], [H] the mean
    depth and [eta] the particle's surface elevation at the cell of the
    observation: for as many particles as the filter counts, it differs
    from the innovation that [SEnKF_loc] computes itself by the perturbed
    observation times [eta/H], and is that innovation where [eta] is 0. *)
Theorem compensate_for_eta_entries
  (self : LEnKF) (d : nat) (y_loc observations_xy : list R) (X_f : array4)
  (HX_f_loc_mean : list R) (HX_f_loc_pert : array2) (D : array2)
  (Hdepth : mean_depth (self_ensemble self) <> 0)
  (Hy : length y_loc = 2%nat)
  (Hparticles : a4_shape0 X_f = N_e self)
  (Hmean : length HX_f_loc_mean = 2%nat)
  (Hpert : shape0 HX_f_loc_pert = 2%nat /\ shape1 HX_f_loc_pert = N_e self)
  (Hret : compensate_for_eta self d y_loc observations_xy X_f HX_f_loc_mean
            HX_f_loc_pert = Ok D) :
  exists cy cx D0,
    observed_cell self X_f observations_xy = Ok (cy, cx) /\
    SEnKF_innovation self d y_loc HX_f_loc_mean HX_f_loc_pert = Ok D0 /\
    shape0 D = shape0 D0 /\ shape1 D = shape1 D0 /\
    forall k e, (k < 2)%nat -> (e < N_e self)%nat ->
      at2 D k e =
      at2 D0 k e
      + (nth k y_loc 0 + normal_draws d e k)
        * (at4 X_f e 0 cy cx / mean_depth (self_ensemble self)).
Proof.
  destruct Hpert as [Hp0 Hp1].
  unfold compensate_for_eta in Hret.
  apply bind_Ok in Hret. destruct Hret as (Y & HY & Hret).
  apply bind_Ok in Hret. destruct Hret as ([cy cx] & Hcell & Hret).
  apply bind_Ok in Hret. destruct Hret as (YE & HYE & Hret).
  apply bind_Ok in Hret. destruct Hret as (HX & HHX & Hret).
  exists cy, cx.
  pose proof (broadcast_entries _ _ _ _ HY) as EY.
  pose proof (broadcast_entries _ _ _ _ HYE) as EYE.
  pose proof (broadcast_entries _ _ _ _ Hret) as ED.
  pose proof (broadcast_shape _ _ _ _ HY) as [SY0 SY1].
  pose proof (broadcast_shape _ _ _ _ HYE) as [SYE0 SYE1].
  pose proof (broadcast_shape _ _ _ _ HHX) as [SHX0 SHX1].
  pose proof (broadcast_shape _ _ _ _ Hret) as [SD0 SD1].
  cbn [np.row np.column np.multivariate_normal np.T shape0 shape1] in *.
  rewrite ?length_map, ?length_seq, ?Hy, ?Hmean, ?Hp0, ?Hp1, ?Hparticles in *.
  rewrite bdim_one_l in SY0. rewrite bdim_same in SY1.
  injection SY0 as SY0. injection SY1 as SY1.
  rewrite <- SY0, <- SY1 in *. rewrite bdim_one_r in SYE0.
  rewrite bdim_same in SYE1. injection SYE0 as SYE0. injection SYE1 as SYE1.
  rewrite bdim_same in SHX0. rewrite bdim_one_l in SHX1.
  injection SHX0 as SHX0. injection SHX1 as SHX1.
  rewrite <- SYE0, <- SYE1, <- SHX0, <- SHX1 in *.
  rewrite !bdim_same in SD0, SD1. injection SD0 as SD0. injection SD1 as SD1.
  unfold SEnKF_innovation. rewrite HY. cbn [bind]. rewrite HHX. cbn [bind].
  unfold np.subtract, np.broadcast. cbn [np.T shape0 shape1].
  rewrite <- SY0, <- SY1, <- SHX0, <- SHX1, !bdim_same. cbn [bind].
  eexists. split; [exact Hcell|]. split; [reflexivity|].
  cbn [shape0 shape1 at2]. split; [congruence|]. split; [congruence|].
  intros k e Hk He. rewrite ED, EYE. cbn [np.T at2 shape0 shape1].
  rewrite !(bidx_lt 2 k Hk), !(bidx_lt (N_e self) e He).
  replace (np.bidx 1 k) with 0%nat by (unfold np.bidx; reflexivity).
  rewrite EY. cbn [np.row np.multivariate_normal at2 shape0 shape1 fst snd].
  rewrite !(bidx_lt 2 k Hk), !(bidx_lt (N_e self) e He).
  set (ratio := fun p => (mean_depth (self_ensemble self) + at4 X_f p 0 cy cx)
                        / mean_depth (self_ensemble self)).
  assert (Hn : nth e (map ratio (seq 0 (N_e self))) 0 = ratio e).
  { rewrite (nth_indep _ 0 (ratio 0%nat)).
    - rewrite map_nth, seq_nth by exact He. reflexivity.
    - rewrite length_map, length_seq. exact He. }
  rewrite Hn. unfold ratio.
  field. exact Hdepth.
Qed.

End OwnInnovation.

Lemma one_buoy_cell (X_f : array4) :
  a4_shape2 X_f = 10%nat -> a4_shape3 X_f = 10%nat ->
  @observed_cell one_buoy_filter X_f [5; 5] = Ok (5%nat, 5%nat).
Proof.
  intros F2 F3. unfold observed_cell. rewrite F2, F3.
  cbn [one_buoy_filter self_ensemble one_buoy ens_dx ens_dy getitem nth_error bind].
  destruct (Req_dec_T 1 0) as [E|_]; [lra|].
  rewrite (floorZ_eq (5 / 1) 5) by (simpl; lra).
  reflexivity.
Qed.

Lemma compensate_for_eta_entries_witness :
  let X_f := mkArray4 3 3 10 10 (fun e _ _ _ => INR e) in
  exists D,
    @compensate_for_eta still_water one_buoy_filter 0 [3; 4] [5; 5] X_f [0; 0]
      (np.zeros 2 3) = Ok D /\
    at2 D 0 2 = 3 + 3 * (2 / 1) /\ at2 D 1 0 = 4.
Proof.
  intros X_f.
  destruct (@compensate_for_eta_returns still_water one_buoy_filter 0 [3; 4] [5; 5]
              X_f [0; 0] (np.zeros 2 3) (5%nat, 5%nat) eq_refl eq_refl eq_refl
              eq_refl eq_refl (one_buoy_cell X_f eq_refl eq_refl)) as [D HD].
  exists D. split; [exact HD|].
  assert (Hdepth : mean_depth (self_ensemble one_buoy_filter) <> 0) by (simpl; lra).
  destruct (@compensate_for_eta_entries still_water one_buoy_filter 0 [3; 4] [5; 5]
              X_f [0; 0] (np.zeros 2 3) D Hdepth eq_refl eq_refl eq_refl
              (conj eq_refl eq_refl) HD)
    as (cy & cx & D0 & Hcell & HD0 & _ & _ & Hent).
  rewrite (one_buoy_cell X_f eq_refl eq_refl) in Hcell. injection Hcell as <- <-.
  unfold SEnKF_innovation, np.add, np.subtract, np.broadcast in HD0.
  cbn in HD0. injection HD0 as <-.
  split.
  - rewrite (Hent 0%nat 2%nat) by (cbn; lia). cbn. lra.
  - rewrite (Hent 1%nat 0%nat) by (cbn; lia). cbn. lra.
Defined.


(* ================================================================= *)
(** * Where the ensemble has to be handed in *)

(** ** Attributes that the preparation does not write *)

Section FieldKept.
Variables (T : Type) (f : LEnKF -> T).
Hypothesis f_reset : forall self r, f (reset_localisation self r) = f self.
Hypothesis f_groups : forall self pos gs, f (with_groups self pos gs) = f self.
Hypothesis f_patches : forall self Ls xs ys, f (with_patches self Ls xs ys) = f self.
Hypothesis f_set_patches : forall self W WA WF, f (set_patches self W WA WF) = f self.
Hypothesis f_set_r : forall self r, f (set_r_factor self r) = f self.
Variables (v : T) (calls : list Event).

Lemma field_initializeLocalPatches self r self' :
  initializeLocalPatches self r = Ok self' -> f self' = f self.
Proof.
  intros H. apply initializeLocalPatches_fields in H.
  destruct H as (W & WA & WF & -> & _).
  rewrite f_set_patches. destruct (Rgt_dec r 0); [apply f_set_r | reflexivity].
Qed.

Lemma field_get_self : keeps (field_is f v calls) get_self (fun self => f self = v).
Proof.
  intros w Hw. split; [exact Hw|]. simpl. intros a E. injection E as <-. exact (proj2 Hw).
Qed.

Lemma field_set_self self' :
  f self' = v -> keeps (field_is f v calls) (set_self self') (fun _ => True).
Proof. intros H w [Hc _]. split; [|auto]. split; [exact Hc | exact H]. Qed.

Lemma field_update_localisation r :
  keeps (field_is f v calls) (update_localisation r) (fun _ => True).
Proof.
  unfold update_localisation.
  eapply keeps_bind; [apply field_get_self|]. intros self1 H1.
  eapply keeps_bind.
  { destruct r as [r0|]; [|apply (keeps_ret _ tt (fun _ => True) I)].
    destruct (Req_bool r0 (r_factor self1)); [apply (keeps_ret _ tt (fun _ => True) I)|].
    apply field_set_self. rewrite f_reset. exact H1. }
  intros _ _. eapply keeps_bind; [apply field_get_self|]. intros self2 H2.
  eapply keeps_bind.
  { match goal with |- keeps _ (if ?c then _ else _) _ => destruct c end;
      [|apply (keeps_ret _ tt (fun _ => True) I)].
    eapply keeps_bind; [apply keeps_lift|]. intros pg _.
    eapply keeps_bind; [apply keeps_lift|]. intros self3 H3.
    apply field_set_self.
    rewrite (field_initializeLocalPatches _ _ _ H3), f_groups. exact H2. }
  intros _ _. eapply keeps_bind; [apply field_get_self|]. intros self4 H4.
  match goal with |- keeps _ (if ?c then _ else _) _ => destruct c end;
    [|apply (keeps_ret _ tt (fun _ => True) I)].
  eapply keeps_bind; [apply keeps_lift|]. intros pos _.
  eapply keeps_bind; [apply keeps_lift|]. intros [[Ls xs] ys] _.
  apply field_set_self. rewrite f_patches. exact H4.
Qed.

End FieldKept.

Lemma prepare_alone_keeps_count calls r :
  keeps (field_is N_e_active None calls) (_prepare_LEnKF None r) (fun _ => True).
Proof.
  intros w Hw. rewrite prepare_not_given. revert w Hw.
  apply field_update_localisation; reflexivity.
Qed.

Lemma prepare_alone_keeps_method calls m r :
  keeps (field_is method m calls) (_prepare_LEnKF None r) (fun _ => True).
Proof.
  intros w Hw. rewrite prepare_not_given. revert w Hw.
  apply field_update_localisation; reflexivity.
Qed.

Lemma init_no_count e rf infl m self : init e rf infl m = Ok self -> N_e_active self = None.
Proof.
  unfold init. intros H.
  apply bind_Ok in H. destruct H as (p & _ & H).
  apply bind_Ok in H. destruct H as (q & _ & H).
  apply bind_Ok in H. destruct H as (u & _ & H).
  injection H as <-. reflexivity.
Qed.

Section FirstCall.
Context {ext : External}.

(** X12. The first [assimilate] of a filter must be handed the ensemble.
    The constructor does not set the number of active particles, and only
    an ensemble handed to [_prepare_LEnKF] does: on a filter as the
    constructor returns it, [assimilate] without an ensemble never
    returns, whatever the radius; it makes no call to the simulator, and
    when the preparation goes through, what it raises is
    [AttributeError]. *)
Theorem first_assimilate_needs_ensemble
  (ensemble : Ensemble) (relaxation_factor inflation : R) (meth : string)
  (self : LEnKF) (r : option R) (calls : list Event)
  (Hinit : init ensemble relaxation_factor inflation meth = Ok self) :
  let w := mkWorld self calls in
  (forall u, fst (assimilate None r w) <> Ok u) /\
  the_calls (snd (assimilate None r w)) = calls /\
  (fst (_prepare_LEnKF None r w) = Ok tt ->
   fst (assimilate None r w) = Raise AttributeError).
Proof.
  intros w.
  assert (Hw : field_is N_e_active None calls w)
    by (split; [reflexivity | exact (init_no_count _ _ _ _ _ Hinit)]).
  destruct (prepare_alone_keeps_count calls r w Hw) as [[Hc Hn] _].
  unfold assimilate, analysis, bindM.
  destruct (_prepare_LEnKF None r w) as [[[]|x|] w1]; cbn [fst snd] in *.
  - unfold get_self, lift. cbn [fst snd]. rewrite Hn. cbn [getattr fst snd].
    repeat split; [discriminate | exact Hc].
  - repeat split; [discriminate | exact Hc | discriminate].
  - repeat split; [discriminate | exact Hc | discriminate].
Qed.

End FirstCall.

Lemma one_buoy_prepare_alone :
  fst (_prepare_LEnKF None (Some 0.5) (mkWorld fresh_filter [])) = Ok tt.
Proof.
  rewrite prepare_not_given.
  destruct one_buoy_stencil as (W & HW & Hs0 & Hs1).
  destruct one_buoy_patch as (L & HL & Hm0 & Hm1 & Hcount).
  unfold update_localisation, bindM, get_self, ret, lift, set_self, Req_bool.
  ev.
  destruct (Req_dec_T 0.5 15) as [E|_]; [lra|].
  ev.
  rewrite one_buoy_groups.
  ev.
  unfold initializeLocalPatches.
  destruct (Rgt_dec 0.5 0) as [_|H]; [|lra].
  ev.
  rewrite HW. ev.
  unfold getCombinedWeights. rewrite HW. ev.
  rewrite HL. ev.
  unfold masked_add. rewrite Hm0, Hm1, length_flatten, Hcount.
  cbn [roll0 roll1 shape0 shape1 np.zeros]. rewrite Hs0, Hs1.
  cbn [Nat.eqb Nat.mul Nat.add negb andb bind fst snd].
  ev.
  rewrite HL. ev.
  reflexivity.
Qed.

Lemma first_assimilate_needs_ensemble_witness :
  init one_buoy 1 1 "SEnKF" = Ok fresh_filter /\
  fst (@assimilate still_water None (Some 0.5) (mkWorld fresh_filter []))
  = Raise AttributeError /\
  the_calls (snd (@assimilate still_water None (Some 0.5) (mkWorld fresh_filter []))) = [].
Proof.
  destruct (@first_assimilate_needs_ensemble still_water one_buoy 1 1 "SEnKF"
              fresh_filter (Some 0.5) [] eq_refl) as (_ & Hcalls & Hraise).
  split; [reflexivity|]. split; [exact (Hraise one_buoy_prepare_alone) | exact Hcalls].
Defined.

Section EnsembleArgument.
Context {ext : External}.

Lemma ETKF_loc_without_ensemble self X_f_loc_mean X_f_loc_pert HX_f_loc_mean
  HX_f_loc_pert y_loc D X :
  ETKF_loc self None X_f_loc_mean X_f_loc_pert HX_f_loc_mean HX_f_loc_pert y_loc D
  <> Ok X.
Proof.
  unfold ETKF_loc. intros H.
  apply bind_Ok in H. destruct H as (parts & H & _).
  unfold ETKF_parts in H.
  apply bind_Ok in H. destruct H as (Rinv & _ & H).
  apply bind_Ok in H. destruct H as (D' & _ & H).
  apply bind_Ok in H. destruct H as (N_a & _ & H).
  apply bind_Ok in H. destruct H as (ff & _ & H).
  apply bind_Ok in H. destruct H as (e & He & _).
  discriminate He.
Qed.

Lemma assimilate_observation_without_ensemble self observations X_f X_f_mean X_f_pert
  HX_f_mean HX_f_pert X_a d X :
  method self = "ETKF"%string ->
  assimilate_observation self None observations X_f X_f_mean X_f_pert HX_f_mean
    HX_f_pert X_a d <> Ok X.
Proof.
  intros Hm H. unfold assimilate_observation in H.
  do 13 (apply bind_Ok in H; destruct H as (? & _ & H)).
  rewrite Hm in H. cbn [String.eqb Ascii.eqb Bool.eqb] in H.
  apply bind_Ok in H. destruct H as (X_a_loc & H & _).
  exact (ETKF_loc_without_ensemble _ _ _ _ _ _ _ _ H).
Qed.

Lemma assimilate_observations_without_ensemble self observations X_f X_f_mean X_f_pert
  HX_f_mean HX_f_pert X_a ds X :
  method self = "ETKF"%string -> ds <> [] ->
  assimilate_observations self None observations X_f X_f_mean X_f_pert HX_f_mean
    HX_f_pert X_a ds <> Ok X.
Proof.
  intros Hm Hds H. destruct ds as [|d ds]; [congruence|].
  cbn [assimilate_observations] in H.
  apply bind_Ok in H. destruct H as (X1 & H & _).
  exact (assimilate_observation_without_ensemble _ _ _ _ _ _ _ _ _ _ Hm H).
Qed.

Lemma giveX_f_global_filter X_f b w res w' :
  giveX_f_global X_f b w = (Ok res, w') -> the_filter w' = the_filter w.
Proof.
  unfold giveX_f_global. intros H.
  apply bindM_Ok in H. destruct H as (self & w1 & Hs & H). injection Hs as <- <-.
  apply bindM_Ok in H. destruct H as (X & w1 & HX & H).
  injection H as _ <-.
  destruct b.
  - exact (download_particles_filter _ _ _ _ _ _ HX).
  - injection HX as _ <-. reflexivity.
Qed.

Lemma assimilate_groups_without_ensemble observations gs :
  forall g X_f w X w',
    method (the_filter w) = "ETKF"%string ->
    (exists G, In G gs /\ G <> []) ->
    assimilate_groups None observations gs g X_f w <> (Ok X, w').
Proof.
  induction gs as [|G gs IH]; intros g X_f w X w' Hm (G0 & Hin & Hne) H.
  - destruct Hin.
  - cbn [assimilate_groups] in H.
    apply bindM_Ok in H. destruct H as ([[X1 Xm] Xp] & w1 & Hg & H).
    apply giveX_f_global_filter in Hg.
    apply bindM_Ok in H. destruct H as (self & w2 & Hs & H). injection Hs as <- <-.
    apply bindM_Ok in H. destruct H as (HX & w2 & HHX & H).
    apply lift_Ok in HHX. destruct HHX as [_ ->].
    apply bindM_Ok in H. destruct H as (X_a & w2 & HXa & H).
    apply lift_Ok in HXa. destruct HXa as [HXa ->].
    apply bindM_Ok in H. destruct H as (N_a & w2 & HNa & H).
    apply lift_Ok in HNa. destruct HNa as [_ ->].
    apply bindM_Ok in H. destruct H as (X_new & w2 & Hb & H).
    apply lift_Ok in Hb. destruct Hb as [_ ->].
    destruct G as [|d G'].
    + destruct Hin as [<-|Hin]; [congruence|].
      revert H. apply IH; [rewrite Hg; exact Hm | exists G0; auto].
    + apply (assimilate_observations_without_ensemble _ _ _ _ _ _ _ _ _ _)
        in HXa; [exact HXa | rewrite Hg; exact Hm | discriminate].
Qed.

(** X13. A filter of method ETKF must be handed the ensemble at every
    [assimilate], not only at the first: [ETKF_loc] reads the active
    particles from the argument that [assimilate] was called with, not
    from the ensemble the filter is bound to.  Without an ensemble, when
    the preparation goes through and some group holds an observation,
    [assimilate] does not return; up to then it only downloaded, so no
    particle is changed. *)
Theorem ETKF_needs_ensemble_every_time
  (w w1 : World) (r : option R) (gs : list (list nat))
  (Hmeth : method (the_filter w) = "ETKF"%string)
  (Hprep : _prepare_LEnKF None r w = (Ok tt, w1))
  (Hgs : groups (the_filter w1) = Some gs)
  (Hobs : exists G, In G gs /\ G <> []) :
  (forall u, fst (assimilate None r w) <> Ok u) /\
  exists dl,
    the_calls (snd (assimilate None r w)) = the_calls w ++ dl /\
    Forall is_download dl.
Proof.
  assert (Hm1 : method (the_filter w1) = "ETKF"%string).
  { destruct (prepare_alone_keeps_method (the_calls w) "ETKF" r w (conj eq_refl Hmeth))
      as [[_ Hk] _].
    rewrite Hprep in Hk. exact Hk. }
  assert (Han : forall X w', analysis None r w <> (Ok X, w')).
  { intros X w' H. unfold analysis in H.
    rewrite (bindM_run _ _ _ _ _ Hprep) in H.
    apply bindM_Ok in H. destruct H as (self & w2 & Hs & H). injection Hs as <- <-.
    apply bindM_Ok in H. destruct H as (N_a & w2 & HNa & H).
    apply lift_Ok in HNa. destruct HNa as [_ ->].
    apply bindM_Ok in H. destruct H as (W & w2 & HW & H).
    apply lift_Ok in HW. destruct HW as [_ ->].
    apply bindM_Ok in H. destruct H as (gs' & w2 & Hgs' & H).
    apply lift_Ok in Hgs'. destruct Hgs' as [Hgs' ->].
    rewrite Hgs in Hgs'. injection Hgs' as <-.
    revert H. apply assimilate_groups_without_ensemble; assumption. }
  pose proof (keeps_analysis (self_ensemble (the_filter w)) None (the_calls w) r w
                (untouched_start w None)) as [[_ Hdl] _].
  unfold assimilate, bindM.
  destruct (analysis None r w) as [[X|x|] w2] eqn:E; cbn [fst snd] in *.
  - exfalso. exact (Han X w2 eq_refl).
  - split; [discriminate | exact Hdl].
  - split; [discriminate | exact Hdl].
Qed.

End EnsembleArgument.

Lemma two_particle_prepare_alone :
  exists L,
    _prepare_LEnKF None None (mkWorld two_particle_filter [])
    = (Ok tt, mkWorld (with_patches two_particle_filter [L] [0%Z] [0%Z]) []).
Proof.
  rewrite prepare_not_given.
  destruct one_buoy_patch as (L & HL & _).
  exists L.
  unfold update_localisation, bindM, get_self, ret, lift, set_self.
  cbn [the_filter the_calls fst snd two_particle_filter two_particles self_ensemble
       groups all_Ls observation_type ObservationType_eqb negb orb drifter_positions
       getattr N_d seq patches_of getitem nth_error bind r_factor
       ens_dx ens_dy ens_nx ens_ny].
  rewrite HL.
  cbn [bind patches_of fst snd]. reflexivity.
Qed.

Lemma ETKF_needs_ensemble_every_time_witness :
  method two_particle_filter = "ETKF"%string /\
  (forall u,
     fst (@assimilate eigh_table None None (mkWorld two_particle_filter [])) <> Ok u) /\
  exists dl,
    the_calls (snd (@assimilate eigh_table None None (mkWorld two_particle_filter [])))
    = dl /\ Forall is_download dl.
Proof.
  split; [reflexivity|].
  destruct two_particle_prepare_alone as (L & HL).
  exact (@ETKF_needs_ensemble_every_time eigh_table (mkWorld two_particle_filter [])
           (mkWorld (with_patches two_particle_filter [L] [0%Z] [0%Z]) []) None
           [[0%nat]] eq_refl HL eq_refl
           (ex_intro _ [0%nat] (conj (or_introl eq_refl) (fun E => nil_cons (eq_sym E))))).
Defined.


(* ================================================================= *)
(** * Rows of active particles *)

Lemma np_delete_middle {T} (kept : list T) r rest :
  np_delete (kept ++ r :: rest) (length kept) = Ok (kept ++ rest).
Proof.
  unfold np_delete. rewrite length_app. cbn [length].
  replace (length kept <? length kept + S (length rest))%nat with true
    by (symmetry; apply Nat.ltb_lt; lia).
  rewrite firstn_app, Nat.sub_diag, firstn_all. cbn [firstn]. rewrite app_nil_r.
  rewrite skipn_app, skipn_all2 by lia.
  replace (S (length kept) - length kept)%nat with 1%nat by lia. reflexivity.
Qed.

Lemma skipn_cons_nth_error {T} (l : list T) p a :
  nth_error l p = Some a -> skipn p l = a :: skipn (S p) l.
Proof.
  revert l. induction p as [|p IH]; intros [|h t] H; try discriminate.
  - injection H as ->. reflexivity.
  - cbn [nth_error] in H. cbn [skipn]. rewrite (IH t H). reflexivity.
Qed.

Lemma delete_deactivated_rows {T} (active : list bool) n :
  forall p (kept rem : list T),
    (p + n <= length active)%nat -> length rem = n ->
    delete_deactivated active (seq p n) (length kept) (kept ++ rem)
    = Ok (kept ++ active_rows (skipn p active) rem).
Proof.
  induction n as [|n IH]; intros p kept rem Hact Hrem.
  - destruct rem; [|discriminate]. unfold active_rows.
    destruct (skipn p active); reflexivity.
  - destruct rem as [|r rem]; [discriminate|]. injection Hrem as Hrem.
    cbn [seq delete_deactivated]. unfold getitem.
    destruct (nth_error active p) as [a|] eqn:Ea.
    2:{ apply nth_error_None in Ea. lia. }
    rewrite (skipn_cons_nth_error _ _ _ Ea). cbn [bind].
    unfold active_rows. cbn [combine filter fst].
    destruct a; cbn [map snd].
    + replace (S (length kept)) with (length (kept ++ [r]))
        by (rewrite length_app; cbn; lia).
      replace (kept ++ r :: rem) with ((kept ++ [r]) ++ rem)
        by (rewrite <- app_assoc; reflexivity).
      rewrite (IH (S p) (kept ++ [r]) rem) by (assumption || lia).
      rewrite <- app_assoc. reflexivity.
    + rewrite np_delete_middle. cbn [bind].
      apply (IH (S p) kept rem); [lia | assumption].
Qed.

(** X14. [_deleteDeactivatedObservations] keeps the rows of the active
    particles: on an array with one row per particle it returns the rows
    whose particle is active, in their order, as many as active flags are
    set; with every particle active the array is returned as it is. *)
Theorem deleteDeactivatedObservations_active_rows {T : Type}
  (self : LEnKF) (observation : list T)
  (Hflags : length (particlesActive (self_ensemble self)) = N_e self)
  (Hrows : length observation = N_e self) :
  let flags := particlesActive (self_ensemble self) in
  _deleteDeactivatedObservations self observation = Ok (active_rows flags observation) /\
  length (active_rows flags observation) = count_occ bool_dec flags true /\
  (forallb (fun b => b) flags = true -> active_rows flags observation = observation).
Proof.
  intros flags. split; [|split].
  - unfold _deleteDeactivatedObservations.
    apply (delete_deactivated_rows flags (N_e self) 0 [] observation);
      [unfold flags; lia | exact Hrows].
  - unfold active_rows. rewrite length_map.
    assert (Hlen : length flags = length observation) by (unfold flags; congruence).
    clearbody flags. clear Hflags Hrows. revert observation Hlen.
    induction flags as [|b flags IH]; intros [|r rows] Hlen; try discriminate;
      [reflexivity|].
    injection Hlen as Hlen. cbn [combine filter fst count_occ].
    destruct b; cbn [length]; destruct (bool_dec _ _) as [E|E]; try congruence;
      rewrite (IH rows Hlen); reflexivity.
  - assert (Hlen : length flags = length observation) by (unfold flags; congruence).
    clearbody flags. clear Hflags Hrows. revert observation Hlen.
    induction flags as [|b flags IH]; intros [|r rows] Hlen Hall; try discriminate;
      [reflexivity|].
    injection Hlen as Hlen. cbn [forallb] in Hall. apply andb_prop in Hall.
    destruct Hall as [-> Hall]. unfold active_rows in *. cbn [combine filter fst map snd].
    rewrite (IH rows Hlen Hall). reflexivity.
Qed.

Lemma deleteDeactivatedObservations_active_rows_witness :
  let self := with_ensemble one_buoy_filter one_buoy_two_active (Some 2%nat) in
  _deleteDeactivatedObservations self [10; 11; 12] = Ok [10; 11].
Proof.
  intros self.
  destruct (deleteDeactivatedObservations_active_rows self [10; 11; 12] eq_refl eq_refl)
    as [H _].
  exact H.
Defined.

(** ** The state matrix of [_getX_f] *)

Lemma cells_from_nth_error m n :
  forall s y x, (s <= y < s + n)%nat -> (x < m)%nat ->
    nth_error (flat_map (fun y => map (fun x => (y, x)) (seq 0 m)) (seq s n))
      ((y - s) * m + x) = Some (y, x).
Proof.
  induction n as [|n IH]; intros s y x Hy Hx; [lia|].
  cbn [seq flat_map].
  destruct (Nat.eq_dec y s) as [->|Hne].
  - rewrite Nat.sub_diag. cbn [Nat.mul Nat.add].
    rewrite nth_error_app1 by (rewrite length_map, length_seq; exact Hx).
    rewrite nth_error_map, nth_error_seq.
    replace (x <? m)%nat with true by (symmetry; apply Nat.ltb_lt; exact Hx).
    reflexivity.
  - rewrite nth_error_app2 by (rewrite length_map, length_seq; nia).
    rewrite length_map, length_seq.
    replace ((y - s) * m + x - m)%nat with ((y - S s) * m + x)%nat by nia.
    apply IH; lia.
Qed.

Lemma flatten_nth A y x :
  (y < shape0 A)%nat -> (x < shape1 A)%nat ->
  nth (y * shape1 A + x) (flatten A) 0 = at2 A y x.
Proof.
  intros Hy Hx. apply nth_error_nth. unfold flatten, cells.
  rewrite nth_error_map.
  pose proof (cells_from_nth_error (shape1 A) (shape0 A) 0 y x ltac:(lia) Hx) as H.
  rewrite Nat.sub_0_r in H. rewrite H. reflexivity.
Qed.

Lemma set_column_returns X idx v :
  (idx < shape1 X)%nat -> length v = shape0 X ->
  set_column X idx v
  = Ok (mkArray2 (shape0 X) (shape1 X)
          (fun r k => if Nat.eqb k idx then nth (np.bidx (length v) r) v 0
                      else at2 X r k)).
Proof.
  intros Hi Hv. unfold set_column. apply Nat.ltb_lt in Hi. rewrite Hi, Hv, fits_same.
  reflexivity.
Qed.

Section StateMatrixProofs.
Context {ext : External}.

Lemma state_vector_length p n_i n_j :
  (forall c, shape0 (field_of (download p false) c) = n_i /\
             shape1 (field_of (download p false) c) = n_j) ->
  length (state_vector p) = (3 * (n_i * n_j))%nat.
Proof.
  intros H. unfold state_vector.
  pose proof (H 0%nat) as [A0 A1]. pose proof (H 1%nat) as [B0 B1].
  pose proof (H 2%nat) as [C0 C1].
  destruct (download p false) as [[eta hu] hv]. cbn [field_of fst snd] in *.
  rewrite !length_app, !length_flatten, A0, A1, B0, B1, C0, C1. lia.
Qed.

Lemma state_vector_layout p n_i n_j c y x :
  (forall c, shape0 (field_of (download p false) c) = n_i /\
             shape1 (field_of (download p false) c) = n_j) ->
  (c < 3)%nat -> (y < n_i)%nat -> (x < n_j)%nat ->
  nth (c * (n_i * n_j) + y * n_j + x) (state_vector p) 0
  = at2 (field_of (download p false) c) y x.
Proof.
  intros H Hc Hy Hx. unfold state_vector.
  pose proof (H 0%nat) as [A0 A1]. pose proof (H 1%nat) as [B0 B1].
  pose proof (H 2%nat) as [C0 C1].
  destruct (download p false) as [[eta hu] hv]. cbn [field_of fst snd] in *.
  assert (Hin : (y * n_j + x < n_i * n_j)%nat) by nia.
  destruct c as [|[|[|c]]]; [| | |lia]; cbn [field_of fst snd Nat.mul Nat.add].
  - rewrite app_nth1 by (rewrite length_flatten, A0, A1; exact Hin).
    rewrite <- A1 at 1. apply flatten_nth; lia.
  - rewrite app_nth2 by (rewrite length_flatten, A0, A1; lia).
    rewrite length_flatten, A0, A1.
    replace (n_i * n_j + 0 + y * n_j + x - n_i * n_j)%nat with (y * n_j + x)%nat by lia.
    rewrite app_nth1 by (rewrite length_flatten, B0, B1; exact Hin).
    rewrite <- B1 at 1. apply flatten_nth; lia.
  - rewrite app_nth2 by (rewrite length_flatten, A0, A1; lia).
    rewrite length_flatten, A0, A1.
    rewrite app_nth2 by (rewrite length_flatten, B0, B1; lia).
    rewrite length_flatten, B0, B1.
    replace (n_i * n_j + (n_i * n_j + 0) + y * n_j + x - n_i * n_j - n_i * n_j)%nat
      with (y * n_j + x)%nat by lia.
    rewrite <- C1 at 1. apply flatten_nth; lia.
Qed.

Lemma getX_f_loop_returns es :
  forall idx X w,
    let self := the_filter w in
    let ens := self_ensemble self in
    shape0 X = (3 * (n_i self * n_j self))%nat ->
    full_downloads_fit (particles ens) (n_i self) (n_j self) ->
    (forall e, In e es ->
       (e < length (particlesActive ens))%nat /\ (e < length (particles ens))%nat) ->
    (idx + length (active_of self es) <= shape1 X)%nat ->
    exists X',
      getX_f_loop es idx X w
      = (Ok X', mkWorld self
                  (the_calls w ++ map (fun e => CallDownload e false) (active_of self es))) /\
      shape0 X' = shape0 X /\ shape1 X' = shape1 X /\
      (forall k e p r,
         nth_error (active_of self es) k = Some e ->
         nth_error (particles ens) e = Some p ->
         (r < shape0 X)%nat ->
         at2 X' r (idx + k) = nth r (state_vector p) 0) /\
      (forall k r, (k < idx)%nat -> at2 X' r k = at2 X r k).
Proof.
  induction es as [|e es IH]; intros idx X w self ens S0 Hfit Hin Hlen;
    subst ens self.
  - exists X. cbn [getX_f_loop ret active_of filter map]. rewrite app_nil_r.
    destruct w. repeat split. intros k e p r Hk. destruct k; discriminate.
  - destruct (Hin e (or_introl eq_refl)) as [Hea Hep].
    cbn [getX_f_loop]. unfold bindM at 1. cbn [get_self].
    unfold bindM at 1, lift at 1.
    rewrite (getitem_nth _ _ false Hea).
    cbn [active_of filter] in Hlen |- *. fold (active_of (the_filter w) es) in Hlen |- *.
    destruct (nth e (particlesActive (self_ensemble (the_filter w))) false) eqn:Eact.
    + cbn [length] in Hlen.
      destruct (nth_error (particles (self_ensemble (the_filter w))) e) as [p|] eqn:Ep.
      2:{ apply nth_error_None in Ep. lia. }
      unfold bindM at 1, lift at 1. unfold getitem at 1. rewrite Ep.
      unfold bindM at 1, emit at 1.
      assert (Hp : forall c, shape0 (field_of (download p false) c) = n_i (the_filter w) /\
                             shape1 (field_of (download p false) c) = n_j (the_filter w)).
      { intros c. apply Hfit. eapply nth_error_In. exact Ep. }
      pose proof (state_vector_length p _ _ Hp) as Hsl.
      pose proof (Hp 0%nat) as [A0 A1]. pose proof (Hp 1%nat) as [B0 B1].
      pose proof (Hp 2%nat) as [C0 C1].
      assert (Hsv : state_vector p
                    = flatten (field_of (download p false) 0)
                      ++ (flatten (field_of (download p false) 1)
                          ++ flatten (field_of (download p false) 2)))
        by (unfold state_vector; destruct (download p false) as [[? ?] ?]; reflexivity).
      destruct (download p false) as [[eta hu] hv]. cbn [field_of fst snd] in *.
      cbn [the_filter].
      unfold bindM at 1, lift at 1, reshape1 at 1. rewrite A0, A1, Nat.eqb_refl.
      unfold bindM at 1, lift at 1, reshape1 at 1. rewrite B0, B1, Nat.eqb_refl.
      unfold bindM at 1, lift at 1, reshape1 at 1. rewrite C0, C1, Nat.eqb_refl.
      unfold bindM at 1, lift at 1.
      rewrite set_column_returns by (rewrite <- ?Hsv, ?Hsl; lia).
      set (X1 := mkArray2 _ _ _).
      destruct (IH (S idx) X1
                  (mkWorld (the_filter w) (the_calls w ++ [CallDownload e false])))
        as (X' & HX' & D0 & D1 & Dnew & Dold).
      * exact S0.
      * exact Hfit.
      * intros e' He'. apply Hin. right. exact He'.
      * cbn [the_filter X1 shape1]. lia.
      * exists X'. rewrite HX'. cbn [the_filter the_calls map].
        rewrite <- app_assoc. split; [reflexivity|].
        split; [exact D0|]. split; [exact D1|]. split.
        -- intros k e' p' r Hk Hp' Hr. destruct k as [|k].
           ++ cbn [nth_error] in Hk. injection Hk as <-.
              rewrite Ep in Hp'. injection Hp' as <-.
              rewrite Nat.add_0_r, Dold by lia. unfold X1. cbn [at2].
              rewrite Nat.eqb_refl, <- Hsv. rewrite bidx_lt by (rewrite Hsl; lia).
              reflexivity.
           ++ cbn [nth_error] in Hk.
              replace (idx + S k)%nat with (S idx + k)%nat by lia.
              apply (Dnew k e' p' r Hk Hp'). exact Hr.
        -- intros k r Hk. rewrite Dold by lia. unfold X1. cbn [at2].
           destruct (Nat.eqb_spec k idx) as [->|_]; [lia | reflexivity].
    + destruct (IH idx X w S0 Hfit) as (X' & HX' & D).
      * intros e' He'. apply Hin. right. exact He'.
      * exact Hlen.
      * exists X'. split; [exact HX' | exact D].
Qed.


(** X24. [_getX_f] builds the state matrix of the active particles.
    When the filter counts as many active particles as flags are set
    and every download with ghost cells has [n_i] rows and [n_j]
    columns, it returns after one such download per active particle, in
    their order, and leaves the filter as it is.  Column [k] holds the
    fields of the [k]-th active particle, [eta] above [hu] above [hv],
    each row by row: entry [c * n_i * n_j + y * n_j + x] is field [c] at
    (y, x).  Every entry is the mean of its row plus its perturbation,
    and the perturbations of a row add up to 0. *)
Theorem getX_f_layout (w : World) (N_a : nat)
  (HNa : N_e_active (the_filter w) = Some N_a)
  (Hcount : length (active_of (the_filter w) (seq 0 (N_e (the_filter w)))) = N_a)
  (Hfit : full_downloads_fit (particles (self_ensemble (the_filter w)))
            (n_i (the_filter w)) (n_j (the_filter w)))
  (Hflags : (N_e (the_filter w)
             <= length (particlesActive (self_ensemble (the_filter w))))%nat)
  (Hparticles : (N_e (the_filter w)
                 <= length (particles (self_ensemble (the_filter w))))%nat) :
  let self := the_filter w in
  let n := (n_i self * n_j self)%nat in
  let active := active_of self (seq 0 (N_e self)) in
  exists X_f X_f_mean X_f_pert,
    _getX_f w
    = (Ok (X_f, X_f_mean, X_f_pert),
       mkWorld self (the_calls w ++ map (fun e => CallDownload e false) active)) /\
    shape0 X_f = (3 * n)%nat /\ shape1 X_f = N_a /\
    (forall k e p c y x,
       nth_error active k = Some e ->
       nth_error (particles (self_ensemble self)) e = Some p ->
       (c < 3)%nat -> (y < n_i self)%nat -> (x < n_j self)%nat ->
       at2 X_f (c * n + y * n_j self + x) k = at2 (field_of (download p false) c) y x) /\
    (forall r k, (r < 3 * n)%nat -> at2 X_f r k = nth r X_f_mean 0 + at2 X_f_pert r k) /\
    (forall r, (r < 3 * n)%nat -> sum_n (fun k => at2 X_f_pert r k) N_a = 0).
Proof.
  intros self n active. subst self n active.
  destruct (getX_f_loop_returns (seq 0 (N_e (the_filter w))) 0
              (np.zeros (3 * n_i (the_filter w) * n_j (the_filter w)) N_a) w)
    as (X & HX & S0 & S1 & Hnew & _).
  - cbn [np.zeros shape0]. lia.
  - exact Hfit.
  - intros e He. apply in_seq in He. lia.
  - cbn [np.zeros shape1]. lia.
  - cbn [np.zeros shape0 shape1] in S0, S1, Hnew.
    unfold _getX_f. unfold bindM at 1. cbn [get_self].
    unfold bindM at 1, lift at 1. rewrite HNa. cbn [getattr].
    unfold bindM at 1. rewrite HX. cbn [ret].
    eexists _, _, _. split; [reflexivity|].
    split; [rewrite S0; lia|]. split; [exact S1|]. split; [|split].
    + intros k e p c y x Hk Hp Hc Hy Hx.
      rewrite <- (Nat.add_0_l k) at 1.
      rewrite (Hnew k e p _ Hk Hp) by nia.
      apply state_vector_layout; try assumption.
      intros c'. apply Hfit. eapply nth_error_In. exact Hp.
    + intros r k Hr. cbn [at2]. ring.
    + intros r Hr. cbn [at2]. rewrite sum_n_minus, sum_n_const.
      rewrite nth_map_seq.
      replace (r <? 3 * n_i (the_filter w) * n_j (the_filter w))%nat with true
        by (symmetry; apply Nat.ltb_lt; lia).
      rewrite sum_n_scal.
      destruct (Nat.eq_dec N_a 0) as [->|Hne]; [cbn; ring|].
      field. apply not_0_INR. exact Hne.
Qed.

End StateMatrixProofs.

Lemma still_water_full_downloads :
  @full_downloads_fit still_water (particles one_buoy) 14 14.
Proof.
  intros p c Hp. cbn [one_buoy particles In] in Hp.
  destruct Hp as [<-|[<-|[<-|[]]]]; destruct c as [|[|c]]; split; reflexivity.
Qed.

Lemma getX_f_layout_witness :
  exists X_f X_f_mean X_f_pert w',
    @_getX_f still_water (mkWorld one_buoy_filter []) = (Ok (X_f, X_f_mean, X_f_pert), w') /\
    the_calls w' = [CallDownload 0 false; CallDownload 1 false; CallDownload 2 false] /\
    shape0 X_f = 588%nat /\ shape1 X_f = 3%nat /\
    at2 X_f (196 + 3 * 14 + 5) 2 = at2 (p_hu particle_10) 3 5.
Proof.
  destruct (@getX_f_layout still_water (mkWorld one_buoy_filter []) 3 eq_refl eq_refl
              still_water_full_downloads)
    as (X & Xm & Xp & Hrun & S0 & S1 & Hlay & _); [cbn; lia | cbn; lia |].
  eexists X, Xm, Xp, _. split; [exact Hrun|]. split; [reflexivity|].
  split; [exact S0|]. split; [exact S1|].
  exact (Hlay 2%nat 2%nat particle_10 1%nat 3%nat 5%nat eq_refl eq_refl
           ltac:(cbn; lia) ltac:(cbn; lia) ltac:(cbn; lia)).
Defined.

(** ** The matrix of [_constructRinv] *)

Lemma split_index N i :
  (i < 2 * N)%nat ->
  ((i < N)%nat /\ (i / N = 0)%nat /\ (i mod N = i)%nat) \/
  ((N <= i)%nat /\ (i / N = 1)%nat /\ (i mod N = i - N)%nat).
Proof.
  intros Hi. destruct (Nat.lt_ge_cases i N) as [Hlt|Hge].
  - left. split; [exact Hlt|]. split; [apply Nat.div_small | apply Nat.mod_small]; exact Hlt.
  - right. split; [exact Hge|].
    destruct (div_mod_block 1 (i - N) N ltac:(lia)) as [Hd Hm].
    replace (1 * N + (i - N))%nat with i in Hd, Hm by lia.
    split; [exact Hd | exact Hm].
Qed.

Lemma setitem2_Ok A i j v :
  (i < shape0 A)%nat -> (j < shape1 A)%nat ->
  setitem2 A i j v
  = Ok (mkArray2 (shape0 A) (shape1 A)
          (fun y x => if Nat.eqb y i && Nat.eqb x j then v else at2 A y x)).
Proof.
  intros Hi Hj. unfold setitem2. apply Nat.ltb_lt in Hi. apply Nat.ltb_lt in Hj.
  rewrite Hi, Hj. reflexivity.
Qed.

Lemma constructR_loop_blocks R_orig N n :
  shape0 R_orig = 2%nat -> shape1 R_orig = 2%nat ->
  forall a R, (a + n = N)%nat -> blocks_below R_orig N a R ->
    exists R', constructR_loop R_orig N (seq a n) R = Ok R' /\
               blocks_below R_orig N N R'.
Proof.
  intros H0 H1. induction n as [|n IH]; intros a R Han (S0 & S1 & Hent).
  - exists R. replace a with N in * by lia. split; [reflexivity|]. repeat split; assumption.
  - cbn [seq constructR_loop]. unfold getitem2. rewrite H0, H1. cbn [Nat.ltb Nat.leb andb bind].
    rewrite setitem2_Ok by lia. cbn [bind].
    rewrite setitem2_Ok by (cbn [shape0 shape1]; lia). cbn [bind].
    rewrite setitem2_Ok by (cbn [shape0 shape1]; lia). cbn [bind].
    rewrite setitem2_Ok by (cbn [shape0 shape1]; lia). cbn [bind shape0 shape1 at2].
    apply (IH (S a)); [lia|].
    split; [exact S0|]. split; [exact S1|]. cbn [at2].
    intros i j Hi Hj. rewrite (Hent i j Hi Hj).
    destruct (split_index N i Hi) as [(Hi1 & Hid & Him)|(Hi1 & Hid & Him)];
      destruct (split_index N j Hj) as [(Hj1 & Hjd & Hjm)|(Hj1 & Hjd & Hjm)];
      rewrite Hid, Him, Hjd, Hjm;
      repeat match goal with
             | |- context [Nat.eqb ?x ?y] => destruct (Nat.eqb_spec x y)
             | |- context [Nat.ltb ?x ?y] => destruct (Nat.ltb_spec x y)
             end; cbn [andb]; try reflexivity; try lia.
Qed.

(** X25. [_constructRinv] inverts the covariance of all observations at
    once, ordered by component: for a 2 x 2 covariance [R_orig] of one
    observation, the matrix it builds has [2 N_d] rows and columns, and
    its entry (i, j) is [R_orig[i // N_d, j // N_d]] when [i] and [j]
    belong to the same observation ([i % N_d = j % N_d]) and 0 otherwise;
    what it returns is the inverse of this matrix. *)
Theorem constructRinv_blocks (self : LEnKF)
  (Hrows : shape0 (getObservationCov (self_ensemble self)) = 2%nat)
  (Hcols : shape1 (getObservationCov (self_ensemble self)) = 2%nat) :
  exists R,
    constructR self = Ok R /\
    _constructRinv self = linalg.inv R /\
    shape0 R = (2 * N_d self)%nat /\ shape1 R = (2 * N_d self)%nat /\
    forall i j, (i < 2 * N_d self)%nat -> (j < 2 * N_d self)%nat ->
      at2 R i j =
      if Nat.eqb (i mod N_d self) (j mod N_d self)
      then at2 (getObservationCov (self_ensemble self)) (i / N_d self) (j / N_d self)
      else 0.
Proof.
  destruct (constructR_loop_blocks (getObservationCov (self_ensemble self)) (N_d self)
              (N_d self) Hrows Hcols 0
              (np.zeros (2 * N_d self) (2 * N_d self)))
    as (R & HR & S0 & S1 & Hent).
  - reflexivity.
  - split; [reflexivity|]. split; [reflexivity|]. intros i j _ _. cbn [np.zeros at2].
    replace (i mod N_d self <? 0)%nat with false by (symmetry; apply Nat.ltb_ge; lia).
    rewrite Bool.andb_false_r. reflexivity.
  - exists R. unfold _constructRinv, constructR. rewrite Hrows, Hcols, HR. cbn [bind].
    split; [reflexivity|]. split.
    { unfold np_linalg_inv. rewrite S0, S1, Nat.eqb_refl. reflexivity. }
    split; [exact S0|]. split; [exact S1|].
    intros i j Hi Hj. rewrite (Hent i j Hi Hj).
    replace (i mod N_d self <? N_d self)%nat with true;
      [rewrite Bool.andb_true_r; reflexivity|].
    symmetry. apply Nat.ltb_lt. apply Nat.mod_upper_bound. lia.
Qed.

Lemma constructRinv_blocks_witness :
  let cov := mkArray2 2 2 (fun i j => INR (2 * i + j + 1)) in
  let self :=
    {| self_ensemble :=
         mkEnsemble [particle_10] [true] 1 1 2 StaticBuoys 1 1 10 10 cov
           [[5; 5; 0; 0]; [2; 2; 0; 0]] [(5, 5); (2, 2)] false 1;
       N_e := 1; N_d := 2; n_i := 14; n_j := 14;
       self_ghost_cells_y := 2; self_ghost_cells_x := 2;
       inflation_factor := 1; scale_w := 1; r_factor := 0.5;
       W_loc := None; all_Ls := None; all_xrolls := []; all_yrolls := [];
       groups := None; method := "SEnKF"; N_e_active := Some 1%nat;
       drifter_positions := None; W_analyses := None; W_forecasts := None |} in
  exists R,
    constructR self = Ok R /\
    at2 R 2 0 = 3 /\ at2 R 0 1 = 0 /\ at2 R 3 3 = 4.
Proof.
  intros cov self.
  destruct (constructRinv_blocks self eq_refl eq_refl) as (R & HR & _ & _ & _ & Hent).
  exists R. split; [exact HR|].
  rewrite !Hent by (cbn; lia).
  cbn [self N_d self_ensemble getObservationCov cov at2].
  repeat split; simpl; lra.
Defined.


(* ================================================================= *)
(** * What a call checks of the ensemble it is handed *)

Create HintDb no_assert.

Ltac na :=
  repeat first
    [ apply no_assert_Ok
    | apply no_assert_getitem
    | apply no_assert_getattr
    | apply no_assert_not_none
    | solve [auto with no_assert]
    | (intros ?msg; discriminate)
    | match goal with
      | |- no_assert (bind _ _) => apply no_assert_bind; [|intros ? _]
      | |- no_assert (if ?c then _ else _) => destruct c
      | |- no_assert (match ?x with _ => _ end) => destruct x
      end ].

Lemma no_assert_bdim a b : no_assert (np.bdim a b).
Proof. unfold np.bdim. na. Qed.
#[local] Hint Resolve no_assert_bdim : no_assert.

Lemma no_assert_broadcast op A B : no_assert (np.broadcast op A B).
Proof. unfold np.broadcast. na. Qed.
#[local] Hint Resolve no_assert_broadcast : no_assert.

Lemma no_assert_add A B : no_assert (np.add A B).
Proof. apply no_assert_broadcast. Qed.

Lemma no_assert_subtract A B : no_assert (np.subtract A B).
Proof. apply no_assert_broadcast. Qed.

Lemma no_assert_multiply A B : no_assert (np.multiply A B).
Proof. apply no_assert_broadcast. Qed.
#[local] Hint Resolve no_assert_add no_assert_subtract no_assert_multiply : no_assert.

Lemma no_assert_broadcast1 op u v : no_assert (np.broadcast1 op u v).
Proof. unfold np.broadcast1. na. Qed.

Lemma no_assert_add1 u v : no_assert (np.add1 u v).
Proof. apply no_assert_broadcast1. Qed.

Lemma no_assert_subtract1 u v : no_assert (np.subtract1 u v).
Proof. apply no_assert_broadcast1. Qed.
#[local] Hint Resolve no_assert_add1 no_assert_subtract1 : no_assert.

Lemma no_assert_matmul A B : no_assert (np.matmul A B).
Proof. unfold np.matmul. na. Qed.

Lemma no_assert_matvec A v : no_assert (np.matvec A v).
Proof. unfold np.matvec. na. Qed.

Lemma no_assert_compress_cols A m : no_assert (np.compress_cols A m).
Proof. unfold np.compress_cols. na. Qed.

Lemma no_assert_py_div a b : no_assert (py_div a b).
Proof. unfold py_div. na. Qed.

Lemma no_assert_inv A : no_assert (linalg.inv A).
Proof. unfold linalg.inv. na. Qed.
#[local] Hint Resolve no_assert_matmul no_assert_matvec no_assert_compress_cols
  no_assert_py_div no_assert_inv : no_assert.

Lemma no_assert_solve A B : no_assert (linalg.solve A B).
Proof. unfold linalg.solve. na. Qed.

Lemma no_assert_reshape2 A n m : no_assert (reshape2 A n m).
Proof. unfold reshape2. na. Qed.

Lemma no_assert_set_slab X i c A : no_assert (set_slab X i c A).
Proof. unfold set_slab. na. Qed.

Lemma no_assert_extract_local X L xr yr W0 W1 N : no_assert (extract_local X L xr yr W0 W1 N).
Proof. unfold extract_local. na. Qed.

Lemma no_assert_extract_local_mean X L xr yr W0 W1 :
  no_assert (extract_local_mean X L xr yr W0 W1).
Proof. unfold extract_local_mean. na. Qed.

Lemma no_assert_assert_index b : no_assert (assert_index b).
Proof. unfold assert_index. na. Qed.

Lemma no_assert_np_index n i : no_assert (np_index n i).
Proof. unfold np_index. na. Qed.
#[local] Hint Resolve no_assert_solve no_assert_reshape2 no_assert_set_slab
  no_assert_extract_local no_assert_extract_local_mean no_assert_assert_index
  no_assert_np_index : no_assert.

Lemma no_assert_observed_cell self X xy : no_assert (observed_cell self X xy).
Proof. unfold observed_cell. na. Qed.
#[local] Hint Resolve no_assert_observed_cell : no_assert.

Lemma no_assert_observed_cells self X obs ds : no_assert (observed_cells self X obs ds).
Proof. induction ds as [|d ds IH]; cbn [observed_cells]; na. Qed.
#[local] Hint Resolve no_assert_observed_cells : no_assert.

Lemma no_assert_scatter_variable X i Xl W L xr yr N :
  no_assert (scatter_variable X i Xl W L xr yr N).
Proof. unfold scatter_variable. na. Qed.
#[local] Hint Resolve no_assert_scatter_variable : no_assert.

Lemma no_assert_scatter_local X Xl W L xr yr N : no_assert (scatter_local X Xl W L xr yr N).
Proof. unfold scatter_local. na. Qed.

Lemma no_assert_blend W X_f X_a N : no_assert (blend W X_f X_a N).
Proof. unfold blend. na. Qed.

Lemma no_assert_slab X i c : no_assert (slab X i c).
Proof. unfold slab. na. Qed.

Lemma no_assert_embed_interior ny nx gy gx A : no_assert (embed_interior ny nx gy gx A).
Proof. unfold embed_interior. na. Qed.

Lemma no_assert_add_to_columns X v n : no_assert (add_to_columns X v n).
Proof. unfold add_to_columns. na. Qed.

Lemma no_assert_ETKF_innovation y m D : no_assert (ETKF_innovation y m D).
Proof. unfold ETKF_innovation. na. Qed.

Lemma no_assert_ETKF_forgetting_factor i Rinv D N :
  no_assert (ETKF_forgetting_factor i Rinv D N).
Proof. unfold ETKF_forgetting_factor. na. Qed.
#[local] Hint Resolve no_assert_scatter_local no_assert_blend no_assert_slab
  no_assert_embed_interior no_assert_add_to_columns no_assert_ETKF_innovation
  no_assert_ETKF_forgetting_factor : no_assert.

Section LocalUpdatesAssert.
Context {ext : External}.
Hypothesis eigh_no_assert : forall M, no_assert (eigh M).

Lemma no_assert_compensate_for_eta self d y xy X m P :
  no_assert (compensate_for_eta self d y xy X m P).
Proof. unfold compensate_for_eta. na. Qed.

Lemma no_assert_SEnKF_loc self d X P m HP y D : no_assert (SEnKF_loc self d X P m HP y D).
Proof. unfold SEnKF_loc. na. Qed.

Lemma no_assert_ETKF_parts self ens m P hm HP y D :
  no_assert (ETKF_parts self ens m P hm HP y D).
Proof.
  unfold ETKF_parts. na. 
Qed.

Lemma no_assert_ETKF_loc self ens m P hm HP y D :
  no_assert (ETKF_loc self ens m P hm HP y D).
Proof.
  unfold ETKF_loc. apply no_assert_bind; [apply no_assert_ETKF_parts|]. intros ? _. na.
Qed.

Lemma no_assert_assimilate_observation self ens obs X Xm Xp Hm Hp Xa d :
  no_assert (assimilate_observation self ens obs X Xm Xp Hm Hp Xa d).
Proof.
  unfold assimilate_observation.
  pose proof no_assert_compensate_for_eta. pose proof no_assert_SEnKF_loc.
  pose proof no_assert_ETKF_loc.
  na.
Qed.

Lemma no_assert_assimilate_observations self ens obs X Xm Xp Hm Hp ds :
  forall Xa, no_assert (assimilate_observations self ens obs X Xm Xp Hm Hp Xa ds).
Proof.
  induction ds as [|d ds IH]; intros Xa; cbn [assimilate_observations]; [na|].
  apply no_assert_bind; [apply no_assert_assimilate_observation|]. intros ? _. apply IH.
Qed.

End LocalUpdatesAssert.

Lemma no_assert_asserts_only {A} msg0 (m : outcome A) : no_assert m -> asserts_only msg0 m.
Proof. intros H msg E. exfalso. exact (H msg E). Qed.

Lemma asserts_only_bind {A B} msg0 (m : outcome A) (k : A -> outcome B) :
  asserts_only msg0 m -> (forall a, m = Ok a -> asserts_only msg0 (k a)) ->
  asserts_only msg0 (bind m k).
Proof.
  intros Hm Hk msg. destruct m as [a|e|]; simpl.
  - apply Hk. reflexivity.
  - intros E. injection E as ->. apply Hm. reflexivity.
  - discriminate.
Qed.

Lemma asserts_only_bindM {A B} msg0 (m : Run A) (k : A -> Run B) w :
  asserts_only msg0 (fst (m w)) ->
  (forall a w1, m w = (Ok a, w1) -> asserts_only msg0 (fst (k a w1))) ->
  asserts_only msg0 (fst (bindM m k w)).
Proof.
  intros Hm Hk msg. unfold bindM. destruct (m w) as [[a|e|] w1] eqn:E; cbn [fst] in *.
  - exact (Hk a w1 eq_refl msg).
  - intros E'. injection E' as ->. apply (Hm msg). reflexivity.
  - discriminate.
Qed.

Lemma run_asserts_only_bind {A B} msg0 (m : Run A) (k : A -> Run B) :
  run_asserts_only msg0 m -> (forall a, run_asserts_only msg0 (k a)) ->
  run_asserts_only msg0 (bindM m k).
Proof.
  intros Hm Hk w. apply asserts_only_bindM; [apply Hm|]. intros a w1 _. apply Hk.
Qed.

Lemma run_no_assert_asserts_only {A} msg0 (m : Run A) :
  run_no_assert m -> run_asserts_only msg0 m.
Proof. intros H w. apply no_assert_asserts_only. apply H. Qed.

Lemma run_no_assert_emit ev : run_no_assert (emit ev).
Proof. intros w msg. discriminate. Qed.

Section RunsAssert.
Context {ext : External}.
Hypothesis eigh_no_assert : forall M, no_assert (eigh M).

Lemma run_no_assert_download_particles es :
  forall idx X, run_no_assert (download_particles es idx X).
Proof.
  induction es as [|e es IH]; intros idx X; cbn [download_particles].
  - apply run_no_assert_ret.
  - apply run_no_assert_bind; [apply run_no_assert_get_self|]. intros self.
    apply run_no_assert_bind; [apply run_no_assert_lift, no_assert_getitem|].
    intros [|]; [|apply IH].
    apply run_no_assert_bind; [apply run_no_assert_lift, no_assert_getitem|]. intros p.
    apply run_no_assert_bind; [apply run_no_assert_emit|]. intros _.
    destruct (download p true) as [[eta hu] hv].
    apply run_no_assert_bind; [apply run_no_assert_lift, no_assert_set_slab|]. intros X1.
    apply run_no_assert_bind; [apply run_no_assert_lift, no_assert_set_slab|]. intros X2.
    apply run_no_assert_bind; [apply run_no_assert_lift, no_assert_set_slab|]. intros X3.
    apply IH.
Qed.

Lemma run_no_assert_giveX_f_global X b : run_no_assert (giveX_f_global X b).
Proof.
  unfold giveX_f_global.
  apply run_no_assert_bind; [apply run_no_assert_get_self|]. intros self.
  apply run_no_assert_bind.
  - destruct b; [apply run_no_assert_download_particles | apply run_no_assert_ret].
  - intros X'. apply run_no_assert_ret.
Qed.

(** The only assertion of [giveHX_f_global] is the one of
    [observe_particles_from_X_f], on the number of observations. *)
Lemma giveHX_f_global_asserts self X obs :
  asserts_only "mismatch between observations and N_d" (giveHX_f_global self X obs).
Proof.
  unfold giveHX_f_global, observe_particles_from_X_f.
  apply asserts_only_bind.
  - apply asserts_only_bind.
    + unfold assert. destruct (_ =? _)%nat; intros msg E; [discriminate|].
      injection E as <-. reflexivity.
    + intros _ _. apply no_assert_asserts_only. na.
  - intros HX _. apply no_assert_asserts_only. na.
Qed.

Lemma assimilate_groups_asserts ensemble observations gs :
  forall g X,
    run_asserts_only "mismatch between observations and N_d"
      (assimilate_groups ensemble observations gs g X).
Proof.
  induction gs as [|G gs IH]; intros g X; cbn [assimilate_groups].
  - apply run_no_assert_asserts_only, run_no_assert_ret.
  - apply run_asserts_only_bind;
      [apply run_no_assert_asserts_only, run_no_assert_giveX_f_global|].
    intros [[X1 Xm] Xp].
    apply run_asserts_only_bind;
      [apply run_no_assert_asserts_only, run_no_assert_get_self|]. intros self.
    apply run_asserts_only_bind.
    { intros w. apply giveHX_f_global_asserts. }
    intros HX.
    apply run_asserts_only_bind.
    { apply run_no_assert_asserts_only, run_no_assert_lift.
      apply no_assert_assimilate_observations. exact eigh_no_assert. }
    intros X_a.
    apply run_asserts_only_bind;
      [apply run_no_assert_asserts_only, run_no_assert_lift, no_assert_getattr|].
    intros N_a.
    apply run_asserts_only_bind.
    { apply run_no_assert_asserts_only, run_no_assert_lift.
      destruct (N_a =? 0)%nat; na. }
    intros X_new. apply IH.
Qed.

Lemma run_no_assert_upload_particles X es :
  forall idx, run_no_assert (upload_particles X es idx).
Proof.
  induction es as [|e es IH]; intros idx; cbn [upload_particles].
  - apply run_no_assert_ret.
  - apply run_no_assert_bind; [apply run_no_assert_get_self|]. intros self.
    apply run_no_assert_bind; [apply run_no_assert_lift, no_assert_getitem|].
    intros [|]; [|apply IH].
    apply run_no_assert_bind; [apply run_no_assert_lift; na|]. intros eta.
    apply run_no_assert_bind; [apply run_no_assert_lift; na|]. intros hu.
    apply run_no_assert_bind; [apply run_no_assert_lift; na|]. intros hv.
    apply run_no_assert_bind; [apply run_no_assert_lift, no_assert_getitem|]. intros p.
    apply run_no_assert_bind; [apply run_no_assert_emit|]. intros _.
    apply run_no_assert_bind; [apply run_no_assert_set_self|]. intros _.
    apply run_no_assert_bind; [apply run_no_assert_get_self|]. intros self2.
    apply run_no_assert_bind; [apply run_no_assert_lift, no_assert_getitem|]. intros p2.
    apply run_no_assert_bind; [apply run_no_assert_emit|]. intros _.
    apply run_no_assert_bind; [apply run_no_assert_set_self|]. intros _.
    apply IH.
Qed.

Lemma run_no_assert_uploadAnalysis X : run_no_assert (uploadAnalysis X).
Proof.
  unfold uploadAnalysis.
  apply run_no_assert_bind; [apply run_no_assert_get_self|]. intros self.
  apply run_no_assert_upload_particles.
Qed.

(** After the preparation, the call fails no assertion but the one on the
    number of observations. *)
Lemma assimilate_asserts_after_prepare ensemble r w :
  asserts_only "mismatch between observations and N_d"
    (fst (_prepare_LEnKF ensemble r w)) ->
  asserts_only "mismatch between observations and N_d"
    (fst (assimilate ensemble r w)).
Proof.
  intros Hprep. unfold assimilate.
  apply asserts_only_bindM.
  - unfold analysis. apply asserts_only_bindM; [exact Hprep|]. intros _ w1 _.
    revert w1.
    change (run_asserts_only "mismatch between observations and N_d"
              (self <~ get_self ;;
               N_a <~ lift (getattr (N_e_active self)) ;;
               _ <~ lift (getattr (W_loc self)) ;;
               gs <~ lift (not_none (groups self)) ;;
               assimilate_groups ensemble (observeTrueState (self_ensemble self)) gs 0
                 (zeros4 N_a 3 (ens_ny (self_ensemble self))
                    (ens_nx (self_ensemble self))))).
    apply run_asserts_only_bind;
      [apply run_no_assert_asserts_only, run_no_assert_get_self|]. intros self.
    apply run_asserts_only_bind;
      [apply run_no_assert_asserts_only, run_no_assert_lift, no_assert_getattr|].
    intros N_a.
    apply run_asserts_only_bind;
      [apply run_no_assert_asserts_only, run_no_assert_lift, no_assert_getattr|].
    intros _.
    apply run_asserts_only_bind;
      [apply run_no_assert_asserts_only, run_no_assert_lift, no_assert_not_none|].
    intros gs. apply assimilate_groups_asserts.
  - intros X w1 _. apply no_assert_asserts_only. apply run_no_assert_uploadAnalysis.
Qed.

End RunsAssert.

(** ** A particle switched off *)

Lemma set_slab_shape0 X i c A X' : set_slab X i c A = Ok X' -> a4_shape0 X' = a4_shape0 X.
Proof.
  unfold set_slab. destruct (negb _); [discriminate|]. destruct (negb _); [discriminate|].
  intros H. injection H as <-. reflexivity.
Qed.

Section SwitchedOff.
Context {ext : External}.

Lemma download_particles_shape0 es :
  forall idx X w X' w',
    download_particles es idx X w = (Ok X', w') -> a4_shape0 X' = a4_shape0 X.
Proof.
  induction es as [|e es IH]; intros idx X0 w0 X' w' H; cbn [download_particles] in H.
  - injection H as <- _. reflexivity.
  - apply bindM_Ok in H. destruct H as (self & w3 & Hs & H). injection Hs as <- <-.
    apply bindM_Ok in H. destruct H as (act & w3 & Ha & H).
    apply lift_Ok in Ha. destruct Ha as [_ ->].
    destruct act.
    + apply bindM_Ok in H. destruct H as (p & w3 & Hp & H).
      apply lift_Ok in Hp. destruct Hp as [_ ->].
      apply bindM_Ok in H. destruct H as ([] & w3 & He & H).
      injection He as <-.
      destruct (download p true) as [[eta hu] hv].
      apply bindM_Ok in H. destruct H as (Xa & w4 & HXa & H).
      apply lift_Ok in HXa. destruct HXa as [HXa ->].
      apply bindM_Ok in H. destruct H as (Xb & w4 & HXb & H).
      apply lift_Ok in HXb. destruct HXb as [HXb ->].
      apply bindM_Ok in H. destruct H as (Xc & w4 & HXc & H).
      apply lift_Ok in HXc. destruct HXc as [HXc ->].
      apply IH in H. apply set_slab_shape0 in HXa, HXb, HXc. congruence.
    + apply IH in H. exact H.
Qed.

Lemma giveX_f_global_shape0 X_f b w X1 Xm Xp w' :
  giveX_f_global X_f b w = (Ok (X1, Xm, Xp), w') -> a4_shape0 X1 = a4_shape0 X_f.
Proof.
  unfold giveX_f_global. intros H.
  apply bindM_Ok in H. destruct H as (self & w1 & Hs & H). injection Hs as <- <-.
  apply bindM_Ok in H. destruct H as (X & w1 & HX & H).
  injection H as <- _ _ _.
  destruct b.
  - exact (download_particles_shape0 _ _ _ _ _ _ HX).
  - injection HX as <- _. reflexivity.
Qed.

Lemma giveHX_f_global_shape0 self X_f observations HXm HXp :
  giveHX_f_global self X_f observations = Ok (HXm, HXp) ->
  a3_shape0 HXp = a4_shape0 X_f.
Proof.
  unfold giveHX_f_global, observe_particles_from_X_f. intros H.
  apply bind_Ok in H. destruct H as (HX & HHX & H).
  apply bind_Ok in HHX. destruct HHX as (u & _ & HHX).
  apply bind_Ok in HHX. destruct HHX as (cs & _ & HHX).
  destruct (_ && _); [discriminate|]. injection HHX as <-.
  apply bind_Ok in H. destruct H as (N_a & _ & H).
  apply bind_Ok in H. destruct H as (c & _ & H).
  injection H as _ <-. reflexivity.
Qed.

(** [SEnKF_loc] draws one perturbed observation per particle of the
    ensemble: with another number of columns, more than one, it does not
    return, whether it computes the innovation or is handed one that
    [compensate_for_eta] computed. *)
Lemma SEnKF_loc_switched_off self d X_f_loc X_f_loc_pert HX_f_loc_mean HX_f_loc_pert
  y_loc X :
  (1 < shape1 HX_f_loc_pert)%nat -> shape1 HX_f_loc_pert <> N_e self ->
  SEnKF_loc self d X_f_loc X_f_loc_pert HX_f_loc_mean HX_f_loc_pert y_loc None <> Ok X.
Proof.
  intros H1 Hne H. unfold SEnKF_loc in H.
  apply bind_Ok in H. destruct H as (D & HD & H).
  apply bind_Ok in H. destruct H as (c & Hc & _).
  apply py_div_Ok in Hc. destruct Hc as [Hc _].
  assert (HNe : N_e self <> 1%nat) by (intros E; apply Hc, INR_minus_1_zero, E).
  apply bind_Ok in HD. destruct HD as (Y & HY & HD).
  apply bind_Ok in HD. destruct HD as (HX & HHX & HD).
  apply broadcast_shape in HY. destruct HY as [HY0 _].
  apply broadcast_shape in HHX. destruct HHX as [_ HHX1].
  apply broadcast_shape in HD. destruct HD as [_ HD1].
  cbn [np.row np.column np.multivariate_normal np.T shape0 shape1] in HY0, HHX1, HD1.
  rewrite bdim_one_l in HY0, HHX1. injection HY0 as HY0. injection HHX1 as HHX1.
  rewrite <- HY0, <- HHX1 in HD1. apply bdim_Ok in HD1.
  destruct HD1 as [[E _]|[[E _]|[E _]]]; lia.
Qed.

Lemma compensated_switched_off self d y_loc xy X_f HX_f_loc_mean HX_f_loc_pert D
  X_f_loc X_f_loc_pert X :
  (1 < a4_shape0 X_f)%nat -> a4_shape0 X_f <> N_e self ->
  compensate_for_eta self d y_loc xy X_f HX_f_loc_mean HX_f_loc_pert = Ok D ->
  SEnKF_loc self d X_f_loc X_f_loc_pert HX_f_loc_mean HX_f_loc_pert y_loc (Some D)
  <> Ok X.
Proof.
  intros H1 Hne HD H. unfold SEnKF_loc in H. cbn [bind] in H.
  apply bind_Ok in H. destruct H as (c & Hc & _).
  apply py_div_Ok in Hc. destruct Hc as [Hc _].
  assert (HNe : N_e self <> 1%nat) by (intros E; apply Hc, INR_minus_1_zero, E).
  unfold compensate_for_eta in HD.
  apply bind_Ok in HD. destruct HD as (Y & HY & HD).
  apply bind_Ok in HD. destruct HD as (cell & _ & HD).
  apply bind_Ok in HD. destruct HD as (YE & HYE & _).
  apply broadcast_shape in HY. destruct HY as [HY0 _].
  apply broadcast_shape in HYE. destruct HYE as [_ HYE1].
  cbn [np.row np.multivariate_normal np.T shape0 shape1] in HY0, HYE1.
  rewrite length_map, length_seq in HYE1.
  rewrite bdim_one_l in HY0. injection HY0 as HY0.
  rewrite <- HY0 in HYE1. apply bdim_Ok in HYE1.
  destruct HYE1 as [[E _]|[[E _]|[E _]]]; lia.
Qed.

Lemma ETKF_loc_switched_off self e X_f_loc_mean X_f_loc_pert HX_f_loc_mean
  HX_f_loc_pert y_loc D X :
  length (particlesActive e) <> shape1 HX_f_loc_pert ->
  ETKF_loc self (Some e) X_f_loc_mean X_f_loc_pert HX_f_loc_mean HX_f_loc_pert y_loc D
  <> Ok X.
Proof.
  intros Hne H. unfold ETKF_loc in H.
  apply bind_Ok in H. destruct H as (parts & H & _).
  unfold ETKF_parts in H.
  apply bind_Ok in H. destruct H as (Rinv & _ & H).
  apply bind_Ok in H. destruct H as (D' & _ & H).
  apply bind_Ok in H. destruct H as (N_a & _ & H).
  apply bind_Ok in H. destruct H as (ff & _ & H).
  cbn [getattr bind] in H.
  apply bind_Ok in H. destruct H as (HXa & HHXa & _).
  unfold np.compress_cols in HHXa.
  destruct (Nat.eqb_spec (length (particlesActive e)) (shape1 HX_f_loc_pert));
    [contradiction | discriminate].
Qed.

Lemma assimilate_observation_switched_off self e observations X_f X_f_mean X_f_pert
  HX_f_mean HX_f_pert X_a d N_a X :
  update_misfit self e N_a ->
  a4_shape0 X_f = N_a -> a3_shape0 HX_f_pert = N_a ->
  assimilate_observation self (Some e) observations X_f X_f_mean X_f_pert HX_f_mean
    HX_f_pert X_a d <> Ok X.
Proof.
  intros [Hne Hcase] HX0 HH0 H. unfold assimilate_observation in H.
  do 12 (apply bind_Ok in H; destruct H as (? & _ & H)).
  apply bind_Ok in H. destruct H as (D & HD & H).
  apply bind_Ok in H. destruct H as (X_a_loc & Hloc & _).
  destruct Hcase as [[Hm H1]|[Hm Hlen]]; rewrite Hm in Hloc;
    cbn [String.eqb Ascii.eqb Bool.eqb] in Hloc.
  - destruct (compensate_for_eta_flag (self_ensemble self)).
    + apply bind_Ok in HD. destruct HD as (D0 & HD0 & HD). injection HD as <-.
      revert Hloc. eapply compensated_switched_off; [| |exact HD0]; congruence || lia.
    + injection HD as <-. revert Hloc. apply SEnKF_loc_switched_off;
        cbn [shape1]; congruence || lia.
  - revert Hloc. apply ETKF_loc_switched_off. cbn [shape1]. congruence.
Qed.

Lemma assimilate_groups_switched_off e observations d G gs g X_f w N_a X w' :
  update_misfit (the_filter w) e N_a ->
  a4_shape0 X_f = N_a ->
  assimilate_groups (Some e) observations ((d :: G) :: gs) g X_f w <> (Ok X, w').
Proof.
  intros Hmis HX0 H. cbn [assimilate_groups] in H.
  apply bindM_Ok in H. destruct H as ([[X1 Xm] Xp] & w1 & Hg & H).
  pose proof (giveX_f_global_shape0 _ _ _ _ _ _ _ Hg) as HX1.
  apply giveX_f_global_filter in Hg.
  apply bindM_Ok in H. destruct H as (self & w2 & Hs & H). injection Hs as <- <-.
  apply bindM_Ok in H. destruct H as ([HXm HXp] & w2 & HHX & H).
  apply lift_Ok in HHX. destruct HHX as [HHX ->].
  apply giveHX_f_global_shape0 in HHX.
  apply bindM_Ok in H. destruct H as (X_a & w2 & HXa & _).
  apply lift_Ok in HXa. destruct HXa as [HXa _].
  cbn [assimilate_observations fst snd] in HXa.
  apply bind_Ok in HXa. destruct HXa as (X2 & HXa & _).
  revert HXa. apply (assimilate_observation_switched_off _ e _ _ _ _ _ _ _ _ N_a);
    [rewrite Hg; exact Hmis | congruence | congruence].
Qed.

End SwitchedOff.

(** The first block of [_prepare_LEnKF] aside, the preparation writes
    neither the number of active particles, nor the method, nor the
    number of particles. *)
Lemma prepare_given_fields e r w w1 :
  _prepare_LEnKF (Some e) r w = (Ok tt, w1) ->
  N_e_active (the_filter w1) = Some (getNumActiveParticles e) /\
  method (the_filter w1) = method (the_filter w) /\
  N_e (the_filter w1) = N_e (the_filter w) /\
  the_calls w1 = the_calls w.
Proof.
  rewrite prepare_given. intros H.
  destruct (check_configuration (the_filter w) e) as [[]|x|]; try discriminate.
  set (w0 := mkWorld (with_ensemble (the_filter w) e (Some (getNumActiveParticles e)))
               (the_calls w)) in *.
  destruct (field_update_localisation _ N_e_active
              ltac:(reflexivity) ltac:(reflexivity) ltac:(reflexivity)
              ltac:(reflexivity) ltac:(reflexivity)
              (Some (getNumActiveParticles e)) (the_calls w) r w0 (conj eq_refl eq_refl))
    as [[Hc Hn] _].
  destruct (field_update_localisation _ method
              ltac:(reflexivity) ltac:(reflexivity) ltac:(reflexivity)
              ltac:(reflexivity) ltac:(reflexivity)
              (method (the_filter w)) (the_calls w) r w0 (conj eq_refl eq_refl))
    as [[_ Hm] _].
  destruct (field_update_localisation _ N_e
              ltac:(reflexivity) ltac:(reflexivity) ltac:(reflexivity)
              ltac:(reflexivity) ltac:(reflexivity)
              (N_e (the_filter w)) (the_calls w) r w0 (conj eq_refl eq_refl))
    as [[_ Hn'] _].
  rewrite H in Hc, Hn, Hm, Hn'. cbn [snd] in *. auto.
Qed.

Lemma check_configuration_messages self e first rest x :
  particles e = first :: rest ->
  check_configuration self e = Raise x ->
  exists msg, In msg configuration_messages /\ x = AssertionError msg.
Proof.
  intros Hp. unfold check_configuration, last_particle, getitem.
  rewrite Hp. cbn [nth_error bind]. unfold assert, configuration_messages.
  repeat (match goal with |- context [if ?c then _ else _] => destruct c end;
          cbn [bind]);
    intros H; try discriminate; injection H as <-; eexists; (split; [|reflexivity]);
    cbn [In]; auto.
Qed.

Section CallConfiguration.
Context {ext : External}.


End CallConfiguration.

(** ** A second call with a particle switched off, and one with a drifter more *)

Lemma two_active_HX self X_f :
  self_ensemble self = one_buoy_two_active -> N_d self = 1%nat ->
  N_e_active self = Some 2%nat ->
  a4_shape0 X_f = 2%nat -> a4_shape1 X_f = 3%nat ->
  a4_shape2 X_f = 10%nat -> a4_shape3 X_f = 10%nat ->
  exists HX_f_mean HX_f_pert,
    giveHX_f_global self X_f (observeTrueState one_buoy_two_active)
      = Ok (HX_f_mean, HX_f_pert) /\
    shape0 HX_f_mean = 1%nat /\ shape1 HX_f_mean = 2%nat /\
    a3_shape0 HX_f_pert = 2%nat /\ a3_shape1 HX_f_pert = 1%nat /\
    a3_shape2 HX_f_pert = 2%nat.
Proof.
  intros He Hd Ha F0 F1 F2 F3.
  unfold giveHX_f_global, observe_particles_from_X_f.
  rewrite Hd, Ha. cbn [one_buoy_two_active observeTrueState length Nat.eqb assert bind seq
                       observed_cells getitem nth_error].
  unfold observed_cell. rewrite He, F1, F2, F3.
  cbn [one_buoy_two_active ens_dx ens_dy getitem nth_error bind].
  destruct (Req_dec_T 1 0) as [E|_]; [lra|].
  rewrite (floorZ_eq (5 / 1) 5) by (simpl; lra).
  cbn [np_index Z.leb Z.ltb Z.compare Z.of_nat Pos.of_succ_nat Pos.succ Pos.compare
       Pos.compare_cont andb bind Nat.ltb Nat.leb negb getattr].
  unfold py_div. destruct (Req_dec_T (INR 2) 0) as [E|_]; [simpl in E; lra|].
  cbn [bind]. eexists. eexists. split; [reflexivity|].
  cbn [shape0 shape1 a3_shape0 a3_shape1 a3_shape2]. rewrite F0. repeat split.
Qed.

Lemma two_active_fits : @downloads_fit still_water (particles one_buoy_two_active) 10 10.
Proof.
  intros p Hp. cbn [one_buoy_two_active particles In] in Hp.
  destruct Hp as [<-|[<-|[<-|[]]]]; repeat split.
Qed.

(** The filter that a first call with three active particles has
    prepared is called again with the last particle switched off: the
    preparation goes through, the two active particles are downloaded, and
    the stochastic update of the first observation fails on the shapes
    (2, 3) and (2, 2) of [HX_f_loc_pert + eps], with no upload. *)
Lemma two_active_call :
  exists self,
    _prepare_LEnKF (Some one_buoy) (Some 0.5) (mkWorld fresh_filter [])
      = (Ok tt, mkWorld self []) /\
    N_e self = 3%nat /\ method self = "SEnKF"%string /\
    configuration_matches self one_buoy_two_active particle_10 particle_10 /\
    _prepare_LEnKF (Some one_buoy_two_active) None (mkWorld self [])
      = (Ok tt, mkWorld (with_ensemble self one_buoy_two_active (Some 2%nat)) []) /\
    groups (with_ensemble self one_buoy_two_active (Some 2%nat)) = Some [[0%nat]] /\
    @assimilate still_water (Some one_buoy_two_active) None (mkWorld self [])
      = (Raise ValueError,
         mkWorld (with_ensemble self one_buoy_two_active (Some 2%nat))
           [CallDownload 0 true; CallDownload 1 true]).
Proof.
  destruct one_buoy_prepared_sizes
    as (self & L & W & _ & Hfirst & Hens & HNe & HNd & HNa & Hmeth & Hr & Hw & Hpos
        & Hgroups & Hxr & Hyr & HW & HW0 & HW1 & HLs & HL & Hm0 & Hm1 & Hcount
        & Hni & Hnj).
  exists self. split; [exact Hfirst|]. split; [exact HNe|]. split; [exact Hmeth|].
  assert (Hcfg : configuration_matches self one_buoy_two_active particle_10 particle_10).
  { unfold configuration_matches. rewrite HNe, HNd, Hni, Hnj. repeat split. }
  split; [exact Hcfg|].
  set (self1 := with_ensemble self one_buoy_two_active (Some 2%nat)).
  assert (Hprep : _prepare_LEnKF (Some one_buoy_two_active) None (mkWorld self [])
                  = (Ok tt, mkWorld self1 [])).
  { rewrite prepare_given.
    assert (Hc : check_configuration (the_filter (mkWorld self [])) one_buoy_two_active
                 = Ok tt).
    { apply (check_configuration_spec self one_buoy_two_active particle_10
               [particle_10; particle_10] eq_refl). exact Hcfg. }
    rewrite Hc.
    unfold update_localisation, bindM, get_self, ret, lift, set_self.
    cbn [the_filter the_calls fst snd with_ensemble groups all_Ls self_ensemble
         observation_type one_buoy_two_active ObservationType_eqb negb orb].
    rewrite Hgroups.
    cbn [orb the_filter the_calls fst snd with_ensemble all_Ls self_ensemble
         observation_type one_buoy_two_active ObservationType_eqb negb].
    rewrite HLs. reflexivity. }
  split; [exact Hprep|]. split; [exact Hgroups|].
  assert (Hens1 : self_ensemble self1 = one_buoy_two_active) by reflexivity.
  assert (HNa1 : N_e_active self1 = Some 2%nat) by reflexivity.
  assert (HW' : W_loc self1 = Some W) by exact HW.
  assert (Hg1 : groups self1 = Some [[0%nat]]) by exact Hgroups.
  assert (HNe1 : N_e self1 = 3%nat) by exact HNe.
  assert (HNd1 : N_d self1 = 1%nat) by exact HNd.
  assert (HLs1 : all_Ls self1 = Some [L]) by exact HLs.
  assert (Hxr1 : all_xrolls self1 = [0%Z]) by exact Hxr.
  assert (Hyr1 : all_yrolls self1 = [0%Z]) by exact Hyr.
  assert (Hmeth1 : method self1 = "SEnKF"%string) by exact Hmeth.
  clearbody self1.
  unfold assimilate, analysis. unfold bindM at 1.
  rewrite (bindM_run _ _ _ _ _ Hprep).
  unfold bindM at 1. cbn [get_self the_filter].
  unfold bindM at 1, lift at 1. rewrite HNa1. cbn [getattr].
  unfold bindM at 1, lift at 1. rewrite HW'. cbn [getattr].
  unfold bindM at 1, lift at 1. rewrite Hg1. cbn [not_none].
  rewrite Hens1. cbn [assimilate_groups Nat.eqb].
  set (w1 := mkWorld self1 []).
  destruct (@download_particles_returns still_water (seq 0 3) 0
              (zeros4 2 3 (ens_ny one_buoy_two_active) (ens_nx one_buoy_two_active)) w1)
    as (X_f & HXf & F0 & F1 & F2 & F3).
  { reflexivity. }
  { unfold w1. cbn [the_filter]. rewrite Hens1. exact two_active_fits. }
  { unfold w1. cbn [the_filter]. rewrite Hens1.
    cbn [one_buoy_two_active particles particlesActive length].
    intros e He. apply in_seq in He. lia. }
  { unfold w1, active_of. cbn [the_filter]. rewrite Hens1. cbn. lia. }
  cbn [zeros4 a4_shape0 a4_shape1 a4_shape2 a4_shape3 one_buoy_two_active ens_ny ens_nx]
    in F0, F1, F2, F3.
  assert (Hgive : @giveX_f_global still_water
                    (zeros4 2 3 (ens_ny one_buoy_two_active) (ens_nx one_buoy_two_active))
                    true w1
                  = (Ok (X_f, mean_axis0 X_f, perturbations X_f (mean_axis0 X_f)),
                     mkWorld self1 [CallDownload 0 true; CallDownload 1 true])).
  { unfold giveX_f_global. unfold bindM at 1. cbn [get_self]. unfold w1 at 1 2.
    cbn [the_filter]. rewrite HNe1. fold w1.
    rewrite (bindM_run _ _ _ _ _ HXf). unfold ret. f_equal.
    unfold w1, active_of. cbn [the_filter the_calls]. rewrite Hens1. reflexivity. }
  rewrite (bindM_run _ _ _ _ _ Hgive).
  unfold bindM at 1. cbn [get_self the_filter].
  destruct (two_active_HX self1 X_f Hens1 HNd1 HNa1 F0 F1 F2 F3)
    as (HXm & HXp & HHX & Hm_0 & Hm_1 & Hp_0 & Hp_1 & Hp_2).
  unfold bindM at 1, lift at 1. rewrite HHX. cbn [fst snd].
  assert (Hobs : @assimilate_observations still_water self1 (Some one_buoy_two_active)
                   (observeTrueState one_buoy_two_active) X_f (mean_axis0 X_f)
                   (perturbations X_f (mean_axis0 X_f)) HXm HXp
                   (zeros4 (a4_shape0 X_f) (a4_shape1 X_f) (a4_shape2 X_f) (a4_shape3 X_f))
                   [0%nat] = Raise ValueError).
  { cbn [assimilate_observations]. unfold assimilate_observation.
    rewrite HLs1, Hxr1, Hyr1, HW', HNa1.
    cbn [not_none getitem nth_error getattr bind].
    destruct (extract_local_zero_roll X_f L (shape0 W) (shape1 W) 2)
      as (X_f_loc & -> & Hl0 & Hl1 & _); [congruence .. | rewrite HW0, HW1; exact Hcount |].
    cbn [bind].
    destruct (extract_local_zero_roll (perturbations X_f (mean_axis0 X_f)) L
                (shape0 W) (shape1 W) 2)
      as (X_f_loc_pert & -> & Hp0 & Hp1 & _);
      [cbn; congruence .. | rewrite HW0, HW1; exact Hcount |].
    cbn [bind].
    destruct (extract_local_mean_returns (mean_axis0 X_f) L (shape0 W) (shape1 W))
      as (X_f_loc_mean & ->);
      [cbn; congruence .. | rewrite HW0, HW1; exact Hcount |].
    cbn [bind]. rewrite Hm_0, Hp_1. cbn [Nat.ltb Nat.leb assert_index bind].
    rewrite Hens1.
    cbn [one_buoy_two_active observeTrueState compensate_for_eta_flag bind].
    rewrite Hmeth1. cbn [String.eqb Ascii.eqb Bool.eqb].
    cbn [getitem nth_error bind firstn skipn].
    rewrite (SEnKF_loc_mismatch _ _ _ _ _ _ _ 2); try reflexivity.
    - rewrite length_map, length_seq. exact Hm_1.
    - cbn [shape0]. exact Hp_2.
    - cbn [shape1]. exact Hp_0.
    - lia.
    - rewrite HNe1. lia.
    - rewrite HNe1. lia. }
  unfold bindM at 1, lift at 1. rewrite Hobs. reflexivity.
Qed.




(* ================================================================= *)
(** * The drifter collection of a multi-level ensemble *)

Section Drifters.
Import MLDrifterCollection.

Lemma wrap_index n i :
  (0 < n)%nat -> (i < n + 2)%nat ->
  ((i + n - 1) mod n)%nat =
  if Nat.eqb i 0 then (n - 1)%nat else if Nat.eqb i (n + 1) then 0%nat else (i - 1)%nat.
Proof.
  intros Hn Hi.
  destruct (Nat.eqb_spec i 0) as [->|H0].
  - apply Nat.mod_small. lia.
  - destruct (Nat.eqb_spec i (n + 1)) as [->|H1].
    + replace (n + 1 + n - 1)%nat with (0 + 2 * n)%nat by lia.
      rewrite Nat.Div0.mod_add. apply Nat.Div0.mod_0_l.
    + replace (i + n - 1)%nat with (i - 1 + 1 * n)%nat by lia.
      rewrite Nat.Div0.mod_add. apply Nat.mod_small. lia.
Qed.

(** X15. [_expandPeriodicField] puts a periodic halo of one cell around a
    field that has at least one row and one column: the result has two
    rows and two columns more, and its entry (i, j) is the entry of the
    field at row [i - 1] and column [j - 1] taken modulo the size of the
    field, in the corners too. *)
Theorem expandPeriodicField_wraps (field : array2)
  (Hny : (0 < shape0 field)%nat) (Hnx : (0 < shape1 field)%nat) :
  let ny := shape0 field in
  let nx := shape1 field in
  shape0 (_expandPeriodicField field) = (ny + 2)%nat /\
  shape1 (_expandPeriodicField field) = (nx + 2)%nat /\
  forall i j, (i < ny + 2)%nat -> (j < nx + 2)%nat ->
    at2 (_expandPeriodicField field) i j
    = at2 field ((i + ny - 1) mod ny) ((j + nx - 1) mod nx).
Proof.
  intros ny nx. split; [reflexivity|]. split; [reflexivity|].
  intros i j Hi Hj.
  rewrite (wrap_index ny i Hny Hi), (wrap_index nx j Hnx Hj).
  unfold _expandPeriodicField. fold ny nx.
  cbn [set_row set_col set_inner np.zeros shape0 shape1 at2].
  repeat match goal with
         | |- context [Nat.eqb ?a ?b] => destruct (Nat.eqb_spec a b)
         | |- context [Nat.leb ?a ?b] => destruct (Nat.leb_spec a b)
         | |- context [Nat.ltb ?a ?b] => destruct (Nat.ltb_spec a b)
         end;
    cbn [andb]; try lia; try (f_equal; lia).
Qed.

Lemma expandPeriodicField_inner (field : array2) i j :
  (i < shape0 field)%nat -> (j < shape1 field)%nat ->
  at2 (_expandPeriodicField field) (i + 1) (j + 1) = at2 field i j.
Proof.
  intros Hi Hj. unfold _expandPeriodicField.
  cbn [set_row set_col set_inner np.zeros shape0 shape1 at2].
  repeat match goal with
         | |- context [Nat.eqb ?a ?b] => destruct (Nat.eqb_spec a b)
         | |- context [Nat.leb ?a ?b] => destruct (Nat.leb_spec a b)
         | |- context [Nat.ltb ?a ?b] => destruct (Nat.ltb_spec a b)
         end;
    cbn [andb]; try lia; try (f_equal; lia).
Qed.

(** X16. [drift] asserts that both fields of standard deviations are
    given and then always hands its fields on.  Whether it expands them
    (periodic boundary, both zero references 0) or not, every cell keeps
    its place relative to the zero reference: the value that is handed on
    at [(i + y_zero_ref, j + x_zero_ref)] is the one the caller had there,
    for each of the four fields; step sizes and sensitivity are handed
    on as they are. *)
Theorem drift_keeps_cells (self : t) (u v : array2) (dx0 dy0 dt0 : R) (xr yr : Z)
  (us vs : option array2) (s : R) :
  (us = None \/ vs = None ->
   exists msg, drift self u v dx0 dy0 dt0 xr yr us vs s = Raise (AssertionError msg)) /\
  (forall us0 vs0, us = Some us0 -> vs = Some vs0 ->
   exists args,
     drift self u v dx0 dy0 dt0 xr yr us vs s = Ok args /\
     dx args = dx0 /\ dy args = dy0 /\ dt args = dt0 /\ sensitivity args = s /\
     (isPeriodic self = true -> xr = 0%Z -> yr = 0%Z ->
      x_zero_ref args = 1%Z /\ y_zero_ref args = 1%Z) /\
     forall f f', In (f, f') [(u, u_field args); (v, v_field args);
                              (us0, u_stddev args); (vs0, v_stddev args)] ->
       forall i j, (i < shape0 f)%nat -> (j < shape1 f)%nat ->
         at2 f' (i + Z.to_nat (y_zero_ref args)) (j + Z.to_nat (x_zero_ref args))
         = at2 f (i + Z.to_nat yr) (j + Z.to_nat xr)).
Proof.
  split.
  - intros [-> | ->]; unfold drift; [|destruct us]; eexists; reflexivity.
  - intros us0 vs0 -> ->. unfold drift.
    destruct (isPeriodic self && Z.eqb xr 0 && Z.eqb yr 0) eqn:Eb.
    + apply andb_prop in Eb. destruct Eb as [Eb Ey]. apply andb_prop in Eb.
      destruct Eb as [Ep Ex]. apply Z.eqb_eq in Ex, Ey. subst xr yr.
      eexists. split; [reflexivity|]. cbn [dx dy dt sensitivity x_zero_ref y_zero_ref
                                            u_field v_field u_stddev v_stddev].
      repeat (split; [reflexivity|]). split; [auto|].
      intros f f' Hin i j Hi Hj. cbn [In] in Hin.
      change (Z.to_nat 1) with 1%nat. change (Z.to_nat 0) with 0%nat.
      rewrite !Nat.add_0_r.
      destruct Hin as [E|[E|[E|[E|[]]]]]; injection E as <- <-;
        apply expandPeriodicField_inner; assumption.
    + eexists. split; [reflexivity|]. cbn [dx dy dt sensitivity x_zero_ref y_zero_ref
                                            u_field v_field u_stddev v_stddev].
      repeat (split; [reflexivity|]). split.
      { intros Hp -> ->. rewrite Hp in Eb. discriminate. }
      intros f f' Hin i j Hi Hj. cbn [In] in Hin.
      destruct Hin as [E|[E|[E|[E|[]]]]]; injection E as <- <-; reflexivity.
Qed.

Lemma drift_keeps_cells_witness :
  let self := mk [] 1 0 0 true in
  let u := mkArray2 2 2 (fun i j => INR (2 * i + j)) in
  exists args,
    drift self u u 1 1 1 0 0 (Some u) (Some u) 1 = Ok args /\
    x_zero_ref args = 1%Z /\ y_zero_ref args = 1%Z /\
    at2 (u_field args) 2 1 = 2.
Proof.
  intros self u.
  destruct (drift_keeps_cells self u u 1 1 1 0 0 (Some u) (Some u) 1) as [_ H].
  destruct (H u u eq_refl eq_refl) as (args & Hd & _ & _ & _ & _ & Href & Hcell).
  destruct (Href eq_refl eq_refl eq_refl) as [Hx Hy].
  exists args. split; [exact Hd|]. split; [exact Hx|]. split; [exact Hy|].
  pose proof (Hcell u (u_field args) (or_introl eq_refl) 1%nat 0%nat) as Hc.
  rewrite Hx, Hy in Hc. change (Z.to_nat 1) with 1%nat in Hc.
  change (Z.to_nat 0) with 0%nat in Hc. cbn [Nat.add] in Hc.
  rewrite Hc by (cbn; lia). cbn. lra.
Defined.

Lemma expandPeriodicField_wraps_witness :
  let field := mkArray2 2 3 (fun i j => INR (3 * i + j)) in
  at2 (_expandPeriodicField field) 0 0 = 5 /\
  at2 (_expandPeriodicField field) 3 4 = 0 /\
  at2 (_expandPeriodicField field) 1 4 = 0.
Proof.
  intros field.
  assert (Hny : (0 < shape0 field)%nat) by (cbn; lia).
  assert (Hnx : (0 < shape1 field)%nat) by (cbn; lia).
  destruct (expandPeriodicField_wraps field Hny Hnx) as (_ & _ & H).
  rewrite !H by (cbn; lia). cbn. repeat split; lra.
Defined.

(** ** Blocks of a drifter and strides of an ensemble member *)

Lemma slice_length {T} (l : list T) lo hi :
  (hi <= length l)%nat -> length (slice l lo hi) = (hi - lo)%nat.
Proof.
  intros H. unfold slice. rewrite length_firstn, length_skipn. lia.
Qed.

Lemma slice_nth_error {T} (l : list T) lo hi m :
  (m < hi - lo)%nat -> nth_error (slice l lo hi) m = nth_error l (lo + m).
Proof.
  intros H. unfold slice. rewrite nth_error_firstn.
  replace (m <? hi - lo)%nat with true by (symmetry; apply Nat.ltb_lt; exact H).
  apply nth_error_skipn.
Qed.

Lemma flat_map_singletons {A B} (f : A -> list B) (g : A -> B) ks :
  (forall k, In k ks -> f k = [g k]) -> flat_map f ks = map g ks.
Proof.
  induction ks as [|k ks IH]; intros H; [reflexivity|].
  cbn [flat_map map]. rewrite (H k (or_introl eq_refl)), IH; [reflexivity|].
  intros k' Hk'. apply H. right. exact Hk'.
Qed.

Lemma strided_map {T} (l : list T) (d : T) start stop step :
  step <> 0%nat -> (stop <= length l)%nat ->
  strided l start stop step
  = Ok (map (fun k => nth (start + k * step) l d)
          (seq 0 ((stop - start + step - 1) / step))).
Proof.
  intros Hstep Hstop. unfold strided.
  destruct (Nat.eqb_spec step 0) as [E|_]; [contradiction|].
  rewrite Nat.min_l by exact Hstop. f_equal.
  apply flat_map_singletons. intros k Hk. apply in_seq in Hk.
  pose proof (Nat.Div0.mul_div_le (stop - start + step - 1) step) as Hle.
  assert (Hin : (start + k * step < length l)%nat) by nia.
  rewrite (nth_error_nth' l d Hin). reflexivity.
Qed.

Lemma stride_count n step m :
  (m < step)%nat -> ((n * step - m + step - 1) / step = n)%nat.
Proof.
  intros Hm. destruct n as [|n'].
  - apply Nat.div_small. lia.
  - replace (S n' * step - m + step - 1)%nat
      with (S n' * step + (step - 1 - m))%nat by nia.
    rewrite Nat.div_add_l by lia. rewrite (Nat.div_small (step - 1 - m)) by lia.
    lia.
Qed.

Lemma strided_rows {T} (l : list T) (d : T) m n step :
  (m < step)%nat -> length l = (n * step + 1)%nat ->
  strided l m (length l - 1) step
  = Ok (map (fun k => nth (m + k * step) l d) (seq 0 n)).
Proof.
  intros Hm Hlen. rewrite (strided_map l d) by lia.
  replace (length l - 1)%nat with (n * step)%nat by lia.
  rewrite stride_count by exact Hm. reflexivity.
Qed.

Lemma assert_true msg : assert true msg = Ok tt.
Proof. reflexivity. Qed.

Lemma block_returns (self : t) (i : nat) :
  (i < num_unique_drifters self)%nat ->
  ((i + 1) * ensemble_size self <= length (positions self))%nat ->
  getDrifterPositionsForDrifter self (Z.of_nat i)
  = Ok (slice (positions self) (i * ensemble_size self) ((i + 1) * ensemble_size self)).
Proof.
  intros Hi Hblock. unfold getDrifterPositionsForDrifter.
  replace (0 <=? Z.of_nat i)%Z with true by (symmetry; apply Z.leb_le; lia).
  replace (Z.of_nat i <? Z.of_nat (num_unique_drifters self))%Z with true
    by (symmetry; apply Z.ltb_lt; lia).
  rewrite !assert_true. cbn [bind]. rewrite !Nat2Z.id.
  rewrite slice_length by exact Hblock.
  replace ((i + 1) * ensemble_size self - i * ensemble_size self)%nat
    with (ensemble_size self) by lia.
  rewrite Nat.eqb_refl. reflexivity.
Qed.

Lemma stride_returns (self : t) (m : nat) :
  (m < ensemble_size self)%nat ->
  length (positions self)
  = (num_unique_drifters self * ensemble_size self + 1)%nat ->
  getDrifterPositionsForEnsembleMember self (Z.of_nat m)
  = Ok (map (fun k => nth (m + k * ensemble_size self) (positions self) (0, 0))
          (seq 0 (num_unique_drifters self))).
Proof.
  intros Hm Hlen. unfold getDrifterPositionsForEnsembleMember.
  replace (0 <=? Z.of_nat m)%Z with true by (symmetry; apply Z.leb_le; lia).
  replace (Z.of_nat m <? Z.of_nat (ensemble_size self))%Z with true
    by (symmetry; apply Z.ltb_lt; lia).
  rewrite !assert_true. cbn [bind]. rewrite !Nat2Z.id.
  rewrite (strided_rows (positions self) (0, 0) m _ _ Hm Hlen). cbn [bind].
  rewrite length_map, length_seq, Nat.eqb_refl. reflexivity.
Qed.

(** X17. The two views of the positions are transposes of each other.
    When [positions] has one row per drifter and ensemble member and the
    one row more of the parent class, the block of drifter [i] has
    [ensemble_size] rows, the stride of ensemble member [m] has
    [num_unique_drifters] rows, and row [m] of the block is row [i] of
    the stride: row [i * ensemble_size + m] of [positions]. *)
Theorem drifter_views_transpose (self : t) (i m : nat)
  (Hlen : length (positions self)
          = (num_unique_drifters self * ensemble_size self + 1)%nat)
  (Hi : (i < num_unique_drifters self)%nat)
  (Hm : (m < ensemble_size self)%nat) :
  exists block stride,
    getDrifterPositionsForDrifter self (Z.of_nat i) = Ok block /\
    getDrifterPositionsForEnsembleMember self (Z.of_nat m) = Ok stride /\
    length block = ensemble_size self /\
    length stride = num_unique_drifters self /\
    nth_error block m = nth_error (positions self) (i * ensemble_size self + m) /\
    nth_error stride i = nth_error (positions self) (i * ensemble_size self + m).
Proof.
  assert (Hblock : ((i + 1) * ensemble_size self <= length (positions self))%nat) by nia.
  rewrite (block_returns self i Hi Hblock), (stride_returns self m Hm Hlen).
  eexists. eexists. split; [reflexivity|]. split; [reflexivity|].
  split; [rewrite slice_length by exact Hblock; lia|].
  split; [rewrite length_map, length_seq; reflexivity|].
  split.
  - apply slice_nth_error. lia.
  - rewrite nth_error_map, nth_error_seq.
    replace (i <? num_unique_drifters self)%nat with true
      by (symmetry; apply Nat.ltb_lt; exact Hi).
    cbn [option_map Nat.add].
    assert (Hin : (m + i * ensemble_size self < length (positions self))%nat) by nia.
    rewrite (Nat.add_comm (i * ensemble_size self) m). symmetry.
    apply nth_error_nth'. exact Hin.
Qed.

Lemma drifter_views_transpose_witness :
  let self := mk [(1, 1); (2, 2); (3, 3); (4, 4); (5, 5); (6, 6); (0, 0)] 2 3 6 true in
  exists block stride,
    getDrifterPositionsForDrifter self 2 = Ok block /\
    getDrifterPositionsForEnsembleMember self 1 = Ok stride /\
    nth_error block 1 = Some (6, 6) /\ nth_error stride 2 = Some (6, 6).
Proof.
  intros self.
  destruct (drifter_views_transpose self 2 1 eq_refl) as (block & stride & Hb & Hs & _ & _ & H1 & H2);
    [cbn; lia | cbn; lia |].
  exists block, stride. repeat split; assumption.
Defined.

Lemma np_repeat_length {T} (a : list T) n : length (np_repeat a n) = (length a * n)%nat.
Proof.
  unfold np_repeat. induction a as [|x a IH]; [reflexivity|].
  cbn [flat_map length]. rewrite length_app, repeat_length, IH. lia.
Qed.

Lemma np_repeat_nth_error {T} (a : list T) n i m :
  (m < n)%nat -> nth_error (np_repeat a n) (i * n + m) = nth_error a i.
Proof.
  intros Hm. unfold np_repeat. revert i.
  induction a as [|x a IH]; intros i.
  - cbn [flat_map]. rewrite !nth_error_nil. reflexivity.
  - cbn [flat_map]. destruct i as [|i].
    + cbn [Nat.mul Nat.add nth_error].
      rewrite nth_error_app1 by (rewrite repeat_length; exact Hm).
      apply nth_error_repeat. exact Hm.
    + rewrite nth_error_app2 by (rewrite repeat_length; lia).
      rewrite repeat_length.
      replace (S i * n + m - n)%nat with (i * n + m)%nat by lia.
      cbn [nth_error]. apply IH.
Qed.

(** X18. Positions that were expanded are read back.  When the rows of
    [positions] before the last are [expandDrifterPositions] of one
    position per drifter, every ensemble member sees exactly these
    positions, and the block of a drifter is its position repeated
    [ensemble_size] times. *)
Theorem expanded_positions_read_back (self : t) (pos : list (R * R)) (last : R * R)
  (i m : nat)
  (Hpos : positions self = expandDrifterPositions self pos ++ [last])
  (HU : length pos = num_unique_drifters self)
  (Hi : (i < num_unique_drifters self)%nat)
  (Hm : (m < ensemble_size self)%nat) :
  getDrifterPositionsForEnsembleMember self (Z.of_nat m) = Ok pos /\
  getDrifterPositionsForDrifter self (Z.of_nat i)
  = Ok (repeat (nth i pos (0, 0)) (ensemble_size self)).
Proof.
  assert (Hlen : length (positions self)
                 = (num_unique_drifters self * ensemble_size self + 1)%nat).
  { rewrite Hpos, length_app. unfold expandDrifterPositions.
    rewrite np_repeat_length, HU. reflexivity. }
  assert (Hblock : ((i + 1) * ensemble_size self <= length (positions self))%nat) by nia.
  assert (Hrow : forall k n, (k < num_unique_drifters self)%nat ->
                   (n < ensemble_size self)%nat ->
                   nth_error (positions self) (k * ensemble_size self + n)
                   = nth_error pos k).
  { intros k n Hk Hn. rewrite Hpos.
    rewrite nth_error_app1
      by (unfold expandDrifterPositions; rewrite np_repeat_length, HU; nia).
    apply np_repeat_nth_error. exact Hn. }
  split.
  - rewrite (stride_returns self m Hm Hlen). f_equal.
    apply (nth_ext _ _ (0, 0) (0, 0)).
    + rewrite length_map, length_seq. symmetry. exact HU.
    + intros k Hk. rewrite length_map, length_seq in Hk.
      apply nth_error_nth. rewrite nth_error_map, nth_error_seq.
      replace (k <? num_unique_drifters self)%nat with true
        by (symmetry; apply Nat.ltb_lt; exact Hk).
      cbn [option_map Nat.add]. f_equal.
      apply nth_error_nth.
      rewrite (Nat.add_comm m), (Hrow k m Hk Hm).
      apply nth_error_nth'. lia.
  - rewrite (block_returns self i Hi Hblock). f_equal.
    apply (nth_ext _ _ (0, 0) (0, 0)).
    + rewrite slice_length by exact Hblock. rewrite repeat_length. lia.
    + intros n Hn. rewrite slice_length in Hn by exact Hblock.
      assert (Hn' : (n < ensemble_size self)%nat) by lia.
      apply nth_error_nth.
      rewrite slice_nth_error by lia. rewrite (Hrow i n Hi Hn').
      rewrite nth_repeat_lt by exact Hn'.
      apply nth_error_nth'. lia.
Qed.

Lemma expanded_positions_read_back_witness :
  let pos := [(1, 2); (3, 4); (5, 6)] in
  let self := mk (np_repeat pos 2 ++ [(0, 0)]) 2 3 6 false in
  getDrifterPositionsForEnsembleMember self 1 = Ok pos /\
  getDrifterPositionsForDrifter self 2 = Ok [(5, 6); (5, 6)].
Proof.
  intros pos self.
  apply (expanded_positions_read_back self pos (0, 0) 2 1 eq_refl eq_refl);
    cbn; lia.
Defined.

(** X19. The stride of an ensemble member stops before the last row of
    [positions], so it relies on the one row more that the parent class
    keeps.  When [positions] has exactly one row per drifter and ensemble
    member, every block and the strides of all members but the last are
    still returned, but the last member's stride misses its last drifter;
    the assertion on its shape then fails while it builds its message
    from a string and an integer: [TypeError]. *)
Theorem stride_needs_last_row (self : t)
  (HU : (0 < num_unique_drifters self)%nat)
  (HE : (0 < ensemble_size self)%nat)
  (Hlen : length (positions self)
          = (num_unique_drifters self * ensemble_size self)%nat) :
  (forall i, (i < num_unique_drifters self)%nat ->
     exists block, getDrifterPositionsForDrifter self (Z.of_nat i) = Ok block /\
                   length block = ensemble_size self) /\
  (forall m, (m < ensemble_size self - 1)%nat ->
     exists stride, getDrifterPositionsForEnsembleMember self (Z.of_nat m) = Ok stride /\
                    length stride = num_unique_drifters self) /\
  getDrifterPositionsForEnsembleMember self (Z.of_nat (ensemble_size self - 1))
  = Raise TypeError.
Proof.
  set (E := ensemble_size self) in *. set (U := num_unique_drifters self) in *.
  assert (Hstride : forall m, (m < E)%nat ->
            getDrifterPositionsForEnsembleMember self (Z.of_nat m)
            = if Nat.eqb ((U * E - 1 - m + E - 1) / E) U
              then Ok (map (fun k => nth (m + k * E) (positions self) (0, 0))
                         (seq 0 ((U * E - 1 - m + E - 1) / E)))
              else Raise TypeError).
  { intros m Hm. unfold getDrifterPositionsForEnsembleMember. fold E U.
    replace (0 <=? Z.of_nat m)%Z with true by (symmetry; apply Z.leb_le; lia).
    replace (Z.of_nat m <? Z.of_nat E)%Z with true by (symmetry; apply Z.ltb_lt; lia).
    rewrite !assert_true. cbn [bind]. rewrite !Nat2Z.id.
    rewrite (strided_map (positions self) (0, 0)) by lia. cbn [bind].
    rewrite length_map, length_seq, Hlen. reflexivity. }
  split; [|split].
  - intros i Hi.
    assert (Hblock : ((i + 1) * E <= length (positions self))%nat) by nia.
    rewrite (block_returns self i Hi Hblock). eexists. split; [reflexivity|].
    rewrite slice_length by exact Hblock. lia.
  - intros m Hm. rewrite Hstride by lia.
    assert (Hc : ((U * E - 1 - m + E - 1) / E = U)%nat).
    { replace (U * E - 1 - m + E - 1)%nat with (U * E + (E - 2 - m))%nat by nia.
      rewrite Nat.div_add_l by lia. rewrite (Nat.div_small (E - 2 - m)) by lia. lia. }
    rewrite Hc, Nat.eqb_refl. eexists. split; [reflexivity|].
    rewrite length_map, length_seq. reflexivity.
  - rewrite Hstride by lia.
    assert (Hc : ((U * E - 1 - (E - 1) + E - 1) / E = U - 1)%nat).
    { replace (U * E - 1 - (E - 1) + E - 1)%nat with ((U - 1) * E + (E - 1))%nat by nia.
      rewrite Nat.div_add_l by lia. rewrite (Nat.div_small (E - 1)) by lia. lia. }
    rewrite Hc. destruct (Nat.eqb_spec (U - 1) U) as [E1|_]; [lia | reflexivity].
Qed.

Lemma stride_needs_last_row_witness :
  let self := mk [(1, 1); (2, 2); (3, 3); (4, 4); (5, 5); (6, 6)] 2 3 6 true in
  getDrifterPositionsForEnsembleMember self 1 = Raise TypeError /\
  exists stride, getDrifterPositionsForEnsembleMember self 0 = Ok stride /\
                 length stride = 3%nat.
Proof.
  intros self.
  assert (HU : (0 < num_unique_drifters self)%nat) by (cbn; lia).
  assert (HE : (0 < ensemble_size self)%nat) by (cbn; lia).
  destruct (stride_needs_last_row self HU HE eq_refl) as (_ & Hs & Hlast).
  split; [exact Hlast|]. apply (Hs 0%nat). cbn. lia.
Defined.

End Drifters.

(* ================================================================= *)
(** * Resampling schemes *)

Lemma nth_list_set {T} (l : list T) n x d k :
  (n < length l)%nat ->
  nth k (list_set l n x) d = if Nat.eqb k n then x else nth k l d.
Proof.
  revert n k. induction l as [|h t IH]; intros n k Hn; cbn [length] in Hn; [lia|].
  destruct n as [|n]; destruct k as [|k]; cbn [list_set nth Nat.eqb]; try reflexivity.
  apply IH. lia.
Qed.

Lemma setitem_lt {T} (a : list T) n x :
  (n < length a)%nat -> setitem a n x = Ok (list_set a n x).
Proof.
  intros H. unfold setitem. apply Nat.ltb_lt in H. rewrite H. reflexivity.
Qed.

Lemma metropolisHasting_loop_settles weights rand n :
  forall a idx,
    (1 <= a)%nat -> (a + n <= length idx)%nat -> length idx = length weights ->
    settled weights rand a idx ->
    (forall j, (j < a)%nat -> (nth j idx 0 <= j)%nat) ->
    exists idx',
      metropolisHasting_loop weights rand (seq a n) idx = Ok idx' /\
      length idx' = length idx /\
      settled weights rand (a + n) idx' /\
      (forall j, (j < a + n)%nat -> (nth j idx' 0 <= j)%nat).
Proof.
  induction n as [|n IH]; intros a idx Ha Hn Hlen [H0 Hrec] Hle.
  - exists idx. rewrite Nat.add_0_r. cbn [seq metropolisHasting_loop].
    repeat split; auto.
  - cbn [seq metropolisHasting_loop].
    rewrite (getitem_nth weights a 0) by lia. cbn [bind].
    rewrite (getitem_nth idx (a - 1) 0%nat) by lia. cbn [bind].
    pose proof (Hle (a - 1)%nat ltac:(lia)) as Hprev.
    set (previous := nth (a - 1) idx 0%nat) in *.
    rewrite (getitem_nth weights previous 0) by lia. cbn [bind].
    set (x := if lt_quotient (rand a) (nth a weights 0) (nth previous weights 0)
              then a else previous).
    assert (Hx : (x <= a)%nat) by (unfold x; destruct (lt_quotient _ _ _); lia).
    assert (Hset : (if lt_quotient (rand a) (nth a weights 0) (nth previous weights 0)
                    then setitem idx a a else setitem idx a previous)
                   = Ok (list_set idx a x)).
    { unfold x. destruct (lt_quotient _ _ _); apply setitem_lt; lia. }
    rewrite Hset. cbn [bind].
    destruct (IH (S a) (list_set idx a x)) as (idx' & Hrun & Hl & Hs & Hb).
    + lia.
    + rewrite length_list_set. lia.
    + rewrite length_list_set. exact Hlen.
    + split.
      * rewrite nth_list_set by lia.
        destruct (Nat.eqb_spec 0 a); [lia | exact H0].
      * intros i Hi. rewrite !nth_list_set by lia.
        destruct (Nat.eqb_spec (i - 1) a) as [E|_]; [lia|].
        destruct (Nat.eqb_spec i a) as [->|Hia]; [reflexivity|].
        apply Hrec. lia.
    + intros j Hj. rewrite nth_list_set by lia.
      destruct (Nat.eqb_spec j a) as [->|Hja]; [exact Hx | apply Hle; lia].
    + exists idx'. rewrite Hl, length_list_set in *.
      replace (a + S n)%nat with (S a + n)%nat by lia. auto.
Qed.

(** X20. [metropolisHastingSampling] on one weight per particle hands
    [resample] one index per particle: the first is 0, and each later
    one is its own position, when the draw is below the quotient of its
    weight and the weight of the particle sampled before it, or else the
    index before it; where that earlier weight is 0 the quotient of
    numpy is inf or nan, so a particle of positive weight is taken and
    one of weight 0 is not.  So the indices do not decrease, none exceeds
    its position, and every particle that is sampled sits at its own
    position.  With weights that are not negative and draws below 1, a
    particle of positive weight that is at least as heavy as the one
    sampled before it is always taken. *)
Theorem metropolisHastingSampling_chain
  (weights : list R) (getNumParticles : nat) (rand : nat -> R)
  (HN : (1 <= getNumParticles)%nat)
  (Hlen : length weights = getNumParticles) :
  exists idx,
    metropolisHastingSampling weights getNumParticles rand = Ok idx /\
    length idx = getNumParticles /\
    settled weights rand getNumParticles idx /\
    (forall i, (i < getNumParticles)%nat -> (nth i idx 0 <= i)%nat) /\
    (forall i j, (i <= j < getNumParticles)%nat -> (nth i idx 0 <= nth j idx 0)%nat) /\
    (forall i, (i < getNumParticles)%nat -> nth (nth i idx 0%nat) idx 0%nat = nth i idx 0%nat) /\
    (forall i, (1 <= i < getNumParticles)%nat ->
       nth (nth (i - 1) idx 0%nat) weights 0 = 0 ->
       nth i idx 0%nat = if Rlt_dec 0 (nth i weights 0) then i else nth (i - 1) idx 0%nat) /\
    (forall i, (1 <= i < getNumParticles)%nat ->
       nth (nth (i - 1) idx 0%nat) weights 0 <> 0 ->
       nth i idx 0%nat =
       if Rlt_dec (rand i) (nth i weights 0 / nth (nth (i - 1) idx 0%nat) weights 0)
       then i else nth (i - 1) idx 0%nat) /\
    ((forall w, In w weights -> 0 <= w) -> (forall i, rand i < 1) ->
     forall i, (1 <= i < getNumParticles)%nat ->
       0 < nth i weights 0 ->
       nth (nth (i - 1) idx 0%nat) weights 0 <= nth i weights 0 ->
       nth i idx 0%nat = i).
Proof.
  unfold metropolisHastingSampling.
  rewrite setitem_lt by (rewrite repeat_length; lia). cbn [bind].
  destruct (metropolisHasting_loop_settles weights rand (getNumParticles - 1) 1
              (list_set (repeat 0%nat (length weights)) 0 0%nat))
    as (idx & Hrun & Hl & Hs & Hb).
  - lia.
  - rewrite length_list_set, repeat_length. lia.
  - rewrite length_list_set, repeat_length. reflexivity.
  - split; [|intros i Hi; lia].
    rewrite nth_list_set by (rewrite repeat_length; lia). reflexivity.
  - intros j Hj. replace j with 0%nat by lia.
    rewrite nth_list_set by (rewrite repeat_length; lia). cbn. lia.
  - rewrite length_list_set, repeat_length in Hl.
    replace (1 + (getNumParticles - 1))%nat with getNumParticles in * by lia.
    exists idx. split; [exact Hrun|]. split; [congruence|]. split; [exact Hs|].
    split; [exact Hb|].
    destruct Hs as [H0 Hrec].
    assert (Hstep : forall i, (1 <= i < getNumParticles)%nat ->
                      nth i idx 0%nat = i \/ nth i idx 0%nat = nth (i - 1) idx 0%nat).
    { intros i Hi. rewrite (Hrec i Hi). destruct (lt_quotient _ _ _); auto. }
    assert (Hmono1 : forall i, (1 <= i < getNumParticles)%nat ->
                       (nth (i - 1) idx 0 <= nth i idx 0)%nat).
    { intros i Hi. pose proof (Hb (i - 1)%nat ltac:(lia)).
      destruct (Hstep i Hi) as [E|E]; rewrite E; lia. }
    split; [|split; [|split; [|split]]].
    + intros i j [Hij Hj]. induction j as [|j IHj]; [replace i with 0%nat by lia; lia|].
      destruct (Nat.eq_dec i (S j)) as [->|Hne]; [lia|].
      pose proof (Hmono1 (S j) ltac:(lia)) as Hm.
      replace (S j - 1)%nat with j in Hm by lia.
      specialize (IHj ltac:(lia) ltac:(lia)). lia.
    + intros i Hi. induction i as [|i IHi]; [rewrite H0; exact H0|].
      destruct (Hstep (S i) ltac:(lia)) as [E|E].
      * rewrite E. exact E.
      * replace (S i - 1)%nat with i in E by lia. rewrite E. apply IHi. lia.
    + intros i Hi Hz. rewrite (Hrec i Hi). unfold lt_quotient.
      destruct (Req_dec_T _ 0) as [_|Hn]; [|contradiction].
      destruct (Rlt_dec 0 _); reflexivity.
    + intros i Hi Hz. rewrite (Hrec i Hi). unfold lt_quotient.
      destruct (Req_dec_T _ 0) as [E|_]; [contradiction|].
      destruct (Rlt_dec _ _); reflexivity.
    + intros Hpos Hrand i Hi Hwi Hw. rewrite (Hrec i Hi). unfold lt_quotient.
      destruct (Req_dec_T _ 0) as [E|Hne].
      { destruct (Rlt_dec 0 _); [reflexivity | contradiction]. }
      destruct (Rlt_dec _ _) as [_|Hn]; [reflexivity|]. exfalso. apply Hn.
      pose proof (Hb (i - 1)%nat ltac:(lia)) as Hp.
      assert (Hwp : 0 < nth (nth (i - 1) idx 0%nat) weights 0).
      { assert (0 <= nth (nth (i - 1) idx 0%nat) weights 0)
          by (apply Hpos; apply nth_In; lia).
        lra. }
      apply Rlt_le_trans with (r2 := 1); [apply Hrand|].
      apply (Rmult_le_reg_r (nth (nth (i - 1) idx 0%nat) weights 0)); [exact Hwp|].
      unfold Rdiv. rewrite Rmult_assoc, Rinv_l by lra. lra.
Qed.

Lemma metropolisHastingSampling_chain_witness :
  exists idx,
    metropolisHastingSampling [0; 0.5; 0.25] 3 (fun _ => 0.75) = Ok idx /\
    nth 1 idx 0%nat = 1%nat /\ nth 2 idx 0%nat = 1%nat.
Proof.
  destruct (metropolisHastingSampling_chain [0; 0.5; 0.25] 3 (fun _ => 0.75))
    as (idx & Hrun & _ & [H0 _] & _ & _ & _ & Hzero & Hrule & _);
    [lia | reflexivity |].
  exists idx. split; [exact Hrun|].
  assert (H1 : nth 1 idx 0%nat = 1%nat).
  { rewrite (Hzero 1%nat ltac:(lia)); cbn [Nat.sub]; rewrite H0; cbn [nth].
    - destruct (Rlt_dec 0 0.5) as [_|H]; [reflexivity | lra].
    - reflexivity. }
  split; [exact H1|].
  rewrite (Hrule 2%nat ltac:(lia)); cbn [Nat.sub]; rewrite H1; cbn [nth].
  - destruct (Rlt_dec 0.75 (0.25 / 0.5)) as [H|_]; [lra | reflexivity].
  - lra.
Defined.

Lemma floorZ_bounds x : IZR (floorZ x) <= x < IZR (floorZ x) + 1.
Proof.
  unfold floorZ. destruct (base_Int_part x) as [H1 H2]. lra.
Qed.

Lemma floorZ_nonneg x : 0 <= x -> (0 <= floorZ x)%Z.
Proof.
  intros Hx. destruct (floorZ_bounds x) as [_ H].
  apply Z.lt_succ_r. apply lt_IZR. rewrite succ_IZR. lra.
Qed.

Lemma np_sum_scaled (a : list R) c : np_sum (map (fun x => x / c) a) = np_sum a / c.
Proof.
  induction a as [|x a IH]; cbn [map np_sum fold_right].
  - unfold Rdiv. ring.
  - fold (np_sum (map (fun x => x / c) a)). fold (np_sum a). rewrite IH.
    unfold Rdiv. ring.
Qed.

Lemma np_sum_times (a : list R) c : np_sum (map (fun x => x * c) a) = np_sum a * c.
Proof.
  induction a as [|x a IH]; cbn [map np_sum fold_right].
  - ring.
  - fold (np_sum (map (fun x => x * c) a)). fold (np_sum a). rewrite IH. ring.
Qed.

(** The counts of the whole parts and the sum of the decimal parts. *)
Lemma whole_and_decimal_parts (xs : list R) :
  Forall (fun x => 0 <= x) xs ->
  INR (list_sum (map Z.to_nat (map floorZ xs)))
  + np_sum (map (fun x => x - IZR (floorZ x)) xs) = np_sum xs /\
  0 <= np_sum (map (fun x => x - IZR (floorZ x)) xs).
Proof.
  induction 1 as [|x xs Hx _ [IH1 IH2]]; cbn [map list_sum fold_right np_sum].
  - cbn. split; lra.
  - fold (np_sum (map (fun x => x - IZR (floorZ x)) xs)) in *. fold (np_sum xs) in *.
    fold (list_sum (map Z.to_nat (map floorZ xs))).
    rewrite plus_INR, INR_IZR_INZ, Z2Nat.id by (apply floorZ_nonneg; exact Hx).
    destruct (floorZ_bounds x). split; lra.
Qed.

Lemma decimal_parts_positive (xs : list R) x :
  In x xs -> x <> IZR (floorZ x) -> 0 < np_sum (map (fun x => x - IZR (floorZ x)) xs).
Proof.
  induction xs as [|y xs IH]; intros Hin Hx; [destruct Hin|].
  cbn [map np_sum fold_right]. fold (np_sum (map (fun x => x - IZR (floorZ x)) xs)).
  assert (Hrest : 0 <= np_sum (map (fun x => x - IZR (floorZ x)) xs)).
  { clear. induction xs as [|z xs IH]; cbn [map np_sum fold_right]; [lra|].
    fold (np_sum (map (fun x => x - IZR (floorZ x)) xs)).
    destruct (floorZ_bounds z). lra. }
  destruct (floorZ_bounds y).
  destruct Hin as [->|Hin].
  - lra.
  - specialize (IH Hin Hx). lra.
Qed.

Lemma repeat_counts_length (a : list nat) (cs : list Z) :
  length (flat_map (fun ac => repeat (fst ac) (Z.to_nat (snd ac))) (combine a cs))
  = list_sum (map Z.to_nat (firstn (length a) cs)).
Proof.
  revert cs. induction a as [|x a IH]; intros [|c cs]; try reflexivity.
  cbn [combine flat_map length firstn map list_sum fst snd].
  rewrite length_app, repeat_length, IH. reflexivity.
Qed.

Lemma repeat_counts_occ n :
  forall s (cs : list Z) i,
    length cs = n -> (s <= i < s + n)%nat ->
    count_occ Nat.eq_dec
      (flat_map (fun ac => repeat (fst ac) (Z.to_nat (snd ac))) (combine (seq s n) cs)) i
    = Z.to_nat (nth (i - s) cs 0%Z).
Proof.
  induction n as [|n IH]; intros s cs i Hlen Hi; [lia|].
  destruct cs as [|c cs]; [discriminate|]. injection Hlen as Hlen.
  cbn [seq combine flat_map fst snd]. rewrite count_occ_app.
  destruct (Nat.eq_dec i s) as [->|Hne].
  - rewrite count_occ_repeat_eq by reflexivity. rewrite Nat.sub_diag. cbn [nth].
    assert (Hnone : forall s' cs', (s < s')%nat ->
              count_occ Nat.eq_dec
                (flat_map (fun ac => repeat (fst ac) (Z.to_nat (snd ac)))
                   (combine (seq s' n) cs')) s = 0%nat).
    { clear. induction n as [|n IHn]; intros s' cs' Hs; [reflexivity|].
      destruct cs' as [|c cs']; [reflexivity|].
      cbn [seq combine flat_map fst snd]. rewrite count_occ_app.
      rewrite count_occ_repeat_neq by lia. apply IHn. lia. }
    rewrite Hnone by lia. lia.
  - rewrite count_occ_repeat_neq by congruence.
    rewrite (IH (S s) cs i Hlen) by lia.
    replace (i - s)%nat with (S (i - S s)) by lia. reflexivity.
Qed.

Lemma repeat_counts_below (a : list nat) (cs : list Z) n :
  Forall (fun i => (i < n)%nat) a ->
  Forall (fun i => (i < n)%nat)
    (flat_map (fun ac => repeat (fst ac) (Z.to_nat (snd ac))) (combine a cs)).
Proof.
  intros Ha. apply Forall_forall. intros i Hi. apply in_flat_map in Hi.
  destruct Hi as ([x c] & Hin & Hrep). cbn [fst snd] in Hrep.
  apply repeat_spec in Hrep. subst i. apply in_combine_l in Hin.
  rewrite Forall_forall in Ha. apply Ha. exact Hin.
Qed.

(** X21. [residualSampling] on weights that are not negative and sum to
    1, one per particle and not all of them multiples of 1/N, hands
    [resample] a sample of exactly N indices of particles: particle [i]
    is in its first, deterministic part exactly [floor(N * w_i)] times,
    so at least as often in the whole.  This whole sample is what the
    last call of [resample] gets whatever the flags: [onlyDeterministic]
    and [onlyStochastic] each only add an earlier call with one part. *)
Theorem residualSampling_counts
  (weights : list R) (getNumParticles : nat) (choose : nat -> list R -> list nat)
  (onlyDeterministic onlyStochastic : bool)
  (Hlen : length weights = getNumParticles)
  (Hpos : Forall (fun w => 0 <= w) weights)
  (Hsum : np_sum weights = 1)
  (Hfrac : exists w, In w weights /\
             w * INR getNumParticles <> IZR (floorZ (w * INR getNumParticles)))
  (Hdraw : draws_positions choose) :
  exists deterministic stochastic,
    residualSampling weights getNumParticles choose onlyDeterministic onlyStochastic
    = Ok ((if onlyDeterministic then [deterministic] else [])
          ++ (if onlyStochastic then [stochastic] else [])
          ++ [deterministic ++ stochastic]) /\
    length (deterministic ++ stochastic) = getNumParticles /\
    Forall (fun i => (i < getNumParticles)%nat) (deterministic ++ stochastic) /\
    forall i, (i < getNumParticles)%nat ->
      count_occ Nat.eq_dec deterministic i
      = Z.to_nat (floorZ (nth i weights 0 * INR getNumParticles)) /\
      (count_occ Nat.eq_dec deterministic i
       <= count_occ Nat.eq_dec (deterministic ++ stochastic) i)%nat.
Proof.
  set (N := getNumParticles) in *.
  set (xs := map (fun w => w * INR N) weights).
  set (cs := map floorZ xs).
  set (ds := map (fun x => x - IZR (floorZ x)) xs).
  assert (Hxs : Forall (fun x => 0 <= x) xs).
  { unfold xs. apply Forall_map. eapply Forall_impl; [|exact Hpos].
    intros w Hw. cbn beta. apply Rmult_le_pos; [exact Hw | apply pos_INR]. }
  assert (Hcs : length cs = N) by (unfold cs, xs; rewrite !length_map; exact Hlen).
  destruct (whole_and_decimal_parts xs Hxs) as [Hparts Hds]. fold cs ds in Hparts, Hds.
  assert (Hxsum : np_sum xs = INR N).
  { unfold xs. rewrite np_sum_times, Hsum. ring. }
  assert (Htotal : 0 < np_sum ds).
  { destruct Hfrac as (w & Hin & Hw).
    apply (decimal_parts_positive xs (w * INR N)); [|exact Hw].
    unfold xs. apply in_map_iff. exists w. auto. }
  set (det := flat_map (fun ac => repeat (fst ac) (Z.to_nat (snd ac)))
                (combine (seq 0 N) cs)).
  assert (Hdet : np_repeat_counts (seq 0 N) cs = Ok det).
  { unfold np_repeat_counts.
    replace (existsb (fun c => (c <? 0)%Z) cs) with false.
    - rewrite length_seq, Hcs, Nat.eqb_refl. reflexivity.
    - symmetry. apply Bool.not_true_is_false. intros He.
      apply existsb_exists in He. destruct He as (c & Hin & Hc).
      unfold cs in Hin. apply in_map_iff in Hin. destruct Hin as (x & <- & Hx).
      rewrite Forall_forall in Hxs. apply Z.ltb_lt in Hc.
      pose proof (floorZ_nonneg x (Hxs x Hx)). lia. }
  assert (Hdlen : length det = list_sum (map Z.to_nat cs)).
  { unfold det. rewrite repeat_counts_length, length_seq, <- Hcs, firstn_all.
    reflexivity. }
  assert (Hle : (length det <= N)%nat).
  { apply INR_le. rewrite Hdlen. lra. }
  set (p := map (fun x => x / np_sum ds) ds).
  set (size := (Z.of_nat N - Z.of_nat (length det))%Z).
  set (sto := map (fun k => nth k (seq 0 N) 0%nat) (choose (Z.to_nat size) p)).
  assert (Hsto : np_random_choice choose (seq 0 N) size p = Ok sto).
  { unfold np_random_choice.
    assert (Hpl : length p = N) by (unfold p, ds, xs; rewrite !length_map; exact Hlen).
    rewrite Hpl, length_seq, Nat.eqb_refl. cbn [negb]. clear Hpl.
    replace (existsb (fun x => if Rlt_dec x 0 then true else false) p) with false.
    - replace (Reqb (np_sum p) 1) with true.
      + cbn [negb]. replace (size <? 0)%Z with false; [reflexivity|].
        symmetry. apply Z.ltb_ge. unfold size. lia.
      + symmetry. apply Reqb_eq_true. unfold p. rewrite np_sum_scaled.
        field. lra.
    - symmetry. apply Bool.not_true_is_false. intros He.
      apply existsb_exists in He. destruct He as (q & Hin & Hq).
      destruct (Rlt_dec q 0) as [Hneg|_]; [|discriminate].
      unfold p in Hin. apply in_map_iff in Hin. destruct Hin as (d & <- & Hd).
      unfold ds in Hd. apply in_map_iff in Hd. destruct Hd as (x & <- & _).
      destruct (floorZ_bounds x) as [Hlo _].
      assert (0 <= (x - IZR (floorZ x)) / np_sum ds); [|lra].
      apply Rmult_le_pos; [lra|]. left. apply Rinv_0_lt_compat. exact Htotal. }
  assert (Hpl : length p = N) by (unfold p, ds, xs; rewrite !length_map; exact Hlen).
  assert (Hp : p <> []).
  { destruct Hfrac as (w & Hin & _). intros Ep. rewrite Ep in Hpl. cbn in Hpl.
    destruct weights; [destruct Hin | cbn in Hlen; lia]. }
  exists det, sto. split; [|split; [|split]].
  - unfold residualSampling. fold N xs cs. rewrite Hdet. cbn [bind].
    fold ds p size. rewrite Hsto. reflexivity.
  - rewrite length_app. unfold sto. rewrite length_map.
    rewrite (proj1 (Hdraw _ _ Hp)). unfold size. lia.
  - apply Forall_app. split.
    + unfold det. apply repeat_counts_below. apply Forall_forall.
      intros i Hi. apply in_seq in Hi. lia.
    + unfold sto. apply Forall_forall. intros i Hi.
      apply in_map_iff in Hi. destruct Hi as (k & <- & Hk).
      pose proof (proj2 (Hdraw (Z.to_nat size) p Hp)) as Hb.
      rewrite Forall_forall in Hb. specialize (Hb k Hk).
      rewrite seq_nth by lia. lia.
  - intros i Hi. split.
    + unfold det. rewrite (repeat_counts_occ N 0 cs i Hcs) by lia.
      rewrite Nat.sub_0_r. unfold cs, xs. f_equal.
      rewrite map_map.
      rewrite (nth_indep _ 0%Z (floorZ (0 * INR N))) by (rewrite length_map; lia).
      rewrite (map_nth (fun w => floorZ (w * INR N))). reflexivity.
    + rewrite count_occ_app. lia.
Qed.

Lemma residualSampling_counts_witness :
  exists deterministic stochastic,
    residualSampling [0.5; 0.25; 0.25] 3 (fun size _ => repeat 0%nat size) true false
    = Ok [deterministic; deterministic ++ stochastic] /\
    length (deterministic ++ stochastic) = 3%nat /\
    count_occ Nat.eq_dec deterministic 0%nat = 1%nat.
Proof.
  destruct (residualSampling_counts [0.5; 0.25; 0.25] 3 (fun size _ => repeat 0%nat size)
              true false)
    as (det & sto & Hrun & Hl & _ & Hc).
  - reflexivity.
  - repeat constructor; lra.
  - cbn. lra.
  - exists 0.5. split; [left; reflexivity|].
    rewrite (floorZ_eq (0.5 * INR 3) 1) by (cbn; lra). cbn. lra.
  - intros size p Hp. split; [apply repeat_length|].
    apply Forall_forall. intros k Hk. apply repeat_spec in Hk. subst k.
    destruct p; [contradiction | cbn; lia].
  - exists det, sto. split; [exact Hrun|]. split; [exact Hl|].
    destruct (Hc 0%nat ltac:(lia)) as [Hc0 _]. rewrite Hc0. cbn [nth].
    rewrite (floorZ_eq (0.5 * INR 3) 1) by (cbn; lra). reflexivity.
Defined.

Lemma filter_prefix (P : nat -> bool) n :
  (forall k, P (S k) = true -> P k = true) ->
  exists c, (c <= n)%nat /\ length (filter P (seq 0 n)) = c /\
            (forall k, (k < c)%nat -> P k = true) /\ (c < n -> P c = false)%nat.
Proof.
  intros Hdown. induction n as [|n (c & Hc & Hl & Ht & Hf)].
  - exists 0%nat. repeat split; try lia.
  - rewrite seq_S, filter_app, length_app, Hl. cbn [Nat.add filter].
    destruct (P n) eqn:En.
    + assert (Hcn : c = n).
      { destruct (Nat.eq_dec c n) as [E|Hne]; [exact E|].
        assert (Hlt : (c < n)%nat) by lia. specialize (Hf Hlt).
        assert (Hall : forall j, (c <= j)%nat -> P j = false).
        { intros j Hj. induction Hj as [|j Hj IH]; [exact Hf|].
          destruct (P (S j)) eqn:Es; [|reflexivity].
          apply Hdown in Es. congruence. }
        rewrite (Hall n) in En by lia. discriminate. }
      subst c. exists (S n). cbn [length]. repeat split; try lia.
      intros k Hk. destruct (Nat.eq_dec k n) as [->|Hne]; [exact En | apply Ht; lia].
    + exists c. cbn [length]. repeat split; try lia; [exact Ht|].
      intros Hlt. destruct (Nat.eq_dec c n) as [->|Hne]; [exact En | apply Hf; lia].
Qed.

Lemma bin_count (lo hi : R) (vs : list R) :
  lo <= hi ->
  (length (filter (fun v => Rleb lo v && Rltb v hi) vs)
   + length (filter (fun v => Rltb v lo) vs)
   = length (filter (fun v => Rltb v hi) vs))%nat.
Proof.
  intros Hle. induction vs as [|v vs IH]; [reflexivity|].
  cbn [filter]. unfold Rleb, Rltb in *.
  destruct (Rle_dec lo v), (Rlt_dec v hi), (Rlt_dec v lo); cbn [andb length];
    try lra; lia.
Qed.

Lemma np_sum_cons x l : np_sum (x :: l) = x + np_sum l.
Proof. reflexivity. Qed.

Lemma np_sum_firstn_step ws i :
  (i < length ws)%nat ->
  np_sum (firstn (S i) ws) = np_sum (firstn i ws) + nth i ws 0.
Proof.
  revert i. induction ws as [|w ws IH]; intros i Hi; cbn [length] in Hi; [lia|].
  destruct i as [|i].
  - cbn. ring.
  - rewrite !firstn_cons, !np_sum_cons. cbn [nth]. rewrite IH by lia. ring.
Qed.

Lemma cumsum_from_nth ws :
  forall acc i, (i < length ws)%nat ->
    nth i (cumsum_from acc ws) 0 = acc + np_sum (firstn (S i) ws).
Proof.
  induction ws as [|w ws IH]; intros acc i Hi; cbn [length] in Hi; [lia|].
  destruct i as [|i]; cbn [cumsum_from nth].
  - cbn. ring.
  - rewrite IH by lia. rewrite (firstn_cons (S i) w ws), np_sum_cons. ring.
Qed.

Lemma edges_nth ws i :
  (i <= length ws)%nat -> nth i (0 :: np_cumsum ws) 0 = np_sum (firstn i ws).
Proof.
  intros Hi. destruct i as [|i]; [reflexivity|].
  cbn [nth]. unfold np_cumsum. rewrite cumsum_from_nth by lia. ring.
Qed.

Lemma cumsum_from_length ws : forall acc, length (cumsum_from acc ws) = length ws.
Proof.
  induction ws as [|w ws IH]; intros acc; [reflexivity|].
  cbn [cumsum_from length]. rewrite IH. reflexivity.
Qed.

Lemma edges_increasing ws :
  Forall (fun w => 0 <= w) ws ->
  forall acc, increasing (acc :: cumsum_from acc ws) = true.
Proof.
  induction 1 as [|w ws Hw _ IH]; intros acc; [reflexivity|].
  cbn [cumsum_from].
  change (increasing (acc :: acc + w :: cumsum_from (acc + w) ws))
    with (Rleb acc (acc + w) && increasing (acc + w :: cumsum_from (acc + w) ws)).
  rewrite IH. unfold Rleb. destruct (Rle_dec acc (acc + w)); [reflexivity | lra].
Qed.

Lemma np_sum_firstn_bounds ws i :
  Forall (fun w => 0 <= w) ws -> 0 <= np_sum (firstn i ws) <= np_sum ws.
Proof.
  intros H. revert i. induction H as [|w ws Hw _ IH]; intros i.
  - destruct i; cbn; lra.
  - destruct i as [|i].
    + specialize (IH 0%nat). unfold np_sum in *. cbn [firstn fold_right] in *. lra.
    + specialize (IH i). rewrite firstn_cons, !np_sum_cons. lra.
Qed.

Lemma telescope (c F : nat -> nat) n :
  (forall i, (i < n)%nat -> (c i + F i = F (S i))%nat) ->
  (list_sum (map c (seq 0 n)) + F 0 = F n)%nat.
Proof.
  induction n as [|n IH]; intros H; [reflexivity|].
  rewrite seq_S, map_app, list_sum_app. cbn [Nat.add map list_sum fold_right].
  specialize (IH (fun i Hi => H i (Nat.lt_lt_succ_r _ _ Hi))).
  specialize (H n (Nat.lt_succ_diag_r n)). lia.
Qed.

Section Universal.
Variables (N : nat) (rand : R).
Hypothesis HN : (1 <= N)%nat.
Hypothesis Hrand : 0 <= rand < 1.

Lemma INR_N_pos : 0 < INR N.
Proof. apply lt_0_INR. lia. Qed.

Lemma value_eq k : selection_value N rand k * INR N = INR k + rand.
Proof. unfold selection_value. pose proof INR_N_pos. field. lra. Qed.

Lemma below_bounds t :
  0 <= t <= 1 ->
  (count_below (map (selection_value N rand) (seq 0 N)) t <= N)%nat /\
  INR (count_below (map (selection_value N rand) (seq 0 N)) t) - 1
  < INR N * t - rand
  <= INR (count_below (map (selection_value N rand) (seq 0 N)) t).
Proof.
  intros Ht. pose proof INR_N_pos as HNp.
  destruct (filter_prefix (fun k => Rltb (selection_value N rand k) t) N)
    as (c & Hc & Hl & Hlt & Hge).
  { intros k. unfold Rltb.
    destruct (Rlt_dec (selection_value N rand (S k)) t) as [H|]; [|discriminate].
    intros _. destruct (Rlt_dec (selection_value N rand k) t) as [|Hn]; [reflexivity|].
    exfalso. apply Hn.
    apply (Rmult_lt_reg_r (INR N)); [exact HNp|].
    apply (Rmult_lt_compat_r (INR N)) in H; [|exact HNp].
    rewrite value_eq in *. rewrite S_INR in H. lra. }
  assert (Hb : count_below (map (selection_value N rand) (seq 0 N)) t = c).
  { unfold count_below. rewrite <- Hl. clear.
    induction (seq 0 N) as [|k ks IH]; [reflexivity|].
    cbn [map filter].
    destruct (Rltb (selection_value N rand k) t); cbn [length]; rewrite IH; reflexivity. }
  rewrite Hb. split; [exact Hc|]. split.
  - destruct c as [|c'].
    + cbn. assert (0 <= INR N * t) by (apply Rmult_le_pos; lra). lra.
    + specialize (Hlt c' (Nat.lt_succ_diag_r c')). unfold Rltb in Hlt.
      destruct (Rlt_dec (selection_value N rand c') t) as [H|]; [|discriminate].
      apply (Rmult_lt_compat_r (INR N)) in H; [|exact HNp].
      rewrite value_eq in H. rewrite S_INR. lra.
  - destruct (Nat.eq_dec c N) as [->|Hne].
    + assert (INR N * t <= INR N * 1) by (apply Rmult_le_compat_l; lra). lra.
    + specialize (Hge ltac:(lia)). unfold Rltb in Hge.
      destruct (Rlt_dec (selection_value N rand c) t) as [|H]; [discriminate|].
      apply Rnot_lt_le in H.
      apply (Rmult_le_compat_r (INR N)) in H; [|lra].
      rewrite value_eq in H. lra.
Qed.

Lemma values_below_one : forall v, In v (map (selection_value N rand) (seq 0 N)) -> v < 1.
Proof.
  intros v Hv. apply in_map_iff in Hv.
  destruct Hv as (k & <- & Hk). apply in_seq in Hk. pose proof INR_N_pos as HNp.
  apply (Rmult_lt_reg_r (INR N)); [exact HNp|]. rewrite value_eq.
  assert (INR k <= INR N - 1).
  { replace (INR N - 1) with (INR (N - 1)) by (rewrite minus_INR by lia; cbn; ring).
    apply le_INR. lia. }
  lra.
Qed.

End Universal.




(* ================================================================= *)
(** * Upload and download *)

Lemma nth_error_list_set_other {A} (l : list A) n m x :
  n <> m -> nth_error (list_set l n x) m = nth_error l m.
Proof.
  revert n m. induction l as [|h t IH]; intros n m Hnm; [reflexivity|].
  destruct n as [|n]; destruct m as [|m]; cbn [list_set nth_error]; try reflexivity;
    [congruence | apply IH; congruence].
Qed.

Lemma list_set_twice {A} (l : list A) n x y :
  list_set (list_set l n x) n y = list_set l n y.
Proof.
  revert n. induction l as [|h t IH]; intros n; [reflexivity|].
  destruct n; cbn [list_set]; [reflexivity | rewrite IH; reflexivity].
Qed.

Lemma set_slab_entries X idx c A X' :
  set_slab X idx c A = Ok X' ->
  a4_shape0 X' = a4_shape0 X /\ a4_shape1 X' = a4_shape1 X /\
  a4_shape2 X' = a4_shape2 X /\ a4_shape3 X' = a4_shape3 X /\
  forall e k y x,
    at4 X' e k y x =
    if Nat.eqb e idx && Nat.eqb k c
    then at2 A (np.bidx (shape0 A) y) (np.bidx (shape1 A) x)
    else at4 X e k y x.
Proof.
  unfold set_slab. intros H.
  destruct (negb _); [discriminate|]. destruct (negb _); [discriminate|].
  injection H as <-. repeat split.
Qed.

Section Padded.
Context {ext : External}.

Lemma padded_entries X idx i ny nx gy gx eta :
  (A <- slab X idx i ;; embed_interior ny nx gy gx A) = Ok eta ->
  a4_shape2 X = ny -> a4_shape3 X = nx ->
  forall y x, (y < ny)%nat -> (x < nx)%nat ->
    at2 eta (y + gy) (x + gx) = at4 X idx i y x.
Proof.
  intros H H2 H3 y x Hy Hx.
  apply bind_Ok in H. destruct H as (A & HA & H).
  unfold slab in HA. destruct (negb _); [discriminate|]. injection HA as <-.
  unfold embed_interior in H. cbn [shape0 shape1 at2] in H.
  destruct (negb _); [discriminate|]. injection H as <-. cbn [at2].
  replace (Nat.leb gy (y + gy)) with true by (symmetry; apply Nat.leb_le; lia).
  replace (Nat.ltb (y + gy) (ny + gy)) with true by (symmetry; apply Nat.ltb_lt; lia).
  replace (Nat.leb gx (x + gx)) with true by (symmetry; apply Nat.leb_le; lia).
  replace (Nat.ltb (x + gx) (nx + gx)) with true by (symmetry; apply Nat.ltb_lt; lia).
  cbn [andb]. rewrite H2, H3.
  replace (y + gy - gy)%nat with y by lia. replace (x + gx - gx)%nat with x by lia.
  rewrite !bidx_lt by assumption. reflexivity.
Qed.

End Padded.

Section ReadBack.
Context {ext : External}.

Lemma upload_particles_cons X e rest idx w w' :
  upload_particles X (e :: rest) idx w = (Ok tt, w') ->
  let self := the_filter w in
  let ens := self_ensemble self in
  exists active,
    nth_error (particlesActive ens) e = Some active /\
    if (active : bool) then
      exists eta hu hv p,
        (A <- slab X idx 0 ;; pad_of self A) = Ok eta /\
        (A <- slab X idx 1 ;; pad_of self A) = Ok hu /\
        (A <- slab X idx 2 ;; pad_of self A) = Ok hv /\
        nth_error (particles ens) e = Some p /\
        upload_particles X rest (S idx)
          (mkWorld
             (with_ensemble self
                (with_particles ens
                   (list_set (particles ens) e
                      (applyBoundaryConditions (upload p eta hu hv))))
                (N_e_active self))
             (the_calls w ++ [CallUpload e eta hu hv; CallApplyBoundaryConditions e]))
        = (Ok tt, w')
    else upload_particles X rest idx w = (Ok tt, w').
Proof.
  intros H self ens. cbn [upload_particles] in H.
  apply bindM_Ok in H. destruct H as (self0 & w1 & Hg & H).
  injection Hg as <- <-.
  apply bindM_Ok in H. destruct H as (active & w1 & Ha & H).
  apply lift_Ok in Ha. destruct Ha as [Ha ->]. apply getitem_Ok in Ha.
  exists active. split; [exact Ha|].
  destruct active; [|exact H].
  apply bindM_Ok in H. destruct H as (eta & w1 & He & H).
  apply lift_Ok in He. destruct He as [He ->].
  apply bindM_Ok in H. destruct H as (hu & w1 & Hu & H).
  apply lift_Ok in Hu. destruct Hu as [Hu ->].
  apply bindM_Ok in H. destruct H as (hv & w1 & Hv & H).
  apply lift_Ok in Hv. destruct Hv as [Hv ->].
  apply bindM_Ok in H. destruct H as (p & w1 & Hp & H).
  apply lift_Ok in Hp. destruct Hp as [Hp ->]. apply getitem_Ok in Hp.
  apply bindM_Ok in H. destruct H as (u1 & w1 & E1 & H). injection E1 as _ <-.
  apply bindM_Ok in H. destruct H as (u2 & w2 & E2 & H). injection E2 as _ <-.
  apply bindM_Ok in H. destruct H as (self2 & w3 & E3 & H). injection E3 as <- <-.
  cbn [the_filter the_calls] in H.
  apply bindM_Ok in H. destruct H as (p' & w3 & Hp' & H).
  apply lift_Ok in Hp'. destruct Hp' as [Hp' ->]. apply getitem_Ok in Hp'.
  cbn [self_ensemble with_ensemble with_particles particles] in Hp'.
  apply bindM_Ok in H. destruct H as (u3 & w3 & E3 & H). injection E3 as _ <-.
  apply bindM_Ok in H. destruct H as (u4 & w4 & E4 & H). injection E4 as _ <-.
  cbn [the_filter the_calls] in H.
  assert (Hlt : (e < length (particles (self_ensemble (the_filter w))))%nat).
  { apply nth_error_Some. congruence. }
  rewrite (nth_error_list_set _ _ _ Hlt) in Hp'. injection Hp' as <-.
  exists eta, hu, hv, p. repeat (split; [assumption|]).
  rewrite <- H. f_equal. unfold self, ens.
  cbn [self_ensemble with_ensemble with_particles particles N_e_active].
  rewrite list_set_twice, <- app_assoc. reflexivity.
Qed.

Lemma upload_particles_frame X es :
  forall idx w w',
    upload_particles X es idx w = (Ok tt, w') ->
    let ens := self_ensemble (the_filter w) in
    let ens' := self_ensemble (the_filter w') in
    particlesActive ens' = particlesActive ens /\
    ens_ny ens' = ens_ny ens /\ ens_nx ens' = ens_nx ens /\
    N_e (the_filter w') = N_e (the_filter w) /\
    self_ghost_cells_y (the_filter w') = self_ghost_cells_y (the_filter w) /\
    self_ghost_cells_x (the_filter w') = self_ghost_cells_x (the_filter w) /\
    length (particles ens') = length (particles ens) /\
    forall e, ~ In e es -> nth_error (particles ens') e = nth_error (particles ens) e.
Proof.
  induction es as [|e es IH]; intros idx w w' H.
  - cbn [upload_particles ret] in H. injection H as <-. repeat split.
  - apply upload_particles_cons in H. destruct H as (active & Ha & H).
    destruct active.
    + destruct H as (eta & hu & hv & p & _ & _ & _ & Hp & H).
      apply IH in H. cbn [the_filter self_ensemble with_ensemble with_particles
                          particlesActive ens_ny ens_nx N_e self_ghost_cells_y
                          self_ghost_cells_x particles] in H.
      destruct H as (F1 & F2 & F3 & F4 & F5 & F6 & F7 & F8).
      repeat (split; [assumption|]). split.
      * rewrite F7. apply length_list_set.
      * intros e' Hn. rewrite F8 by (intros Hin; apply Hn; right; exact Hin).
        apply nth_error_list_set_other. intros ->. apply Hn. left. reflexivity.
    + apply IH in H. destruct H as (F1 & F2 & F3 & F4 & F5 & F6 & F7 & F8).
      repeat (split; [assumption|]).
      intros e' Hn. apply F8. intros Hin. apply Hn. right. exact Hin.
Qed.

Lemma active_of_flags self self' es :
  particlesActive (self_ensemble self') = particlesActive (self_ensemble self) ->
  active_of self' es = active_of self es.
Proof. intros H. unfold active_of. rewrite H. reflexivity. Qed.

Lemma upload_then_download X_new es :
  forall idx w w' X0 calls,
    NoDup es ->
    upload_particles X_new es idx w = (Ok tt, w') ->
    let self := the_filter w in
    let ens := self_ensemble self in
    let ny := ens_ny ens in
    let nx := ens_nx ens in
    (forall e p, In e es -> nth_error (particles ens) e = Some p ->
       reads_back ext ny nx (self_ghost_cells_y self) (self_ghost_cells_x self) p) ->
    a4_shape2 X_new = ny -> a4_shape3 X_new = nx ->
    a4_shape1 X0 = 3%nat -> a4_shape2 X0 = ny -> a4_shape3 X0 = nx ->
    (idx + length (active_of self es) <= a4_shape0 X0)%nat ->
    exists X',
      download_particles es idx X0 (mkWorld (the_filter w') calls)
      = (Ok X', mkWorld (the_filter w')
                  (calls ++ map (fun e => CallDownload e true) (active_of self es))) /\
      a4_shape0 X' = a4_shape0 X0 /\ a4_shape1 X' = 3%nat /\
      a4_shape2 X' = ny /\ a4_shape3 X' = nx /\
      (forall k c y x,
         (idx <= k < idx + length (active_of self es))%nat ->
         (c < 3)%nat -> (y < ny)%nat -> (x < nx)%nat ->
         at4 X' k c y x = at4 X_new k c y x) /\
      (forall k c y x, (k < idx)%nat -> at4 X' k c y x = at4 X0 k c y x).
Proof.
  induction es as [|e es IH];
    intros idx w w' X0 calls Hnd Hup self ens ny nx Hcontract N2 N3 S1 S2 S3 Hlen;
    subst ny nx ens self.
  - exists X0. cbn [download_particles ret active_of filter map length] in *.
    rewrite app_nil_r. repeat split; try assumption. intros k c y x Hk. lia.
  - pose proof (upload_particles_frame _ _ _ _ _ Hup)
      as (F1 & F2 & F3 & F4 & F5 & F6 & F7 & F8).
    apply upload_particles_cons in Hup. destruct Hup as (active & Ha & Hup).
    inversion Hnd as [|e0 es0 Hnotin Hnd']; subst e0 es0.
    assert (Hact : nth e (particlesActive (self_ensemble (the_filter w))) false = active)
      by (apply nth_error_nth; exact Ha).
    cbn [download_particles]. unfold bindM at 1. cbn [get_self the_filter].
    unfold bindM at 1, lift at 1. unfold getitem at 1. rewrite F1, Ha.
    cbn [active_of filter] in Hlen |- *. fold (active_of (the_filter w) es) in Hlen |- *.
    rewrite Hact in Hlen |- *.
    destruct active.
    + destruct Hup as (eta & hu & hv & p & He & Hu & Hv & Hp & Hup).
      cbn [length map] in Hlen |- *.
      set (bcp := applyBoundaryConditions (upload p eta hu hv)) in *.
      set (w1 := mkWorld _ _) in Hup.
      pose proof (upload_particles_frame _ _ _ _ _ Hup) as (_ & _ & _ & _ & _ & _ & _ & G8).
      assert (Hpe : nth_error (particles (self_ensemble (the_filter w'))) e = Some bcp).
      { rewrite (G8 e Hnotin). unfold w1.
        cbn [the_filter self_ensemble with_ensemble with_particles particles].
        apply nth_error_list_set. apply nth_error_Some. congruence. }
      unfold bindM at 1, lift at 1. unfold getitem at 1. rewrite Hpe.
      unfold bindM at 1, emit at 1.
      pose proof (Hcontract e p (or_introl eq_refl) Hp eta hu hv) as Hrb.
      fold bcp in Hrb.
      destruct (download bcp true) as [[a b] c].
      destruct Hrb as ((Ha0 & Ha1 & Hae) & (Hb0 & Hb1 & Hbe) & (Hc0 & Hc1 & Hce)).
      destruct (set_slab_returns X0 idx 0 a) as (X1 & HX1 & A0 & A1 & A2 & A3);
        [lia | lia | congruence | congruence |].
      destruct (set_slab_returns X1 idx 1 b) as (X2 & HX2 & B0 & B1 & B2 & B3);
        [lia | lia | congruence | congruence |].
      destruct (set_slab_returns X2 idx 2 c) as (X3 & HX3 & C0 & C1 & C2 & C3);
        [lia | lia | congruence | congruence |].
      unfold bindM at 1, lift at 1. rewrite HX1.
      unfold bindM at 1, lift at 1. rewrite HX2.
      unfold bindM at 1, lift at 1. rewrite HX3.
      cbn [the_filter the_calls].
      destruct (IH (S idx) w1 w' X3 (calls ++ [CallDownload e true]) Hnd' Hup)
        as (X' & HX' & D0 & D1 & D2 & D3 & Dnew & Dold).
      * intros e' p' Hin' Hp'. unfold w1 in Hp' |- *.
        cbn [the_filter self_ensemble with_ensemble with_particles particles
             ens_ny ens_nx self_ghost_cells_y self_ghost_cells_x] in Hp' |- *.
        rewrite nth_error_list_set_other in Hp'
          by (intros ->; apply Hnotin; exact Hin').
        apply (Hcontract e' p'); [right; exact Hin' | exact Hp'].
      * exact N2.
      * exact N3.
      * congruence.
      * unfold w1. cbn [the_filter self_ensemble with_ensemble with_particles ens_ny].
        congruence.
      * unfold w1. cbn [the_filter self_ensemble with_ensemble with_particles ens_nx].
        congruence.
      * rewrite (active_of_flags (the_filter w) (the_filter w1)) by reflexivity.
        replace (a4_shape0 X3) with (a4_shape0 X0) by congruence. lia.
      * rewrite (active_of_flags (the_filter w) (the_filter w1)) in HX', Dnew by reflexivity.
        exists X'. rewrite HX'. rewrite <- app_assoc. cbn [app].
        split; [reflexivity|]. split; [congruence|]. split; [exact D1|].
        split; [exact D2|]. split; [exact D3|].
        pose proof (set_slab_entries _ _ _ _ _ HX1) as (_ & _ & _ & _ & E1).
        pose proof (set_slab_entries _ _ _ _ _ HX2) as (_ & _ & _ & _ & E2).
        pose proof (set_slab_entries _ _ _ _ _ HX3) as (_ & _ & _ & _ & E3).
        split.
        -- intros k c0 y x Hk Hc Hy Hx.
           destruct (Nat.eq_dec k idx) as [->|Hne].
           ++ rewrite Dold by lia. rewrite E3, E2, E1. rewrite Nat.eqb_refl.
              cbn [andb]. rewrite Ha0, Ha1, Hb0, Hb1, Hc0, Hc1.
              rewrite !(bidx_lt _ y Hy), !(bidx_lt _ x Hx).
              destruct c0 as [|[|[|c0]]]; cbn [Nat.eqb]; [| | |lia].
              ** rewrite (Hae y x Hy Hx). exact (padded_entries _ _ _ _ _ _ _ _ He N2 N3 y x Hy Hx).
              ** rewrite (Hbe y x Hy Hx). exact (padded_entries _ _ _ _ _ _ _ _ Hu N2 N3 y x Hy Hx).
              ** rewrite (Hce y x Hy Hx). exact (padded_entries _ _ _ _ _ _ _ _ Hv N2 N3 y x Hy Hx).
           ++ apply Dnew; try assumption. lia.
        -- intros k c0 y x Hk. rewrite Dold by lia. rewrite E3, E2, E1.
           destruct (Nat.eqb_spec k idx) as [->|_]; [lia|]. reflexivity.
    + destruct (IH idx w w' X0 calls Hnd' Hup) as (X' & HX' & D); try assumption.
      * intros e' p' Hin' Hp'. apply (Hcontract e' p'); [right; exact Hin' | exact Hp'].
      * exists X'. split; [exact HX' | exact D].
Qed.

(** X23. What [uploadAnalysis] uploads is what the next download reads.
    If the simulator hands back, after an upload and the boundary
    conditions, the interior of what it was handed, then
    [giveX_f_global] with a download, run after [uploadAnalysis] of a
    state of the grid's size, returns that state for the active
    particles, counted as the upload counted them. *)
Theorem uploaded_analysis_is_read_back
  (w w' : World) (X_new : array4) (calls : list Event) (n : nat)
  (Hup : uploadAnalysis X_new w = (Ok tt, w'))
  (Hsim : forall e p,
            nth_error (particles (self_ensemble (the_filter w))) e = Some p ->
            reads_back ext (ens_ny (self_ensemble (the_filter w)))
              (ens_nx (self_ensemble (the_filter w)))
              (self_ghost_cells_y (the_filter w)) (self_ghost_cells_x (the_filter w)) p)
  (Hny : a4_shape2 X_new = ens_ny (self_ensemble (the_filter w)))
  (Hnx : a4_shape3 X_new = ens_nx (self_ensemble (the_filter w)))
  (Hn : (length (active_of (the_filter w) (seq 0 (N_e (the_filter w)))) <= n)%nat) :
  exists X_f X_f_mean X_f_pert w2,
    giveX_f_global
      (zeros4 n 3 (ens_ny (self_ensemble (the_filter w)))
         (ens_nx (self_ensemble (the_filter w))))
      true (mkWorld (the_filter w') calls)
    = (Ok (X_f, X_f_mean, X_f_pert), w2) /\
    the_filter w2 = the_filter w' /\
    forall k c y x,
      (k < length (active_of (the_filter w) (seq 0 (N_e (the_filter w)))))%nat ->
      (c < 3)%nat ->
      (y < ens_ny (self_ensemble (the_filter w)))%nat ->
      (x < ens_nx (self_ensemble (the_filter w)))%nat ->
      at4 X_f k c y x = at4 X_new k c y x.
Proof.
  unfold uploadAnalysis in Hup.
  apply bindM_Ok in Hup. destruct Hup as (self & w1 & Hs & Hup). injection Hs as <- <-.
  pose proof (upload_particles_frame _ _ _ _ _ Hup) as (_ & _ & _ & F4 & _).
  destruct (upload_then_download X_new (seq 0 (N_e (the_filter w))) 0 w w'
              (zeros4 n 3 (ens_ny (self_ensemble (the_filter w)))
                 (ens_nx (self_ensemble (the_filter w))))
              calls (seq_NoDup _ _) Hup)
    as (X' & HX' & _ & _ & _ & _ & Hnew & _);
    try reflexivity; try assumption.
  { intros e p _ Hp. exact (Hsim e p Hp). }
  unfold giveX_f_global. unfold bindM at 1. cbn [get_self the_filter].
  rewrite F4. unfold bindM at 1. rewrite HX'. cbn [ret].
  eexists _, _, _, _. split; [reflexivity|]. split; [reflexivity|].
  intros k c y x Hk Hc Hy Hx. apply Hnew; try assumption. lia.
Qed.

End ReadBack.

Lemma still_water_reads_back p :
  reads_back still_water (p_ny p) (p_nx p) (ghost_cells_y p) (ghost_cells_x p) p.
Proof.
  intros eta hu hv. cbn [download upload applyBoundaryConditions still_water
                          stored_fields].
  unfold interior, interior_of. cbn [p_ny p_nx ghost_cells_y ghost_cells_x shape0 shape1 at2].
  repeat split.
Qed.

Lemma uploaded_analysis_is_read_back_witness :
  let X_new := mkArray4 3 3 10 10 (fun e c y x => INR (e + c + y + x)) in
  exists w' X_f X_f_mean X_f_pert w2,
    @uploadAnalysis still_water X_new (mkWorld one_buoy_filter []) = (Ok tt, w') /\
    @giveX_f_global still_water (zeros4 3 3 10 10) true (mkWorld (the_filter w') [])
    = (Ok (X_f, X_f_mean, X_f_pert), w2) /\
    at4 X_f 2 1 9 0 = 12.
Proof.
  intros X_new.
  destruct (@upload_particles_returns still_water X_new (seq 0 3) 0
              (mkWorld one_buoy_filter [])) as (w' & Hw'); try reflexivity.
  { intros e He. apply in_seq in He. cbn. lia. }
  assert (Hup : @uploadAnalysis still_water X_new (mkWorld one_buoy_filter [])
                = (Ok tt, w')) by exact Hw'.
  destruct (@uploaded_analysis_is_read_back still_water _ w' X_new [] 3 Hup)
    as (X_f & Xm & Xp & w2 & Hg & _ & Hent); try reflexivity.
  { intros e p Hp. cbn [the_filter one_buoy_filter self_ensemble one_buoy particles
                        ens_ny ens_nx self_ghost_cells_y self_ghost_cells_x] in Hp |- *.
    destruct e as [|[|[|e]]]; cbn [nth_error] in Hp;
      [injection Hp as <- | injection Hp as <- | injection Hp as <- |
       destruct e; discriminate];
      exact (still_water_reads_back particle_10). }
  exists w', X_f, Xm, Xp, w2. split; [exact Hup|]. split; [exact Hg|].
  rewrite (Hent 2%nat 1%nat 9%nat 0%nat) by (unfold active_of; cbn; lia).
  unfold X_new. cbn. lra.
Defined.


(* ================================================================= *)
(** * The stencil of local weights *)

Lemma ceilZ_nonneg x : 0 <= x -> (0 <= ceilZ x)%Z.
Proof.
  intros Hx. unfold ceilZ. pose proof (Int_part_bounds (- x)) as [Hlo Hhi].
  assert (H : (Int_part (- x) < 1)%Z) by (apply lt_IZR; lra). lia.
Qed.

Lemma norm2_flip_x a b : norm2 (- a, b) = norm2 (a, b).
Proof. unfold norm2. cbn [fst snd]. f_equal. ring. Qed.

Lemma norm2_flip_y a b : norm2 (a, - b) = norm2 (a, b).
Proof. unfold norm2. cbn [fst snd]. f_equal. ring. Qed.

Lemma distGC_dist_of_abs obs loc obs' loc' lx ly :
  vabs (vsub obs loc) = vabs (vsub obs' loc') ->
  distGC_dist obs loc lx ly = distGC_dist obs' loc' lx ly.
Proof. intros H. unfold distGC_dist. rewrite H. reflexivity. Qed.

Lemma distGC_value_0 r : r <> 0 -> distGC_value 0 r = 1.
Proof.
  intros Hr. unfold distGC_value. destruct (Req_dec_T r 0); [contradiction|].
  assert (E : 0 / r = 0) by (unfold Rdiv; ring). rewrite E.
  destruct (Rlt_dec 0 1) as [_|H]; [|lra]. unfold GC_inner. field.
Qed.

Lemma distGC_value_radius_0 d : distGC_value d 0 = 0.
Proof. unfold distGC_value. destruct (Req_dec_T 0 0); [reflexivity | lra]. Qed.

(** X26. The stencil of [getLocalWeightShape] for a radius that is not
    negative and cells of positive width has [2c + 1] rows and columns,
    [c = ceil(1.5 * scale_r)]; for a positive radius the weight of its
    centre cell is [scale_w], while for the radius 0 (where [distGC]
    divides by 0) the stencil is a single cell of weight 0; with
    [scale_w] at least 0 every weight lies between 0 and [scale_w]; and
    the stencil is its own mirror image in both axes. *)
Theorem getLocalWeightShape_stencil
  (scale_r dx dy : R) (nx ny : nat) (scale_w : R)
  (Hr : 0 <= scale_r) (Hdx : 0 < dx) :
  let c := Z.to_nat (ceilZ (scale_r * 1.5)) in
  exists W,
    getLocalWeightShape scale_r dx dy nx ny scale_w = Ok W /\
    shape0 W = (2 * c + 1)%nat /\ shape1 W = (2 * c + 1)%nat /\
    (0 < scale_r -> at2 W c c = scale_w) /\
    (scale_r = 0 -> c = 0%nat /\ at2 W 0 0 = 0) /\
    (0 <= scale_w -> forall y x, 0 <= at2 W y x <= scale_w) /\
    (forall y x, (y <= 2 * c)%nat -> (x <= 2 * c)%nat ->
       at2 W (2 * c - y) x = at2 W y x /\ at2 W y (2 * c - x) = at2 W y x).
Proof.
  intros c.
  assert (Hc : (0 <= ceilZ (scale_r * 1.5))%Z) by (apply ceilZ_nonneg; lra).
  assert (Hci : IZR (ceilZ (scale_r * 1.5)) = INR c).
  { unfold c. rewrite INR_IZR_INZ, Z2Nat.id by exact Hc. reflexivity. }
  unfold getLocalWeightShape.
  destruct (ceilZ (scale_r * 1.5) * 2 + 1 <? 0)%Z eqn:E; [apply Z.ltb_lt in E; lia|].
  eexists. split; [reflexivity|].
  cbn [np.scale shape0 shape1 at2].
  assert (Hn : Z.to_nat (ceilZ (scale_r * 1.5) * 2 + 1) = (2 * c + 1)%nat)
    by (unfold c; lia).
  split; [exact Hn|]. split; [exact Hn|].
  rewrite plus_IZR, mult_IZR, Hci.
  set (ox := (INR c * 2 + 1) * dx / 2). set (oy := (INR c * 2 + 1) * dy / 2).
  set (cell := fun y x : nat =>
         if Rgt_dec (norm2 (vsub (ox, oy) ((INR x + 0.5) * dx, (INR y + 0.5) * dy)))
              (1.5 * scale_r * dx)
         then 0
         else Rmin 1 (distGC (ox, oy) ((INR x + 0.5) * dx, (INR y + 0.5) * dy)
                        (scale_r * dx) (INR nx * dx) (INR ny * dy))).
  change ((0 < scale_r -> scale_w * cell c c = scale_w) /\
          (scale_r = 0 -> c = 0%nat /\ scale_w * cell 0%nat 0%nat = 0) /\
          (0 <= scale_w -> forall y x, 0 <= scale_w * cell y x <= scale_w) /\
          (forall y x, (y <= 2 * c)%nat -> (x <= 2 * c)%nat ->
             scale_w * cell (2 * c - y)%nat x = scale_w * cell y x /\
             scale_w * cell y (2 * c - x)%nat = scale_w * cell y x)).
  assert (Hdiff : forall b a : R,
            vsub (ox, oy) ((a + 0.5) * dx, (b + 0.5) * dy)
            = ((INR c - a) * dx, (INR c - b) * dy)).
  { intros b a. unfold vsub, ox, oy. cbn [fst snd].
    replace 0.5 with (/ 2) by lra. apply f_equal2; field. }
  assert (Hcell01 : forall y x, 0 <= cell y x <= 1).
  { intros y x. unfold cell.
    destruct (Rgt_dec _ _) as [Hgt|Hle]; [lra|]. split.
    - apply Rmin_glb; [lra|]. apply distGC_nonneg.
      replace (1.5 * (scale_r * dx)) with (1.5 * scale_r * dx) by ring.
      apply Rnot_gt_le. exact Hle.
    - apply Rmin_l. }
  split; [|split; [|split]].
  - intros Hpos. unfold cell. rewrite Hdiff.
    replace ((INR c - INR c) * dx) with 0 by ring.
    replace ((INR c - INR c) * dy) with 0 by ring.
    assert (Hz : norm2 (0, 0) = 0).
    { unfold norm2. cbn [fst snd]. replace (0 ^ 2 + 0 ^ 2) with 0 by ring. apply sqrt_0. }
    rewrite Hz.
    destruct (Rgt_dec 0 (1.5 * scale_r * dx)) as [Hgt|_].
    { assert (0 <= 1.5 * scale_r * dx) by (apply Rmult_le_pos; lra). lra. }
    unfold distGC, distGC_dist. rewrite Hdiff.
    replace ((INR c - INR c) * dx) with 0 by ring.
    replace ((INR c - INR c) * dy) with 0 by ring.
    assert (Ha : vabs (0, 0) = (0, 0)) by (unfold vabs; cbn [fst snd]; rewrite Rabs_R0; reflexivity).
    rewrite Ha, Hz.
    assert (Hmin : forall a, 0 <= a -> Rmin 0 a = 0) by (intros a Ha'; apply Rmin_left; exact Ha').
    rewrite Hmin by (repeat apply Rmin_glb; apply norm2_nonneg).
    rewrite distGC_value_0 by (apply Rgt_not_eq, Rmult_lt_0_compat; assumption).
    rewrite Rmin_left by lra. ring.
  - intros H0.
    assert (Hc0 : c = 0%nat).
    { unfold c. rewrite H0, Rmult_0_l.
      rewrite (ceilZ_eq 0 0) by (simpl; lra). reflexivity. }
    split; [exact Hc0|]. unfold cell.
    destruct (Rgt_dec _ _) as [_|_]; [ring|].
    unfold distGC. rewrite H0, Rmult_0_l, distGC_value_radius_0.
    rewrite Rmin_right by lra. ring.
  - intros Hw y x. destruct (Hcell01 y x) as [H0 H1]. split.
    + apply Rmult_le_pos; assumption.
    + rewrite <- (Rmult_1_r scale_w) at 2. apply Rmult_le_compat_l; assumption.
  - intros y x Hy Hx.
    assert (Hmy : cell (2 * c - y)%nat x = cell y x).
    { unfold cell, distGC.
      rewrite minus_INR, mult_INR by exact Hy. cbn [INR].
      rewrite (distGC_dist_of_abs (ox, oy)
                 ((INR x + 0.5) * dx, ((1 + 1) * INR c - INR y + 0.5) * dy)
                 (ox, oy) ((INR x + 0.5) * dx, (INR y + 0.5) * dy)).
      - rewrite !Hdiff.
        replace ((INR c - ((1 + 1) * INR c - INR y)) * dy)
          with (- ((INR c - INR y) * dy)) by ring.
        rewrite norm2_flip_y. reflexivity.
      - rewrite !Hdiff.
        replace ((INR c - ((1 + 1) * INR c - INR y)) * dy)
          with (- ((INR c - INR y) * dy)) by ring.
        unfold vabs. cbn [fst snd]. rewrite Rabs_Ropp. reflexivity. }
    assert (Hmx : cell y (2 * c - x)%nat = cell y x).
    { unfold cell, distGC.
      rewrite minus_INR, mult_INR by exact Hx. cbn [INR].
      rewrite (distGC_dist_of_abs (ox, oy)
                 (((1 + 1) * INR c - INR x + 0.5) * dx, (INR y + 0.5) * dy)
                 (ox, oy) ((INR x + 0.5) * dx, (INR y + 0.5) * dy)).
      - rewrite !Hdiff.
        replace ((INR c - ((1 + 1) * INR c - INR x)) * dx)
          with (- ((INR c - INR x) * dx)) by ring.
        rewrite norm2_flip_x. reflexivity.
      - rewrite !Hdiff.
        replace ((INR c - ((1 + 1) * INR c - INR x)) * dx)
          with (- ((INR c - INR x) * dx)) by ring.
        unfold vabs. cbn [fst snd]. rewrite Rabs_Ropp. reflexivity. }
    rewrite Hmy, Hmx. split; reflexivity.
Qed.

Lemma getLocalWeightShape_stencil_witness :
  exists W,
    getLocalWeightShape 0.5 1 1 10 10 1 = Ok W /\
    shape0 W = 3%nat /\ at2 W 1 1 = 1 /\ at2 W 2 0 = at2 W 0 0.
Proof.
  pose proof (getLocalWeightShape_stencil 0.5 1 1 10 10 1 ltac:(lra) ltac:(lra)) as H.
  cbv zeta in H. rewrite (ceilZ_eq (0.5 * 1.5) 1) in H by (simpl; lra).
  change (Z.to_nat 1) with 1%nat in H.
  destruct H as (W & HW & S0 & _ & Hc & _ & _ & Hsym).
  exists W. split; [exact HW|]. split; [exact S0|]. split; [apply Hc; lra|].
  exact (proj1 (Hsym 0%nat 0%nat ltac:(lia) ltac:(lia))).
Defined.


(* ================================================================= *)
(** * An ensemble without spread *)

Lemma bdim_wide a b c : (2 <= a)%nat -> np.bdim a b = Ok c -> c = a.
Proof.
  unfold np.bdim. intros Ha.
  destruct (Nat.eqb_spec a b); [congruence|].
  destruct (Nat.eqb_spec a 1); [lia|].
  destruct (Nat.eqb_spec b 1); [congruence | discriminate].
Qed.

Lemma matmul_zero_rows A B C :
  (forall i k, (i < shape0 A)%nat -> (k < shape1 A)%nat -> at2 A i k = 0) ->
  np.matmul A B = Ok C ->
  shape0 C = shape0 A /\ forall i j, (i < shape0 A)%nat -> at2 C i j = 0.
Proof.
  intros HA H. split.
  - unfold np.matmul in H. destruct (_ =? _)%nat; [|discriminate].
    injection H as <-. reflexivity.
  - intros i j Hi. rewrite (matmul_entries _ _ _ H).
    rewrite (sum_n_ext _ (fun _ => 0)); [apply sum_n_zero|].
    intros k Hk. rewrite (HA i k Hi Hk). ring.
Qed.

Section WithoutSpread.
Context {ext : External}.

Lemma SEnKF_loc_without_spread self d X_f_loc X_f_loc_pert HX_f_loc_mean HX_f_loc_pert
  y_loc D X_a_loc n N_a :
  shape0 X_f_loc = n -> shape1 X_f_loc = N_a -> shape0 X_f_loc_pert = n ->
  (2 <= N_a)%nat ->
  zero_rows X_f_loc_pert ->
  SEnKF_loc self d X_f_loc X_f_loc_pert HX_f_loc_mean HX_f_loc_pert y_loc D
    = Ok X_a_loc ->
  shape0 X_a_loc = n /\ shape1 X_a_loc = N_a /\
  forall i j, (i < n)%nat -> (j < N_a)%nat -> at2 X_a_loc i j = at2 X_f_loc i j.
Proof.
  intros Hn HN Hpn Htwo Hzero Hret. unfold SEnKF_loc in Hret.
  apply bind_Ok in Hret. destruct Hret as (D1 & _ & Hret).
  apply bind_Ok in Hret. destruct Hret as (c & _ & Hret).
  apply bind_Ok in Hret. destruct Hret as (HH & _ & Hret).
  apply bind_Ok in Hret. destruct Hret as (F & _ & Hret).
  apply bind_Ok in Hret. destruct Hret as (c' & _ & Hret).
  apply bind_Ok in Hret. destruct Hret as (XH & HXH & Hret).
  apply bind_Ok in Hret. destruct Hret as (Finv & _ & Hret).
  apply bind_Ok in Hret. destruct Hret as (XHF & HXHF & Hret).
  apply bind_Ok in Hret. destruct Hret as (gain & Hgain & Hret).
  apply matmul_zero_rows in HXH.
  2:{ intros i k Hi Hk. cbn [np.scale at2 shape0 shape1] in *.
      rewrite (Hzero i k Hi Hk). ring. }
  destruct HXH as [S1 Z1]. cbn [np.scale shape0] in S1, Z1.
  apply matmul_zero_rows in HXHF.
  2:{ intros i k Hi _. apply Z1. rewrite <- S1. exact Hi. }
  destruct HXHF as [S2 Z2].
  apply matmul_zero_rows in Hgain.
  2:{ intros i k Hi _. apply Z2. rewrite <- S2. exact Hi. }
  destruct Hgain as [S3 Z3].
  assert (Sg : shape0 gain = n) by congruence.
  unfold np.add, np.broadcast in Hret.
  apply bind_Ok in Hret. destruct Hret as (r & Hr & Hret).
  apply bind_Ok in Hret. destruct Hret as (c0 & Hc0 & Hret).
  injection Hret as <-. cbn [shape0 shape1].
  rewrite Hn, Sg, bdim_same in Hr. injection Hr as <-.
  rewrite HN in Hc0. apply (bdim_wide _ _ _ Htwo) in Hc0. subst c0.
  split; [reflexivity|]. split; [reflexivity|].
  intros i j Hi Hj. cbn [at2]. rewrite Hn, HN.
  rewrite (bidx_lt n i Hi), (bidx_lt N_a j Hj).
  rewrite Z3; [ring|]. rewrite Sg, (bidx_lt n i Hi). congruence.
Qed.

Lemma extract_local_without_spread X_pert L W0 W1 N_a X_loc :
  a4_shape0 X_pert = N_a -> a4_shape1 X_pert = 3%nat ->
  mshape0 L = a4_shape2 X_pert -> mshape1 L = a4_shape3 X_pert ->
  length (true_cells L) = (W0 * W1)%nat ->
  without_spread X_pert ->
  extract_local X_pert L 0 0 W0 W1 N_a = Ok X_loc ->
  shape0 X_loc = (3 * (W0 * W1))%nat /\ zero_rows X_loc.
Proof.
  intros H0 H1 H2 H3 Hc Hzero Hext.
  destruct (extract_local_zero_roll X_pert L W0 W1 N_a H0 H1 H2 H3 Hc)
    as (X_loc' & Hext' & Hl0 & Hl1 & Hval).
  rewrite Hext in Hext'. injection Hext' as <-. split; [exact Hl0|].
  intros r e Hr He. rewrite Hl0 in Hr. rewrite Hl1 in He.
  set (N := (W0 * W1)%nat) in *.
  assert (HN : (N <> 0)%nat) by lia.
  assert (Hk : (r mod N < N)%nat) by (apply Nat.mod_upper_bound; exact HN).
  assert (Hq : (r / N < 3)%nat) by (apply Nat.Div0.div_lt_upper_bound; lia).
  replace r with (r / N * N + r mod N)%nat at 1
    by (rewrite (Nat.div_mod_eq r N) at 3; lia).
  rewrite (Hval e (r / N)%nat (r mod N)%nat He Hq Hk).
  assert (Hin : In (nth (r mod N) (true_cells L) (O, O)) (true_cells L)).
  { apply nth_In. rewrite Hc. exact Hk. }
  destruct (nth (r mod N) (true_cells L) (O, O)) as [y x] eqn:E.
  apply in_true_cells in Hin. destruct Hin as (Hy & Hx & _).
  cbn [fst snd]. apply Hzero; congruence || lia.
Qed.

Lemma assimilate_observation_without_spread self ensemble observations X_f X_f_mean
  X_f_pert HX_f_mean HX_f_pert X_a d Ls L W N_a ny nx X_a' :
  method self = "SEnKF"%string ->
  all_Ls self = Some Ls -> nth_error Ls d = Some L ->
  nth_error (all_xrolls self) d = Some 0%Z ->
  nth_error (all_yrolls self) d = Some 0%Z ->
  W_loc self = Some W -> N_e_active self = Some N_a -> (2 <= N_a)%nat ->
  mshape0 L = ny -> mshape1 L = nx ->
  length (true_cells L) = (shape0 W * shape1 W)%nat ->
  a4_shape0 X_f = N_a -> a4_shape1 X_f = 3%nat ->
  a4_shape2 X_f = ny -> a4_shape3 X_f = nx ->
  a4_shape0 X_f_pert = N_a -> a4_shape1 X_f_pert = 3%nat ->
  a4_shape2 X_f_pert = ny -> a4_shape3 X_f_pert = nx ->
  without_spread X_f_pert ->
  a4_shape0 X_a = N_a -> a4_shape1 X_a = 3%nat ->
  a4_shape2 X_a = ny -> a4_shape3 X_a = nx ->
  assimilate_observation self ensemble observations X_f X_f_mean X_f_pert
    HX_f_mean HX_f_pert X_a d = Ok X_a' ->
  (a4_shape0 X_a' = N_a /\ a4_shape1 X_a' = 3%nat /\
   a4_shape2 X_a' = ny /\ a4_shape3 X_a' = nx) /\
  forall e c y x, (e < N_a)%nat -> (c < 3)%nat -> (y < ny)%nat -> (x < nx)%nat ->
    at4 X_a' e c y x = at4 X_a e c y x + stencil_on W L y x * at4 X_f e c y x.
Proof.
  intros Hmeth HLs HL Hxr Hyr HW HNa Htwo Hm0 Hm1 Hcount F0 F1 F2 F3 P0 P1 P2 P3
    Hzero A0 A1 A2 A3 H.
  unfold assimilate_observation in H.
  rewrite HLs in H. cbn [not_none bind] in H. unfold getitem in H at 1 2 3.
  rewrite HL, Hxr, Hyr in H. cbn [bind] in H. rewrite HW, HNa in H.
  cbn [getattr bind] in H.
  destruct (extract_local_zero_roll X_f L (shape0 W) (shape1 W) N_a)
    as (X_f_loc & Hext & Hl0 & Hl1 & Hval); [congruence .. |].
  rewrite Hext in H. cbn [bind] in H.
  apply bind_Ok in H. destruct H as (X_f_loc_pert & Hextp & H).
  apply extract_local_without_spread in Hextp; [|congruence ..| exact Hzero].
  destruct Hextp as [Hp0 Hpz].
  apply bind_Ok in H. destruct H as (X_f_loc_mean & _ & H).
  apply bind_Ok in H. destruct H as (u1 & _ & H).
  apply bind_Ok in H. destruct H as (u2 & _ & H).
  apply bind_Ok in H. destruct H as (row & _ & H).
  apply bind_Ok in H. destruct H as (D & _ & H).
  apply bind_Ok in H. destruct H as (X_a_loc & Hloc & H).
  rewrite Hmeth in Hloc. cbn [String.eqb Ascii.eqb Bool.eqb] in Hloc.
  apply (SEnKF_loc_without_spread _ _ _ _ _ _ _ _ _ _ N_a Hl0 Hl1 Hp0 Htwo Hpz) in Hloc.
  destruct Hloc as (Ha0 & Ha1 & Hfix).
  destruct (scatter_variable_zero_roll X_a 0 X_a_loc W L N_a)
    as (X1 & HX1 & B0 & B1 & B2 & B3 & V1); [lia | congruence .. |].
  destruct (scatter_variable_zero_roll X1 1 X_a_loc W L N_a)
    as (X2 & HX2 & C0 & C1 & C2 & C3 & V2); [lia | congruence .. |].
  destruct (scatter_variable_zero_roll X2 2 X_a_loc W L N_a)
    as (X3 & HX3 & D0 & D1 & D2 & D3 & V3); [lia | congruence .. |].
  set (N := (shape0 W * shape1 W)%nat) in *.
  unfold scatter_local in H. rewrite HX1 in H. cbn [bind] in H.
  rewrite HX2 in H. cbn [bind] in H. rewrite HX3 in H. injection H as <-.
  split; [repeat split; congruence|].
  intros e c y x He Hc Hy Hx.
  specialize (V1 e c y x He). specialize (V2 e c y x He). specialize (V3 e c y x He).
  assert (Hrange : ((y <? mshape0 L)%nat && (x <? mshape1 L)%nat) = true).
  { rewrite Hm0, Hm1. apply andb_true_iff. split; apply Nat.ltb_lt; assumption. }
  rewrite Hrange in V1, V2, V3. unfold stencil_on.
  destruct (mask_at L y x) eqn:Hmask.
  - assert (Hin : In (y, x) (true_cells L)).
    { apply in_true_cells. rewrite Hm0, Hm1. auto. }
    pose proof (index_of_lt _ _ Hin) as Hk. rewrite Hcount in Hk. fold N in Hk.
    assert (Hback : forall c', (c' < 3)%nat ->
              at2 X_a_loc (c' * N + index_of (y, x) (true_cells L)) e
              = at4 X_f e c' y x).
    { intros c' Hc'. rewrite Hfix by nia. rewrite (Hval e c' _ He Hc' Hk).
      rewrite (nth_index_of _ _ (O, O) Hin). reflexivity. }
    rewrite andb_true_r in V1, V2, V3. cbv zeta in V1, V2, V3.
    rewrite !Hback in V1, V2, V3 by lia.
    assert (Hcase : c = 0%nat \/ c = 1%nat \/ c = 2%nat) by lia.
    destruct Hcase as [->|[->| ->]]; cbn [Nat.eqb] in V1, V2, V3;
      rewrite V3, V2, V1; cbv zeta; ring.
  - rewrite andb_false_r in V1, V2, V3. rewrite V3, V2, V1. ring.
Qed.

End WithoutSpread.

Lemma roll_index_0 n i : (i < n)%nat -> roll_index n 0 i = i.
Proof.
  intros H. unfold roll_index. rewrite Z.sub_0_r, Z.mod_small by lia. lia.
Qed.

Lemma masked_add_stencil A L W A' :
  mshape0 L = shape0 A -> mshape1 L = shape1 A ->
  length (true_cells L) = (shape0 W * shape1 W)%nat ->
  masked_add A L (flatten (roll1 (roll0 W 0) 0)) = Ok A' ->
  shape0 A' = shape0 A /\ shape1 A' = shape1 A /\
  forall y x, (y < shape0 A)%nat -> (x < shape1 A)%nat ->
    at2 A' y x = at2 A y x + stencil_on W L y x.
Proof.
  intros Hm0 Hm1 Hcount H. unfold masked_add in H.
  rewrite Hm0, Hm1, !Nat.eqb_refl in H. cbn [andb negb] in H.
  rewrite length_flatten in H. cbn [roll1 roll0 shape0 shape1] in H.
  rewrite Hcount, Nat.eqb_refl in H. injection H as <-.
  split; [reflexivity|]. split; [reflexivity|].
  intros y x Hy Hx. cbn [at2]. unfold stencil_on.
  destruct (mask_at L y x) eqn:Hmask; [|ring]. f_equal.
  assert (Hin : In (y, x) (true_cells L)).
  { apply in_true_cells. rewrite Hm0, Hm1. auto. }
  pose proof (index_of_lt _ _ Hin) as Hk. rewrite Hcount in Hk.
  set (k := index_of (y, x) (true_cells L)) in *.
  assert (H1 : (shape1 W <> 0)%nat) by nia.
  assert (Hr : (k mod shape1 W < shape1 W)%nat) by (apply Nat.mod_upper_bound; exact H1).
  assert (Hq : (k / shape1 W < shape0 W)%nat)
    by (apply Nat.Div0.div_lt_upper_bound; lia).
  pose (B := roll1 (roll0 W 0) 0).
  assert (HB : nth (k / shape1 B * shape1 B + k mod shape1 B) (flatten B) 0
               = at2 B (k / shape1 B)%nat (k mod shape1 B)%nat)
    by (apply flatten_nth; assumption).
  replace (k / shape1 B * shape1 B + k mod shape1 B)%nat with k in HB
    by (change (shape1 B) with (shape1 W);
        rewrite (Nat.div_mod_eq k (shape1 W)) at 1; lia).
  unfold B in HB. rewrite HB.
  cbn [roll1 roll0 at2 shape0 shape1]. rewrite !roll_index_0 by assumption.
  reflexivity.
Qed.

Lemma combine_fold_stencils W scale_r dx dy nx ny obs :
  forall Lms A Wc,
    Forall2 (fun o L =>
               getLocalIndices o scale_r dx dy nx ny = Ok (L, 0%Z, 0%Z) /\
               mshape0 L = ny /\ mshape1 L = nx /\
               length (true_cells L) = (shape0 W * shape1 W)%nat) obs Lms ->
    shape0 A = ny -> shape1 A = nx ->
    fold_left
      (fun acc obs =>
         W_scale <- acc ;;
         Lr <- getLocalIndices obs scale_r dx dy nx ny ;;
         let '(L, xroll, yroll) := Lr in
         let W_loc_d := roll1 (roll0 W yroll) xroll in
         masked_add W_scale L (flatten W_loc_d))
      obs (Ok A) = Ok Wc ->
    forall y x, (y < ny)%nat -> (x < nx)%nat ->
      at2 Wc y x = at2 A y x + stencil_sum W Lms y x.
Proof.
  induction obs as [|o obs IH]; intros Lms A Wc HF A0 A1 H y x Hy Hx;
    inversion HF as [|o' L obs' Lms' (HL & Hm0 & Hm1 & Hcount) HF']; subst;
    cbn [fold_left] in H.
  - injection H as <-. unfold stencil_sum. cbn [fold_right]. ring.
  - cbn [bind] in H. rewrite HL in H. cbn [bind] in H.
    destruct (masked_add A L (flatten (roll1 (roll0 W 0) 0))) as [A1| |] eqn:E.
    + apply masked_add_stencil in E; try congruence.
      destruct E as (S0 & S1 & V).
      rewrite (IH Lms' A1 Wc HF' ltac:(congruence) ltac:(congruence) H y x Hy Hx).
      rewrite V by congruence. unfold stencil_sum. cbn [fold_right]. ring.
    + exfalso. clear -H. induction obs as [|o2 obs IH2]; cbn [fold_left bind] in H;
        [discriminate | auto].
    + exfalso. clear -H. induction obs as [|o2 obs IH2]; cbn [fold_left bind] in H;
        [discriminate | auto].
Qed.

Section GroupWithoutSpread.
Context {ext : External}.

Lemma assimilate_observations_without_spread self ensemble observations X_f X_f_mean
  X_f_pert HX_f_mean HX_f_pert Ls W N_a ny nx G :
  method self = "SEnKF"%string ->
  all_Ls self = Some Ls ->
  W_loc self = Some W -> N_e_active self = Some N_a -> (2 <= N_a)%nat ->
  a4_shape0 X_f = N_a -> a4_shape1 X_f = 3%nat ->
  a4_shape2 X_f = ny -> a4_shape3 X_f = nx ->
  a4_shape0 X_f_pert = N_a -> a4_shape1 X_f_pert = 3%nat ->
  a4_shape2 X_f_pert = ny -> a4_shape3 X_f_pert = nx ->
  without_spread X_f_pert ->
  forall Lms X_a X_a',
    Forall2 (fun d L =>
               nth_error Ls d = Some L /\
               nth_error (all_xrolls self) d = Some 0%Z /\
               nth_error (all_yrolls self) d = Some 0%Z /\
               mshape0 L = ny /\ mshape1 L = nx /\
               length (true_cells L) = (shape0 W * shape1 W)%nat) G Lms ->
    a4_shape0 X_a = N_a -> a4_shape1 X_a = 3%nat ->
    a4_shape2 X_a = ny -> a4_shape3 X_a = nx ->
    assimilate_observations self ensemble observations X_f X_f_mean X_f_pert
      HX_f_mean HX_f_pert X_a G = Ok X_a' ->
    forall e c y x, (e < N_a)%nat -> (c < 3)%nat -> (y < ny)%nat -> (x < nx)%nat ->
      at4 X_a' e c y x = at4 X_a e c y x + stencil_sum W Lms y x * at4 X_f e c y x.
Proof.
  intros Hmeth HLs HW HNa Htwo F0 F1 F2 F3 P0 P1 P2 P3 Hzero.
  induction G as [|d G IH]; intros Lms X_a X_a' HF A0 A1 A2 A3 H e c y x He Hc Hy Hx;
    inversion HF as [|d' L G' Lms' (HL & Hxr & Hyr & Hm0 & Hm1 & Hcount) HF']; subst;
    cbn [assimilate_observations] in H.
  - injection H as <-. unfold stencil_sum. cbn [fold_right]. ring.
  - apply bind_Ok in H. destruct H as (X1 & H1 & H).
    apply (assimilate_observation_without_spread _ _ _ _ _ _ _ _ _ _ Ls L W
             (a4_shape0 X_f) (a4_shape2 X_f) (a4_shape3 X_f)) in H1;
      try assumption; try reflexivity.
    destruct H1 as [(B0 & B1 & B2 & B3) V].
    rewrite (IH Lms' X1 X_a' HF' B0 B1 B2 B3 H e c y x He Hc Hy Hx).
    rewrite (V e c y x He Hc Hy Hx). unfold stencil_sum. cbn [fold_right]. ring.
Qed.

End GroupWithoutSpread.

Lemma patches_of_group self Ls positions W nx ny G :
  forall obs,
    (forall d, In d G -> patch_without_wrap self Ls positions W nx ny d) ->
    take_rows positions G = Ok obs ->
    exists Lms,
      Forall2 (fun d L =>
                 nth_error Ls d = Some L /\
                 nth_error (all_xrolls self) d = Some 0%Z /\
                 nth_error (all_yrolls self) d = Some 0%Z /\
                 mshape0 L = ny /\ mshape1 L = nx /\
                 length (true_cells L) = (shape0 W * shape1 W)%nat) G Lms /\
      Forall2 (fun o L =>
                 getLocalIndices o (r_factor self)
                   (ens_dx (self_ensemble self)) (ens_dy (self_ensemble self)) nx ny
                   = Ok (L, 0%Z, 0%Z) /\
                 mshape0 L = ny /\ mshape1 L = nx /\
                 length (true_cells L) = (shape0 W * shape1 W)%nat) obs Lms.
Proof.
  induction G as [|d G IH]; intros obs Hall H; cbn [take_rows] in H.
  - injection H as <-. exists []. split; constructor.
  - apply bind_Ok in H. destruct H as (o & Ho & H).
    apply bind_Ok in H. destruct H as (r & Hr & H). injection H as <-.
    destruct (Hall d (or_introl eq_refl))
      as (L & o' & HL & Hpos & Hidx & Hxr & Hyr & Hm0 & Hm1 & Hcount).
    apply getitem_Ok in Ho. rewrite Hpos in Ho. injection Ho as ->.
    destruct (IH r (fun d' Hd' => Hall d' (or_intror Hd')) Hr) as (Lms & HG & HO).
    exists (L :: Lms). split; constructor; auto 10.
Qed.

Section Spreadless.
Context {ext : External}.

(** X27. An ensemble without spread goes through the stochastic analysis
    of a group unchanged wherever the stencils of the group add up to at
    most 1. When the forecast perturbations are zero and the patches of the
    group do not wrap, the analysis gathered over the observations of the
    group is the forecast times the combined weights; the blended state is
    the forecast itself at a cell whose combined weight is at most 1, and
    the forecast times the combined weight at a cell where patches overlap
    to more than 1. *)
Theorem forecast_without_spread_is_kept
  (self : LEnKF) (ensemble : option Ensemble) (observations : list (list R))
  (X_f : array4) (X_f_mean : array3) (X_f_pert : array4)
  (HX_f_mean : array2) (HX_f_pert : array3)
  (G : list nat) (positions obs : list (R * R)) (N_a : nat)
  (W : array2) (Ls : list mask2)
  (X_a X_new : array4) (W_combined : array2)
  (Hmethod : method self = "SEnKF"%string)
  (HNa : N_e_active self = Some N_a) (Htwo : (2 <= N_a)%nat)
  (HLs : all_Ls self = Some Ls)
  (HW : W_loc self = Some W)
  (Hstencil : getLocalWeightShape (r_factor self)
                (ens_dx (self_ensemble self)) (ens_dy (self_ensemble self))
                (a4_shape3 X_f) (a4_shape2 X_f) (scale_w self) = Ok W)
  (Hparticles : a4_shape0 X_f = N_a) (Hvariables : a4_shape1 X_f = 3%nat)
  (Hpert : same_shape4 X_f_pert X_f)
  (Hspread : without_spread X_f_pert)
  (Hpatches : forall d, In d G ->
     patch_without_wrap self Ls positions W (a4_shape3 X_f) (a4_shape2 X_f) d)
  (Hobs : assimilate_observations self ensemble observations X_f X_f_mean X_f_pert
            HX_f_mean HX_f_pert
            (zeros4 (a4_shape0 X_f) (a4_shape1 X_f) (a4_shape2 X_f) (a4_shape3 X_f)) G
          = Ok X_a)
  (Hrows : take_rows positions G = Ok obs)
  (Hweights : getCombinedWeights obs (r_factor self)
                (ens_dx (self_ensemble self)) (ens_dy (self_ensemble self))
                (a4_shape3 X_f) (a4_shape2 X_f) (W_loc self) (scale_w self)
              = Ok W_combined)
  (Hblend : blend (W_forecast_of W_combined) X_f X_a N_a = Ok X_new) :
  forall e i y x,
    (e < N_a)%nat -> (i < 3)%nat -> (y < a4_shape2 X_f)%nat -> (x < a4_shape3 X_f)%nat ->
    at4 X_a e i y x = at2 W_combined y x * at4 X_f e i y x /\
    (at2 W_combined y x <= 1 -> at4 X_new e i y x = at4 X_f e i y x) /\
    (1 <= at2 W_combined y x ->
     at4 X_new e i y x = at2 W_combined y x * at4 X_f e i y x).
Proof.
  destruct Hpert as (P0 & P1 & P2 & P3).
  destruct (patches_of_group self Ls positions W _ _ G obs Hpatches Hrows)
    as (Lms & HG & HO).
  pose proof (getCombinedWeights_frame _ _ _ _ _ _ _ _ _ Hweights) as (W0 & W1 & _).
  pose proof (assimilate_observations_frame _ _ _ _ _ _ _ _ _ _ _ Hobs) as [SA _].
  destruct SA as (_ & _ & S2 & S3). cbn [zeros4 a4_shape2 a4_shape3] in S2, S3.
  apply blend_entries in Hblend; try assumption. destruct Hblend as [_ FN].
  unfold getCombinedWeights in Hweights. rewrite Hstencil in Hweights.
  cbn [bind] in Hweights.
  intros e i y x He Hi Hy Hx.
  pose proof (combine_fold_stencils W _ _ _ _ _ obs Lms
                (np.zeros (a4_shape2 X_f) (a4_shape3 X_f)) W_combined HO
                eq_refl eq_refl Hweights y x Hy Hx) as HWc.
  cbn [np.zeros at2] in HWc. rewrite Rplus_0_l in HWc.
  pose proof (assimilate_observations_without_spread self ensemble observations
                X_f X_f_mean X_f_pert HX_f_mean HX_f_pert Ls W N_a
                (a4_shape2 X_f) (a4_shape3 X_f) G Hmethod HLs HW HNa Htwo
                Hparticles Hvariables eq_refl eq_refl
                ltac:(congruence) ltac:(congruence) P2 P3 Hspread
                Lms
                (zeros4 (a4_shape0 X_f) (a4_shape1 X_f) (a4_shape2 X_f) (a4_shape3 X_f))
                X_a HG Hparticles Hvariables eq_refl eq_refl Hobs
                e i y x He Hi Hy Hx) as HXa.
  cbn [zeros4 at4] in HXa. rewrite Rplus_0_l, <- HWc in HXa.
  split; [exact HXa|].
  rewrite (FN e i y x He Hi Hy Hx), HXa.
  cbn [W_forecast_of W_analysis_of at2].
  split; intros Hle.
  - rewrite Rmax_right by exact Hle. field.
  - rewrite Rmax_left by exact Hle. field. lra.
Qed.

End Spreadless.

Lemma forecast_without_spread_is_kept_witness :
  let X_f := mkArray4 3 3 10 10 (fun e c y x => INR (c + y + x)) in
  without_spread (perturbations X_f (mean_axis0 X_f)) /\
  exists self HX_f_mean HX_f_pert X_a W_combined X_new,
    @assimilate_observations still_water self (Some one_buoy) (observeTrueState one_buoy)
      X_f (mean_axis0 X_f) (perturbations X_f (mean_axis0 X_f)) HX_f_mean HX_f_pert
      (zeros4 3 3 10 10) [0%nat] = Ok X_a /\
    take_rows [(5, 5)] [0%nat] = Ok [(5, 5)] /\
    getCombinedWeights [(5, 5)] (r_factor self) 1 1 10 10 (W_loc self) (scale_w self)
      = Ok W_combined /\
    blend (W_forecast_of W_combined) X_f X_a 3 = Ok X_new /\
    forall e i y x, (e < 3)%nat -> (i < 3)%nat -> (y < 10)%nat -> (x < 10)%nat ->
      at4 X_a e i y x = at2 W_combined y x * INR (i + y + x) /\
      (at2 W_combined y x <= 1 -> at4 X_new e i y x = INR (i + y + x)) /\
      (1 <= at2 W_combined y x ->
       at4 X_new e i y x = at2 W_combined y x * INR (i + y + x)).
Proof.
  intros X_f.
  assert (Hspread : without_spread (perturbations X_f (mean_axis0 X_f))).
  { intros e c y x _ _ _ _. cbn [perturbations mean_axis0 at4 at3 X_f a4_shape0 sum_n].
    replace (INR 3) with 3 by (simpl; lra). field. }
  split; [exact Hspread|].
  destruct one_buoy_prepared_stencil
    as (self & L & W & Hsten & _ & Hens & HNe & HNd & HNa & Hmeth & Hr & Hw & Hpos
        & Hgroups & Hxr & Hyr & HW & HW0 & HW1 & HLs & HL & Hm0 & Hm1 & Hcount).
  destruct (one_buoy_HX self X_f Hens HNd HNa eq_refl eq_refl eq_refl eq_refl)
    as (HXm & HXp & HHX & Hm_0 & Hm_1 & Hp_0 & Hp_1 & Hp_2).
  destruct (@assimilate_observation_returns still_water self (Some one_buoy)
              (observeTrueState one_buoy) X_f (mean_axis0 X_f)
              (perturbations X_f (mean_axis0 X_f)) HXm HXp
              (zeros4 3 3 10 10) 0 [L] L W 3 [5; 5; 0; 0] 10 10)
    as (X_a & HXa & A0 & A1 & A2 & A3);
    try assumption; try reflexivity;
    try (rewrite ?Hxr, ?Hyr, ?Hens, ?HW0, ?HW1, ?HNe; reflexivity);
    try (rewrite ?Hens, ?HNe, ?Hm_0, ?Hp_1; cbn; lia).
  { rewrite Hens. exact eye2_positive_definite. }
  assert (Hobs : @assimilate_observations still_water self (Some one_buoy)
                   (observeTrueState one_buoy) X_f (mean_axis0 X_f)
                   (perturbations X_f (mean_axis0 X_f)) HXm HXp
                   (zeros4 3 3 10 10) [0%nat] = Ok X_a).
  { cbn [assimilate_observations]. rewrite HXa. reflexivity. }
  assert (Ec : ceilZ (0.5 * 1.5) = 1%Z) by (apply ceilZ_eq; simpl; lra).
  assert (H1 : (1 : R) <> 0) by lra.
  destruct (getCombinedWeights_returns [(5, 5)] (r_factor self) 1 10 10 (W_loc self)
              (scale_w self) H1)
    as (Wc & HWc & HWc0 & HWc1); rewrite ?Hr, ?Ec; try lia.
  { constructor; [|constructor]. unfold cell_in_domain. cbn [fst snd].
    rewrite (roundZ_eq (5 / 1) 5) by (simpl; lra). lia. }
  destruct (blend_returns (W_forecast_of Wc) X_f X_a 3 10 10)
    as (X_new & HXn & _); try assumption; try reflexivity.
  exists self, HXm, HXp, X_a, Wc, X_new.
  split; [exact Hobs|]. split; [reflexivity|]. split; [exact HWc|]. split; [exact HXn|].
  apply (@forecast_without_spread_is_kept still_water self (Some one_buoy)
           (observeTrueState one_buoy) X_f (mean_axis0 X_f)
           (perturbations X_f (mean_axis0 X_f)) HXm HXp [0%nat] [(5, 5)] [(5, 5)] 3
           W [L] X_a X_new Wc Hmeth HNa);
    try assumption; try reflexivity.
  - lia.
  - rewrite Hr, Hens, Hw. exact Hsten.
  - repeat split.
  - intros d [<-|[]]. exists L, (5, 5). rewrite Hr, Hens, Hxr, Hyr, HW0, HW1.
    repeat split; assumption || reflexivity.
  - rewrite Hens. exact HWc.
Defined.

